(** * UVaAutoScheduler: the weekday layout engine of [src/algorithm/Graph.ts]

    A shallow embedding of the conflict graph builder, the two interval
    schedulers, the path-depth analysis, the fixed-block detection and the
    per-weekday driver [computeBlockPositions], together with the properties
    the specification states about them.

    Conventions of the embedding.
    - A [ScheduleBlock] object is mutable and shared by reference (the arrays
      [blocks], [neighbors], [occupied], the priority queue all hold
      references to the same objects).  The heap of block objects is a
      [store], a total map from object identities ([nat]) to the current
      fields of the object; arrays of blocks are lists of identities.
    - JavaScript numbers holding minutes, depths and path depths are
      integers and are kept as [Z].  [left] and [width] are IEEE 754
      doubles, which the driver computes as quotients of two such integers:
      the record keeps the exact rational value of the quotient ([Q]), and
      [double] gives the number the code stores, the correctly rounded
      quotient, as a primitive binary64 float.  A statement about [left]
      and [width] as rationals is a statement about the exact quotients;
      where rounding changes the outcome the stored numbers are compared
      through [double].  A quotient by [pathDepth = 0], which the code
      evaluates to NaN or an infinity, has no rational value: [Qofdiv]
      yields 0 there, and the properties that read [left] or [width]
      establish [pathDepth >= 1] first.
    - The recursive traversals carry a fuel argument; the sufficiency lemmas
      show that the fuel the driver passes is always enough on a store whose
      neighbour lists stay inside the weekday.
    - The modules [models/ScheduleBlock] and [./LP] and the package
      [tinyqueue] are imported by [Graph.ts] and are not among the sources.
      What [Graph.ts] uses of the class and of the queue is modelled from
      the specification and marked as such where it is defined.  Of
      [buildGLPKModel] only the calls are recorded, as the list of the
      components submitted to it: the layout described here is the one
      [Graph.ts] writes, before any result of the optimiser is applied. *)

From Stdlib Require Import ZArith QArith List Bool Lia Permutation Sorted
  Arith.
From Stdlib Require PrimFloat.
Import ListNotations.

Local Open Scope Z_scope.

(** ** The block objects *)

Module Block.

(** Modelled from the spec: the class [ScheduleBlock]
    ([models/ScheduleBlock.ts], imported by [Graph.ts]) with the fields
    that [Graph.ts] reads and writes. *)
Record ScheduleBlock : Type := mk {
  startMin  : Z;
  endMin    : Z;
  depth     : Z;
  pathDepth : Z;
  left      : Q;
  width     : Q;
  isFixed   : bool;
  visited   : bool;
  neighbors : list nat;
  idx       : nat
}.

(** Modelled from the spec: a freshly created block carries its interval
    and every layout field at its default ([depth = 0], [left = -1] as the
    "unset" sentinel, [isFixed = false], [visited = false], no neighbours). *)
Definition fresh (s e : Z) : ScheduleBlock :=
  mk s e 0 0 (-1 # 1) (-1 # 1) false false [] 0.

(** Modelled from the spec: [duration], the length of the interval, the
    secondary sort key of the schedulers. *)
Definition duration (b : ScheduleBlock) : Z := endMin b - startMin b.

(** Modelled from the spec: the method [conflict]; two half-open intervals
    overlap iff [a.start < b.end && b.start < a.end]. *)
Definition conflict (a b : ScheduleBlock) : bool :=
  (startMin a <? endMin b) && (startMin b <? endMin a).

Definition set_depth (d : Z) (b : ScheduleBlock) : ScheduleBlock :=
  mk (startMin b) (endMin b) d (pathDepth b) (left b) (width b)
     (isFixed b) (visited b) (neighbors b) (idx b).
Definition set_pathDepth (p : Z) (b : ScheduleBlock) : ScheduleBlock :=
  mk (startMin b) (endMin b) (depth b) p (left b) (width b)
     (isFixed b) (visited b) (neighbors b) (idx b).
Definition set_left (q : Q) (b : ScheduleBlock) : ScheduleBlock :=
  mk (startMin b) (endMin b) (depth b) (pathDepth b) q (width b)
     (isFixed b) (visited b) (neighbors b) (idx b).
Definition set_width (q : Q) (b : ScheduleBlock) : ScheduleBlock :=
  mk (startMin b) (endMin b) (depth b) (pathDepth b) (left b) q
     (isFixed b) (visited b) (neighbors b) (idx b).
Definition set_isFixed (f : bool) (b : ScheduleBlock) : ScheduleBlock :=
  mk (startMin b) (endMin b) (depth b) (pathDepth b) (left b) (width b)
     f (visited b) (neighbors b) (idx b).
Definition set_visited (v : bool) (b : ScheduleBlock) : ScheduleBlock :=
  mk (startMin b) (endMin b) (depth b) (pathDepth b) (left b) (width b)
     (isFixed b) v (neighbors b) (idx b).
Definition push_neighbor (n : nat) (b : ScheduleBlock) : ScheduleBlock :=
  mk (startMin b) (endMin b) (depth b) (pathDepth b) (left b) (width b)
     (isFixed b) (visited b) (neighbors b ++ [n]) (idx b).
Definition set_idx (i : nat) (b : ScheduleBlock) : ScheduleBlock :=
  mk (startMin b) (endMin b) (depth b) (pathDepth b) (left b) (width b)
     (isFixed b) (visited b) (neighbors b) i.

End Block.
Import Block.

(** ** The heap of block objects *)

Definition store : Type := nat -> ScheduleBlock.

(** [upd st i f]: the object [i] is mutated by [f], every other object is
    untouched. *)
Definition upd (st : store) (i : nat) (f : ScheduleBlock -> ScheduleBlock) : store :=
  fun j => if Nat.eqb j i then f (st j) else st j.

(** The store holding the blocks of the list [l] at identities [0 .. length l - 1]
    (positions beyond the list hold an inert fresh block). *)
Definition storeOf (l : list ScheduleBlock) : store :=
  fun i => nth i l (fresh 0 0).

(** ** [Array.prototype.sort] with a comparator

    The sort is stable: elements the comparator does not separate keep their
    relative order. *)

Section Sort.
Variable cmp : nat -> nat -> Z.

Fixpoint insertBy (x : nat) (l : list nat) : list nat :=
  match l with
  | [] => [x]
  | y :: l' => if cmp x y <=? 0 then x :: y :: l' else y :: insertBy x l'
  end.

Definition sortBy (l : list nat) : list nat := fold_right insertBy [] l.
End Sort.

(** ** [constructAdjList] *)

Definition addEdge (bi : nat) (st : store) (bj : nat) : store :=
  if conflict (st bi) (st bj)
  then upd (upd st bj (push_neighbor bi)) bi (push_neighbor bj)
  else st.

Fixpoint constructAdjList (blocks : list nat) (st : store) : store :=
  match blocks with
  | [] => st
  | bi :: rest => constructAdjList rest (fold_left (addEdge bi) rest st)
  end.

(** ** The interval schedulers *)

(** The comparator shared by both schedulers: start time, then duration. *)
Definition byStart (st : store) (b1 b2 : nat) : Z :=
  let diff := startMin (st b1) - startMin (st b2) in
  if diff =? 0 then duration (st b1) - duration (st b2) else diff.

(** *** [intervalScheduling], the quadratic scheduler *)

(** One round of the inner loop over [occupied]; the accumulator pairs
    [idx] with [minRoomIdx] ([None] stands for [idx = -1],
    [minRoomIdx = Infinity]). *)
Definition pickStep (st : store) (block : nat)
    (acc : option (nat * Z)) (k : nat) (prevBlock : nat) : option (nat * Z) :=
  if (endMin (st prevBlock) <=? startMin (st block))
     && match acc with
        | None => true
        | Some (_, minRoomIdx) => depth (st prevBlock) <? minRoomIdx
        end
  then Some (k, depth (st prevBlock))
  else acc.

Fixpoint pickRoom (st : store) (block : nat) (occupied : list nat) (k : nat)
    (acc : option (nat * Z)) : option (nat * Z) :=
  match occupied with
  | [] => acc
  | prevBlock :: rest =>
      pickRoom st block rest (S k) (pickStep st block acc k prevBlock)
  end.

(** [occupied[idx] = block] *)
Fixpoint replaceAt (k : nat) (x : nat) (l : list nat) : list nat :=
  match l, k with
  | [], _ => []
  | _ :: l', O => x :: l'
  | y :: l', S k' => y :: replaceAt k' x l'
  end.

Record greedyState : Type := mkGreedy {
  g_store : store;
  g_occupied : list nat;
  g_numRooms : Z
}.

Definition greedyStep (s : greedyState) (block : nat) : greedyState :=
  let st := g_store s in
  match pickRoom st block (g_occupied s) 0%nat None with
  | None =>
      let numRooms := g_numRooms s + 1 in
      mkGreedy (upd st block (set_depth numRooms))
               (g_occupied s ++ [block]) numRooms
  | Some (k, _) =>
      let d := depth (st (nth k (g_occupied s) block)) in
      mkGreedy (upd st block (set_depth d))
               (replaceAt k block (g_occupied s)) (g_numRooms s)
  end.

(** The result: the store, the array in its new order, the return value. *)
Definition intervalScheduling (st : store) (blocks : list nat)
    : store * list nat * Z :=
  match sortBy (byStart st) blocks with
  | [] => (st, [], 0)
  | b0 :: rest =>
      let s := fold_left greedyStep rest (mkGreedy st [b0] 0) in
      (g_store s, b0 :: rest, g_numRooms s + 1)
  end.

(** *** [intervalScheduling2], the priority-queue scheduler *)

(** The comparator of the queue: end time, then depth. *)
Definition byEnd (st : store) (r1 r2 : nat) : Z :=
  let diff := endMin (st r1) - endMin (st r2) in
  if diff =? 0 then depth (st r1) - depth (st r2) else diff.

(** [PriorityQueue] is the binary min-heap of the package [tinyqueue], which
    is not part of the repository.  It is modelled by what the scheduler
    observes of it: the queue is a bag of references, [peek] yields an
    element that no other element precedes under the comparator, [pop]
    removes that element, [push] adds one.  Elements the comparator cannot
    separate have the same end time and the same depth, so which of them
    the heap would yield makes no difference to the depths the scheduler
    assigns.

    The model reads the comparator on the store as it is when [peek] is
    called; the heap of [tinyqueue] is ordered by the comparisons made when
    its elements were pushed and popped.  The two yield the same element as
    long as no block is written while it is queued.  The scheduler writes
    the depth of a block before it pushes the block, so this holds on every
    array that holds no block twice; on an array that repeats a block the
    block is written again while queued, and the element the heap yields
    need not be the one the comparator puts first. *)
Fixpoint queueMin (st : store) (best : nat) (q : list nat) : nat :=
  match q with
  | [] => best
  | r :: q' => queueMin st (if byEnd st r best <? 0 then r else best) q'
  end.

Definition peek (st : store) (q : list nat) : option nat :=
  match q with
  | [] => None
  | r :: q' => Some (queueMin st r q')
  end.

Fixpoint removeFirst (x : nat) (q : list nat) : list nat :=
  match q with
  | [] => []
  | r :: q' => if Nat.eqb r x then q' else r :: removeFirst x q'
  end.

Definition pop (st : store) (q : list nat) : list nat :=
  match peek st q with
  | None => q
  | Some r => removeFirst r q
  end.

Definition push (x : nat) (q : list nat) : list nat := q ++ [x].

Record heapState : Type := mkHeap {
  h_store : store;
  h_queue : list nat;
  h_numRooms : Z
}.

Definition heapStep (s : heapState) (block : nat) : heapState :=
  let st := h_store s in
  match peek st (h_queue s) with
  | None => s
  | Some prevBlock =>
      if endMin (st prevBlock) >? startMin (st block)
      then
        let numRooms := h_numRooms s + 1 in
        mkHeap (upd st block (set_depth numRooms))
               (push block (h_queue s)) numRooms
      else
        mkHeap (upd st block (set_depth (depth (st prevBlock))))
               (push block (pop st (h_queue s))) (h_numRooms s)
  end.

Definition intervalScheduling2 (st : store) (blocks : list nat)
    : store * list nat * Z :=
  match sortBy (byStart st) blocks with
  | [] => (st, [], 0)
  | b0 :: rest =>
      let s := fold_left heapStep rest (mkHeap st [b0] 0) in
      (h_store s, b0 :: rest, h_numRooms s + 1)
  end.

(** ** The path-depth analysis *)

(** A loop whose body may run out of fuel. *)
Fixpoint foldM {A S : Type} (f : S -> A -> option S) (l : list A) (s : S)
    : option S :=
  match l with
  | [] => Some s
  | a :: l' => match f s a with
               | None => None
               | Some s' => foldM f l' s'
               end
  end.

Definition dfsVisit (rec : store -> nat -> option store) (startDepth : Z)
    (s : store) (adj : nat) : option store :=
  if negb (visited (s adj)) && (depth (s adj) <? startDepth)
  then rec s adj
  else Some s.

Fixpoint depthFirstSearchRec (fuel : nat) (maxDepth : Z) (st : store)
    (start : nat) : option store :=
  match fuel with
  | O => None
  | S fuel' =>
      let st1 := upd (upd st start (set_visited true)) start
                     (set_pathDepth maxDepth) in
      let startDepth := depth (st1 start) in
      foldM (dfsVisit (depthFirstSearchRec fuel' maxDepth) startDepth)
            (neighbors (st1 start)) st1
  end.

Definition samePath (startDepth pDepth : Z) (adj : ScheduleBlock) : bool :=
  (startDepth - depth adj =? 1) && (pDepth =? pathDepth adj).

Definition fixedVisit (rec : store -> nat -> option (store * bool))
    (startDepth pDepth : Z) (acc : store * bool) (adj : nat)
    : option (store * bool) :=
  let (s, flag) := acc in
  let same := samePath startDepth pDepth (s adj) in
  if visited (s adj)
  then Some (s, (isFixed (s adj) && same) || flag)
  else if same
       then match rec s adj with
            | None => None
            | Some (s', r) => Some (s', r || flag)
            end
       else Some (s, flag).

Fixpoint DFSFindFixed (fuel : nat) (st : store) (start : nat)
    : option (store * bool) :=
  match fuel with
  | O => None
  | S fuel' =>
      let st1 := upd st start (set_visited true) in
      let startDepth := depth (st1 start) in
      if startDepth =? 0
      then Some (upd st1 start (set_isFixed true), true)
      else
        let pDepth := pathDepth (st1 start) in
        match foldM (fixedVisit (DFSFindFixed fuel') startDepth pDepth)
                    (neighbors (st1 start)) (st1, false) with
        | None => None
        | Some (s, flag) => Some (upd s start (set_isFixed flag), flag)
        end
  end.

(** The comparator of [calculateMaxDepth]: descending depth. *)
Definition byDepthDesc (st : store) (v1 v2 : nat) : Z :=
  depth (st v2) - depth (st v1).

Definition pathRoot (fuel : nat) (s : store) (node : nat) : option store :=
  if negb (visited (s node))
  then depthFirstSearchRec fuel (depth (s node) + 1) s node
  else Some s.

Definition clearVisited (s : store) (node : nat) : store :=
  upd s node (set_visited false).

(** [node.neighbors.every(v => v.depth < node.depth)] *)
Definition isLocalTop (s : store) (node : nat) : bool :=
  forallb (fun v => depth (s v) <? depth (s node)) (neighbors (s node)).

Definition fixedRoot (fuel : nat) (s : store) (node : nat) : option store :=
  if negb (visited (s node)) && isLocalTop s node
  then option_map fst (DFSFindFixed fuel s node)
  else Some s.

Definition calculateMaxDepth (st : store) (blocks : list nat)
    : option (store * list nat) :=
  let sorted := sortBy (byDepthDesc st) blocks in
  let fuel := length sorted in
  match foldM (pathRoot fuel) sorted st with
  | None => None
  | Some st1 =>
      let st2 := fold_left clearVisited sorted st1 in
      match foldM (fixedRoot fuel) sorted st2 with
      | None => None
      | Some st3 => Some (st3, sorted)
      end
  end.

(** ** [BFS] and the weekday driver *)

Definition bfsVisit (acc : store * list nat) (node : nat) : store * list nat :=
  let (s, componentNodes) := acc in
  if negb (visited (s node)) && negb (isFixed (s node))
  then (upd s node (set_visited true), componentNodes ++ [node])
  else acc.

Fixpoint bfsLoop (fuel : nat) (s : store) (componentNodes : list nat)
    (qIdx : nat) : option (store * list nat) :=
  match fuel with
  | O => None
  | S fuel' =>
      match nth_error componentNodes qIdx with
      | None => Some (s, componentNodes)
      | Some cur =>
          let (s', comp') :=
            fold_left bfsVisit (neighbors (s cur)) (s, componentNodes) in
          bfsLoop fuel' s' comp' (S qIdx)
      end
  end.

Definition BFS (fuel : nat) (s : store) (start : nat)
    : option (store * list nat) :=
  bfsLoop fuel (upd s start (set_visited true)) [start] 0%nat.

(** [blocks.forEach((b, i) => (b.idx = i))] *)
Fixpoint setIdx (i : nat) (blocks : list nat) (st : store) : store :=
  match blocks with
  | [] => st
  | b :: rest => setIdx (S i) rest (upd st b (set_idx i))
  end.

(** The exact value of the quotient [a / b] of two integer-valued numbers.
    The driver divides by [pathDepth], which the first traversal has set to
    at least 1 on every block that entered it unvisited; for [b = 0], where
    the code obtains NaN or an infinity, the value is 0 and stands for
    nothing the code computes. *)
Definition Qofdiv (a b : Z) : Q := (inject_Z a / inject_Z b)%Q.

(** The number (IEEE 754 binary64) that holds the integer [z]; exact up to
    [2^53] in absolute value, the range in which a number holds every
    integer. *)
Fixpoint numberOfPos (p : positive) : PrimFloat.float :=
  match p with
  | xH => PrimFloat.one
  | xO p' => PrimFloat.mul PrimFloat.two (numberOfPos p')
  | xI p' => PrimFloat.add (PrimFloat.mul PrimFloat.two (numberOfPos p'))
                           PrimFloat.one
  end.

Definition number (z : Z) : PrimFloat.float :=
  match z with
  | Z0 => PrimFloat.zero
  | Zpos p => numberOfPos p
  | Zneg p => PrimFloat.opp (numberOfPos p)
  end.

(** The number the code stores for a quotient whose exact value is [q]:
    the division of two numbers is correctly rounded, so it is the number
    obtained by dividing the numerator by the denominator.  For [left] and
    [width] as the driver writes them this is [depth / pathDepth] and
    [1 / pathDepth] evaluated on numbers (lines 202 and 203), and [0] and
    [1] on a weekday of at most one column. *)
Definition double (q : Q) : PrimFloat.float :=
  PrimFloat.div (number (Qnum q)) (number (Zpos (Qden q))).

Definition setFull (s : store) (node : nat) : store :=
  upd (upd s node (set_left 0%Q)) node (set_width 1%Q).

Definition setHeuristic (s : store) (block : nat) : store :=
  let s1 := upd s block
              (set_left (Qofdiv (depth (s block)) (pathDepth (s block)))) in
  upd s1 block (set_width (Qofdiv 1 (pathDepth (s1 block)))).

(** The body of the component loop; [buildGLPKModel] (module [./LP], not
    among the sources) receives each component, the components are
    collected in the order they are submitted. *)
Definition componentRoot (fuel : nat) (acc : store * list (list nat))
    (b : nat) : option (store * list (list nat)) :=
  let (s, submitted) := acc in
  if negb (visited (s b)) && negb (isFixed (s b))
  then match BFS fuel s b with
       | None => None
       | Some (s', component) => Some (s', submitted ++ [component])
       end
  else Some acc.

(** The result of laying out one weekday. *)
Record dayResult : Type := mkDay {
  d_store : store;
  d_blocks : list nat;           (* the array in its final order *)
  d_components : list (list nat) (* the arguments of [buildGLPKModel] *)
}.

(** The body of the loop over [days] in [computeBlockPositions]. *)
Definition layoutDay (st : store) (blocks : list nat) : option dayResult :=
  let st0 := setIdx 0 blocks st in
  let st1 := constructAdjList blocks st0 in
  let '(st2, blocks2, total) := intervalScheduling2 st1 blocks in
  if total <=? 1
  then Some (mkDay (fold_left setFull blocks2 st2) blocks2 [])
  else
    match calculateMaxDepth st2 blocks2 with
    | None => None
    | Some (st3, blocks3) =>
        let st4 := fold_left setHeuristic blocks3 st3 in
        let st5 := fold_left clearVisited blocks3 st4 in
        match foldM (componentRoot (S (length blocks3))) blocks3 (st5, []) with
        | None => None
        | Some (st6, comps) => Some (mkDay st6 blocks3 comps)
        end
    end.


(** * Vocabulary of the specification *)

(** Every mutation of [Graph.ts] leaves the interval of a block alone. *)
Definition keepsTimes (f : ScheduleBlock -> ScheduleBlock) : Prop :=
  forall b, startMin (f b) = startMin b /\ endMin (f b) = endMin b.

Definition sameTimes (st st' : store) : Prop :=
  forall i, startMin (st' i) = startMin (st i) /\ endMin (st' i) = endMin (st i).

(** The invariant of the data model: [startMinute < endMinute]. *)
Definition wellFormed (st : store) (blocks : list nat) : Prop :=
  forall b, In b blocks -> startMin (st b) < endMin (st b).

(** The blocks enter with [depth] at its default. *)
Definition freshDepth (st : store) (blocks : list nat) : Prop :=
  forall b, In b blocks -> depth (st b) = 0.

(** Block [b] is running at instant [t]. *)
Definition active (st : store) (t : Z) (b : nat) : bool :=
  (startMin (st b) <=? t) && (t <? endMin (st b)).

(** The number of blocks running at instant [t]. *)
Definition countActive (st : store) (blocks : list nat) (t : Z) : nat :=
  length (filter (active st t) blocks).

(** No two conflicting blocks share a depth. *)
Definition properDepths (st : store) (blocks : list nat) : Prop :=
  forall a b, In a blocks -> In b blocks -> a <> b ->
    conflict (st a) (st b) = true -> depth (st a) <> depth (st b).

(** [st'] differs from [st] at most in the [depth] of the blocks of [l]. *)
Definition onlyDepth (l : list nat) (st st' : store) : Prop :=
  forall i, st' i = set_depth (depth (st' i)) (st i) /\
            (~ In i l -> st' i = st i).

(** What one round of either scheduler does to the rooms: [reps] holds the
    latest block of every room opened so far, [n] is [numRooms].  Either
    every room is still running when [b] starts and a room is opened for
    [b], or [b] takes over a room whose latest block has ended. *)
Inductive roomStep (st : store) (reps : list nat) (n : Z) (b : nat)
    : store -> list nat -> Z -> Prop :=
| room_new reps' :
    (forall r, In r reps -> startMin (st b) < endMin (st r)) ->
    Permutation reps' (b :: reps) ->
    roomStep st reps n b (upd st b (set_depth (n + 1))) reps' (n + 1)
| room_reuse r others reps' :
    endMin (st r) <= startMin (st b) ->
    Permutation reps (r :: others) ->
    Permutation reps' (b :: others) ->
    roomStep st reps n b (upd st b (set_depth (depth (st r)))) reps' n.

(** The invariant of the rooms after the blocks [P] have been placed. *)
Record RoomInv (P : list nat) (st : store) (reps : list nat) (n : Z)
    : Prop := mkRoomInv {
  ri_nodup : NoDup reps;
  ri_incl : incl reps P;
  ri_len : Z.of_nat (length reps) = n + 1;
  ri_inj : NoDup (map (fun r => depth (st r)) reps);
  ri_range : forall r, In r reps -> 0 <= depth (st r) <= n;
  ri_rep : forall p, In p P ->
             exists r, In r reps /\ depth (st r) = depth (st p) /\
                       endMin (st p) <= endMin (st r);
  ri_proper : properDepths st P;
  ri_clique : exists t, n + 1 <= Z.of_nat (countActive st P t);
  ri_used : forall d, 0 <= d <= n -> exists p, In p P /\ depth (st p) = d
}.

(** The number of rooms still running at instant [t]. *)
Definition busyRooms (st : store) (t : Z) (reps : list nat) : nat :=
  length (filter (fun r => t <? endMin (st r)) reps).

(** A run of rounds over the blocks of a list, in order. *)
Inductive roomRun : store -> list nat -> Z -> list nat ->
                    store -> list nat -> Z -> Prop :=
| run_nil st reps n : roomRun st reps n [] st reps n
| run_cons st reps n b st1 reps1 n1 rest st2 reps2 n2 :
    roomStep st reps n b st1 reps1 n1 ->
    roomRun st1 reps1 n1 rest st2 reps2 n2 ->
    roomRun st reps n (b :: rest) st2 reps2 n2.

(** The accumulator of the inner loop of [intervalScheduling] after the
    rooms [seen] have been inspected for block [b]. *)
Definition pickOK (st : store) (b : nat) (seen : list nat)
    (acc : option (nat * Z)) : Prop :=
  match acc with
  | None => forall r, In r seen -> startMin (st b) < endMin (st r)
  | Some (k, m) =>
      exists r, nth_error seen k = Some r /\
                endMin (st r) <= startMin (st b) /\
                depth (st r) = m /\
                forall r', In r' seen -> endMin (st r') <= startMin (st b) ->
                           m <= depth (st r')
  end.

(** The number of distinct [depth] values carried by the blocks. *)
Definition distinctDepths (st : store) (blocks : list nat) : nat :=
  length (nodup Z.eq_dec (map (fun b => depth (st b)) blocks)).

(** The store, the sorted array and the return value of a scheduler. *)
Definition storeAfter (r : store * list nat * Z) : store := fst (fst r).
Definition arrayAfter (r : store * list nat * Z) : list nat := snd (fst r).
Definition columnsOf (r : store * list nat * Z) : Z := snd r.

(** [m] is the greatest number of blocks running at one instant. *)
Definition maxActive (st : store) (blocks : list nat) (m : Z) : Prop :=
  (exists t, Z.of_nat (countActive st blocks t) = m) /\
  (forall t, Z.of_nat (countActive st blocks t) <= m).

(** What the specification asks of a scheduler run [r] on [blocks]. *)
Definition properAndMinimal (st : store) (blocks : list nat)
    (r : store * list nat * Z) : Prop :=
  properDepths (storeAfter r) blocks /\
  Z.of_nat (distinctDepths (storeAfter r) blocks) = columnsOf r /\
  maxActive st blocks (columnsOf r).

(** ** Sample weekdays *)

(** Two overlapping blocks, the earlier one carrying the depth 1 that an
    earlier pass left on it. *)
Definition staleFirst : store :=
  storeOf [set_depth 1 (fresh 0 10); fresh 5 15].

(** Three blocks, the third starting when the first has ended. *)
Definition threeBlocks : store :=
  storeOf [fresh 0 10; fresh 0 20; fresh 10 30].

(** ** The conflict graph *)

Definition inb (b : nat) (l : list nat) : bool := existsb (Nat.eqb b) l.

(** [blk] with the references [l] pushed onto its [neighbors]. *)
Definition addNeighbors (l : list nat) (blk : ScheduleBlock) : ScheduleBlock :=
  mk (startMin blk) (endMin blk) (depth blk) (pathDepth blk) (left blk)
     (width blk) (isFixed blk) (visited blk) (neighbors blk ++ l) (idx blk).

(** The blocks of the array that conflict with [b], in array order. *)
Definition conflictsOf (st : store) (blocks : list nat) (b : nat) : list nat :=
  filter (fun c => negb (Nat.eqb c b) && conflict (st b) (st c)) blocks.

(** What [constructAdjList] pushes onto the neighbours of [b]. *)
Definition newNeighbors (st : store) (blocks : list nat) (b : nat) : list nat :=
  if inb b blocks then conflictsOf st blocks b else [].

(** ** The traversals *)

(** What the first traversal does to a block it reaches. *)
Definition markPath (maxDepth : Z) (b : ScheduleBlock) : ScheduleBlock :=
  set_pathDepth maxDepth (set_visited true b).

(** [st'] arises from [st] by first-traversal visits: a block is either
    untouched or was unvisited and is now marked with some path depth. *)
Definition pathStep (st st' : store) : Prop :=
  forall i, st' i = st i \/
            (visited (st i) = false /\ exists m, st' i = markPath m (st i)).

(** Every neighbour of [x] at a lower depth has been visited. *)
Definition closedAt (st : store) (x : nat) : Prop :=
  forall w, In w (neighbors (st x)) -> depth (st w) < depth (st x) ->
            visited (st w) = true.

(** The blocks of [U] still unvisited. *)
Definition unvisited (st : store) (U : list nat) : list nat :=
  filter (fun i => negb (visited (st i))) U.

(** The neighbour lists of the blocks of [U] stay inside [U]. *)
Definition closedIn (U : list nat) (st : store) : Prop :=
  forall x w, In x U -> In w (neighbors (st x)) -> In w U.

(** What the second traversal does to a block it reaches. *)
Definition markFixed (f : bool) (b : ScheduleBlock) : ScheduleBlock :=
  set_isFixed f (set_visited true b).

(** [st'] arises from [st] by second-traversal visits. *)
Definition fixStep (st st' : store) : Prop :=
  forall i, st' i = st i \/
            (visited (st i) = false /\ exists f, st' i = markFixed f (st i)).

(** Two stores with the same conflict graph and column assignment: they
    differ at most in [pathDepth], [isFixed] and [visited]. *)
Definition sameGraph (st st' : store) : Prop :=
  forall i,
    startMin (st' i) = startMin (st i) /\ endMin (st' i) = endMin (st i) /\
    depth (st' i) = depth (st i) /\ neighbors (st' i) = neighbors (st i) /\
    left (st' i) = left (st i) /\ width (st' i) = width (st i) /\
    idx (st' i) = idx (st i).

(** The invariant of the loop over the roots of the first traversal:
    every visited block of the weekday has its lower neighbours visited,
    and its path depth exceeds its own depth, reaches the depth of every
    root still to come, and does not exceed the path depth of its lower
    neighbours. *)
Definition pathInv (U : list nat) (s : store) (todo : list nat) : Prop :=
  forall x, In x U -> visited (s x) = true ->
    closedAt s x /\
    depth (s x) + 1 <= pathDepth (s x) /\
    (forall r, In r todo -> depth (s r) + 1 <= pathDepth (s x)) /\
    (forall w, In w (neighbors (s x)) -> depth (s w) < depth (s x) ->
               pathDepth (s x) <= pathDepth (s w)).

(** [st'] arises from [st] by marking blocks visited, as [BFS] does. *)
Definition visStep (st st' : store) : Prop :=
  forall i, st' i = st i \/
            (visited (st i) = false /\ st' i = set_visited true (st i)).

(** ** The weekday driver *)

(** The store after [blocks.forEach] and [constructAdjList]. *)
Definition graphOf (st : store) (blocks : list nat) : store :=
  constructAdjList blocks (setIdx 0 blocks st).

(** The outcome of the call of [intervalScheduling2] in the driver. *)
Definition scheduleOf (st : store) (blocks : list nat) : store * list nat * Z :=
  intervalScheduling2 (graphOf st blocks) blocks.

(** The layout written when the scheduler needs at most one column. *)
Definition full (blk : ScheduleBlock) : ScheduleBlock :=
  set_width 1%Q (set_left 0%Q blk).

(** The layout written from [depth] and [pathDepth]. *)
Definition heuristic (blk : ScheduleBlock) : ScheduleBlock :=
  set_width (Qofdiv 1 (pathDepth blk))
            (set_left (Qofdiv (depth blk) (pathDepth blk)) blk).

(** Every layout field at its default. *)
Definition freshBlocks (st : store) (blocks : list nat) : Prop :=
  forall b, In b blocks -> st b = fresh (startMin (st b)) (endMin (st b)).

(** The horizontal ranges of two blocks do not overlap when their ends
    are taken as exact quotients: the range of a block runs from
    [depth / pathDepth] to [(depth + 1) / pathDepth]. *)
Definition exactlyApart (a b : ScheduleBlock) : Prop :=
  (Qofdiv (depth a + 1) (pathDepth a) <= Qofdiv (depth b) (pathDepth b))%Q \/
  (Qofdiv (depth b + 1) (pathDepth b) <= Qofdiv (depth a) (pathDepth a))%Q.

(** The horizontal ranges [[left, left + width)] of two blocks overlap as
    the numbers the code stores: each begins before the other ends, the
    ends being the sums [left + width] evaluated on numbers. *)
Definition rangesOverlap (a b : ScheduleBlock) : bool :=
  PrimFloat.ltb (double (left a))
                (PrimFloat.add (double (left b)) (double (width b)))
  && PrimFloat.ltb (double (left b))
                   (PrimFloat.add (double (left a)) (double (width a))).

(** Scenario 3 of the specification: two overlapping blocks. *)
Definition twoOverlapping : store :=
  storeOf [fresh 540 600; fresh 570 630].

(** A single block that an earlier pass left at depth 3. *)
Definition staleSingle : store :=
  storeOf [set_depth 3 (fresh 540 600)].

(** Scenario 2 of the specification: two blocks that touch but do not
    overlap. *)
Definition twoTouching : store :=
  storeOf [fresh 540 600; fresh 600 660].

(** No two blocks of the list conflict. *)
Definition conflictFree (st : store) (blocks : list nat) : Prop :=
  forall a b, In a blocks -> In b blocks -> a <> b ->
    conflict (st a) (st b) = false.

(** ** Fixed blocks *)

(** The rule the second traversal applies to a block it reaches: the block
    sits at depth 0, or one of its neighbours exactly one level lower with
    the same path depth is fixed. *)
Definition fixedRule (st : store) (x : nat) : Prop :=
  depth (st x) = 0 \/
  exists u, In u (neighbors (st x)) /\
            samePath (depth (st x)) (pathDepth (st x)) (st u) = true /\
            isFixed (st u) = true.

(** The reading of the specification: the block sits at depth 0, or every
    neighbour exactly one level lower with the same path depth is fixed. *)
Definition fixedRuleEvery (st : store) (x : nat) : Prop :=
  depth (st x) = 0 \/
  forall u, In u (neighbors (st x)) ->
            samePath (depth (st x)) (pathDepth (st x)) (st u) = true ->
            isFixed (st u) = true.

(** Block [x] has been left by the second traversal; [stk] holds the
    blocks entered and not yet left. *)
Definition settled (st : store) (stk : list nat) (x : nat) : Prop :=
  (isFixed (st x) = true <-> fixedRule st x) /\
  (depth (st x) <> 0 ->
   forall u, In u (neighbors (st x)) ->
             samePath (depth (st x)) (pathDepth (st x)) (st u) = true ->
             visited (st u) = true /\ ~ In u stk).

Definition fixInv (U : list nat) (stk : list nat) (st : store) : Prop :=
  forall x, In x U -> visited (st x) = true -> ~ In x stk -> settled st stk x.

(** Five blocks: three that start together in columns 0, 1, 2, a fourth
    that takes over column 0, and a fifth that takes over column 1 while
    only the block in column 2 is still running. *)
Definition fiveBlocks : store :=
  storeOf [fresh 0 10; fresh 0 20; fresh 0 100; fresh 10 30; fresh 30 50].

(** The blocks [l] as they stand in the store. *)
Definition snapshot (l : list nat) (st : store) : list ScheduleBlock := map st l.

(** Two blocks over the same interval. *)
Definition twoTwins : store :=
  storeOf [fresh 540 660; fresh 540 660].

(** The [visited] flags reset, as a caller would between two passes. *)
Definition resetVisited (blocks : list nat) (st : store) : store :=
  fold_left clearVisited blocks st.

(** ** What the traversals and the schedulers achieve *)

(** The outcome of either scheduler on fresh, well-formed blocks. *)
Record Scheduled (st : store) (blocks : list nat) (st' : store) (total : Z)
    : Prop := mkScheduled {
  sch_proper : properDepths st' blocks;
  sch_range : forall b, In b blocks -> 0 <= depth (st' b) < total;
  sch_used : forall d, 0 <= d < total ->
               exists b, In b blocks /\ depth (st' b) = d;
  sch_reached : exists t, Z.of_nat (countActive st blocks t) = total;
  sch_bound : forall t, Z.of_nat (countActive st blocks t) <= total;
  sch_frame : onlyDepth blocks st st'
}.

(** What a call of the first traversal on an unvisited [start] achieves:
    the blocks it newly visits carry [maxDepth], lie no deeper than [start]
    and have all their lower neighbours visited. *)
Definition dfsPost (maxDepth : Z) (st : store) (start : nat) (st' : store)
    : Prop :=
  pathStep st st' /\ visited (st' start) = true /\
  forall x, visited (st x) = false -> visited (st' x) = true ->
            pathDepth (st' x) = maxDepth /\
            depth (st x) <= depth (st start) /\
            closedAt st' x.

(** Two stores that differ at most in [isFixed], and in [visited] turned
    on. *)
Definition keepsPaths (st st' : store) : Prop :=
  forall i, depth (st' i) = depth (st i) /\
            pathDepth (st' i) = pathDepth (st i) /\
            neighbors (st' i) = neighbors (st i) /\
            (visited (st i) = true -> visited (st' i) = true).

(** What a call of the second traversal on an unvisited [start] achieves. *)
Definition fixPost (U stk : list nat) (s : store) (a : nat)
    (s1 : store) (r : bool) : Prop :=
  fixStep s s1 /\ visited (s1 a) = true /\ fixInv U stk s1 /\
  r = isFixed (s1 a).

(** ** Two runs side by side *)

(** On the weekday [U] the store [s'] carries the depths and [visited]
    flags of [s], and each neighbour list of [s] followed by entries that
    already occur in it. *)
Definition extends (U : list nat) (s s' : store) : Prop :=
  forall i, In i U ->
    depth (s' i) = depth (s i) /\ visited (s' i) = visited (s i) /\
    exists e, neighbors (s' i) = neighbors (s i) ++ e /\
              incl e (neighbors (s i)).

(** The relation kept by the first traversal: visited blocks agree in
    [pathDepth]. *)
Definition pathRel (U : list nat) (s s' : store) : Prop :=
  extends U s s' /\
  forall i, In i U -> visited (s i) = true -> pathDepth (s' i) = pathDepth (s i).

(** The relation kept by the second traversal: blocks agree in [pathDepth],
    and in [isFixed] once the traversal has left them. *)
Definition fixRel (U stk : list nat) (s s' : store) : Prop :=
  extends U s s' /\
  (forall i, In i U -> pathDepth (s' i) = pathDepth (s i)) /\
  forall i, In i U -> visited (s i) = true -> ~ In i stk ->
            isFixed (s' i) = isFixed (s i).

(** Two states of [intervalScheduling2] with the same queue and room
    count, whose stores agree on the times of every block and on the depth
    of the blocks [P] handled so far. *)
Definition heapAgree (P : list nat) (s s' : heapState) : Prop :=
  h_queue s' = h_queue s /\ h_numRooms s' = h_numRooms s /\
  h_queue s <> [] /\ incl (h_queue s) P /\
  sameTimes (h_store s) (h_store s') /\
  forall x, In x P -> depth (h_store s' x) = depth (h_store s x).

(** ** Further sample weekdays *)

(** Six blocks: four that run together from minute 2, and two that start
    at minute 8, when only the longest of the four is still running. *)
Definition sixBlocks : store :=
  storeOf [fresh 2 8; fresh 2 10; fresh 1 7; fresh 2 6; fresh 8 9; fresh 8 10].

(** Five blocks that run together. *)
Definition fiveTogether : store :=
  storeOf [fresh 0 10; fresh 0 10; fresh 0 10; fresh 0 10; fresh 0 10].

(** The two overlapping blocks, entering with [visited] set. *)
Definition twoVisited : store :=
  storeOf [set_visited true (fresh 540 600); set_visited true (fresh 570 630)].

(** The two overlapping blocks, the earlier one entering with depth -1. *)
Definition negativeFirst : store :=
  storeOf [set_depth (-1) (fresh 540 600); fresh 570 630].

(** * Further vocabulary *)

(** The order the schedulers sort by: start time, then duration. *)
Definition startThenDuration (st : store) (x y : nat) : Prop :=
  startMin (st x) < startMin (st y) \/
  (startMin (st x) = startMin (st y) /\ duration (st x) <= duration (st y)).

(** The order of the priority queue: end time, then depth. *)
Definition endThenDepth (st : store) (x y : nat) : Prop :=
  endMin (st x) < endMin (st y) \/
  (endMin (st x) = endMin (st y) /\ depth (st x) <= depth (st y)).

(** The depths of the blocks [P] placed so far fill the range from 0 to
    [n]; the latest blocks of the rooms are among them. *)
Definition depthsFill (P : list nat) (st : store) (reps : list nat) (n : Z)
    : Prop :=
  0 <= n /\ incl reps P /\
  (forall p, In p P -> 0 <= depth (st p) <= n) /\
  (forall d, 0 <= d <= n -> exists p, In p P /\ depth (st p) = d).

(** [st'] differs from [st] at most in entries pushed onto the neighbour
    lists of the blocks of [l]. *)
Definition onlyNeighbors (l : list nat) (st st' : store) : Prop :=
  forall i, (exists e, st' i = addNeighbors e (st i)) /\
            (~ In i l -> st' i = st i).

(** [x] is reached from [r] along conflicts of strictly decreasing depth. *)
Inductive descends (st : store) (r : nat) : nat -> Prop :=
| desc_here : descends st r r
| desc_down w x :
    descends st r w -> In x (neighbors (st w)) ->
    depth (st x) < depth (st w) -> descends st r x.

(** The invariant of the roots of the first traversal about where path
    depths come from: a block visited since [s0] carries the depth of a
    block it is reached from, plus one. *)
Definition originInv (U : list nat) (s0 s : store) : Prop :=
  forall x, visited (s x) = true ->
    visited (s0 x) = true \/
    exists r, In r U /\ descends s0 r x /\ pathDepth (s x) = depth (s0 r) + 1.

(** A chain of fixed blocks leads from [x] down to depth 0: each block of
    the chain lists the next, which lies one level lower and has the same
    path depth. *)
Inductive fixedChain (st : store) : nat -> Prop :=
| chain_bottom x :
    isFixed (st x) = true -> depth (st x) = 0 -> fixedChain st x
| chain_link x u :
    isFixed (st x) = true -> In u (neighbors (st x)) ->
    depth (st x) - depth (st u) = 1 ->
    pathDepth (st u) = pathDepth (st x) ->
    fixedChain st u -> fixedChain st x.

(** [x] is reached from [start] through blocks that are neither visited
    nor fixed: what [BFS] explores. *)
Inductive reachable (st : store) (start : nat) : nat -> Prop :=
| reach_start : reachable st start start
| reach_next y x :
    reachable st start y -> In x (neighbors (st y)) ->
    visited (st x) = false -> isFixed (st x) = false ->
    reachable st start x.

(** [x] is joined to [b] by a chain of neighbours that are not fixed. *)
Inductive joined (st : store) (b : nat) : nat -> Prop :=
| join_here : joined st b b
| join_next y x :
    joined st b y -> In x (neighbors (st y)) -> isFixed (st x) = false ->
    joined st b x.

(** The store [s0] with the blocks of [comp] marked visited. *)
Definition marked (s0 : store) (comp : list nat) : store :=
  fun i => if inb i comp then set_visited true (s0 i) else s0 i.

(** The invariant of the queue of [BFS]: the component holds distinct
    blocks reached from [start], and the store is the initial one with
    these blocks marked. *)
Definition bfsInv (s0 : store) (start : nat) (s : store) (comp : list nat)
    : Prop :=
  NoDup comp /\ (forall i, s i = marked s0 comp i) /\
  (forall x, In x comp -> reachable s0 start x).

(** The blocks at the positions below [qIdx] have had their neighbours
    inspected: each neighbour that is not fixed is in the component or
    was visited beforehand. *)
Definition bfsDone (s0 : store) (comp : list nat) (qIdx : nat) : Prop :=
  forall k x, (k < qIdx)%nat -> nth_error comp k = Some x ->
    forall w, In w (neighbors (s0 x)) -> isFixed (s0 w) = false ->
              In w comp \/ visited (s0 w) = true.

(** Every neighbour relation among the blocks of [U] goes both ways. *)
Definition symmetricIn (U : list nat) (st : store) : Prop :=
  forall x w, In x U -> In w (neighbors (st x)) -> In x (neighbors (st w)).

(** The invariant of the loop that hands the components over: they are
    pairwise disjoint sets of blocks of [U] that are not fixed, closed
    under neighbours that are not fixed, each joined to its first block,
    and the store is the initial one with their blocks marked. *)
Definition compsInv (U : list nat) (s0 s : store) (comps : list (list nat))
    : Prop :=
  NoDup (concat comps) /\ (forall i, s i = marked s0 (concat comps) i) /\
  (forall x, In x (concat comps) -> In x U /\ isFixed (s0 x) = false) /\
  (forall c x w, In c comps -> In x c -> In w (neighbors (s0 x)) ->
                 isFixed (s0 w) = false -> In w c) /\
  (forall c, In c comps ->
     exists b, hd_error c = Some b /\ forall x, In x c -> joined s0 b x).

(** [s'] agrees with [s] on every block outside [U]. *)
Definition sameOutside (U : list nat) (s s' : store) : Prop :=
  forall i, ~ In i U -> s' i = s i.

(** * [computeBlockPositions]: the loop over the weekdays *)

(** The outcome of [computeBlockPositions]: the blocks, the arrays of the
    weekdays in their final order, and the components for which
    [buildGLPKModel] was called, in the order of the calls (the promises
    awaited at the end). *)
Record weekResult : Type := mkWeek {
  w_store : store;
  w_days : list (list nat);
  w_submitted : list (list nat)
}.

Fixpoint computeBlockPositions (st : store) (days : list (list nat))
    : option weekResult :=
  match days with
  | [] => Some (mkWeek st [] [])
  | blocks :: rest =>
      match layoutDay st blocks with
      | None => None
      | Some r =>
          match computeBlockPositions (d_store r) rest with
          | None => None
          | Some w =>
              Some (mkWeek (w_store w) (d_blocks r :: w_days w)
                           (d_components r ++ w_submitted w))
          end
      end
  end.

(** What a run over the weekdays [days] from the store [s] achieves: the
    run returns [w]; every weekday [blocks] was laid out by a pass that
    found its blocks as they are in [s] and whose outcome they still
    carry. *)
Definition weekPost (s : store) (days : list (list nat)) (w : weekResult)
    : Prop :=
  sameOutside (concat days) s (w_store w) /\
  sameTimes s (w_store w) /\
  Forall2 (fun a b => Permutation a b) (w_days w) days /\
  forall blocks, In blocks days ->
    exists sk r,
      layoutDay sk blocks = Some r /\
      sameTimes s sk /\
      (forall b, In b blocks -> sk b = s b) /\
      (forall b, In b blocks -> w_store w b = d_store r b).

(** *** First fit *)

(** Every block of [P] conflicts, in each column to the left of its own,
    with a block of [P] that starts no later than it does. *)
Definition firstFit (P : list nat) (st : store) : Prop :=
  forall b, In b P -> forall d, 0 <= d < depth (st b) ->
    exists a, In a P /\ depth (st a) = d /\
              conflict (st a) (st b) = true /\
              startMin (st a) <= startMin (st b).

(** *** What a single traversal reaches *)

(** [x] is reached from [r] along conflicts of strictly decreasing depth
    through blocks that are not yet visited: what one call of
    [depthFirstSearchRec] on [r] explores. *)
Inductive descendsFresh (st : store) (r : nat) : nat -> Prop :=
| fresh_here : descendsFresh st r r
| fresh_down w x :
    descendsFresh st r w -> In x (neighbors (st w)) ->
    depth (st x) < depth (st w) -> visited (st x) = false ->
    descendsFresh st r x.

(** [x] is reached from [r] by steps from a block above column 0 to a
    neighbour exactly one column lower with the same path depth, through
    blocks that are not yet visited: what one call of [DFSFindFixed] on
    [r] explores. *)
Inductive chainFresh (st : store) (r : nat) : nat -> Prop :=
| cf_here : chainFresh st r r
| cf_down w x :
    chainFresh st r w -> depth (st w) <> 0 ->
    In x (neighbors (st w)) ->
    samePath (depth (st w)) (pathDepth (st w)) (st x) = true ->
    visited (st x) = false ->
    chainFresh st r x.

(** *** The order the pass leaves in the array *)

(** Deeper first; at equal depth, the order [S]. *)
Definition deeperThen (st : store) (S : nat -> nat -> Prop) (x y : nat)
    : Prop :=
  depth (st y) < depth (st x) \/ (depth (st x) = depth (st y) /\ S x y).

(** Deeper first; at equal depth, the order of the schedulers. *)
Definition depthThenStart (st : store) (x y : nat) : Prop :=
  deeperThen st (startThenDuration st) x y.
(** * Properties *)

(** ** The store *)

Lemma upd_same (st : store) i f : upd st i f i = f (st i).
Proof. unfold upd. now rewrite Nat.eqb_refl. Qed.

Lemma upd_other (st : store) i j f : j <> i -> upd st i f j = st j.
Proof. intros H. unfold upd. now apply Nat.eqb_neq in H as ->. Qed.

Lemma sameTimes_refl st : sameTimes st st.
Proof. intros i; split; reflexivity. Qed.

Lemma sameTimes_trans st1 st2 st3 :
  sameTimes st1 st2 -> sameTimes st2 st3 -> sameTimes st1 st3.
Proof.
  intros H12 H23 i. destruct (H12 i) as [A B], (H23 i) as [C D].
  split; congruence.
Qed.

Lemma sameTimes_upd st i f : keepsTimes f -> sameTimes st (upd st i f).
Proof.
  intros Hf j. unfold upd. destruct (Nat.eqb j i); [apply Hf | split; reflexivity].
Qed.

Lemma keeps_set_depth d : keepsTimes (set_depth d).
Proof. intros b; split; reflexivity. Qed.
Lemma keeps_set_pathDepth d : keepsTimes (set_pathDepth d).
Proof. intros b; split; reflexivity. Qed.
Lemma keeps_set_left q : keepsTimes (set_left q).
Proof. intros b; split; reflexivity. Qed.
Lemma keeps_set_width q : keepsTimes (set_width q).
Proof. intros b; split; reflexivity. Qed.
Lemma keeps_set_isFixed v : keepsTimes (set_isFixed v).
Proof. intros b; split; reflexivity. Qed.
Lemma keeps_set_visited v : keepsTimes (set_visited v).
Proof. intros b; split; reflexivity. Qed.
Lemma keeps_push_neighbor n : keepsTimes (push_neighbor n).
Proof. intros b; split; reflexivity. Qed.
Lemma keeps_set_idx n : keepsTimes (set_idx n).
Proof. intros b; split; reflexivity. Qed.

Create HintDb times.

#[local] Hint Resolve sameTimes_refl sameTimes_upd keeps_set_depth
  keeps_set_pathDepth keeps_set_left keeps_set_width keeps_set_isFixed
  keeps_set_visited keeps_push_neighbor keeps_set_idx : times.

Lemma conflict_sameTimes st st' a b :
  sameTimes st st' -> conflict (st' a) (st' b) = conflict (st a) (st b).
Proof.
  intros H. unfold conflict.
  destruct (H a) as [-> ->], (H b) as [-> ->]. reflexivity.
Qed.

Lemma conflict_sym a b : conflict a b = conflict b a.
Proof. unfold conflict. apply andb_comm. Qed.

Lemma conflict_true a b :
  conflict a b = true <-> startMin a < endMin b /\ startMin b < endMin a.
Proof. unfold conflict. rewrite andb_true_iff, !Z.ltb_lt. tauto. Qed.

(** ** The sort *)

Section SortFacts.
Variable cmp : nat -> nat -> Z.

Lemma insertBy_perm x l : Permutation (insertBy cmp x l) (x :: l).
Proof.
  induction l as [|y l IH]; simpl; [reflexivity|].
  destruct (cmp x y <=? 0); [reflexivity|].
  rewrite IH. apply perm_swap.
Qed.

Lemma sortBy_perm l : Permutation (sortBy cmp l) l.
Proof.
  induction l as [|x l IH]; simpl; [reflexivity|].
  rewrite insertBy_perm. now constructor.
Qed.

Lemma sortBy_In l x : In x (sortBy cmp l) <-> In x l.
Proof.
  split; apply Permutation_in; [|symmetry]; apply sortBy_perm.
Qed.

Lemma sortBy_NoDup l : NoDup l -> NoDup (sortBy cmp l).
Proof.
  intros H. eapply Permutation_NoDup; [symmetry; apply sortBy_perm | exact H].
Qed.

Lemma sortBy_length l : length (sortBy cmp l) = length l.
Proof. apply Permutation_length, sortBy_perm. Qed.

Lemma sortBy_nil l : sortBy cmp l = [] -> l = [].
Proof.
  intros H. apply length_zero_iff_nil. rewrite <- sortBy_length, H. reflexivity.
Qed.

(** The order the sort establishes, through any transitive relation [R]
    that the sign of the comparator decides. *)
Variable R : nat -> nat -> Prop.
Hypothesis R_trans : forall x y z, R x y -> R y z -> R x z.
Hypothesis cmp_le : forall x y, cmp x y <= 0 -> R x y.
Hypothesis cmp_gt : forall x y, 0 < cmp x y -> R y x.

Lemma insertBy_sorted x l :
  StronglySorted R l -> StronglySorted R (insertBy cmp x l).
Proof.
  induction 1 as [|y l Hs IH Hall]; simpl.
  - constructor; constructor.
  - destruct (Z.leb_spec (cmp x y) 0) as [Hle|Hgt].
    + constructor; [constructor; assumption|].
      constructor; [now apply cmp_le|].
      eapply Forall_impl; [|exact Hall].
      intros z Hz. eapply R_trans; [apply cmp_le, Hle | exact Hz].
    + constructor; [exact IH|].
      eapply Permutation_Forall; [symmetry; apply insertBy_perm|].
      constructor; [now apply cmp_gt | exact Hall].
Qed.

Lemma sortBy_sorted l : StronglySorted R (sortBy cmp l).
Proof.
  induction l as [|x l IH]; simpl; [constructor | now apply insertBy_sorted].
Qed.
End SortFacts.

Lemma sortBy_ext cmp cmp' l :
  (forall x y, cmp x y = cmp' x y) -> sortBy cmp l = sortBy cmp' l.
Proof.
  intros H. induction l as [|x l IH]; simpl; [reflexivity|].
  rewrite IH. generalize (sortBy cmp' l). intros m.
  induction m as [|y m IHm]; simpl; [reflexivity|].
  now rewrite H, IHm.
Qed.

Lemma byStart_sameTimes st st' :
  sameTimes st st' -> forall x y, byStart st' x y = byStart st x y.
Proof.
  intros H x y. unfold byStart, duration.
  destruct (H x) as [-> ->], (H y) as [-> ->]. reflexivity.
Qed.

(** After the schedulers' sort the start times ascend. *)
Lemma sortByStart_sorted st l :
  StronglySorted (fun x y => startMin (st x) <= startMin (st y))
                 (sortBy (byStart st) l).
Proof.
  apply sortBy_sorted.
  - intros x y z; lia.
  - intros x y. unfold byStart.
    destruct (Z.eqb_spec (startMin (st x) - startMin (st y)) 0); lia.
  - intros x y. unfold byStart.
    destruct (Z.eqb_spec (startMin (st x) - startMin (st y)) 0); lia.
Qed.

(** After the sort of [calculateMaxDepth] the depths descend. *)
Lemma sortByDepth_sorted st l :
  StronglySorted (fun x y => depth (st y) <= depth (st x))
                 (sortBy (byDepthDesc st) l).
Proof.
  apply sortBy_sorted; unfold byDepthDesc; intros; lia.
Qed.

(** ** The rooms of the schedulers *)

Lemma NoDup_map_eq {A B : Type} (f : A -> B) (l : list A) x y :
  NoDup (map f l) -> In x l -> In y l -> f x = f y -> x = y.
Proof.
  induction l as [|a l IH]; simpl; [tauto|].
  intros Hnd Hx Hy Hxy. inversion Hnd as [|? ? Hnot Hnd']; subst.
  destruct Hx as [->|Hx], Hy as [->|Hy]; auto.
  - exfalso. apply Hnot. rewrite Hxy. now apply in_map.
  - exfalso. apply Hnot. rewrite <- Hxy. now apply in_map.
Qed.

Lemma map_upd_notin (st : store) b f (g : ScheduleBlock -> Z) l :
  ~ In b l -> map (fun r => g (upd st b f r)) l = map (fun r => g (st r)) l.
Proof.
  intros Hb. apply map_ext_in. intros r Hr.
  rewrite upd_other; [reflexivity|]. intros ->. contradiction.
Qed.

Lemma active_upd_depth st b d t x :
  active (upd st b (set_depth d)) t x = active st t x.
Proof.
  unfold active, upd. destruct (Nat.eqb x b); reflexivity.
Qed.

Lemma countActive_upd_depth st b d l t :
  countActive (upd st b (set_depth d)) l t = countActive st l t.
Proof.
  unfold countActive. f_equal. apply filter_ext. intros x.
  apply active_upd_depth.
Qed.

Lemma countActive_cons st b l t :
  (countActive st l t <= countActive st (b :: l) t)%nat.
Proof.
  unfold countActive. simpl. destruct (active st t b); simpl; lia.
Qed.

(** Rooms that are all running at [t] are that many running blocks. *)
Lemma countActive_reps st P reps t :
  NoDup reps -> incl reps P ->
  (forall r, In r reps -> active st t r = true) ->
  (length reps <= countActive st P t)%nat.
Proof.
  intros Hnd Hincl Hact. unfold countActive.
  apply NoDup_incl_length; [exact Hnd|].
  intros r Hr. apply filter_In. split; [now apply Hincl | now apply Hact].
Qed.

Lemma conflict_upd_depth st b d x y :
  conflict (upd st b (set_depth d) x) (upd st b (set_depth d) y)
  = conflict (st x) (st y).
Proof.
  apply conflict_sameTimes. auto with times.
Qed.

Lemma roomStep_sameTimes st reps n b st' reps' n' :
  roomStep st reps n b st' reps' n' -> sameTimes st st'.
Proof. destruct 1; auto with times. Qed.

Lemma roomStep_onlyDepth st reps n b st' reps' n' :
  roomStep st reps n b st' reps' n' -> onlyDepth [b] st st'.
Proof.
  destruct 1; intros i; unfold upd; destruct (Nat.eqb_spec i b); subst; simpl;
    (split; [try reflexivity; now destruct (st i) | try reflexivity; tauto]).
Qed.

(** One round preserves the invariant of the rooms. *)
Lemma roomStep_inv P st reps n b st' reps' n' :
  RoomInv P st reps n ->
  NoDup P -> ~ In b P ->
  (forall p, In p P -> startMin (st p) <= startMin (st b)) ->
  startMin (st b) < endMin (st b) ->
  roomStep st reps n b st' reps' n' ->
  RoomInv (b :: P) st' reps' n'.
Proof.
  intros [Hnd Hincl Hlen Hinj Hrange Hrep Hproper [t Ht] Hused]
         HndP HbP Hsorted Hwf Hstep.
  assert (Hbreps : ~ In b reps) by (intros H; apply HbP, Hincl, H).
  assert (HdP : forall p, In p P -> 0 <= depth (st p) <= n).
  { intros p Hp. destruct (Hrep p Hp) as (r & Hr & <- & _). now apply Hrange. }
  destruct Hstep as [reps' Hbusy Hperm | r others reps' Hfree Hperm Hperm'].
  - (* a room is opened *)
    set (st' := upd st b (set_depth (n + 1))).
    assert (Hold : forall p, p <> b -> st' p = st p)
      by (intros; now apply upd_other).
    assert (Hnew : depth (st' b) = n + 1) by (unfold st'; now rewrite upd_same).
    assert (HoldP : forall p, In p P -> st' p = st p).
    { intros p Hp. apply Hold. intros ->. contradiction. }
    constructor.
    + eapply Permutation_NoDup; [symmetry; exact Hperm|]. now constructor.
    + intros x Hx. eapply Permutation_in in Hx; [|exact Hperm].
      destruct Hx as [<-|Hx]; [now left | right; now apply Hincl].
    + rewrite (Permutation_length Hperm). simpl length. lia.
    + eapply Permutation_NoDup;
        [symmetry; apply Permutation_map; exact Hperm|].
      simpl. rewrite Hnew. unfold st'. rewrite map_upd_notin by assumption.
      constructor; [|exact Hinj].
      intros Hin. apply in_map_iff in Hin as (r & Hr & Hin).
      specialize (Hrange r Hin). lia.
    + intros r Hr. eapply Permutation_in in Hr; [|exact Hperm].
      destruct Hr as [<-|Hr]; [lia|].
      rewrite HoldP by now apply Hincl. specialize (Hrange r Hr). lia.
    + intros p [<-|Hp].
      * exists b. split; [|split; [reflexivity | lia]].
        eapply Permutation_in; [symmetry; exact Hperm | now left].
      * destruct (Hrep p Hp) as (r & Hr & Hd & He).
        exists r. split; [|rewrite !HoldP by auto; auto].
        eapply Permutation_in; [symmetry; exact Hperm | now right].
    + intros x y [<-|Hx] [<-|Hy] Hxy Hc; try congruence.
      * rewrite Hnew, HoldP by assumption. specialize (HdP y Hy). lia.
      * rewrite Hnew, HoldP by assumption. specialize (HdP x Hx). lia.
      * unfold st' in Hc. rewrite conflict_upd_depth in Hc.
        rewrite !HoldP by assumption. now apply Hproper.
    + exists (startMin (st b)). unfold st'. rewrite countActive_upd_depth.
      assert (Hact : forall x, In x (b :: reps) ->
                               active st (startMin (st b)) x = true).
      { intros x [<-|Hx]; unfold active; apply andb_true_iff;
          rewrite Z.leb_le, Z.ltb_lt; [lia|].
        split; [apply Hsorted, Hincl, Hx | now apply Hbusy]. }
      pose proof (countActive_reps st (b :: P) (b :: reps) _
                    ltac:(now constructor)
                    ltac:(intros x [<-|Hx]; [now left | right; now apply Hincl])
                    Hact) as Hc.
      simpl length in Hc. lia.
    + intros d Hd. destruct (Z.eq_dec d (n + 1)) as [->|Hne].
      * exists b. split; [now left | exact Hnew].
      * destruct (Hused d ltac:(lia)) as (p & Hp & Hdp).
        exists p. split; [now right | now rewrite HoldP].
  - (* a room is taken over *)
    set (st' := upd st b (set_depth (depth (st r)))).
    assert (Hr : In r reps)
      by (eapply Permutation_in; [symmetry; exact Hperm | now left]).
    assert (Hold : forall p, p <> b -> st' p = st p)
      by (intros; now apply upd_other).
    assert (Hnew : depth (st' b) = depth (st r))
      by (unfold st'; now rewrite upd_same).
    assert (HoldP : forall p, In p P -> st' p = st p).
    { intros p Hp. apply Hold. intros ->. contradiction. }
    assert (Hoth : incl others reps).
    { intros x Hx. eapply Permutation_in; [symmetry; exact Hperm | now right]. }
    assert (Hbo : ~ In b others) by (intros H; apply Hbreps, Hoth, H).
    assert (Hnd2 : NoDup (r :: others))
      by (eapply Permutation_NoDup; [exact Hperm | exact Hnd]).
    assert (Hend : endMin (st' b) = endMin (st b)).
    { unfold st'. rewrite upd_same. reflexivity. }
    constructor.
    + eapply Permutation_NoDup; [symmetry; exact Hperm'|].
      constructor; [exact Hbo | now inversion Hnd2].
    + intros x Hx. eapply Permutation_in in Hx; [|exact Hperm'].
      destruct Hx as [<-|Hx]; [now left | right; now apply Hincl, Hoth].
    + rewrite (Permutation_length Hperm'), <- Hlen,
              (Permutation_length Hperm). reflexivity.
    + eapply Permutation_NoDup;
        [symmetry; apply Permutation_map; exact Hperm'|].
      simpl. rewrite Hnew. unfold st'. rewrite map_upd_notin by assumption.
      change (NoDup (map (fun r0 => depth (st r0)) (r :: others))).
      eapply Permutation_NoDup; [apply Permutation_map; exact Hperm | exact Hinj].
    + intros x Hx. eapply Permutation_in in Hx; [|exact Hperm'].
      destruct Hx as [<-|Hx]; [rewrite Hnew; now apply Hrange|].
      rewrite HoldP by now apply Hincl, Hoth. now apply Hrange, Hoth.
    + intros p [<-|Hp].
      * exists b. split; [|split; [reflexivity | lia]].
        eapply Permutation_in; [symmetry; exact Hperm' | now left].
      * destruct (Hrep p Hp) as (r0 & Hr0 & Hd & He).
        rewrite (HoldP p Hp).
        eapply Permutation_in in Hr0; [|exact Hperm].
        destruct Hr0 as [<-|Hr0].
        -- exists b. split; [|split; [congruence | lia]].
           eapply Permutation_in; [symmetry; exact Hperm' | now left].
        -- exists r0. rewrite HoldP by now apply Hincl, Hoth.
           split; [|auto].
           eapply Permutation_in; [symmetry; exact Hperm' | now right].
    + assert (Hno : forall x, In x P -> depth (st x) = depth (st r) ->
                      conflict (st x) (st b) = false).
      { intros x Hx Hd. destruct (Hrep x Hx) as (r0 & Hr0 & Hd0 & He).
        assert (r0 = r).
        { eapply (NoDup_map_eq (fun r => depth (st r))); eauto. congruence. }
        subst r0. unfold conflict.
        assert ((startMin (st b) <? endMin (st x)) = false)
          by (apply Z.ltb_ge; lia).
        rewrite H. apply andb_false_r. }
      intros x y [<-|Hx] [<-|Hy] Hxy Hc; try congruence;
        unfold st' in Hc; rewrite conflict_upd_depth in Hc.
      * rewrite Hnew, HoldP by assumption. intros Heq.
        rewrite conflict_sym, Hno in Hc; congruence.
      * rewrite Hnew, HoldP by assumption. intros Heq.
        rewrite Hno in Hc; congruence.
      * rewrite !HoldP by assumption. now apply Hproper.
    + exists t. unfold st'. rewrite countActive_upd_depth.
      pose proof (countActive_cons st b P t). lia.
    + intros d Hd. destruct (Hused d Hd) as (p & Hp & Hdp).
      exists p. split; [now right | now rewrite HoldP].
Qed.

(** *** The priority queue *)

Lemma byEnd_neg st a b : byEnd st a b < 0 -> endMin (st a) <= endMin (st b).
Proof.
  unfold byEnd. destruct (Z.eqb_spec (endMin (st a) - endMin (st b)) 0); lia.
Qed.

Lemma byEnd_nonneg st a b : 0 <= byEnd st a b -> endMin (st b) <= endMin (st a).
Proof.
  unfold byEnd. destruct (Z.eqb_spec (endMin (st a) - endMin (st b)) 0); lia.
Qed.

Lemma queueMin_In st q : forall best, In (queueMin st best q) (best :: q).
Proof.
  induction q as [|r q IH]; intros best; simpl; [now left|].
  destruct (IH (if byEnd st r best <? 0 then r else best)) as [H|H].
  - destruct (byEnd st r best <? 0); rewrite <- H; auto.
  - auto.
Qed.

(** [peek] yields a block whose end time is minimal in the queue. *)
Lemma queueMin_min st q : forall best r,
  In r (best :: q) -> endMin (st (queueMin st best q)) <= endMin (st r).
Proof.
  induction q as [|x q IH]; intros best r Hr; simpl.
  - destruct Hr as [<-|[]]. lia.
  - set (best' := if byEnd st x best <? 0 then x else best).
    assert (Hb : endMin (st best') <= endMin (st best) /\
                 endMin (st best') <= endMin (st x)).
    { unfold best'. destruct (Z.ltb_spec (byEnd st x best) 0) as [H|H].
      - apply byEnd_neg in H. lia.
      - apply byEnd_nonneg in H. lia. }
    pose proof (IH best' best' (or_introl eq_refl)) as Hmin.
    destruct Hr as [<-|[<-|Hr]]; [lia | lia |].
    apply IH. now right.
Qed.

Lemma peek_spec st q r :
  peek st q = Some r ->
  In r q /\ forall x, In x q -> endMin (st r) <= endMin (st x).
Proof.
  destruct q as [|y q]; simpl; [discriminate|].
  intros [= <-]. split; [apply queueMin_In | apply queueMin_min].
Qed.

Lemma peek_nonempty st q : q <> [] -> exists r, peek st q = Some r.
Proof. destruct q; [congruence | intros _; simpl; eauto]. Qed.

Lemma removeFirst_perm x q : In x q -> Permutation q (x :: removeFirst x q).
Proof.
  induction q as [|y q IH]; simpl; [tauto|].
  intros Hx. destruct (Nat.eqb_spec y x) as [->|Hne]; [reflexivity|].
  destruct Hx as [->|Hx]; [congruence|].
  rewrite perm_swap. constructor. now apply IH.
Qed.

(** A round of [intervalScheduling2] is a round on the rooms. *)
Lemma heapStep_roomStep s b :
  h_queue s <> [] ->
  roomStep (h_store s) (h_queue s) (h_numRooms s) b
           (h_store (heapStep s b)) (h_queue (heapStep s b))
           (h_numRooms (heapStep s b)).
Proof.
  intros Hq. unfold heapStep.
  destruct (peek_nonempty (h_store s) _ Hq) as [r Hr]. rewrite Hr.
  destruct (peek_spec _ _ _ Hr) as [Hin Hmin].
  destruct (Z.gtb_spec (endMin (h_store s r)) (startMin (h_store s b)))
    as [Hgt|Hle]; simpl.
  - apply room_new.
    + intros x Hx. specialize (Hmin x Hx). lia.
    + unfold push. rewrite Permutation_app_comm. reflexivity.
  - apply room_reuse with (others := removeFirst r (h_queue s)).
    + exact Hle.
    + now apply removeFirst_perm.
    + unfold push, pop. rewrite Hr, Permutation_app_comm. reflexivity.
Qed.

Lemma heapStep_queue_nonempty s b : h_queue s <> [] -> h_queue (heapStep s b) <> [].
Proof.
  intros Hq. unfold heapStep.
  destruct (peek_nonempty (h_store s) _ Hq) as [r ->].
  destruct (_ >? _); simpl; unfold push; intros H;
    apply app_eq_nil in H as [_ H]; discriminate.
Qed.

(** *** The inner loop of the quadratic scheduler *)

Lemma pickStep_ok st b seen acc x :
  pickOK st b seen acc ->
  pickOK st b (seen ++ [x]) (pickStep st b acc (length seen) x).
Proof.
  intros Hacc. unfold pickStep.
  destruct (Z.leb_spec (endMin (st x)) (startMin (st b))) as [Hfree|Hbusy];
    simpl.
  - destruct acc as [[k m]|]; simpl in *.
    + destruct Hacc as (r & Hk & Hr & Hd & Hmin).
      destruct (Z.ltb_spec (depth (st x)) m) as [Hlt|Hge]; simpl.
      * exists x. rewrite nth_error_app2, Nat.sub_diag by lia.
        repeat split; auto.
        intros r' Hr' Hf. apply in_app_or in Hr' as [Hr'|[<-|[]]]; [|lia].
        specialize (Hmin r' Hr' Hf). lia.
      * exists r. rewrite nth_error_app1
          by (apply nth_error_Some; congruence).
        repeat split; auto.
        intros r' Hr' Hf. apply in_app_or in Hr' as [Hr'|[<-|[]]]; auto.
    + exists x. rewrite nth_error_app2, Nat.sub_diag by lia.
      repeat split; auto.
      intros r' Hr' Hf. apply in_app_or in Hr' as [Hr'|[<-|[]]]; [|lia].
      specialize (Hacc r' Hr'). lia.
  - destruct acc as [[k m]|]; simpl in *.
    + destruct Hacc as (r & Hk & Hr & Hd & Hmin).
      exists r. rewrite nth_error_app1 by (apply nth_error_Some; congruence).
      repeat split; auto.
      intros r' Hr' Hf. apply in_app_or in Hr' as [Hr'|[<-|[]]]; [auto|lia].
    + intros r Hr. apply in_app_or in Hr as [Hr|[<-|[]]]; [auto|lia].
Qed.

Lemma pickRoom_ok st b : forall occupied seen acc,
  pickOK st b seen acc ->
  pickOK st b (seen ++ occupied) (pickRoom st b occupied (length seen) acc).
Proof.
  induction occupied as [|x occ IH]; intros seen acc Hacc; simpl.
  - now rewrite app_nil_r.
  - replace (seen ++ x :: occ) with ((seen ++ [x]) ++ occ)
      by (rewrite <- app_assoc; reflexivity).
    replace (S (length seen)) with (length (seen ++ [x]))
      by (rewrite length_app; simpl; lia).
    apply IH. now apply pickStep_ok.
Qed.

(** The inner loop finds the room of least depth among the rooms whose
    latest block has ended, and none only when every room is running. *)
Lemma pickRoom_spec st b occupied :
  pickOK st b occupied (pickRoom st b occupied 0 None).
Proof.
  apply (pickRoom_ok st b occupied [] None). intros r [].
Qed.

Lemma replaceAt_perm b : forall l k r,
  nth_error l k = Some r ->
  exists others, Permutation l (r :: others) /\
                 Permutation (replaceAt k b l) (b :: others).
Proof.
  induction l as [|y l IH]; intros k r Hk; destruct k; simpl in *;
    try discriminate.
  - injection Hk as ->. exists l. split; reflexivity.
  - destruct (IH k r Hk) as (others & H1 & H2).
    exists (y :: others). split.
    + rewrite H1. apply perm_swap.
    + rewrite H2. apply perm_swap.
Qed.

(** A round of [intervalScheduling] is a round on the rooms. *)
Lemma greedyStep_roomStep s b :
  roomStep (g_store s) (g_occupied s) (g_numRooms s) b
           (g_store (greedyStep s b)) (g_occupied (greedyStep s b))
           (g_numRooms (greedyStep s b)).
Proof.
  unfold greedyStep.
  pose proof (pickRoom_spec (g_store s) b (g_occupied s)) as Hpick.
  destruct (pickRoom (g_store s) b (g_occupied s) 0 None) as [[k m]|];
    simpl in *.
  - destruct Hpick as (r & Hk & Hfree & Hd & Hmin).
    rewrite (nth_error_nth _ _ b Hk).
    destruct (replaceAt_perm b _ _ _ Hk) as (others & H1 & H2).
    now apply room_reuse with (others := others).
  - apply room_new; [exact Hpick|].
    rewrite Permutation_app_comm. reflexivity.
Qed.

(** *** Runs of rounds *)

Lemma heap_fold_run rest : forall s,
  h_queue s <> [] ->
  roomRun (h_store s) (h_queue s) (h_numRooms s) rest
          (h_store (fold_left heapStep rest s))
          (h_queue (fold_left heapStep rest s))
          (h_numRooms (fold_left heapStep rest s)).
Proof.
  induction rest as [|b rest IH]; intros s Hq; simpl.
  - constructor.
  - econstructor; [now apply heapStep_roomStep|].
    apply IH. now apply heapStep_queue_nonempty.
Qed.

Lemma greedy_fold_run rest : forall s,
  roomRun (g_store s) (g_occupied s) (g_numRooms s) rest
          (g_store (fold_left greedyStep rest s))
          (g_occupied (fold_left greedyStep rest s))
          (g_numRooms (fold_left greedyStep rest s)).
Proof.
  induction rest as [|b rest IH]; intros s; simpl.
  - constructor.
  - econstructor; [apply greedyStep_roomStep | apply IH].
Qed.

Lemma roomRun_sameTimes st reps n l st' reps' n' :
  roomRun st reps n l st' reps' n' -> sameTimes st st'.
Proof.
  induction 1; [apply sameTimes_refl|].
  eapply sameTimes_trans; [eapply roomStep_sameTimes; eassumption | assumption].
Qed.

Lemma onlyDepth_refl l st : onlyDepth l st st.
Proof. intros i. split; [now destruct (st i) | reflexivity]. Qed.

Lemma onlyDepth_trans l1 l2 st1 st2 st3 :
  onlyDepth l1 st1 st2 -> onlyDepth l2 st2 st3 ->
  onlyDepth (l1 ++ l2) st1 st3.
Proof.
  intros H12 H23 i. destruct (H12 i) as [A1 B1], (H23 i) as [A2 B2]. split.
  - rewrite A2. rewrite A1. reflexivity.
  - intros Hi. rewrite B2, B1; auto; intros H; apply Hi, in_or_app; auto.
Qed.

Lemma roomRun_onlyDepth st reps n l st' reps' n' :
  roomRun st reps n l st' reps' n' -> onlyDepth l st st'.
Proof.
  induction 1; [apply onlyDepth_refl|].
  change (b :: rest) with ([b] ++ rest).
  eapply onlyDepth_trans; [eapply roomStep_onlyDepth; eassumption | assumption].
Qed.

Lemma sorted_sameTimes st st' l :
  sameTimes st st' ->
  StronglySorted (fun x y => startMin (st x) <= startMin (st y)) l ->
  StronglySorted (fun x y => startMin (st' x) <= startMin (st' y)) l.
Proof.
  intros Ht. induction 1 as [|x l Hs IH Hall]; constructor; [exact IH|].
  eapply Forall_impl; [|exact Hall]. intros y Hy. simpl in *.
  destruct (Ht x) as [-> _], (Ht y) as [-> _]. exact Hy.
Qed.

Lemma wellFormed_sameTimes st st' l :
  sameTimes st st' -> wellFormed st l -> wellFormed st' l.
Proof.
  intros Ht Hwf b Hb. destruct (Ht b) as [-> ->]. now apply Hwf.
Qed.

(** A run over ascending start times preserves the invariant. *)
Lemma roomRun_inv st reps n l st' reps' n' :
  roomRun st reps n l st' reps' n' ->
  forall P,
    RoomInv P st reps n ->
    NoDup (P ++ l) ->
    StronglySorted (fun x y => startMin (st x) <= startMin (st y)) l ->
    (forall p b, In p P -> In b l -> startMin (st p) <= startMin (st b)) ->
    wellFormed st l ->
    RoomInv (rev l ++ P) st' reps' n'.
Proof.
  induction 1 as [|st reps n b st1 reps1 n1 rest st2 reps2 n2 Hstep Hrun IH];
    intros P Hinv Hnd Hsort Hlow Hwf; simpl; [exact Hinv|].
  pose proof (roomStep_sameTimes _ _ _ _ _ _ _ Hstep) as Ht.
  assert (HndP : NoDup P) by (eapply NoDup_app_remove_r; exact Hnd).
  assert (HbP : ~ In b P).
  { apply NoDup_remove_2 in Hnd. intros H. apply Hnd, in_or_app. now left. }
  inversion Hsort as [|? ? Hsort' Hall]; subst.
  rewrite <- app_assoc. simpl. apply IH.
  - eapply roomStep_inv; eauto.
    + intros p Hp. apply Hlow; [exact Hp | now left].
    + apply Hwf. now left.
  - eapply Permutation_NoDup; [|exact Hnd].
    symmetry. apply Permutation_middle.
  - eapply sorted_sameTimes; eauto.
  - intros p x Hp Hx.
    destruct (Ht p) as [-> _], (Ht x) as [-> _].
    destruct Hp as [<-|Hp].
    + rewrite Forall_forall in Hall. now apply Hall.
    + apply Hlow; [exact Hp | now right].
  - eapply wellFormed_sameTimes; [exact Ht|].
    intros x Hx. apply Hwf. now right.
Qed.

(** The rooms before the loop: the first block alone, in room 0. *)
Lemma RoomInv_init st b0 :
  depth (st b0) = 0 -> startMin (st b0) < endMin (st b0) ->
  RoomInv [b0] st [b0] 0.
Proof.
  intros Hd Hwf. constructor.
  - repeat constructor. intros [].
  - intros x Hx. exact Hx.
  - reflexivity.
  - repeat constructor. intros [].
  - intros r [<-|[]]. lia.
  - intros p [<-|[]]. exists b0. split; [now left | split; [reflexivity | lia]].
  - intros a b [<-|[]] [<-|[]] Hab. congruence.
  - exists (startMin (st b0)). unfold countActive, active. simpl.
    assert (H1 : (startMin (st b0) <=? startMin (st b0)) = true)
      by (apply Z.leb_le; lia).
    assert (H2 : (startMin (st b0) <? endMin (st b0)) = true)
      by (apply Z.ltb_lt; lia).
    rewrite H1, H2. simpl. lia.
  - intros d Hd'. exists b0. split; [now left | lia].
Qed.

(** *** What the schedulers establish *)

Lemma intervalScheduling2_run st blocks b0 rest :
  sortBy (byStart st) blocks = b0 :: rest ->
  exists st' reps n,
    roomRun st [b0] 0 rest st' reps n /\
    intervalScheduling2 st blocks = (st', b0 :: rest, n + 1).
Proof.
  intros Hs. unfold intervalScheduling2. rewrite Hs.
  pose proof (heap_fold_run rest (mkHeap st [b0] 0)
                ltac:(simpl; discriminate)) as Hrun.
  simpl in Hrun. eauto.
Qed.

Lemma intervalScheduling_run st blocks b0 rest :
  sortBy (byStart st) blocks = b0 :: rest ->
  exists st' reps n,
    roomRun st [b0] 0 rest st' reps n /\
    intervalScheduling st blocks = (st', b0 :: rest, n + 1).
Proof.
  intros Hs. unfold intervalScheduling. rewrite Hs.
  pose proof (greedy_fold_run rest (mkGreedy st [b0] 0)) as Hrun.
  simpl in Hrun. eauto.
Qed.

Lemma countActive_perm st l l' t :
  Permutation l l' -> countActive st l t = countActive st l' t.
Proof.
  unfold countActive.
  induction 1; simpl; try destruct (active st t x); try destruct (active st t y);
    simpl; congruence.
Qed.

Lemma countActive_sameTimes st st' l t :
  sameTimes st st' -> countActive st' l t = countActive st l t.
Proof.
  intros Ht. unfold countActive. f_equal. apply filter_ext.
  intros x. unfold active. now destruct (Ht x) as [-> ->].
Qed.

Lemma NoDup_map_inj_on {A B : Type} (f : A -> B) (l : list A) :
  (forall x y, In x l -> In y l -> f x = f y -> x = y) ->
  NoDup l -> NoDup (map f l).
Proof.
  intros Hinj. induction 1 as [|a l Hnot Hnd IH]; simpl; constructor.
  - intros Hin. apply in_map_iff in Hin as (y & Hy & Hin).
    assert (y = a) by (apply Hinj; simpl; auto). subst. contradiction.
  - apply IH. intros x y Hx Hy. apply Hinj; now right.
Qed.

(** Blocks running at one instant conflict pairwise, so under distinct
    depths within [0, n] there are at most [n + 1] of them. *)
Lemma countActive_bound st blocks n t :
  0 <= n -> NoDup blocks -> properDepths st blocks ->
  (forall b, In b blocks -> 0 <= depth (st b) <= n) ->
  Z.of_nat (countActive st blocks t) <= n + 1.
Proof.
  intros Hpos Hnd Hproper Hrange. unfold countActive.
  set (A := filter (active st t) blocks).
  assert (HndA : NoDup A) by (now apply NoDup_filter).
  assert (Hinj : NoDup (map (fun b => depth (st b)) A)).
  { apply NoDup_map_inj_on; [|exact HndA].
    intros x y Hx Hy Hd. apply filter_In in Hx as [Hx Hax], Hy as [Hy Hay].
    destruct (Nat.eq_dec x y) as [|Hne]; [assumption|exfalso].
    apply (Hproper x y Hx Hy Hne); [|exact Hd].
    unfold active in *. apply andb_true_iff in Hax as [H1 H2], Hay as [H3 H4].
    apply conflict_true. rewrite Z.leb_le in *. rewrite Z.ltb_lt in *. lia. }
  assert (Hincl : incl (map (fun b => depth (st b)) A)
                       (map Z.of_nat (seq 0 (Z.to_nat (n + 1))))).
  { intros d Hd. apply in_map_iff in Hd as (b & <- & Hb).
    apply filter_In in Hb as [Hb _]. specialize (Hrange b Hb).
    apply in_map_iff. exists (Z.to_nat (depth (st b))). cbv beta.
    split; [lia|]. apply in_seq. lia. }
  pose proof (NoDup_incl_length Hinj Hincl) as Hlen.
  rewrite !length_map, length_seq in Hlen. lia.
Qed.

Lemma roomRun_Scheduled st blocks b0 rest st' reps n :
  NoDup blocks -> wellFormed st blocks -> depth (st b0) = 0 ->
  sortBy (byStart st) blocks = b0 :: rest ->
  roomRun st [b0] 0 rest st' reps n ->
  Scheduled st blocks st' (n + 1).
Proof.
  intros Hnd Hwf Hd0 Hs Hrun.
  pose proof (sortBy_perm (byStart st) blocks) as Hperm. rewrite Hs in Hperm.
  assert (Hnd' : NoDup (b0 :: rest))
    by (eapply Permutation_NoDup; [symmetry; exact Hperm | exact Hnd]).
  pose proof (sortByStart_sorted st blocks) as Hsort. rewrite Hs in Hsort.
  inversion Hsort as [|? ? Hsort' Hall]; subst.
  rewrite Forall_forall in Hall.
  assert (Hin : forall x, In x blocks <-> In x (rev rest ++ [b0])).
  { intros x. rewrite in_app_iff, <- in_rev. simpl. split.
    - intros H. eapply Permutation_in in H; [|symmetry; exact Hperm].
      destruct H as [->|H]; auto.
    - intros H. eapply Permutation_in; [exact Hperm|].
      destruct H as [H|[->|[]]]; simpl; auto. }
  assert (Hwf0 : wellFormed st (b0 :: rest)).
  { intros x Hx. apply Hwf. eapply Permutation_in; [exact Hperm | exact Hx]. }
  pose proof (roomRun_inv _ _ _ _ _ _ _ Hrun [b0]
                (RoomInv_init st b0 Hd0 (Hwf0 b0 (or_introl eq_refl)))
                Hnd' Hsort'
                ltac:(intros p b [<-|[]] Hb; now apply Hall)
                ltac:(intros x Hx; apply Hwf0; now right))
    as [_ Hincl Hlen Hinj Hrange Hrep Hproper [t Ht] Hused].
  pose proof (roomRun_sameTimes _ _ _ _ _ _ _ Hrun) as Htimes.
  assert (HpermP : Permutation blocks (rev rest ++ [b0])).
  { rewrite <- Hperm. rewrite Permutation_app_comm. simpl.
    constructor. apply Permutation_rev. }
  assert (Hproper' : properDepths st' blocks).
  { intros a b Ha Hb. apply Hproper; now apply Hin. }
  assert (Hrange' : forall b, In b blocks -> 0 <= depth (st' b) <= n).
  { intros b Hb. apply Hin in Hb.
    destruct (Hrep b Hb) as (r & Hr & <- & _). now apply Hrange. }
  assert (Hbound : forall t, Z.of_nat (countActive st blocks t) <= n + 1).
  { intros t'. rewrite <- (countActive_sameTimes st st') by assumption.
    apply countActive_bound; auto.
    assert (Hb0 : In b0 blocks) by (apply Hin, in_or_app; simpl; auto).
    specialize (Hrange' b0 Hb0). lia. }
  constructor.
  - exact Hproper'.
  - intros b Hb. specialize (Hrange' b Hb). lia.
  - intros d Hd. destruct (Hused d ltac:(lia)) as (p & Hp & Hdp).
    exists p. split; [now apply Hin | exact Hdp].
  - exists t. specialize (Hbound t).
    rewrite (countActive_sameTimes st st') in Ht by assumption.
    rewrite <- (countActive_perm st _ _ t HpermP) in Ht. lia.
  - exact Hbound.
  - pose proof (roomRun_onlyDepth _ _ _ _ _ _ _ Hrun) as Hfr.
    intros i. destruct (Hfr i) as [A B]. split; [exact A|].
    intros Hi. apply B. intros Hr. apply Hi.
    eapply Permutation_in; [exact Hperm | now right].
Qed.

(** The first block of the sorted array is never written. *)
Lemma roomRun_first st b0 rest st' reps n :
  ~ In b0 rest -> roomRun st [b0] 0 rest st' reps n -> st' b0 = st b0.
Proof.
  intros Hb0 Hrun.
  destruct (roomRun_onlyDepth _ _ _ _ _ _ _ Hrun b0) as [_ H]. now apply H.
Qed.

(** *** The two schedulers open the same number of rooms *)

Lemma busyRooms_perm st t l l' :
  Permutation l l' -> busyRooms st t l = busyRooms st t l'.
Proof.
  unfold busyRooms.
  induction 1; simpl;
    try destruct (t <? endMin (st x)); try destruct (t <? endMin (st y));
    simpl; congruence.
Qed.

Lemma busyRooms_sameTimes st st' t l :
  sameTimes st st' -> busyRooms st' t l = busyRooms st t l.
Proof.
  intros Ht. unfold busyRooms. f_equal. apply filter_ext.
  intros r. now destruct (Ht r) as [_ ->].
Qed.

Lemma busyRooms_le st t l : (busyRooms st t l <= length l)%nat.
Proof. apply filter_length_le. Qed.

Lemma busyRooms_all st t l :
  (forall r, In r l -> t < endMin (st r)) -> busyRooms st t l = length l.
Proof.
  unfold busyRooms. induction l as [|x l IH]; intros H; simpl; [reflexivity|].
  assert (Hx : (t <? endMin (st x)) = true)
    by (apply Z.ltb_lt, H; now left).
  rewrite Hx. simpl. f_equal. apply IH. intros r Hr. apply H. now right.
Qed.

Lemma busyRooms_cons st t x l :
  busyRooms st t (x :: l)
  = Nat.add (if t <? endMin (st x) then 1%nat else 0%nat) (busyRooms st t l).
Proof. unfold busyRooms. simpl. now destruct (t <? endMin (st x)). Qed.

(** Two runs over the same ascending blocks, started from rooms that agree
    in number and in how many of them are running at every later instant,
    open the same number of rooms. *)
Lemma roomRun_lockstep st1 reps1 n l st1' reps1' n1' :
  roomRun st1 reps1 n l st1' reps1' n1' ->
  forall st2 reps2 st2' reps2' n2',
    roomRun st2 reps2 n l st2' reps2' n2' ->
    sameTimes st1 st2 ->
    StronglySorted (fun x y => startMin (st1 x) <= startMin (st1 y)) l ->
    length reps1 = length reps2 ->
    (forall t, (exists b, In b l /\ startMin (st1 b) <= t) ->
               busyRooms st1 t reps1 = busyRooms st2 t reps2) ->
    n1' = n2'.
Proof.
  induction 1 as [|st1 reps1 n b st1a reps1a n1a rest st1' reps1' n1'
                    Hstep1 Hrun1 IH];
    intros st2 reps2 st2' reps2' n2' Hrun2 Ht Hsort Hlen Hbusy.
  - inversion Hrun2; subst. reflexivity.
  - inversion Hrun2 as [|? ? ? ? st2a reps2a n2a ? ? ? ? Hstep2 Hrun2']; subst.
    inversion Hsort as [|? ? Hsort' Hall]; subst.
    rewrite Forall_forall in Hall.
    pose proof (roomStep_sameTimes _ _ _ _ _ _ _ Hstep1) as Ht1.
    pose proof (roomStep_sameTimes _ _ _ _ _ _ _ Hstep2) as Ht2.
    assert (Hnow : busyRooms st1 (startMin (st1 b)) reps1
                   = busyRooms st2 (startMin (st1 b)) reps2).
    { apply Hbusy. exists b. split; [now left | lia]. }
    assert (Hsb : startMin (st2 b) = startMin (st1 b)) by apply Ht.
    assert (Ht' : sameTimes st1a st2a).
    { intros i. destruct (Ht1 i) as [A B], (Ht2 i) as [C D], (Ht i) as [E F].
      split; congruence. }
    assert (Hlater : forall t, (exists b', In b' rest /\ startMin (st1a b') <= t)
                               -> startMin (st1 b) <= t).
    { intros t (b' & Hb' & Hle). destruct (Ht1 b') as [Hs _].
      rewrite Hs in Hle. specialize (Hall b' Hb'). simpl in Hall. lia. }
    assert (Hpre : forall t, (exists b', In b' rest /\ startMin (st1a b') <= t)
                             -> busyRooms st1 t reps1 = busyRooms st2 t reps2).
    { intros t (b' & Hb' & Hle). apply Hbusy. exists b'.
      split; [now right|]. destruct (Ht1 b') as [Hs _]. now rewrite <- Hs. }
    assert (Hfree : forall st reps r others t,
               Permutation reps (r :: others) ->
               endMin (st r) <= t ->
               busyRooms st t others = busyRooms st t reps).
    { intros st reps r others t Hp Hr.
      rewrite (busyRooms_perm st t _ _ Hp), busyRooms_cons.
      assert (Hf : (t <? endMin (st r)) = false) by (apply Z.ltb_ge; lia).
      now rewrite Hf. }
    assert (Hendb : endMin (st2 b) = endMin (st1 b)) by apply Ht.
    inversion Hstep1 as [r1' Hbusy1 Hperm1 | r1 oth1 r1' Hfree1 Hperm1 Hperm1'];
      inversion Hstep2 as [r2' Hbusy2 Hperm2 | r2 oth2 r2' Hfree2 Hperm2 Hperm2'];
      subst.
    + (* both open a room *)
      eapply IH; eauto.
      * eapply sorted_sameTimes; eauto.
      * rewrite (Permutation_length Hperm1), (Permutation_length Hperm2).
        simpl. congruence.
      * intros t Hex.
        rewrite (busyRooms_sameTimes st1 (upd st1 b _)),
                (busyRooms_sameTimes st2 (upd st2 b _)) by auto with times.
        rewrite (busyRooms_perm st1 t _ _ Hperm1),
                (busyRooms_perm st2 t _ _ Hperm2), !busyRooms_cons.
        rewrite Hendb. f_equal. now apply Hpre.
    + (* the first opens a room, the second takes one over: impossible *)
      exfalso.
      rewrite (busyRooms_all st1) in Hnow by assumption.
      rewrite <- (Hfree st2 reps2 r2 oth2) in Hnow by (auto; lia).
      pose proof (busyRooms_le st2 (startMin (st1 b)) oth2) as Hle.
      rewrite (Permutation_length Hperm2) in Hlen. simpl in Hlen. lia.
    + exfalso.
      rewrite Hsb in Hbusy2.
      rewrite (busyRooms_all st2) in Hnow by assumption.
      rewrite <- (Hfree st1 reps1 r1 oth1) in Hnow by (auto; lia).
      pose proof (busyRooms_le st1 (startMin (st1 b)) oth1) as Hle.
      rewrite (Permutation_length Hperm1) in Hlen. simpl in Hlen. lia.
    + (* both take over a room *)
      eapply IH; eauto.
      * eapply sorted_sameTimes; eauto.
      * rewrite (Permutation_length Hperm1'), (Permutation_length Hperm2').
        rewrite (Permutation_length Hperm1), (Permutation_length Hperm2) in Hlen.
        simpl in *. lia.
      * intros t Hex. pose proof (Hlater t Hex) as Hlo.
        rewrite (busyRooms_sameTimes st1 (upd st1 b _)),
                (busyRooms_sameTimes st2 (upd st2 b _)) by auto with times.
        rewrite (busyRooms_perm st1 t _ _ Hperm1'),
                (busyRooms_perm st2 t _ _ Hperm2'), !busyRooms_cons.
        rewrite Hendb. f_equal.
        rewrite (Hfree st1 reps1 r1 oth1), (Hfree st2 reps2 r2 oth2)
          by (auto; lia).
        now apply Hpre.
Qed.

Lemma Scheduled_nil st : Scheduled st [] st 0.
Proof.
  constructor.
  - intros a b [].
  - intros b [].
  - intros d Hd. lia.
  - exists 0. reflexivity.
  - intros t. simpl. lia.
  - apply onlyDepth_refl.
Qed.

Lemma intervalScheduling2_Scheduled st blocks :
  NoDup blocks -> wellFormed st blocks -> freshDepth st blocks ->
  Scheduled st blocks (storeAfter (intervalScheduling2 st blocks))
            (columnsOf (intervalScheduling2 st blocks)).
Proof.
  intros Hnd Hwf Hfresh.
  destruct (sortBy (byStart st) blocks) as [|b0 rest] eqn:Hs.
  - apply sortBy_nil in Hs as Hnil. subst blocks.
    unfold intervalScheduling2. simpl. apply Scheduled_nil.
  - destruct (intervalScheduling2_run _ _ _ _ Hs) as (st' & reps & n & Hrun & ->).
    unfold storeAfter, columnsOf; simpl.
    eapply roomRun_Scheduled; eauto.
    apply Hfresh. apply (sortBy_In (byStart st)). rewrite Hs. now left.
Qed.

Lemma intervalScheduling_Scheduled st blocks :
  NoDup blocks -> wellFormed st blocks -> freshDepth st blocks ->
  Scheduled st blocks (storeAfter (intervalScheduling st blocks))
            (columnsOf (intervalScheduling st blocks)).
Proof.
  intros Hnd Hwf Hfresh.
  destruct (sortBy (byStart st) blocks) as [|b0 rest] eqn:Hs.
  - apply sortBy_nil in Hs as Hnil. subst blocks.
    unfold intervalScheduling. simpl. apply Scheduled_nil.
  - destruct (intervalScheduling_run _ _ _ _ Hs) as (st' & reps & n & Hrun & ->).
    unfold storeAfter, columnsOf; simpl.
    eapply roomRun_Scheduled; eauto.
    apply Hfresh. apply (sortBy_In (byStart st)). rewrite Hs. now left.
Qed.

Lemma intervalScheduling2_array st blocks :
  arrayAfter (intervalScheduling2 st blocks) = sortBy (byStart st) blocks.
Proof.
  unfold intervalScheduling2, arrayAfter.
  destruct (sortBy (byStart st) blocks); reflexivity.
Qed.

Lemma intervalScheduling_array st blocks :
  arrayAfter (intervalScheduling st blocks) = sortBy (byStart st) blocks.
Proof.
  unfold intervalScheduling, arrayAfter.
  destruct (sortBy (byStart st) blocks); reflexivity.
Qed.

(** With the depths exactly the values below [total], that many distinct
    depth values are in use. *)
Lemma Scheduled_distinct st blocks st' total :
  Scheduled st blocks st' total ->
  Z.of_nat (distinctDepths st' blocks) = total.
Proof.
  intros [_ Hrange Hused [t Ht] _ _].
  assert (Hpos : 0 <= total) by lia.
  unfold distinctDepths.
  set (ds := nodup Z.eq_dec (map (fun b => depth (st' b)) blocks)).
  assert (Hperm : Permutation ds (map Z.of_nat (seq 0 (Z.to_nat total)))).
  { apply NoDup_Permutation.
    - apply NoDup_nodup.
    - apply NoDup_map_inj_on; [intros; lia | apply seq_NoDup].
    - intros d. unfold ds. rewrite nodup_In, !in_map_iff. split.
      + intros (b & <- & Hb). specialize (Hrange b Hb).
        exists (Z.to_nat (depth (st' b))). split; [lia|]. apply in_seq. lia.
      + intros (k & <- & Hk). apply in_seq in Hk.
        destruct (Hused (Z.of_nat k) ltac:(lia)) as (b & Hb & Hd). eauto. }
  rewrite (Permutation_length Hperm), length_map, length_seq. lia.
Qed.

(** ** The conflict graph *)

Lemma inb_In b l : inb b l = true <-> In b l.
Proof.
  unfold inb. rewrite existsb_exists. split.
  - intros (x & Hx & He). apply Nat.eqb_eq in He. now subst.
  - intros H. exists b. split; [exact H | apply Nat.eqb_refl].
Qed.

Lemma inb_false b l : inb b l = false <-> ~ In b l.
Proof.
  rewrite <- inb_In. destruct (inb b l); split; intros; congruence.
Qed.

Lemma addNeighbors_nil blk : addNeighbors [] blk = blk.
Proof. destruct blk. unfold addNeighbors. simpl. now rewrite app_nil_r. Qed.

Lemma addNeighbors_app l1 l2 blk :
  addNeighbors l2 (addNeighbors l1 blk) = addNeighbors (l1 ++ l2) blk.
Proof. unfold addNeighbors. simpl. now rewrite app_assoc. Qed.

Lemma push_neighbor_add n blk : push_neighbor n blk = addNeighbors [n] blk.
Proof. reflexivity. Qed.

Lemma addNeighbors_times l : keepsTimes (addNeighbors l).
Proof. intros b; split; reflexivity. Qed.

Lemma conflict_addNeighbors l1 l2 a b :
  conflict (addNeighbors l1 a) (addNeighbors l2 b) = conflict a b.
Proof. reflexivity. Qed.

(** The inner loop of [constructAdjList] for the block [bi]. *)
Lemma addEdges_spec bi : forall rest st,
  ~ In bi rest -> NoDup rest ->
  forall b,
    fold_left (addEdge bi) rest st b
    = addNeighbors
        (if Nat.eqb b bi
         then filter (fun c => conflict (st bi) (st c)) rest
         else if inb b rest && conflict (st bi) (st b) then [bi] else [])
        (st b).
Proof.
  induction rest as [|x r IH]; intros st Hbi Hnd b; simpl.
  - destruct (Nat.eqb b bi); now rewrite addNeighbors_nil.
  - assert (Hx : x <> bi) by (intros ->; apply Hbi; now left).
    assert (Hbi' : ~ In bi r) by (intros H; apply Hbi; now right).
    inversion Hnd as [|? ? Hxr Hnd']; subst.
    set (st1 := addEdge bi st x).
    assert (Hst1 : forall i,
               st1 i = addNeighbors
                         (if conflict (st bi) (st x)
                          then if Nat.eqb i bi then [x]
                               else if Nat.eqb i x then [bi] else []
                          else []) (st i)).
    { intros i. unfold st1, addEdge.
      destruct (conflict (st bi) (st x)); [|now rewrite addNeighbors_nil].
      unfold upd. destruct (Nat.eqb_spec i bi) as [->|Hi].
      - apply Nat.eqb_neq in Hx. rewrite Nat.eqb_sym in Hx. now rewrite Hx.
      - destruct (Nat.eqb i x); [reflexivity | now rewrite addNeighbors_nil]. }
    assert (Hc : forall i j, conflict (st1 i) (st1 j) = conflict (st i) (st j)).
    { intros i j. rewrite !Hst1. apply conflict_addNeighbors. }
    rewrite (IH st1 Hbi' Hnd' b), Hc.
    rewrite (filter_ext (fun c => conflict (st1 bi) (st1 c))
                        (fun c => conflict (st bi) (st c)))
      by (intros c; apply Hc).
    rewrite (Hst1 b), addNeighbors_app. f_equal.
    destruct (Nat.eqb_spec b bi) as [->|Hb].
    + destruct (conflict (st bi) (st x)); reflexivity.
    + unfold inb at 2. simpl.
      destruct (Nat.eqb_spec b x) as [->|Hbx]; simpl.
      * assert (Hf : inb x r = false) by now apply inb_false.
        rewrite Hf. simpl.
        destruct (conflict (st bi) (st x)); reflexivity.
      * fold (inb b r).
        destruct (conflict (st bi) (st x)); reflexivity.
Qed.

Lemma fold_addEdge_times bi rest st : sameTimes st (fold_left (addEdge bi) rest st).
Proof.
  revert st. induction rest as [|x r IH]; intros st; simpl;
    [apply sameTimes_refl|].
  eapply sameTimes_trans; [|apply IH].
  unfold addEdge. destruct (conflict (st bi) (st x)); [|apply sameTimes_refl].
  eapply sameTimes_trans; apply sameTimes_upd; auto with times.
Qed.

(** [constructAdjList] pushes onto every block of the array the blocks of
    the array that conflict with it, each once and in array order, and
    changes nothing else. *)
Lemma constructAdjList_spec : forall blocks st,
  NoDup blocks ->
  forall b, constructAdjList blocks st b
            = addNeighbors (newNeighbors st blocks b) (st b).
Proof.
  induction blocks as [|bi rest IH]; intros st Hnd b; simpl.
  - unfold newNeighbors. simpl. now rewrite addNeighbors_nil.
  - inversion Hnd as [|? ? Hbi Hnd']; subst.
    set (st1 := fold_left (addEdge bi) rest st).
    pose proof (addEdges_spec bi rest st Hbi Hnd') as Hst1. fold st1 in Hst1.
    assert (Hc : forall i j, conflict (st1 i) (st1 j) = conflict (st i) (st j)).
    { intros i j. rewrite !Hst1. apply conflict_addNeighbors. }
    rewrite (IH st1 Hnd' b), (Hst1 b), addNeighbors_app. f_equal.
    unfold newNeighbors, conflictsOf, inb. simpl.
    rewrite (filter_ext (fun c => negb (c =? b)%nat && conflict (st1 b) (st1 c))
                        (fun c => negb (c =? b)%nat && conflict (st b) (st c)))
      by (intros c; now rewrite Hc).
    destruct (Nat.eqb_spec b bi) as [->|Hb]; simpl.
    + rewrite Nat.eqb_refl. simpl.
      assert (Hf : existsb (Nat.eqb bi) rest = false) by now apply inb_false.
      rewrite Hf, app_nil_r.
      apply filter_ext_in. intros c Hc'.
      assert (c <> bi) by (intros ->; contradiction).
      apply Nat.eqb_neq in H. now rewrite H.
    + assert (Hbb : (bi =? b)%nat = false)
        by (apply Nat.eqb_neq; congruence).
      rewrite Hbb. simpl. rewrite (conflict_sym (st b) (st bi)).
      fold (inb b rest).
      destruct (inb b rest); simpl;
        destruct (conflict (st bi) (st b)); simpl; reflexivity.
Qed.

(** ** The first traversal: [depthFirstSearchRec] *)

Lemma pathStep_refl st : pathStep st st.
Proof. intros i. now left. Qed.

Lemma pathStep_trans st1 st2 st3 :
  pathStep st1 st2 -> pathStep st2 st3 -> pathStep st1 st3.
Proof.
  intros H12 H23 i.
  destruct (H12 i) as [E1|(V1 & m1 & E1)], (H23 i) as [E2|(V2 & m2 & E2)].
  - left. congruence.
  - right. rewrite E1 in V2, E2. eauto.
  - right. rewrite E2. eauto.
  - rewrite E1 in V2. discriminate.
Qed.

Lemma pathStep_fields st st' i :
  pathStep st st' ->
  startMin (st' i) = startMin (st i) /\ endMin (st' i) = endMin (st i) /\
  depth (st' i) = depth (st i) /\ neighbors (st' i) = neighbors (st i) /\
  isFixed (st' i) = isFixed (st i) /\ left (st' i) = left (st i) /\
  width (st' i) = width (st i) /\ idx (st' i) = idx (st i) /\
  (visited (st i) = true -> st' i = st i).
Proof.
  intros H. destruct (H i) as [->|(V & m & ->)]; repeat split; auto.
  congruence.
Qed.

Lemma pathStep_depth st st' i : pathStep st st' -> depth (st' i) = depth (st i).
Proof. intros H. apply (pathStep_fields st st' i H). Qed.

Lemma pathStep_neighbors st st' i :
  pathStep st st' -> neighbors (st' i) = neighbors (st i).
Proof. intros H. apply (pathStep_fields st st' i H). Qed.

Lemma pathStep_visited st st' i :
  pathStep st st' -> visited (st i) = true -> visited (st' i) = true.
Proof.
  intros H V. destruct (pathStep_fields st st' i H) as (_&_&_&_&_&_&_&_&E).
  now rewrite E.
Qed.

Lemma pathStep_old st st' i :
  pathStep st st' -> visited (st i) = true -> st' i = st i.
Proof. intros H. apply (pathStep_fields st st' i H). Qed.

Lemma pathStep_sameTimes st st' : pathStep st st' -> sameTimes st st'.
Proof.
  intros H i. destruct (pathStep_fields st st' i H) as (A & B & _). auto.
Qed.

Lemma pathStep_mark st start m :
  visited (st start) = false ->
  pathStep st (upd (upd st start (set_visited true)) start (set_pathDepth m)).
Proof.
  intros V i. unfold upd. destruct (Nat.eqb_spec i start) as [->|Hne].
  - right. split; [exact V|]. exists m. reflexivity.
  - now left.
Qed.

Lemma closedAt_mono st st' x :
  pathStep st st' -> closedAt st x -> closedAt st' x.
Proof.
  intros H Hc w Hw Hd.
  rewrite (pathStep_neighbors _ _ _ H) in Hw.
  rewrite !(pathStep_depth _ _ _ H) in Hd.
  eapply pathStep_visited; eauto.
Qed.

Lemma closedIn_pathStep U st st' :
  pathStep st st' -> closedIn U st -> closedIn U st'.
Proof.
  intros H Hc x w Hx Hw. rewrite (pathStep_neighbors _ _ _ H) in Hw. eauto.
Qed.

Lemma dfs_loop maxDepth startDepth (rec : store -> nat -> option store) :
  (forall s a s1, visited (s a) = false -> rec s a = Some s1 ->
                  dfsPost maxDepth s a s1) ->
  forall l s s',
    foldM (dfsVisit rec startDepth) l s = Some s' ->
    pathStep s s' /\
    (forall x, visited (s x) = false -> visited (s' x) = true ->
               pathDepth (s' x) = maxDepth /\ depth (s x) < startDepth /\
               closedAt s' x) /\
    (forall w, In w l -> depth (s w) < startDepth -> visited (s' w) = true).
Proof.
  intros Hrec. induction l as [|a l IH]; intros s s' Hfold; simpl in Hfold.
  - injection Hfold as <-. split; [apply pathStep_refl|]. split.
    + intros x V V'. congruence.
    + intros w [].
  - destruct (dfsVisit rec startDepth s a) as [s1|] eqn:Hvisit; [|discriminate].
    destruct (IH s1 s' Hfold) as (Hstep2 & Hnew2 & Hseen2).
    unfold dfsVisit in Hvisit.
    destruct (negb (visited (s a)) && (depth (s a) <? startDepth)) eqn:Hcond.
    + apply andb_true_iff in Hcond as [Hva Hda].
      apply negb_true_iff in Hva. apply Z.ltb_lt in Hda.
      destruct (Hrec s a s1 Hva Hvisit) as (Hstep1 & Hvisa & Hnew1).
      split; [eapply pathStep_trans; eauto|]. split.
      * intros x V V'. destruct (visited (s1 x)) eqn:V1.
        -- destruct (Hnew1 x V V1) as (Hp & Hd & Hc).
           rewrite (pathStep_old _ _ _ Hstep2 V1).
           split; [exact Hp|]. split; [lia|].
           eapply closedAt_mono; eauto.
        -- destruct (Hnew2 x V1 V') as (Hp & Hd & Hc).
           rewrite (pathStep_depth _ _ _ Hstep1) in Hd. auto.
      * intros w [<-|Hw] Hd.
        -- eapply pathStep_visited; eauto.
        -- apply Hseen2; [exact Hw|].
           now rewrite (pathStep_depth _ _ _ Hstep1).
    + injection Hvisit as <-.
      split; [exact Hstep2|]. split; [exact Hnew2|].
      intros w [<-|Hw] Hd; [|now apply Hseen2].
      apply andb_false_iff in Hcond as [Hva|Hda].
      * apply negb_false_iff in Hva. eapply pathStep_visited; eauto.
      * apply Z.ltb_ge in Hda. lia.
Qed.

Lemma dfs_post : forall fuel maxDepth st start st',
  visited (st start) = false ->
  depthFirstSearchRec fuel maxDepth st start = Some st' ->
  dfsPost maxDepth st start st'.
Proof.
  induction fuel as [|fuel IH]; intros maxDepth st start st' V Hrun;
    simpl in Hrun; [discriminate|].
  set (st1 := upd (upd st start (set_visited true)) start
                  (set_pathDepth maxDepth)) in *.
  assert (Hstep1 : pathStep st st1) by now apply pathStep_mark.
  assert (Hst1 : st1 start = markPath maxDepth (st start)).
  { unfold st1. rewrite upd_same, upd_same. reflexivity. }
  assert (Hoth : forall x, x <> start -> st1 x = st x).
  { intros x Hx. unfold st1. now rewrite !upd_other. }
  destruct (dfs_loop maxDepth (depth (st1 start))
              (depthFirstSearchRec fuel maxDepth)
              (fun s a s1 Hv Hr => IH maxDepth s a s1 Hv Hr)
              _ _ _ Hrun) as (Hstep2 & Hnew & Hseen).
  assert (Hvs : visited (st1 start) = true) by (rewrite Hst1; reflexivity).
  assert (Hds : depth (st1 start) = depth (st start))
    by (rewrite Hst1; reflexivity).
  split; [eapply pathStep_trans; eauto|].
  split; [eapply pathStep_visited; eauto|].
  intros x Vx Vx'. destruct (Nat.eq_dec x start) as [->|Hne].
  - rewrite (pathStep_old _ _ _ Hstep2 Hvs), Hst1.
    split; [reflexivity|]. split; [lia|].
    intros w Hw Hd.
    rewrite (pathStep_neighbors _ _ _ Hstep2) in Hw.
    rewrite !(pathStep_depth _ _ _ Hstep2) in Hd.
    now apply Hseen.
  - rewrite <- (Hoth x Hne) in Vx.
    destruct (Hnew x Vx Vx') as (Hp & Hd & Hc).
    rewrite (Hoth x Hne), Hds in Hd. split; [exact Hp|]. split; [lia | exact Hc].
Qed.

(** *** Fuel: the unvisited blocks bound the recursion *)

Lemma unvisited_mono st st' U :
  (forall i, visited (st i) = true -> visited (st' i) = true) ->
  (length (unvisited st' U) <= length (unvisited st U))%nat.
Proof.
  intros Hm. unfold unvisited. induction U as [|x U IH]; simpl; [lia|].
  destruct (visited (st x)) eqn:V.
  - rewrite (Hm x V). simpl. exact IH.
  - destruct (visited (st' x)); simpl; lia.
Qed.

Lemma unvisited_strict st st' U x :
  (forall i, visited (st i) = true -> visited (st' i) = true) ->
  In x U -> visited (st x) = false -> visited (st' x) = true ->
  (length (unvisited st' U) < length (unvisited st U))%nat.
Proof.
  intros Hm. induction U as [|y U IH]; simpl; [tauto|].
  intros [->|Hx] V V'.
  - unfold unvisited. simpl. rewrite V, V'. simpl.
    pose proof (unvisited_mono st st' U Hm). unfold unvisited in *. lia.
  - specialize (IH Hx V V'). unfold unvisited in *. simpl.
    destruct (visited (st y)) eqn:Vy.
    + rewrite (Hm y Vy). simpl. exact IH.
    + destruct (visited (st' y)); simpl; lia.
Qed.

Lemma unvisited_pos st U x :
  In x U -> visited (st x) = false -> (0 < length (unvisited st U))%nat.
Proof.
  intros Hx V.
  assert (In x (unvisited st U)) by (apply filter_In; now rewrite V).
  destruct (unvisited st U); [contradiction | simpl; lia].
Qed.

(** The first traversal returns when given as much fuel as there are
    unvisited blocks. *)
Lemma dfs_returns U : forall fuel maxDepth st start,
  closedIn U st -> In start U -> visited (st start) = false ->
  (length (unvisited st U) <= fuel)%nat ->
  exists st', depthFirstSearchRec fuel maxDepth st start = Some st'.
Proof.
  induction fuel as [|fuel IH]; intros maxDepth st start Hcl Hs V Hfuel.
  - pose proof (unvisited_pos st U start Hs V). lia.
  - simpl.
    set (st1 := upd (upd st start (set_visited true)) start
                    (set_pathDepth maxDepth)).
    assert (Hstep1 : pathStep st st1) by now apply pathStep_mark.
    assert (Hvs : visited (st1 start) = true).
    { unfold st1. rewrite upd_same, upd_same. reflexivity. }
    assert (Hlt : (length (unvisited st1 U) <= fuel)%nat).
    { pose proof (unvisited_strict st st1 U start
                    (fun i => pathStep_visited _ _ i Hstep1) Hs V Hvs). lia. }
    assert (Hl : incl (neighbors (st1 start)) U).
    { intros w Hw. rewrite (pathStep_neighbors _ _ _ Hstep1) in Hw. eauto. }
    generalize dependent (neighbors (st1 start)). intros l Hl.
    assert (Hgen : forall s, pathStep st1 s ->
              exists s', foldM (dfsVisit (depthFirstSearchRec fuel maxDepth)
                                         (depth (st1 start))) l s = Some s').
    { induction l as [|a l IHl]; intros s Hs1; simpl; [eauto|].
      assert (Ha : In a U) by (apply Hl; now left).
      assert (Hl' : incl l U) by (intros w Hw; apply Hl; now right).
      unfold dfsVisit at 1.
      destruct (negb (visited (s a)) && (depth (s a) <? depth (st1 start)))
        eqn:Hcond.
      - apply andb_true_iff in Hcond as [Hva _]. apply negb_true_iff in Hva.
        destruct (IH maxDepth s a) as [s1 Hs1'].
        + eapply closedIn_pathStep; [|exact Hcl].
          eapply pathStep_trans; eauto.
        + exact Ha.
        + exact Hva.
        + pose proof (unvisited_mono st1 s U
                        (fun i => pathStep_visited _ _ i Hs1)). lia.
        + rewrite Hs1'. apply IHl; [exact Hl'|].
          eapply pathStep_trans; [exact Hs1|].
          apply (dfs_post _ _ _ _ _ Hva Hs1').
      - apply IHl; assumption. }
    apply Hgen, pathStep_refl.
Qed.

(** ** The second traversal: [DFSFindFixed] *)

Lemma fixStep_refl st : fixStep st st.
Proof. intros i. now left. Qed.

Lemma fixStep_trans st1 st2 st3 :
  fixStep st1 st2 -> fixStep st2 st3 -> fixStep st1 st3.
Proof.
  intros H12 H23 i.
  destruct (H12 i) as [E1|(V1 & m1 & E1)], (H23 i) as [E2|(V2 & m2 & E2)].
  - left. congruence.
  - right. rewrite E1 in V2, E2. eauto.
  - right. rewrite E2. eauto.
  - rewrite E1 in V2. discriminate.
Qed.

Lemma fixStep_fields st st' i :
  fixStep st st' ->
  startMin (st' i) = startMin (st i) /\ endMin (st' i) = endMin (st i) /\
  depth (st' i) = depth (st i) /\ neighbors (st' i) = neighbors (st i) /\
  pathDepth (st' i) = pathDepth (st i) /\ left (st' i) = left (st i) /\
  width (st' i) = width (st i) /\ idx (st' i) = idx (st i) /\
  (visited (st i) = true -> st' i = st i).
Proof.
  intros H. destruct (H i) as [->|(V & m & ->)]; repeat split; auto.
  congruence.
Qed.

Lemma fixStep_depth st st' i : fixStep st st' -> depth (st' i) = depth (st i).
Proof. intros H. apply (fixStep_fields st st' i H). Qed.

Lemma fixStep_pathDepth st st' i :
  fixStep st st' -> pathDepth (st' i) = pathDepth (st i).
Proof. intros H. apply (fixStep_fields st st' i H). Qed.

Lemma fixStep_neighbors st st' i :
  fixStep st st' -> neighbors (st' i) = neighbors (st i).
Proof. intros H. apply (fixStep_fields st st' i H). Qed.

Lemma fixStep_old st st' i :
  fixStep st st' -> visited (st i) = true -> st' i = st i.
Proof. intros H. apply (fixStep_fields st st' i H). Qed.

Lemma fixStep_visited st st' i :
  fixStep st st' -> visited (st i) = true -> visited (st' i) = true.
Proof. intros H V. now rewrite (fixStep_old _ _ _ H V). Qed.

Lemma fixStep_sameTimes st st' : fixStep st st' -> sameTimes st st'.
Proof.
  intros H i. destruct (fixStep_fields st st' i H) as (A & B & _). auto.
Qed.

Lemma closedIn_fixStep U st st' :
  fixStep st st' -> closedIn U st -> closedIn U st'.
Proof.
  intros H Hc x w Hx Hw. rewrite (fixStep_neighbors _ _ _ H) in Hw. eauto.
Qed.

Lemma fixStep_enter st start :
  visited (st start) = false -> fixStep st (upd st start (set_visited true)).
Proof.
  intros V i. unfold upd. destruct (Nat.eqb_spec i start) as [->|Hne].
  - right. split; [exact V|]. exists (isFixed (st start)).
    now destruct (st start).
  - now left.
Qed.

(** Leaving a block: its flag is written, the block having been entered
    earlier in the same call. *)
Lemma fixStep_leave st s start flag :
  visited (st start) = false ->
  fixStep (upd st start (set_visited true)) s ->
  fixStep st (upd s start (set_isFixed flag)).
Proof.
  intros V Hs i. unfold upd. destruct (Nat.eqb_spec i start) as [->|Hne].
  - right. split; [exact V|]. exists flag.
    assert (E : s start = set_visited true (st start)).
    { rewrite (fixStep_old _ _ _ Hs); [now rewrite upd_same|].
      now rewrite upd_same. }
    rewrite E. reflexivity.
  - destruct (Hs i) as [E|(Vi & f & E)]; rewrite upd_other in * by assumption.
    + now left.
    + right. eauto.
Qed.

(** The frame of a call of the second traversal. *)
Lemma fixed_loop_frame startDepth pDepth
    (rec : store -> nat -> option (store * bool)) :
  (forall s a s1 r, visited (s a) = false -> rec s a = Some (s1, r) ->
                    fixStep s s1 /\ visited (s1 a) = true) ->
  forall l s flag s' flag',
    foldM (fixedVisit rec startDepth pDepth) l (s, flag) = Some (s', flag') ->
    fixStep s s'.
Proof.
  intros Hrec. induction l as [|a l IH]; intros s flag s' flag' Hfold;
    cbn [foldM] in Hfold.
  - injection Hfold as <- <-. apply fixStep_refl.
  - destruct (fixedVisit rec startDepth pDepth (s, flag) a)
      as [[s1 flag1]|] eqn:Hvisit; [|discriminate].
    apply IH in Hfold. eapply fixStep_trans; [|exact Hfold].
    unfold fixedVisit in Hvisit. cbv beta iota in Hvisit.
    destruct (visited (s a)) eqn:Va.
    + injection Hvisit as <- <-. apply fixStep_refl.
    + destruct (samePath startDepth pDepth (s a)).
      * destruct (rec s a) as [[s2 r]|] eqn:Hr; [|discriminate].
        injection Hvisit as <- <-. now apply (Hrec s a s2 r Va).
      * injection Hvisit as <- <-. apply fixStep_refl.
Qed.

Lemma fixed_frame : forall fuel st start st' r,
  visited (st start) = false ->
  DFSFindFixed fuel st start = Some (st', r) ->
  fixStep st st' /\ visited (st' start) = true.
Proof.
  induction fuel as [|fuel IH]; intros st start st' r V Hrun;
    simpl in Hrun; [discriminate|].
  set (st1 := upd st start (set_visited true)) in *.
  destruct (depth (st1 start) =? 0).
  - injection Hrun as <- <-. split.
    + apply fixStep_leave; [exact V | apply fixStep_refl].
    + unfold st1. now rewrite !upd_same.
  - destruct (foldM _ _ _) as [[s flag]|] eqn:Hfold; [|discriminate].
    injection Hrun as <- <-.
    apply (fixed_loop_frame _ _ _ (IH)) in Hfold.
    split; [now apply fixStep_leave|].
    rewrite upd_same.
    change (visited (s start) = true).
    apply (fixStep_visited _ _ _ Hfold). unfold st1. now rewrite upd_same.
Qed.

(** The second traversal returns when given as much fuel as there are
    unvisited blocks. *)
Lemma fixed_returns U : forall fuel st start,
  closedIn U st -> In start U -> visited (st start) = false ->
  (length (unvisited st U) <= fuel)%nat ->
  exists st' r, DFSFindFixed fuel st start = Some (st', r).
Proof.
  induction fuel as [|fuel IH]; intros st start Hcl Hs V Hfuel.
  - pose proof (unvisited_pos st U start Hs V). lia.
  - simpl. set (st1 := upd st start (set_visited true)).
    destruct (depth (st1 start) =? 0); [eauto|].
    assert (Hstep1 : fixStep st st1) by now apply fixStep_enter.
    assert (Hvs : visited (st1 start) = true)
      by (unfold st1; now rewrite upd_same).
    assert (Hlt : (length (unvisited st1 U) <= fuel)%nat).
    { pose proof (unvisited_strict st st1 U start
                    (fun i => fixStep_visited _ _ i Hstep1) Hs V Hvs). lia. }
    assert (Hl : incl (neighbors (st1 start)) U).
    { intros w Hw. rewrite (fixStep_neighbors _ _ _ Hstep1) in Hw. eauto. }
    generalize dependent (neighbors (st1 start)). intros l Hl.
    assert (Hgen : forall s flag, fixStep st1 s ->
              exists s' flag',
                foldM (fixedVisit (DFSFindFixed fuel) (depth (st1 start))
                                  (pathDepth (st1 start))) l (s, flag)
                = Some (s', flag')).
    { induction l as [|a l IHl]; intros s flag Hs1; cbn [foldM]; [eauto|].
      assert (Ha : In a U) by (apply Hl; now left).
      assert (Hl' : incl l U) by (intros w Hw; apply Hl; now right).
      unfold fixedVisit at 1. cbv beta iota.
      destruct (visited (s a)) eqn:Va; [now apply IHl|].
      destruct (samePath _ _ (s a)); [|now apply IHl].
      destruct (IH s a) as (s1 & r & Hs1').
      - eapply closedIn_fixStep; [|exact Hcl].
        eapply fixStep_trans; eauto.
      - exact Ha.
      - exact Va.
      - pose proof (unvisited_mono st1 s U
                      (fun i => fixStep_visited _ _ i Hs1)). lia.
      - rewrite Hs1'. apply IHl; [exact Hl'|].
        eapply fixStep_trans; [exact Hs1|].
        apply (fixed_frame _ _ _ _ _ Va Hs1'). }
    destruct (Hgen st1 false (fixStep_refl _)) as (s' & flag' & ->). eauto.
Qed.

(** ** [calculateMaxDepth] *)

Lemma sameGraph_refl st : sameGraph st st.
Proof. intros i. repeat split. Qed.

Lemma sameGraph_trans st1 st2 st3 :
  sameGraph st1 st2 -> sameGraph st2 st3 -> sameGraph st1 st3.
Proof.
  intros H12 H23 i.
  destruct (H12 i) as (A1&A2&A3&A4&A5&A6&A7),
           (H23 i) as (B1&B2&B3&B4&B5&B6&B7).
  repeat split; congruence.
Qed.

Lemma pathStep_sameGraph st st' : pathStep st st' -> sameGraph st st'.
Proof.
  intros H i. destruct (pathStep_fields st st' i H) as (A&B&C&D&E&F&G&I&_).
  repeat split; assumption.
Qed.

Lemma fixStep_sameGraph st st' : fixStep st st' -> sameGraph st st'.
Proof.
  intros H i. destruct (fixStep_fields st st' i H) as (A&B&C&D&E&F&G&I&_).
  repeat split; assumption.
Qed.

Lemma clearVisited_spec l : forall st i,
  fold_left clearVisited l st i
  = if inb i l then set_visited false (st i) else st i.
Proof.
  induction l as [|x l IH]; intros st i; simpl; [reflexivity|].
  rewrite IH. unfold clearVisited, upd, inb. simpl.
  rewrite (Nat.eqb_sym i x).
  destruct (Nat.eqb x i); simpl; [|reflexivity].
  destruct (existsb (Nat.eqb i) l); reflexivity.
Qed.

Lemma clearVisited_sameGraph l st : sameGraph st (fold_left clearVisited l st).
Proof.
  intros i. rewrite clearVisited_spec. destruct (inb i l); repeat split.
Qed.

Lemma clearVisited_pathDepth l st i :
  pathDepth (fold_left clearVisited l st i) = pathDepth (st i).
Proof. rewrite clearVisited_spec. now destruct (inb i l). Qed.

Lemma clearVisited_isFixed l st i :
  isFixed (fold_left clearVisited l st i) = isFixed (st i).
Proof. rewrite clearVisited_spec. now destruct (inb i l). Qed.

Lemma clearVisited_visited l st i :
  In i l -> visited (fold_left clearVisited l st i) = false.
Proof.
  intros H. rewrite clearVisited_spec. apply inb_In in H. now rewrite H.
Qed.

Lemma unvisited_length st U : (length (unvisited st U) <= length U)%nat.
Proof. apply filter_length_le. Qed.

Lemma sorted_depth_pathStep st st' l :
  pathStep st st' ->
  StronglySorted (fun x y => depth (st y) <= depth (st x)) l ->
  StronglySorted (fun x y => depth (st' y) <= depth (st' x)) l.
Proof.
  intros Hs. induction 1 as [|x l Hsl IH Hall]; constructor; [exact IH|].
  eapply Forall_impl; [|exact Hall]. intros y Hy. simpl in *.
  now rewrite !(pathStep_depth _ _ _ Hs).
Qed.

(** The loop over the roots of the first traversal returns. *)
Lemma pathRoots_returns U fuel :
  (length U <= fuel)%nat ->
  forall todo s,
    closedIn U s -> incl todo U ->
    exists s', foldM (pathRoot fuel) todo s = Some s' /\ pathStep s s'.
Proof.
  intros Hfuel. induction todo as [|r todo IH]; intros s Hcl Hincl.
  - exists s. split; [reflexivity | apply pathStep_refl].
  - assert (Hr : In r U) by (apply Hincl; now left).
    assert (Hincl' : incl todo U) by (intros x Hx; apply Hincl; now right).
    cbn [foldM]. unfold pathRoot at 1.
    destruct (visited (s r)) eqn:Vr; simpl.
    + apply IH; assumption.
    + destruct (dfs_returns U fuel (depth (s r) + 1) s r Hcl Hr Vr)
        as [s1 Hs1].
      { pose proof (unvisited_length s U). lia. }
      rewrite Hs1.
      destruct (dfs_post _ _ _ _ _ Vr Hs1) as (Hstep1 & _).
      destruct (IH s1 (closedIn_pathStep _ _ _ Hstep1 Hcl) Hincl')
        as (s' & Hrun & Hstep).
      exists s'. split; [exact Hrun | eapply pathStep_trans; eauto].
Qed.

Lemma pathRoots_step fuel : forall todo s s',
  foldM (pathRoot fuel) todo s = Some s' -> pathStep s s'.
Proof.
  induction todo as [|a todo IH]; intros s s' Hrun; cbn [foldM] in Hrun.
  - injection Hrun as <-. apply pathStep_refl.
  - destruct (pathRoot fuel s a) as [s1|] eqn:Ha; [|discriminate].
    eapply pathStep_trans; [|apply (IH s1 s' Hrun)].
    unfold pathRoot in Ha. destruct (visited (s a)) eqn:Va; simpl in Ha.
    + injection Ha as <-. apply pathStep_refl.
    + apply (dfs_post _ _ _ _ _ Va Ha).
Qed.

(** The loop over the roots, taken in descending depth, establishes the
    invariant for every block of the weekday. *)
Lemma pathRoots_inv U fuel :
  forall todo s s',
    closedIn U s ->
    StronglySorted (fun x y => depth (s y) <= depth (s x)) todo ->
    pathInv U s todo ->
    foldM (pathRoot fuel) todo s = Some s' ->
    pathInv U s' [] /\ forall x, In x todo -> visited (s' x) = true.
Proof.
  induction todo as [|r todo IH]; intros s s' Hcl Hsort Hinv Hrun;
    cbn [foldM] in Hrun.
  - injection Hrun as <-. split; [exact Hinv | intros x []].
  - inversion Hsort as [|? ? Hsort' Hall]; subst.
    rewrite Forall_forall in Hall.
    destruct (pathRoot fuel s r) as [s1|] eqn:Hroot; [|discriminate].
    unfold pathRoot in Hroot.
    destruct (visited (s r)) eqn:Vr; simpl in Hroot.
    + injection Hroot as <-.
      destruct (IH s s' Hcl Hsort') as (Hinv' & Hvis); auto.
      * intros x Hx Vx. destruct (Hinv x Hx Vx) as (A & B & C & D).
        split; [exact A|]. split; [exact B|]. split; [|exact D].
        intros r' Hr'. apply C. now right.
      * split; [exact Hinv'|].
        intros x [<-|Hx]; [|auto].
        eapply pathStep_visited; [eapply pathRoots_step; eauto | exact Vr].
    + destruct (dfs_post _ _ _ _ _ Vr Hroot) as (Hstep1 & Hvr & Hnew).
      destruct (IH s1 s') as (Hinv' & Hvis); auto.
      * eapply closedIn_pathStep; eauto.
      * eapply sorted_depth_pathStep; eauto.
      * intros x Hx Vx. destruct (visited (s x)) eqn:Vx0.
        -- (* visited before this root *)
           destruct (Hinv x Hx Vx0) as (A & B & C & D).
           rewrite (pathStep_old _ _ _ Hstep1 Vx0).
           split; [|split; [exact B | split]].
           ++ eapply closedAt_mono; eauto.
           ++ intros r' Hr'. rewrite (pathStep_depth _ _ _ Hstep1).
              apply C. now right.
           ++ intros w Hw Hd. rewrite (pathStep_depth _ _ _ Hstep1) in Hd.
              rewrite (pathStep_old _ _ w Hstep1); [now apply D|].
              now apply A.
        -- (* visited from this root *)
           destruct (Hnew x Vx0 Vx) as (Hp & Hd & Hc).
           rewrite Hp, (pathStep_depth _ _ _ Hstep1).
           split; [exact Hc|]. split; [lia|]. split.
           ++ intros r' Hr'. rewrite (pathStep_depth _ _ _ Hstep1).
              specialize (Hall r' Hr'). simpl in Hall. lia.
           ++ intros w Hw Hdw.
              assert (Vw : visited (s1 w) = true).
              { apply Hc; [exact Hw|].
                now rewrite (pathStep_depth _ _ x Hstep1). }
              destruct (visited (s w)) eqn:Vw0.
              ** rewrite (pathStep_old _ _ _ Hstep1 Vw0).
                 rewrite (pathStep_neighbors _ _ _ Hstep1) in Hw.
                 destruct (Hinv w (Hcl x w Hx Hw) Vw0) as (_ & _ & C & _).
                 apply C. now left.
              ** destruct (Hnew w Vw0 Vw) as (Hpw & _). lia.
      * split; [exact Hinv'|].
        intros x [<-|Hx]; [|auto].
        eapply pathStep_visited; [eapply pathRoots_step; eauto | exact Hvr].
Qed.

(** The loop over the seeds of the second traversal. *)
Lemma fixedRoots_run U fuel :
  (length U <= fuel)%nat ->
  forall todo s,
    closedIn U s -> incl todo U ->
    exists s', foldM (fixedRoot fuel) todo s = Some s' /\ fixStep s s'.
Proof.
  intros Hfuel. induction todo as [|r todo IH]; intros s Hcl Hincl.
  - exists s. split; [reflexivity | apply fixStep_refl].
  - assert (Hr : In r U) by (apply Hincl; now left).
    assert (Hincl' : incl todo U) by (intros x Hx; apply Hincl; now right).
    cbn [foldM]. unfold fixedRoot at 1.
    destruct (negb (visited (s r)) && isLocalTop s r) eqn:Hcond.
    + apply andb_true_iff in Hcond as [Vr _]. apply negb_true_iff in Vr.
      destruct (fixed_returns U fuel s r Hcl Hr Vr) as (s1 & f & Hs1).
      { pose proof (unvisited_length s U). lia. }
      rewrite Hs1. simpl.
      destruct (fixed_frame _ _ _ _ _ Vr Hs1) as (Hstep1 & _).
      destruct (IH s1 (closedIn_fixStep _ _ _ Hstep1 Hcl) Hincl')
        as (s' & Hrun & Hstep).
      exists s'. split; [exact Hrun | eapply fixStep_trans; eauto].
    + destruct (IH s Hcl Hincl') as (s' & Hrun & Hstep). eauto.
Qed.

Lemma fixedRoots_step fuel : forall todo s s',
  foldM (fixedRoot fuel) todo s = Some s' -> fixStep s s'.
Proof.
  induction todo as [|a todo IH]; intros s s' Hrun; cbn [foldM] in Hrun.
  - injection Hrun as <-. apply fixStep_refl.
  - destruct (fixedRoot fuel s a) as [s1|] eqn:Ha; [|discriminate].
    eapply fixStep_trans; [|apply (IH s1 s' Hrun)].
    unfold fixedRoot in Ha.
    destruct (negb (visited (s a)) && isLocalTop s a) eqn:Hcond.
    + apply andb_true_iff in Hcond as [Va _]. apply negb_true_iff in Va.
      destruct (DFSFindFixed fuel s a) as [[s2 r]|] eqn:Hf; [|discriminate].
      injection Ha as <-. apply (fixed_frame _ _ _ _ _ Va Hf).
    + injection Ha as <-. apply fixStep_refl.
Qed.

Lemma closedIn_perm U U' st :
  (forall x, In x U <-> In x U') -> closedIn U st -> closedIn U' st.
Proof.
  intros H Hc x w Hx Hw. apply H. eapply Hc; [apply H; exact Hx | exact Hw].
Qed.

Lemma closedIn_sameGraph U st st' :
  sameGraph st st' -> closedIn U st -> closedIn U st'.
Proof.
  intros H Hc x w Hx Hw. destruct (H x) as (_&_&_&E&_). rewrite E in Hw. eauto.
Qed.

(** The three stores [calculateMaxDepth] passes through. *)
Lemma calculateMaxDepth_inv st blocks st' blocks' :
  calculateMaxDepth st blocks = Some (st', blocks') ->
  exists st1 st3,
    blocks' = sortBy (byDepthDesc st) blocks /\
    foldM (pathRoot (length (sortBy (byDepthDesc st) blocks)))
          (sortBy (byDepthDesc st) blocks) st = Some st1 /\
    foldM (fixedRoot (length (sortBy (byDepthDesc st) blocks)))
          (sortBy (byDepthDesc st) blocks)
          (fold_left clearVisited (sortBy (byDepthDesc st) blocks) st1)
    = Some st3 /\
    st' = st3.
Proof.
  unfold calculateMaxDepth. intros H.
  set (sorted := sortBy (byDepthDesc st) blocks) in *. cbv zeta in H.
  destruct (foldM (pathRoot (length sorted)) sorted st) as [st1|] eqn:H1;
    [|discriminate].
  destruct (foldM (fixedRoot (length sorted)) sorted
                  (fold_left clearVisited sorted st1)) as [st3|] eqn:H3;
    [|discriminate].
  injection H as <- <-. exists st1, st3. auto.
Qed.

Lemma calculateMaxDepth_returns st blocks :
  closedIn blocks st ->
  exists st', calculateMaxDepth st blocks
              = Some (st', sortBy (byDepthDesc st) blocks).
Proof.
  intros Hcl. unfold calculateMaxDepth.
  set (sorted := sortBy (byDepthDesc st) blocks).
  assert (Hcl' : closedIn sorted st).
  { eapply closedIn_perm; [|exact Hcl]. intros x. symmetry. apply sortBy_In. }
  destruct (pathRoots_returns sorted (length sorted) (le_n _) sorted st Hcl'
              (fun x H => H)) as (st1 & -> & Hstep1).
  destruct (fixedRoots_run sorted (length sorted) (le_n _) sorted
              (fold_left clearVisited sorted st1)) as (st3 & -> & Hstep3).
  - eapply closedIn_sameGraph; [apply clearVisited_sameGraph|].
    eapply closedIn_pathStep; eauto.
  - intros x H. exact H.
  - eauto.
Qed.

Lemma calculateMaxDepth_sameGraph st blocks st' blocks' :
  calculateMaxDepth st blocks = Some (st', blocks') -> sameGraph st st'.
Proof.
  intros H. destruct (calculateMaxDepth_inv _ _ _ _ H)
    as (st1 & st3 & _ & H1 & H3 & ->).
  eapply sameGraph_trans; [apply pathStep_sameGraph, (pathRoots_step _ _ _ _ H1)|].
  eapply sameGraph_trans; [apply clearVisited_sameGraph|].
  apply fixStep_sameGraph, (fixedRoots_step _ _ _ _ H3).
Qed.

(** After [calculateMaxDepth] on a weekday whose blocks enter unvisited,
    the path depth of a block exceeds its depth and does not exceed the
    path depth of any neighbour at a lower depth. *)
Lemma calculateMaxDepth_paths st blocks st' blocks' :
  closedIn blocks st ->
  (forall b, In b blocks -> visited (st b) = false) ->
  calculateMaxDepth st blocks = Some (st', blocks') ->
  (forall x, In x blocks -> depth (st x) + 1 <= pathDepth (st' x)) /\
  (forall x w, In x blocks -> In w (neighbors (st x)) ->
               depth (st w) < depth (st x) ->
               pathDepth (st' x) <= pathDepth (st' w)).
Proof.
  intros Hcl Hfresh H.
  destruct (calculateMaxDepth_inv _ _ _ _ H) as (st1 & st3 & _ & H1 & H3 & ->).
  set (sorted := sortBy (byDepthDesc st) blocks) in *.
  assert (Hin : forall x, In x sorted <-> In x blocks)
    by (intros x; apply sortBy_In).
  assert (Hcl' : closedIn sorted st).
  { eapply closedIn_perm; [|exact Hcl]. intros x. symmetry. apply Hin. }
  destruct (pathRoots_inv sorted (length sorted) sorted st st1 Hcl'
              (sortByDepth_sorted st blocks)) as (Hinv & Hvis); auto.
  { intros x Hx Vx. apply Hin in Hx. rewrite (Hfresh x Hx) in Vx. discriminate. }
  pose proof (pathRoots_step _ _ _ _ H1) as Hs1.
  pose proof (fixedRoots_step _ _ _ _ H3) as Hs3.
  assert (Hpd : forall i, pathDepth (st3 i) = pathDepth (st1 i)).
  { intros i. now rewrite (fixStep_pathDepth _ _ _ Hs3), clearVisited_pathDepth. }
  split.
  - intros x Hx. apply Hin in Hx.
    destruct (Hinv x Hx (Hvis x Hx)) as (_ & B & _).
    rewrite Hpd, <- (pathStep_depth _ _ _ Hs1). exact B.
  - intros x w Hx Hw Hd. apply Hin in Hx.
    destruct (Hinv x Hx (Hvis x Hx)) as (_ & _ & _ & D).
    rewrite !Hpd. apply D.
    + now rewrite (pathStep_neighbors _ _ _ Hs1).
    + now rewrite !(pathStep_depth _ _ _ Hs1).
Qed.

(** ** [BFS] *)

Lemma visStep_refl st : visStep st st.
Proof. intros i. now left. Qed.

Lemma visStep_trans st1 st2 st3 :
  visStep st1 st2 -> visStep st2 st3 -> visStep st1 st3.
Proof.
  intros H12 H23 i.
  destruct (H12 i) as [E1|(V1 & E1)], (H23 i) as [E2|(V2 & E2)].
  - left. congruence.
  - right. rewrite E1 in V2, E2. eauto.
  - right. rewrite E2. eauto.
  - rewrite E1 in V2. discriminate.
Qed.

Lemma visStep_fields st st' i :
  visStep st st' ->
  st' i = set_visited (visited (st' i)) (st i) /\
  (visited (st i) = true -> st' i = st i).
Proof.
  intros H. destruct (H i) as [->|(V & ->)]; split; auto.
  - now destruct (st i).
  - congruence.
Qed.

Lemma visStep_visited st st' i :
  visStep st st' -> visited (st i) = true -> visited (st' i) = true.
Proof.
  intros H V. destruct (visStep_fields st st' i H) as [_ E]. now rewrite E.
Qed.

Lemma visStep_sameGraph st st' : visStep st st' -> sameGraph st st'.
Proof.
  intros H i. destruct (visStep_fields st st' i H) as [-> _]. repeat split.
Qed.

Lemma visStep_pathDepth st st' i :
  visStep st st' -> pathDepth (st' i) = pathDepth (st i).
Proof. intros H. now destruct (visStep_fields st st' i H) as [-> _]. Qed.

Lemma visStep_isFixed st st' i :
  visStep st st' -> isFixed (st' i) = isFixed (st i).
Proof. intros H. now destruct (visStep_fields st st' i H) as [-> _]. Qed.

Lemma visStep_mark st x :
  visited (st x) = false -> visStep st (upd st x (set_visited true)).
Proof.
  intros V i. unfold upd. destruct (Nat.eqb_spec i x) as [->|]; auto.
Qed.

(** One pass over the neighbours of the current block: the component
    grows by the blocks newly marked. *)
Lemma bfsVisit_fold U : forall l s comp s' comp',
  incl l U ->
  fold_left bfsVisit l (s, comp) = (s', comp') ->
  visStep s s' /\
  exists new, comp' = comp ++ new /\ incl new l /\
    (length new + length (unvisited s' U) <= length (unvisited s U))%nat.
Proof.
  induction l as [|a l IH]; intros s comp s' comp' Hl Hfold; simpl in Hfold.
  - injection Hfold as <- <-. split; [apply visStep_refl|].
    exists []. rewrite app_nil_r. repeat split; auto. intros x [].
  - assert (Ha : In a U) by (apply Hl; now left).
    assert (Hl' : incl l U) by (intros x Hx; apply Hl; now right).
    destruct (negb (visited (s a)) && negb (isFixed (s a))) eqn:Hcond.
    + apply andb_true_iff in Hcond as [Va _]. apply negb_true_iff in Va.
      destruct (IH _ _ _ _ Hl' Hfold) as (Hstep & new & -> & Hnew & Hlen).
      pose proof (visStep_mark s a Va) as Hm.
      split; [eapply visStep_trans; eauto|].
      exists (a :: new). rewrite <- app_assoc. split; [reflexivity|]. split.
      * intros x [<-|Hx]; [now left | right; now apply Hnew].
      * pose proof (unvisited_strict s (upd s a (set_visited true)) U a
                      (fun i => visStep_visited _ _ i Hm) Ha Va
                      ltac:(now rewrite upd_same)).
        simpl. lia.
    + destruct (IH _ _ _ _ Hl' Hfold) as (Hstep & new & -> & Hnew & Hlen).
      split; [exact Hstep|]. exists new. repeat split; auto.
      intros x Hx. right. now apply Hnew.
Qed.

Lemma closedIn_visStep U st st' :
  visStep st st' -> closedIn U st -> closedIn U st'.
Proof. intros H. apply closedIn_sameGraph, visStep_sameGraph, H. Qed.

(** The queue loop of [BFS] returns once the fuel exceeds the blocks still
    queued plus the blocks still unvisited. *)
Lemma bfsLoop_returns U : forall fuel s comp qIdx,
  closedIn U s -> incl comp U ->
  (length comp - qIdx + length (unvisited s U) < fuel)%nat ->
  exists s' comp',
    bfsLoop fuel s comp qIdx = Some (s', comp') /\ visStep s s' /\
    incl comp' U.
Proof.
  induction fuel as [|fuel IH]; intros s comp qIdx Hcl Hcomp Hm; [lia|].
  simpl. destruct (nth_error comp qIdx) as [cur|] eqn:Hcur.
  - assert (Hq : (qIdx < length comp)%nat)
      by (apply nth_error_Some; congruence).
    assert (HcurU : In cur U) by (eapply Hcomp, nth_error_In; eauto).
    destruct (fold_left bfsVisit (neighbors (s cur)) (s, comp))
      as [s1 comp1] eqn:Hfold.
    destruct (bfsVisit_fold U _ _ _ _ _ (fun w Hw => Hcl cur w HcurU Hw) Hfold)
      as (Hstep & new & -> & Hnew & Hlen).
    destruct (IH s1 (comp ++ new) (S qIdx)) as (s' & comp' & Hrun & Hstep' & Hc').
    + eapply closedIn_visStep; eauto.
    + intros x Hx. apply in_app_or in Hx as [Hx|Hx]; [auto|].
      eapply Hcl; [exact HcurU | now apply Hnew].
    + rewrite length_app. lia.
    + exists s', comp'. split; [exact Hrun|].
      split; [eapply visStep_trans; eauto | exact Hc'].
  - exists s, comp. split; [reflexivity|]. split; [apply visStep_refl | exact Hcomp].
Qed.

Lemma BFS_returns U fuel s start :
  closedIn U s -> In start U -> visited (s start) = false ->
  (length U < fuel)%nat ->
  exists s' comp, BFS fuel s start = Some (s', comp) /\ visStep s s'.
Proof.
  intros Hcl Hs V Hfuel. unfold BFS.
  pose proof (visStep_mark s start V) as Hm.
  destruct (bfsLoop_returns U fuel (upd s start (set_visited true)) [start] 0)
    as (s' & comp & Hrun & Hstep & _).
  - eapply closedIn_visStep; eauto.
  - intros x [<-|[]]. exact Hs.
  - pose proof (unvisited_strict s (upd s start (set_visited true)) U start
                  (fun i => visStep_visited _ _ i Hm) Hs V
                  ltac:(now rewrite upd_same)).
    pose proof (unvisited_length s U). simpl. lia.
  - exists s', comp. split; [exact Hrun | eapply visStep_trans; eauto].
Qed.

(** The loop of [computeBlockPositions] that hands the components over. *)
Lemma components_returns U fuel :
  (length U < fuel)%nat ->
  forall todo s comps,
    closedIn U s -> incl todo U ->
    exists s' comps',
      foldM (componentRoot fuel) todo (s, comps) = Some (s', comps') /\
      visStep s s'.
Proof.
  intros Hfuel. induction todo as [|b todo IH]; intros s comps Hcl Hincl.
  - exists s, comps. split; [reflexivity | apply visStep_refl].
  - assert (Hb : In b U) by (apply Hincl; now left).
    assert (Hincl' : incl todo U) by (intros x Hx; apply Hincl; now right).
    cbn [foldM]. unfold componentRoot at 1.
    destruct (negb (visited (s b)) && negb (isFixed (s b))) eqn:Hcond.
    + apply andb_true_iff in Hcond as [Vb _]. apply negb_true_iff in Vb.
      destruct (BFS_returns U fuel s b Hcl Hb Vb Hfuel)
        as (s1 & comp & -> & Hstep1).
      destruct (IH s1 (comps ++ [comp]) (closedIn_visStep _ _ _ Hstep1 Hcl)
                  Hincl') as (s' & comps' & Hrun & Hstep).
      exists s', comps'. split; [exact Hrun | eapply visStep_trans; eauto].
    + apply IH; assumption.
Qed.

Lemma bfsLoop_step : forall fuel s comp qIdx s' comp',
  bfsLoop fuel s comp qIdx = Some (s', comp') -> visStep s s'.
Proof.
  induction fuel as [|fuel IH]; intros s comp qIdx s' comp' Hrun;
    simpl in Hrun; [discriminate|].
  destruct (nth_error comp qIdx) as [cur|].
  - destruct (fold_left bfsVisit (neighbors (s cur)) (s, comp))
      as [s1 comp1] eqn:Hfold.
    destruct (bfsVisit_fold (neighbors (s cur)) _ _ _ _ _
                (fun w Hw => Hw) Hfold) as (Hstep & _).
    eapply visStep_trans; [exact Hstep | eapply IH; eauto].
  - injection Hrun as <- <-. apply visStep_refl.
Qed.

Lemma components_step fuel : forall todo s comps s' comps',
  foldM (componentRoot fuel) todo (s, comps) = Some (s', comps') ->
  visStep s s'.
Proof.
  induction todo as [|b todo IH]; intros s comps s' comps' Hrun;
    cbn [foldM] in Hrun.
  - injection Hrun as <- <-. apply visStep_refl.
  - destruct (componentRoot fuel (s, comps) b) as [[s1 comps1]|] eqn:Hb;
      [|discriminate].
    eapply visStep_trans; [|eapply IH; eauto].
    unfold componentRoot in Hb.
    destruct (negb (visited (s b)) && negb (isFixed (s b))) eqn:Hcond.
    + apply andb_true_iff in Hcond as [Vb _]. apply negb_true_iff in Vb.
      destruct (BFS fuel s b) as [[s2 comp]|] eqn:HB; [|discriminate].
      injection Hb as <- <-. unfold BFS in HB.
      eapply visStep_trans; [apply visStep_mark, Vb|].
      eapply bfsLoop_step; eauto.
    + injection Hb as <- <-. apply visStep_refl.
Qed.

(** *** The blocks [BFS] marks are the blocks of its component *)

Lemma bfsVisit_marks : forall l s comp s' comp',
  fold_left bfsVisit l (s, comp) = (s', comp') ->
  exists new, comp' = comp ++ new /\
    forall i, visited (s' i) = true <-> visited (s i) = true \/ In i new.
Proof.
  induction l as [|a l IH]; intros s comp s' comp' Hfold; simpl in Hfold.
  - injection Hfold as <- <-. exists []. rewrite app_nil_r.
    split; [reflexivity|]. intros i. simpl. tauto.
  - destruct (negb (visited (s a)) && negb (isFixed (s a))) eqn:Hcond.
    + destruct (IH _ _ _ _ Hfold) as (new & -> & Hvis).
      exists (a :: new). rewrite <- app_assoc. split; [reflexivity|].
      intros i. rewrite Hvis. unfold upd. simpl.
      destruct (Nat.eqb_spec i a) as [->|Hne]; simpl.
      * split; auto.
      * split; [intros [H|H]; auto | intros [H|[H|H]]; auto; congruence].
    + apply IH. exact Hfold.
Qed.

Lemma bfsLoop_marks : forall fuel s comp qIdx s' comp',
  bfsLoop fuel s comp qIdx = Some (s', comp') ->
  exists new, comp' = comp ++ new /\
    forall i, visited (s' i) = true <-> visited (s i) = true \/ In i new.
Proof.
  induction fuel as [|fuel IH]; intros s comp qIdx s' comp' Hrun;
    simpl in Hrun; [discriminate|].
  destruct (nth_error comp qIdx) as [cur|].
  - destruct (fold_left bfsVisit (neighbors (s cur)) (s, comp))
      as [s1 comp1] eqn:Hfold.
    destruct (bfsVisit_marks _ _ _ _ _ Hfold) as (new1 & -> & Hvis1).
    destruct (IH _ _ _ _ _ Hrun) as (new2 & -> & Hvis2).
    exists (new1 ++ new2). rewrite app_assoc. split; [reflexivity|].
    intros i. rewrite Hvis2, Hvis1, in_app_iff. tauto.
  - injection Hrun as <- <-. exists []. rewrite app_nil_r.
    split; [reflexivity|]. intros i. simpl. tauto.
Qed.

Lemma BFS_marks fuel s start s' comp :
  BFS fuel s start = Some (s', comp) ->
  forall i, visited (s' i) = true <-> visited (s i) = true \/ In i comp.
Proof.
  unfold BFS. intros Hrun.
  destruct (bfsLoop_marks _ _ _ _ _ _ Hrun) as (new & -> & Hvis).
  intros i. rewrite Hvis. unfold upd. simpl.
  destruct (Nat.eqb_spec i start) as [->|Hne]; simpl.
  - split; auto.
  - split; [intros [H|H]; auto | intros [H|[H|H]]; auto; congruence].
Qed.

Lemma components_marks fuel : forall todo s comps s' comps',
  foldM (componentRoot fuel) todo (s, comps) = Some (s', comps') ->
  exists new, comps' = comps ++ new /\
    forall i, visited (s' i) = true <->
              visited (s i) = true \/ exists c, In c new /\ In i c.
Proof.
  induction todo as [|b todo IH]; intros s comps s' comps' Hrun;
    cbn [foldM] in Hrun.
  - injection Hrun as <- <-. exists []. rewrite app_nil_r.
    split; [reflexivity|]. intros i. split; [auto|].
    intros [H|(c & [] & _)]. exact H.
  - destruct (componentRoot fuel (s, comps) b) as [[s1 comps1]|] eqn:Hb;
      [|discriminate].
    destruct (IH _ _ _ _ Hrun) as (new2 & -> & Hvis2).
    unfold componentRoot in Hb.
    destruct (negb (visited (s b)) && negb (isFixed (s b))).
    + destruct (BFS fuel s b) as [[s2 comp]|] eqn:HB; [|discriminate].
      injection Hb as <- <-.
      pose proof (BFS_marks _ _ _ _ _ HB) as Hvis1.
      exists (comp :: new2). rewrite <- app_assoc. split; [reflexivity|].
      intros i. rewrite Hvis2, Hvis1. simpl. split.
      * intros [[H|H]|(c & Hc & Hi)]; eauto.
      * intros [H|(c & [<-|Hc] & Hi)]; eauto.
    + injection Hb as <- <-. exists new2. split; [reflexivity|].
      intros i. apply Hvis2.
Qed.

(** ** What the second traversal decides *)

Lemma samePath_fixStep st st' sd pd u :
  fixStep st st' -> samePath sd pd (st' u) = samePath sd pd (st u).
Proof.
  intros H. unfold samePath.
  now rewrite (fixStep_depth _ _ _ H), (fixStep_pathDepth _ _ _ H).
Qed.

Lemma samePath_depth sd pd blk :
  samePath sd pd blk = true -> depth blk = sd - 1.
Proof.
  unfold samePath. intros H. apply andb_true_iff in H as [H _].
  apply Z.eqb_eq in H. lia.
Qed.

Lemma fixStep_keepsPaths st st' : fixStep st st' -> keepsPaths st st'.
Proof.
  intros H i. destruct (fixStep_fields st st' i H) as (_&_&A&B&C&_&_&_&D).
  repeat split; auto. intros V. now rewrite D.
Qed.

Lemma setFixed_keepsPaths st x f : keepsPaths st (upd st x (set_isFixed f)).
Proof.
  intros i. unfold upd. destruct (Nat.eqb i x); repeat split; auto.
Qed.

Lemma samePath_keepsPaths st st' sd pd u :
  keepsPaths st st' -> samePath sd pd (st' u) = samePath sd pd (st u).
Proof.
  intros H. unfold samePath. destruct (H u) as (-> & -> & _). reflexivity.
Qed.

(** A settled block stays settled when the store changes only at blocks
    that were unvisited or on the stack. *)
Lemma settled_transfer st st' stk stk' x :
  keepsPaths st st' ->
  isFixed (st' x) = isFixed (st x) ->
  (forall u, visited (st u) = true -> ~ In u stk ->
             isFixed (st' u) = isFixed (st u) /\ ~ In u stk') ->
  settled st stk x -> settled st' stk' x.
Proof.
  intros Hstep Hx Hu [Hiff Hnb].
  destruct (Hstep x) as (Hd & Hp & Hn & _).
  assert (Hnb' : depth (st' x) <> 0 ->
            forall u, In u (neighbors (st' x)) ->
              samePath (depth (st' x)) (pathDepth (st' x)) (st' u) = true ->
              visited (st u) = true /\ ~ In u stk).
  { intros H0 u Hin Hs. rewrite Hd in H0. rewrite Hn in Hin.
    rewrite Hd, Hp, (samePath_keepsPaths _ _ _ _ _ Hstep) in Hs. auto. }
  split.
  - rewrite Hx, Hiff. unfold fixedRule. rewrite Hd, Hp, Hn.
    destruct (Z.eq_dec (depth (st x)) 0) as [H0|H0]; [tauto|].
    split; (intros [H|(u & Hin & Hs & Hf)]; [tauto | right; exists u]).
    + destruct (Hnb H0 u Hin Hs) as [Hv Hk].
      rewrite (samePath_keepsPaths _ _ _ _ _ Hstep).
      destruct (Hu u Hv Hk) as [-> _]. auto.
    + rewrite (samePath_keepsPaths _ _ _ _ _ Hstep) in Hs.
      destruct (Hnb H0 u Hin Hs) as [Hv Hk].
      destruct (Hu u Hv Hk) as [E _]. rewrite E in Hf. auto.
  - intros H0 u Hin Hs. destruct (Hnb' H0 u Hin Hs) as [Hv Hk].
    split; [now apply (Hstep u) | apply (Hu u Hv Hk)].
Qed.

Lemma fixed_loop_post U start stk sd pd
    (rec : store -> nat -> option (store * bool)) :
  (forall s a s1 r,
     closedIn U s -> In a U -> visited (s a) = false ->
     (forall t, In t (start :: stk) -> depth (s a) < depth (s t)) ->
     fixInv U (start :: stk) s ->
     rec s a = Some (s1, r) -> fixPost U (start :: stk) s a s1 r) ->
  forall l s flag s' flag',
    closedIn U s -> incl l U ->
    depth (s start) = sd ->
    (forall t, In t stk -> sd < depth (s t)) ->
    fixInv U (start :: stk) s ->
    foldM (fixedVisit rec sd pd) l (s, flag) = Some (s', flag') ->
    fixStep s s' /\ fixInv U (start :: stk) s' /\
    (flag' = true <->
       flag = true \/
       exists u, In u l /\ samePath sd pd (s' u) = true /\
                 isFixed (s' u) = true) /\
    (forall u, In u l -> samePath sd pd (s' u) = true ->
               visited (s' u) = true /\ ~ In u (start :: stk)).
Proof.
  intros Hrec.
  induction l as [|a l IH]; intros s flag s' flag' Hcl Hl Hsd Hstk Hinv Hfold;
    cbn [foldM] in Hfold.
  - injection Hfold as <- <-. split; [apply fixStep_refl|].
    split; [exact Hinv|]. split.
    + split; [auto | intros [H|(u & [] & _)]; exact H].
    + intros u [].
  - assert (Ha : In a U) by (apply Hl; now left).
    assert (Hl' : incl l U) by (intros w Hw; apply Hl; now right).
    destruct (fixedVisit rec sd pd (s, flag) a) as [[s1 flag1]|] eqn:Hvisit;
      [|discriminate].
    (* the block [a], when on the path of [start], is below the stack *)
    assert (Hbelow : forall s0, depth (s0 a) = depth (s a) ->
              samePath sd pd (s0 a) = true ->
              forall t, In t (start :: stk) -> depth (s a) < depth (s t)).
    { intros s0 Hd0 Hs t Ht. apply samePath_depth in Hs. rewrite Hd0 in Hs.
      destruct Ht as [<-|Ht]; [lia | specialize (Hstk t Ht); lia]. }
    assert (Hout : samePath sd pd (s a) = true -> ~ In a (start :: stk)).
    { intros Hs Hin. pose proof (Hbelow s eq_refl Hs a Hin). lia. }
    assert (H1 : fixStep s s1 /\ fixInv U (start :: stk) s1 /\
                 (flag1 = true <->
                    flag = true \/
                    (samePath sd pd (s1 a) = true /\ isFixed (s1 a) = true)) /\
                 (samePath sd pd (s1 a) = true -> visited (s1 a) = true)).
    { unfold fixedVisit in Hvisit. cbv beta iota in Hvisit.
      destruct (visited (s a)) eqn:Va.
      - injection Hvisit as <- <-.
        split; [apply fixStep_refl|]. split; [exact Hinv|]. split; [|auto].
        rewrite orb_true_iff, andb_true_iff. tauto.
      - destruct (samePath sd pd (s a)) eqn:Hs.
        + destruct (rec s a) as [[s2 r]|] eqn:Hr; [|discriminate].
          injection Hvisit as <- <-.
          destruct (Hrec s a s2 r Hcl Ha Va (Hbelow s eq_refl Hs) Hinv Hr)
            as (Hst & Hv & Hi & ->).
          split; [exact Hst|]. split; [exact Hi|]. split; [|auto].
          rewrite orb_true_iff, (samePath_fixStep _ _ _ _ _ Hst), Hs. tauto.
        + injection Hvisit as <- <-.
          split; [apply fixStep_refl|]. split; [exact Hinv|].
          rewrite Hs. split; [|discriminate].
          split; [auto | intros [H|[H _]]; [exact H | discriminate]]. }
    destruct H1 as (Hst1 & Hinv1 & Hflag1 & Hvis1).
    destruct (IH s1 flag1 s' flag') as (Hst2 & Hinv2 & Hflag2 & Hvis2); auto.
    + eapply closedIn_fixStep; eauto.
    + now rewrite (fixStep_depth _ _ _ Hst1).
    + intros t Ht. rewrite (fixStep_depth _ _ _ Hst1). auto.
    + assert (Hsame : samePath sd pd (s' a) = samePath sd pd (s1 a))
        by apply (samePath_fixStep _ _ _ _ _ Hst2).
      assert (Hkeep : samePath sd pd (s1 a) = true -> s' a = s1 a).
      { intros Hs. apply (fixStep_old _ _ _ Hst2). auto. }
      split; [eapply fixStep_trans; eauto|]. split; [exact Hinv2|]. split.
      * rewrite Hflag2, Hflag1. split.
        -- intros [[H|[Hs Hf]]|(u & Hu & Hs & Hf)]; auto.
           ++ right. exists a. rewrite Hsame, (Hkeep Hs). simpl. auto.
           ++ right. exists u. simpl. auto.
        -- intros [H|(u & [<-|Hu] & Hs & Hf)]; auto.
           ++ left. right. rewrite Hsame in Hs. rewrite (Hkeep Hs) in Hf. auto.
           ++ right. exists u. auto.
      * intros u [<-|Hu] Hs; [|auto].
        rewrite Hsame in Hs. split.
        -- rewrite (Hkeep Hs). auto.
        -- apply Hout. now rewrite <- (samePath_fixStep _ _ _ _ _ Hst1).
Qed.

Lemma fixed_post U : forall fuel st start stk st' r,
  closedIn U st -> In start U -> visited (st start) = false ->
  (forall t, In t stk -> depth (st start) < depth (st t)) ->
  fixInv U stk st ->
  DFSFindFixed fuel st start = Some (st', r) ->
  fixPost U stk st start st' r.
Proof.
  induction fuel as [|fuel IH]; intros st start stk st' r Hcl Hs V Hstk Hinv Hrun;
    [discriminate|].
  destruct (fixed_frame _ _ _ _ _ V Hrun) as (Hstep & Hvis).
  split; [exact Hstep|]. split; [exact Hvis|].
  simpl in Hrun.
  set (st1 := upd st start (set_visited true)) in *.
  assert (Hst1 : fixStep st st1) by now apply fixStep_enter.
  assert (Hd1 : depth (st1 start) = depth (st start))
    by apply (fixStep_depth _ _ _ Hst1).
  assert (Hnotstk : ~ In start stk).
  { intros H. specialize (Hstk start H). lia. }
  destruct (Z.eqb_spec (depth (st1 start)) 0) as [H0|H0].
  - (* depth 0: fixed at once *)
    injection Hrun as <- <-.
    set (st' := upd st1 start (set_isFixed true)) in *.
    assert (Hf : isFixed (st' start) = true)
      by (unfold st'; now rewrite upd_same).
    split; [|now rewrite Hf].
    intros x Hx Vx Hxs. destruct (Nat.eq_dec x start) as [->|Hne].
    + split.
      * rewrite Hf. unfold fixedRule.
        rewrite (fixStep_depth _ _ _ Hstep), <- Hd1. tauto.
      * intros Hd. rewrite (fixStep_depth _ _ _ Hstep), <- Hd1 in Hd. lia.
    + assert (Ex : st' x = st x).
      { unfold st', st1. now rewrite !upd_other. }
      rewrite Ex in Vx.
      apply (settled_transfer st st' stk stk x (fixStep_keepsPaths _ _ Hstep));
        [now rewrite Ex| |auto].
      intros u Vu Hu. split; [|exact Hu].
      assert (u <> start) by (intros ->; congruence).
      unfold st', st1. now rewrite !upd_other.
  - (* the loop over the neighbours *)
    destruct (foldM _ _ _) as [[s flag]|] eqn:Hfold; [|discriminate].
    injection Hrun as <- <-.
    assert (Hinv1 : fixInv U (start :: stk) st1).
    { intros x Hx Vx Hxs.
      assert (Hne : x <> start) by (intros ->; apply Hxs; now left).
      assert (Ex : st1 x = st x) by (unfold st1; now rewrite upd_other).
      rewrite Ex in Vx.
      apply (settled_transfer st st1 stk (start :: stk) x
               (fixStep_keepsPaths _ _ Hst1));
        [now rewrite Ex | | apply Hinv; auto; intros H; apply Hxs; now right].
      intros u Vu Hu.
      assert (u <> start) by (intros ->; congruence).
      split; [unfold st1; now rewrite upd_other|].
      intros [E|E]; [congruence | contradiction]. }
    destruct (fixed_loop_post U start stk (depth (st1 start))
                (pathDepth (st1 start)) (DFSFindFixed fuel)
                (fun s a s1 r Hc Ha Va Hb Hi Hr =>
                   IH s a (start :: stk) s1 r Hc Ha Va Hb Hi Hr)
                (neighbors (st1 start)) st1 false s flag)
      as (Hst2 & Hinv2 & Hflag & Hseen); auto.
    + eapply closedIn_fixStep; eauto.
    + intros w Hw. rewrite (fixStep_neighbors _ _ _ Hst1) in Hw. eauto.
    + intros t Ht. rewrite Hd1, (fixStep_depth _ _ _ Hst1). auto.
    + set (st' := upd s start (set_isFixed flag)) in *.
      assert (Hf : isFixed (st' start) = flag)
        by (unfold st'; now rewrite upd_same).
      assert (Hoth : forall u, u <> start -> st' u = s u)
        by (intros u Hu; unfold st'; now rewrite upd_other).
      pose proof (setFixed_keepsPaths s start flag) as Hkp. fold st' in Hkp.
      assert (Hself : forall u, samePath (depth (st1 start))
                                  (pathDepth (st1 start)) (s u) = true ->
                                u <> start).
      { intros u Hsp ->. apply samePath_depth in Hsp.
        rewrite (fixStep_depth _ _ _ Hst2) in Hsp. lia. }
      assert (Hds : depth (st' start) = depth (st1 start)).
      { destruct (Hkp start) as (-> & _). apply (fixStep_depth _ _ _ Hst2). }
      assert (Hps : pathDepth (st' start) = pathDepth (st1 start)).
      { destruct (Hkp start) as (_ & -> & _).
        apply (fixStep_pathDepth _ _ _ Hst2). }
      assert (Hns : neighbors (st' start) = neighbors (st1 start)).
      { destruct (Hkp start) as (_ & _ & -> & _).
        apply (fixStep_neighbors _ _ _ Hst2). }
      split; [|now rewrite Hf].
      intros x Hx Vx Hxs. destruct (Nat.eq_dec x start) as [->|Hne].
      * split.
        -- rewrite Hf, Hflag. unfold fixedRule. rewrite Hds, Hps, Hns.
           split.
           ++ intros [H|(u & Hu & Hsp & Hfu)]; [discriminate|].
              right. exists u. rewrite (Hoth u (Hself u Hsp)). auto.
           ++ intros [H|(u & Hu & Hsp & Hfu)]; [contradiction|].
              right. exists u.
              rewrite (samePath_keepsPaths _ _ _ _ _ Hkp) in Hsp.
              rewrite (Hoth u (Hself u Hsp)) in Hfu. auto.
        -- intros _ u Hu Hsp. rewrite Hds, Hps in Hsp. rewrite Hns in Hu.
           rewrite (samePath_keepsPaths _ _ _ _ _ Hkp) in Hsp.
           destruct (Hseen u Hu Hsp) as [Vu Hk].
           split; [now apply (Hkp u) | intros H; apply Hk; now right].
      * rewrite (Hoth x Hne) in Vx.
        apply (settled_transfer s st' (start :: stk) stk x Hkp);
          [now rewrite (Hoth x Hne) | |
           apply Hinv2; auto; intros [E|E]; [congruence | contradiction]].
        intros u Vu Hu.
        assert (u <> start) by (intros ->; apply Hu; now left).
        split; [now rewrite Hoth | intros H'; apply Hu; now right].
Qed.

Lemma isLocalTop_keepsPaths st st' x :
  keepsPaths st st' -> isLocalTop st' x = isLocalTop st x.
Proof.
  intros H. unfold isLocalTop. destruct (H x) as (-> & _ & -> & _).
  induction (neighbors (st x)) as [|v l IH]; simpl; [reflexivity|].
  destruct (H v) as (-> & _). now rewrite IH.
Qed.

(** The loop over the seeds of the second traversal. *)
Lemma fixedRoots_inv U fuel : forall todo s s',
  closedIn U s -> incl todo U -> fixInv U [] s ->
  foldM (fixedRoot fuel) todo s = Some s' ->
  fixInv U [] s' /\
  forall r, In r todo -> isLocalTop s r = true -> visited (s' r) = true.
Proof.
  induction todo as [|a todo IH]; intros s s' Hcl Hincl Hinv Hrun;
    cbn [foldM] in Hrun.
  - injection Hrun as <-. split; [exact Hinv | intros r []].
  - assert (Ha : In a U) by (apply Hincl; now left).
    assert (Hincl' : incl todo U) by (intros x Hx; apply Hincl; now right).
    destruct (fixedRoot fuel s a) as [s1|] eqn:Hroot; [|discriminate].
    pose proof (fixedRoots_step _ _ _ _ Hrun) as Hrest.
    assert (H1 : fixStep s s1 /\ fixInv U [] s1 /\
                 (isLocalTop s a = true -> visited (s1 a) = true)).
    { unfold fixedRoot in Hroot.
      destruct (visited (s a)) eqn:Va; simpl in Hroot.
      - injection Hroot as <-. split; [apply fixStep_refl|]. auto.
      - destruct (isLocalTop s a) eqn:Htop.
        + destruct (DFSFindFixed fuel s a) as [[s2 r]|] eqn:Hf; [|discriminate].
          injection Hroot as <-.
          destruct (fixed_post U fuel s a [] s2 r Hcl Ha Va
                      ltac:(intros t []) Hinv Hf) as (Hst & Hv & Hi & _).
          auto.
        + injection Hroot as <-. split; [apply fixStep_refl|].
          split; [exact Hinv | discriminate]. }
    destruct H1 as (Hst1 & Hinv1 & Hseed).
    destruct (IH s1 s' (closedIn_fixStep _ _ _ Hst1 Hcl) Hincl' Hinv1 Hrun)
      as (Hinv' & Hseeds).
    split; [exact Hinv'|].
    intros r [<-|Hr] Htop.
    + eapply fixStep_visited; eauto.
    + apply Hseeds; [exact Hr|].
      now rewrite (isLocalTop_keepsPaths _ _ _ (fixStep_keepsPaths _ _ Hst1)).
Qed.

(** What [calculateMaxDepth] leaves in [isFixed]. *)
Lemma calculateMaxDepth_fixed st blocks st' blocks' :
  closedIn blocks st ->
  calculateMaxDepth st blocks = Some (st', blocks') ->
  forall x, In x blocks ->
    (visited (st' x) = true -> (isFixed (st' x) = true <-> fixedRule st' x)) /\
    (visited (st' x) = false -> isFixed (st' x) = isFixed (st x)) /\
    (isLocalTop st' x = true -> visited (st' x) = true).
Proof.
  intros Hcl Hcm x Hx.
  destruct (calculateMaxDepth_inv _ _ _ _ Hcm) as (st1 & st3 & _ & H1 & H3 & ->).
  set (sorted := sortBy (byDepthDesc st) blocks) in *.
  assert (Hin : forall y, In y sorted <-> In y blocks)
    by (intros y; apply sortBy_In).
  pose proof (pathRoots_step _ _ _ _ H1) as Hs1.
  pose proof (fixedRoots_step _ _ _ _ H3) as Hs3.
  set (st2 := fold_left clearVisited sorted st1) in *.
  assert (Hcl2 : closedIn sorted st2).
  { eapply closedIn_sameGraph; [apply clearVisited_sameGraph|].
    eapply closedIn_pathStep; [exact Hs1|].
    eapply closedIn_perm; [|exact Hcl]. intros y. symmetry. apply Hin. }
  destruct (fixedRoots_inv sorted (length sorted) sorted st2 st3 Hcl2
              (fun y H => H)) as (Hinv & Hseeds); auto.
  { intros y Hy Vy. unfold st2 in Vy.
    rewrite clearVisited_visited in Vy by assumption. discriminate. }
  apply Hin in Hx. split; [|split].
  - intros Vx. apply (Hinv x Hx Vx). intros [].
  - intros Vx. destruct (Hs3 x) as [E|(_ & f & E)].
    + rewrite E. unfold st2. rewrite clearVisited_isFixed.
      now destruct (pathStep_fields _ _ x Hs1) as (_&_&_&_&F&_).
    + rewrite E in Vx. discriminate.
  - intros Htop. apply Hseeds; [exact Hx|].
    now rewrite <- (isLocalTop_keepsPaths _ _ _ (fixStep_keepsPaths _ _ Hs3)).
Qed.

(** ** The weekday driver *)

Lemma setIdx_fields : forall blocks i st b,
  setIdx i blocks st b = set_idx (idx (setIdx i blocks st b)) (st b).
Proof.
  induction blocks as [|x l IH]; intros i st b; simpl.
  - now destruct (st b).
  - rewrite IH. unfold upd. destruct (Nat.eqb b x); [|reflexivity].
    now destruct (st b).
Qed.

Lemma setFull_spec l : forall st b,
  fold_left setFull l st b = if inb b l then full (st b) else st b.
Proof.
  induction l as [|x l IH]; intros st b; simpl; [reflexivity|].
  rewrite IH. unfold setFull, upd, inb. simpl. rewrite (Nat.eqb_sym b x).
  destruct (Nat.eqb x b); simpl; [|reflexivity].
  destruct (existsb (Nat.eqb b) l); reflexivity.
Qed.

Lemma setHeuristic_spec l : forall st b,
  fold_left setHeuristic l st b = if inb b l then heuristic (st b) else st b.
Proof.
  induction l as [|x l IH]; intros st b; simpl; [reflexivity|].
  rewrite IH. unfold setHeuristic, inb. simpl. rewrite (Nat.eqb_sym b x).
  destruct (Nat.eqb_spec x b) as [->|Hne]; simpl.
  - rewrite !upd_same.
    destruct (existsb (Nat.eqb b) l); reflexivity.
  - rewrite !upd_other by congruence. reflexivity.
Qed.

Lemma intervalScheduling2_onlyDepth st blocks :
  onlyDepth blocks st (storeAfter (intervalScheduling2 st blocks)).
Proof.
  destruct (sortBy (byStart st) blocks) as [|b0 rest] eqn:Hs.
  - unfold intervalScheduling2. rewrite Hs. apply onlyDepth_refl.
  - destruct (intervalScheduling2_run _ _ _ _ Hs) as (st' & reps & n & Hrun & ->).
    unfold storeAfter; simpl.
    pose proof (roomRun_onlyDepth _ _ _ _ _ _ _ Hrun) as Hfr.
    intros i. destruct (Hfr i) as [A B]. split; [exact A|].
    intros Hi. apply B. intros Hr. apply Hi.
    apply (sortBy_In (byStart st)). rewrite Hs. now right.
Qed.

Lemma onlyDepth_neighbors l st st' i :
  onlyDepth l st st' -> neighbors (st' i) = neighbors (st i).
Proof. intros H. destruct (H i) as [-> _]. reflexivity. Qed.

Lemma onlyDepth_visited l st st' i :
  onlyDepth l st st' -> visited (st' i) = visited (st i).
Proof. intros H. destruct (H i) as [-> _]. reflexivity. Qed.

Lemma onlyDepth_sameTimes l st st' : onlyDepth l st st' -> sameTimes st st'.
Proof. intros H i. destruct (H i) as [-> _]. split; reflexivity. Qed.

Lemma newNeighbors_incl st blocks b : incl (newNeighbors st blocks b) blocks.
Proof.
  unfold newNeighbors, conflictsOf. destruct (inb b blocks); [|intros x []].
  intros x Hx. now apply filter_In in Hx.
Qed.

Lemma graphOf_spec st blocks b :
  NoDup blocks ->
  graphOf st blocks b
  = addNeighbors (newNeighbors st blocks b)
                 (set_idx (idx (graphOf st blocks b)) (st b)).
Proof.
  intros Hnd. unfold graphOf at 1. rewrite constructAdjList_spec by assumption.
  rewrite (setIdx_fields blocks 0 st b).
  assert (Hi : idx (graphOf st blocks b) = idx (setIdx 0 blocks st b)).
  { unfold graphOf. rewrite constructAdjList_spec by assumption. reflexivity. }
  rewrite Hi. f_equal.
  unfold newNeighbors, conflictsOf. destruct (inb b blocks); [|reflexivity].
  apply filter_ext. intros c.
  rewrite (setIdx_fields blocks 0 st b), (setIdx_fields blocks 0 st c).
  reflexivity.
Qed.

Lemma graphOf_neighbors st blocks b :
  NoDup blocks ->
  neighbors (graphOf st blocks b)
  = neighbors (st b) ++ newNeighbors st blocks b.
Proof. intros Hnd. rewrite graphOf_spec by assumption. reflexivity. Qed.

Lemma graphOf_closedIn st blocks :
  NoDup blocks -> closedIn blocks st -> closedIn blocks (graphOf st blocks).
Proof.
  intros Hnd Hcl x w Hx Hw. rewrite graphOf_neighbors in Hw by assumption.
  apply in_app_or in Hw as [Hw|Hw]; [eauto | eapply newNeighbors_incl; eauto].
Qed.

Lemma graphOf_sameTimes st blocks :
  NoDup blocks -> sameTimes st (graphOf st blocks).
Proof.
  intros Hnd i. rewrite graphOf_spec by assumption. split; reflexivity.
Qed.

Lemma scheduleOf_closedIn st blocks :
  NoDup blocks -> closedIn blocks st ->
  closedIn (arrayAfter (scheduleOf st blocks)) (storeAfter (scheduleOf st blocks)).
Proof.
  intros Hnd Hcl. unfold scheduleOf. rewrite intervalScheduling2_array.
  intros x w Hx Hw. apply sortBy_In in Hx. apply sortBy_In.
  rewrite (onlyDepth_neighbors _ _ _ _
             (intervalScheduling2_onlyDepth _ _)) in Hw.
  eapply graphOf_closedIn; eauto.
Qed.

(** The two branches of the driver. *)
Lemma layoutDay_cases st blocks r :
  layoutDay st blocks = Some r ->
  (columnsOf (scheduleOf st blocks) <= 1 /\
   r = mkDay (fold_left setFull (arrayAfter (scheduleOf st blocks))
                        (storeAfter (scheduleOf st blocks)))
             (arrayAfter (scheduleOf st blocks)) [])
  \/
  (1 < columnsOf (scheduleOf st blocks) /\
   exists st3 blocks3 st6 comps,
     calculateMaxDepth (storeAfter (scheduleOf st blocks))
                       (arrayAfter (scheduleOf st blocks))
     = Some (st3, blocks3) /\
     foldM (componentRoot (S (length blocks3))) blocks3
           (fold_left clearVisited blocks3
                      (fold_left setHeuristic blocks3 st3), [])
     = Some (st6, comps) /\
     r = mkDay st6 blocks3 comps).
Proof.
  unfold layoutDay, scheduleOf, graphOf, columnsOf, arrayAfter, storeAfter.
  destruct (intervalScheduling2 _ blocks) as [[st2 blocks2] total]. simpl.
  destruct (Z.leb_spec total 1) as [Hle|Hgt].
  - intros [= <-]. left. auto.
  - intros H. right. split; [exact Hgt|].
    destruct (calculateMaxDepth st2 blocks2) as [[st3 blocks3]|]; [|discriminate].
    destruct (foldM _ blocks3 _) as [[st6 comps]|] eqn:Hc; [|discriminate].
    injection H as <-. exists st3, blocks3, st6, comps. auto.
Qed.

(** The driver returns on every weekday whose neighbour lists stay inside
    the weekday. *)
Lemma layoutDay_returns st blocks :
  NoDup blocks -> closedIn blocks st ->
  exists r, layoutDay st blocks = Some r.
Proof.
  intros Hnd Hcl.
  pose proof (scheduleOf_closedIn st blocks Hnd Hcl) as Hcl2.
  unfold layoutDay. fold (graphOf st blocks). fold (scheduleOf st blocks).
  destruct (scheduleOf st blocks) as [[st2 blocks2] total] eqn:Hsch.
  unfold arrayAfter, storeAfter in Hcl2. simpl in Hcl2.
  destruct (total <=? 1); [eauto|].
  destruct (calculateMaxDepth_returns st2 blocks2 Hcl2) as (st3 & Hcm).
  rewrite Hcm.
  set (blocks3 := sortBy (byDepthDesc st2) blocks2) in *.
  pose proof (calculateMaxDepth_sameGraph _ _ _ _ Hcm) as Hsg.
  destruct (components_returns blocks3 (S (length blocks3)) (Nat.lt_succ_diag_r _)
              blocks3
              (fold_left clearVisited blocks3
                         (fold_left setHeuristic blocks3 st3)) [])
    as (st6 & comps & -> & _); [| intros x H; exact H | eauto].
  eapply closedIn_sameGraph; [apply clearVisited_sameGraph|].
  intros x w Hx Hw. rewrite setHeuristic_spec in Hw.
  assert (Hw' : In w (neighbors (st3 x)))
    by (destruct (inb x blocks3); exact Hw).
  apply (sortBy_In (byDepthDesc st2)).
  eapply (closedIn_sameGraph _ _ _ Hsg Hcl2); [|exact Hw'].
  now apply (sortBy_In (byDepthDesc st2)).
Qed.

(** ** The quotients [depth / pathDepth] and [1 / pathDepth] *)

Lemma Qofdiv_eq a p : 0 < p -> (Qofdiv a p == a # Z.to_pos p)%Q.
Proof.
  intros Hp. destruct p as [|q|q]; try lia.
  unfold Qofdiv, Qdiv, Qinv, Qmult, inject_Z, Qeq. simpl. lia.
Qed.

Lemma heuristic_sum d p :
  0 < p -> (Qofdiv d p + Qofdiv 1 p == Qofdiv (d + 1) p)%Q.
Proof.
  intros Hp. rewrite !Qofdiv_eq by assumption.
  unfold Qeq, Qplus. simpl. rewrite ?Pos2Z.inj_mul. nia.
Qed.

Lemma heuristic_bounds d p :
  0 <= d -> d + 1 <= p ->
  (0 <= Qofdiv d p)%Q /\ (Qofdiv d p < 1)%Q /\ (Qofdiv (d + 1) p <= 1)%Q.
Proof.
  intros Hd Hp. rewrite !Qofdiv_eq by lia.
  unfold Qle, Qlt. simpl. rewrite ?Z2Pos.id by lia. lia.
Qed.

(** A block one column or more to the right of another, on a path no
    longer than the other's, starts where the other ends or further right. *)
Lemma heuristic_apart da pa db pb :
  0 <= da -> da + 1 <= db -> 0 < pb -> pb <= pa ->
  (Qofdiv da pa + Qofdiv 1 pa <= Qofdiv db pb)%Q.
Proof.
  intros H1 H2 H3 H4. rewrite heuristic_sum by lia.
  rewrite !Qofdiv_eq by lia.
  unfold Qle. simpl. rewrite ?Z2Pos.id by lia. nia.
Qed.

Lemma heuristic_edges da pa db pb :
  0 <= da -> da + 1 <= db -> 0 < pb -> pb <= pa ->
  (Qofdiv (da + 1) pa <= Qofdiv db pb)%Q.
Proof.
  intros H1 H2 H3 H4. rewrite <- heuristic_sum by lia.
  now apply heuristic_apart.
Qed.

(** ** The numbers stored *)

(** The number stored for the exact quotient [d / p] is the quotient of
    the numbers [d] and [p]. *)
Lemma double_Qofdiv d p :
  0 < p -> double (Qofdiv d p) = PrimFloat.div (number d) (number p).
Proof.
  intros Hp. destruct p as [|q|q]; try lia.
  unfold double, Qofdiv. simpl. now rewrite Z.mul_1_r.
Qed.

(** ** The layout the driver writes *)

(** The branch for two or more columns: the final block is the block
    [calculateMaxDepth] left, with the heuristic layout written and some
    [visited] flag. *)
Lemma layoutDay_wide st blocks r :
  NoDup blocks ->
  layoutDay st blocks = Some r ->
  1 < columnsOf (scheduleOf st blocks) ->
  exists st3,
    calculateMaxDepth (storeAfter (scheduleOf st blocks))
                      (arrayAfter (scheduleOf st blocks))
    = Some (st3, d_blocks r) /\
    (forall b, In b (d_blocks r) <-> In b blocks) /\
    forall b, In b blocks ->
      d_store r b = set_visited (visited (d_store r b)) (heuristic (st3 b)).
Proof.
  intros Hnd Hrun Hwide.
  destruct (layoutDay_cases _ _ _ Hrun) as [[Hle _]|(_ & st3 & blocks3 & st6 &
                                              comps & Hcm & Hcomp & ->)];
    [lia|].
  exists st3. simpl. split; [exact Hcm|].
  destruct (calculateMaxDepth_inv _ _ _ _ Hcm) as (_ & _ & Hb3 & _).
  assert (Hin : forall b, In b blocks3 <-> In b blocks).
  { intros b. rewrite Hb3, sortBy_In. unfold scheduleOf.
    rewrite intervalScheduling2_array. apply sortBy_In. }
  split; [exact Hin|].
  intros b Hb. apply Hin in Hb.
  pose proof (components_step _ _ _ _ _ _ Hcomp) as Hstep.
  destruct (visStep_fields _ _ b Hstep) as [E _]. rewrite E.
  rewrite clearVisited_spec, setHeuristic_spec.
  apply inb_In in Hb. rewrite Hb. reflexivity.
Qed.

(** The branch for at most one column. *)
Lemma layoutDay_narrow st blocks r :
  layoutDay st blocks = Some r ->
  columnsOf (scheduleOf st blocks) <= 1 ->
  d_blocks r = arrayAfter (scheduleOf st blocks) /\
  d_components r = [] /\
  forall b, d_store r b
            = if inb b blocks then full (storeAfter (scheduleOf st blocks) b)
              else storeAfter (scheduleOf st blocks) b.
Proof.
  intros Hrun Hnarrow.
  destruct (layoutDay_cases _ _ _ Hrun) as [[_ ->]|[Hgt _]]; [|lia].
  simpl. split; [reflexivity|]. split; [reflexivity|].
  intros b. rewrite setFull_spec. unfold scheduleOf at 1.
  rewrite intervalScheduling2_array.
  assert (E : inb b (sortBy (byStart (graphOf st blocks)) blocks) = inb b blocks).
  { destruct (inb b blocks) eqn:Hb.
    - apply inb_In. apply sortBy_In. now apply inb_In.
    - apply inb_false. rewrite sortBy_In. now apply inb_false. }
  now rewrite E.
Qed.

(** Depths stay non-negative through a run of rounds. *)
Lemma roomRun_nonneg st reps n l st' reps' n' :
  roomRun st reps n l st' reps' n' ->
  0 <= n -> (forall r, In r reps -> 0 <= depth (st r)) ->
  0 <= n' /\ (forall r, In r reps' -> 0 <= depth (st' r)) /\
  forall i, 0 <= depth (st i) \/ In i l -> 0 <= depth (st' i).
Proof.
  induction 1 as [|st reps n b st1 reps1 n1 rest st2 reps2 n2 Hstep Hrun IH];
    intros Hn Hreps.
  - repeat split; auto. intros i [H|[]]. exact H.
  - assert (H1 : 0 <= n1 /\ (forall r, In r reps1 -> 0 <= depth (st1 r)) /\
                 0 <= depth (st1 b) /\
                 forall i, 0 <= depth (st i) -> 0 <= depth (st1 i)).
    { destruct Hstep as [reps' Hbusy Hperm | r others reps' Hfree Hperm Hperm'].
      - assert (Hb : 0 <= depth (upd st b (set_depth (n + 1)) b))
          by (rewrite upd_same; simpl; lia).
        assert (Hoth : forall i, 0 <= depth (st i) ->
                         0 <= depth (upd st b (set_depth (n + 1)) i)).
        { intros i Hi. unfold upd. destruct (Nat.eqb i b); simpl; lia. }
        split; [lia|]. split; [|split; [exact Hb | exact Hoth]].
        intros x Hx. eapply Permutation_in in Hx; [|exact Hperm].
        destruct Hx as [<-|Hx]; [exact Hb | apply Hoth, Hreps, Hx].
      - assert (Hr : 0 <= depth (st r)).
        { apply Hreps. eapply Permutation_in; [symmetry; exact Hperm | now left]. }
        assert (Hb : 0 <= depth (upd st b (set_depth (depth (st r))) b))
          by (rewrite upd_same; simpl; lia).
        assert (Hoth : forall i, 0 <= depth (st i) ->
                         0 <= depth (upd st b (set_depth (depth (st r))) i)).
        { intros i Hi. unfold upd. destruct (Nat.eqb i b); simpl; lia. }
        split; [lia|]. split; [|split; [exact Hb | exact Hoth]].
        intros x Hx. eapply Permutation_in in Hx; [|exact Hperm'].
        destruct Hx as [<-|Hx]; [exact Hb|].
        apply Hoth, Hreps.
        eapply Permutation_in; [symmetry; exact Hperm | now right]. }
    destruct H1 as (Hn1 & Hreps1 & Hb1 & Hoth1).
    destruct (IH Hn1 Hreps1) as (Hn2 & Hreps2 & Hall).
    split; [exact Hn2|]. split; [exact Hreps2|].
    intros i [Hi|[<-|Hi]]; apply Hall; auto.
Qed.

Lemma intervalScheduling2_nonneg st blocks :
  (forall b, In b blocks -> 0 <= depth (st b)) ->
  forall b, In b blocks ->
    0 <= depth (storeAfter (intervalScheduling2 st blocks) b).
Proof.
  intros Hpos b Hb.
  destruct (sortBy (byStart st) blocks) as [|b0 rest] eqn:Hs.
  - unfold intervalScheduling2. rewrite Hs. now apply Hpos.
  - destruct (intervalScheduling2_run _ _ _ _ Hs) as (st' & reps & n & Hrun & ->).
    unfold storeAfter; simpl.
    assert (Hb0 : In b0 blocks)
      by (apply (sortBy_In (byStart st)); rewrite Hs; now left).
    destruct (roomRun_nonneg _ _ _ _ _ _ _ Hrun (Z.le_refl 0))
      as (_ & _ & Hall).
    { intros r [<-|[]]. now apply Hpos. }
    apply Hall. left. now apply Hpos.
Qed.

Lemma graphOf_depth st blocks b :
  NoDup blocks -> depth (graphOf st blocks b) = depth (st b).
Proof. intros H. rewrite graphOf_spec by assumption. reflexivity. Qed.

Lemma graphOf_visited st blocks b :
  NoDup blocks -> visited (graphOf st blocks b) = visited (st b).
Proof. intros H. rewrite graphOf_spec by assumption. reflexivity. Qed.

Lemma scheduleOf_visited st blocks b :
  NoDup blocks ->
  visited (storeAfter (scheduleOf st blocks) b) = visited (st b).
Proof.
  intros H. unfold scheduleOf.
  rewrite (onlyDepth_visited _ _ _ _ (intervalScheduling2_onlyDepth _ _)).
  now apply graphOf_visited.
Qed.

Lemma scheduleOf_neighbors st blocks b :
  NoDup blocks ->
  neighbors (storeAfter (scheduleOf st blocks) b)
  = neighbors (st b) ++ newNeighbors st blocks b.
Proof.
  intros H. unfold scheduleOf.
  rewrite (onlyDepth_neighbors _ _ _ _ (intervalScheduling2_onlyDepth _ _)).
  now apply graphOf_neighbors.
Qed.

Lemma scheduleOf_sameTimes st blocks :
  NoDup blocks -> sameTimes st (storeAfter (scheduleOf st blocks)).
Proof.
  intros H. apply (sameTimes_trans _ (graphOf st blocks));
    [now apply graphOf_sameTimes|].
  unfold scheduleOf.
  eapply onlyDepth_sameTimes, intervalScheduling2_onlyDepth.
Qed.

(** The path depths on a weekday of two or more columns whose blocks enter
    unvisited. *)
Lemma layoutDay_paths st blocks r st3 :
  NoDup blocks -> closedIn blocks st ->
  (forall b, In b blocks -> visited (st b) = false) ->
  calculateMaxDepth (storeAfter (scheduleOf st blocks))
                    (arrayAfter (scheduleOf st blocks))
  = Some (st3, d_blocks r) ->
  (forall b, depth (st3 b) = depth (storeAfter (scheduleOf st blocks) b)) /\
  (forall x, In x blocks -> depth (st3 x) + 1 <= pathDepth (st3 x)) /\
  (forall x w, In x blocks -> In w (neighbors (st3 x)) ->
               depth (st3 w) < depth (st3 x) ->
               pathDepth (st3 x) <= pathDepth (st3 w)).
Proof.
  intros Hnd Hcl Hunv Hcm.
  pose proof (calculateMaxDepth_sameGraph _ _ _ _ Hcm) as Hsg.
  assert (Hin : forall b, In b (arrayAfter (scheduleOf st blocks)) <-> In b blocks).
  { intros b. unfold scheduleOf. rewrite intervalScheduling2_array.
    apply sortBy_In. }
  destruct (calculateMaxDepth_paths _ _ _ _
              (scheduleOf_closedIn st blocks Hnd Hcl)
              ltac:(intros b Hb; rewrite scheduleOf_visited by assumption;
                    apply Hunv, Hin, Hb)
              Hcm) as (Hgt & Hmono).
  assert (Hd : forall b, depth (st3 b)
                         = depth (storeAfter (scheduleOf st blocks) b)).
  { intros b. now destruct (Hsg b) as (_&_&E&_). }
  split; [exact Hd|]. split.
  - intros x Hx. rewrite Hd. apply Hgt, Hin, Hx.
  - intros x w Hx Hw Hdw. apply Hmono.
    + now apply Hin.
    + destruct (Hsg x) as (_&_&_&E&_). now rewrite <- E.
    + now rewrite <- !Hd.
Qed.

Lemma freshBlocks_closedIn st blocks : freshBlocks st blocks -> closedIn blocks st.
Proof. intros Hf x w Hx Hw. rewrite (Hf x Hx) in Hw. destruct Hw. Qed.

Lemma newNeighbors_In st blocks a b :
  In a blocks -> In b blocks -> a <> b -> conflict (st b) (st a) = true ->
  In a (newNeighbors st blocks b).
Proof.
  intros Ha Hb Hab Hc. unfold newNeighbors, conflictsOf.
  apply inb_In in Hb. rewrite Hb. apply filter_In. split; [exact Ha|].
  apply Nat.eqb_neq in Hab. now rewrite Hab, Hc.
Qed.

(** The scheduler of the driver on fresh, well-formed blocks. *)
Lemma scheduleOf_Scheduled st blocks :
  NoDup blocks -> wellFormed st blocks -> freshBlocks st blocks ->
  Scheduled (graphOf st blocks) blocks (storeAfter (scheduleOf st blocks))
            (columnsOf (scheduleOf st blocks)).
Proof.
  intros Hnd Hwf Hfresh. unfold scheduleOf.
  apply intervalScheduling2_Scheduled; [exact Hnd | |].
  - eapply wellFormed_sameTimes; [now apply graphOf_sameTimes | exact Hwf].
  - intros b Hb. rewrite graphOf_depth by assumption.
    now rewrite (Hfresh b Hb).
Qed.

(** On two conflicting blocks the driver leaves distinct depths and path
    depths of at least 1, and the ranges between the exact quotients
    [depth / pathDepth] and [(depth + 1) / pathDepth] lie apart. *)
Lemma layoutDay_apart st blocks r :
  NoDup blocks -> wellFormed st blocks -> freshBlocks st blocks ->
  layoutDay st blocks = Some r ->
  forall a b, In a blocks -> In b blocks -> a <> b ->
    conflict (st a) (st b) = true ->
    1 < columnsOf (scheduleOf st blocks) /\
    depth (d_store r a) <> depth (d_store r b) /\
    0 <= depth (d_store r a) < pathDepth (d_store r a) /\
    0 <= depth (d_store r b) < pathDepth (d_store r b) /\
    exactlyApart (d_store r a) (d_store r b).
Proof.
  intros Hnd Hwf Hfresh Hrun a b Ha Hb Hab Hc.
  pose proof (scheduleOf_Scheduled st blocks Hnd Hwf Hfresh)
    as [Hproper Hrange _ _ _ _].
  assert (Hc2 : conflict (storeAfter (scheduleOf st blocks) a)
                         (storeAfter (scheduleOf st blocks) b) = true).
  { rewrite (conflict_sameTimes st) by now apply scheduleOf_sameTimes.
    exact Hc. }
  pose proof (Hproper a b Ha Hb Hab Hc2) as Hne.
  pose proof (Hrange a Ha) as Hra. pose proof (Hrange b Hb) as Hrb.
  assert (Hwide : 1 < columnsOf (scheduleOf st blocks)) by lia.
  pose proof (freshBlocks_closedIn _ _ Hfresh) as Hcl.
  destruct (layoutDay_wide st blocks r Hnd Hrun Hwide)
    as (st3 & Hcm & Hin & Hfinal).
  destruct (layoutDay_paths st blocks r st3 Hnd Hcl
              ltac:(intros x Hx; now rewrite (Hfresh x Hx)) Hcm)
    as (Hd & Hgt & Hmono).
  assert (Hnb : forall x y, In x blocks -> In y blocks -> x <> y ->
                  conflict (st y) (st x) = true -> In x (neighbors (st3 y))).
  { intros x y Hx Hy Hxy Hcxy.
    destruct (calculateMaxDepth_sameGraph _ _ _ _ Hcm y) as (_&_&_&E&_).
    rewrite E, scheduleOf_neighbors by assumption.
    apply in_or_app. right. now apply newNeighbors_In. }
  rewrite <- (Hd a), <- (Hd b) in Hne.
  rewrite <- (Hd a) in Hra. rewrite <- (Hd b) in Hrb.
  pose proof (Hgt a Ha) as Hga. pose proof (Hgt b Hb) as Hgb.
  unfold exactlyApart. rewrite (Hfinal a Ha), (Hfinal b Hb). simpl.
  split; [exact Hwide|]. split; [exact Hne|].
  split; [lia|]. split; [lia|].
  destruct (Z_lt_le_dec (depth (st3 a)) (depth (st3 b))) as [Hlt|Hge].
  - left. apply heuristic_edges; try lia.
    apply (Hmono b a Hb); [|exact Hlt].
    apply Hnb; auto. now rewrite conflict_sym.
  - right. apply heuristic_edges; try lia.
    apply (Hmono a b Ha); [|lia].
    apply Hnb; auto.
Qed.

(** On a weekday of two or more columns whose blocks enter unvisited with
    non-negative depths, the numbers stored in [left] and [width] are the
    quotients [depth / pathDepth] and [1 / pathDepth] of numbers. *)
Lemma layoutDay_stored st blocks r :
  NoDup blocks -> closedIn blocks st ->
  (forall b, In b blocks -> visited (st b) = false) ->
  (forall b, In b blocks -> 0 <= depth (st b)) ->
  layoutDay st blocks = Some r ->
  1 < columnsOf (scheduleOf st blocks) ->
  forall b, In b blocks ->
    double (left (d_store r b))
    = PrimFloat.div (number (depth (d_store r b)))
                    (number (pathDepth (d_store r b))) /\
    double (width (d_store r b))
    = PrimFloat.div PrimFloat.one (number (pathDepth (d_store r b))).
Proof.
  intros Hnd Hcl Hunv Hdepth Hrun Hwide b Hb.
  destruct (layoutDay_wide st blocks r Hnd Hrun Hwide)
    as (st3 & Hcm & Hin & Hfinal).
  destruct (layoutDay_paths st blocks r st3 Hnd Hcl Hunv Hcm)
    as (Hd & Hgt & _).
  specialize (Hgt b Hb). rewrite (Hfinal b Hb). simpl.
  assert (Hpos : 0 <= depth (st3 b)).
  { rewrite Hd. unfold scheduleOf. apply intervalScheduling2_nonneg; [|exact Hb].
    intros x Hx. rewrite graphOf_depth by assumption. now apply Hdepth. }
  split; rewrite double_Qofdiv by lia; reflexivity.
Qed.

(** What the blocks pushed by [constructAdjList] are. *)
Lemma newNeighbors_iff st blocks b c :
  In c (newNeighbors st blocks b) <->
  In b blocks /\ In c blocks /\ c <> b /\ conflict (st b) (st c) = true.
Proof.
  unfold newNeighbors, conflictsOf. destruct (inb b blocks) eqn:Hb.
  - apply inb_In in Hb. rewrite filter_In, andb_true_iff, negb_true_iff,
      Nat.eqb_neq. tauto.
  - apply inb_false in Hb. simpl. tauto.
Qed.

Lemma newNeighbors_NoDup st blocks b :
  NoDup blocks -> NoDup (newNeighbors st blocks b).
Proof.
  intros Hnd. unfold newNeighbors, conflictsOf.
  destruct (inb b blocks); [now apply NoDup_filter | constructor].
Qed.

(** The driver never shortens a neighbour list: it leaves every block with
    the list it entered with, followed by the conflicts found. *)
Lemma layoutDay_neighbors st blocks r :
  NoDup blocks -> layoutDay st blocks = Some r ->
  forall b, neighbors (d_store r b)
            = neighbors (st b) ++ newNeighbors st blocks b.
Proof.
  intros Hnd Hrun b. rewrite <- scheduleOf_neighbors by assumption.
  destruct (layoutDay_cases _ _ _ Hrun)
    as [[Hle ->]|(_ & st3 & blocks3 & st6 & comps & Hcm & Hcomp & ->)]; simpl.
  - rewrite setFull_spec. now destruct (inb b _).
  - pose proof (components_step _ _ _ _ _ _ Hcomp) as Hstep.
    destruct (visStep_sameGraph _ _ Hstep b) as (_&_&_&->&_).
    destruct (clearVisited_sameGraph blocks3
                (fold_left setHeuristic blocks3 st3) b) as (_&_&_&->&_).
    rewrite setHeuristic_spec.
    destruct (calculateMaxDepth_sameGraph _ _ _ _ Hcm b) as (_&_&_&<-&_).
    now destruct (inb b blocks3).
Qed.

(** The [visited] flags the driver leaves behind. *)
Lemma layoutDay_visited st blocks r :
  NoDup blocks -> layoutDay st blocks = Some r ->
  (columnsOf (scheduleOf st blocks) <= 1 ->
   forall b, visited (d_store r b) = visited (st b)) /\
  (1 < columnsOf (scheduleOf st blocks) ->
   forall b, In b blocks ->
     (visited (d_store r b) = true <->
      exists c, In c (d_components r) /\ In b c)).
Proof.
  intros Hnd Hrun. split.
  - intros Hnarrow b.
    destruct (layoutDay_narrow st blocks r Hrun Hnarrow) as (_ & _ & ->).
    rewrite <- (scheduleOf_visited st blocks b Hnd).
    now destruct (inb b blocks).
  - intros Hwide b Hb.
    destruct (layoutDay_cases _ _ _ Hrun)
      as [[Hle _]|(_ & st3 & blocks3 & st6 & comps & Hcm & Hcomp & ->)];
      [lia|]. simpl.
    destruct (components_marks _ _ _ _ _ _ Hcomp) as (new & E & Hvis).
    simpl in E. subst comps. rewrite Hvis.
    assert (Hb3 : In b blocks3).
    { destruct (calculateMaxDepth_inv _ _ _ _ Hcm) as (_ & _ & -> & _).
      rewrite sortBy_In. unfold scheduleOf.
      rewrite intervalScheduling2_array. now apply sortBy_In. }
    rewrite clearVisited_visited by assumption.
    split; [intros [H|H]; [discriminate | exact H] | auto].
Qed.

(** ** Weekdays of a single column *)

Lemma roomRun_mono st reps n l st' reps' n' :
  roomRun st reps n l st' reps' n' -> n <= n'.
Proof.
  induction 1 as [|st reps n b st1 reps1 n1 rest st2 reps2 n2 Hstep Hrun IH];
    [lia|].
  destruct Hstep; lia.
Qed.

(** When no room is opened, every block takes over the depth of the rooms
    the run starts with. *)
Lemma roomRun_single d0 st reps n l st' reps' n' :
  roomRun st reps n l st' reps' n' ->
  n' = n -> (forall r, In r reps -> depth (st r) = d0) ->
  (forall r, In r reps' -> depth (st' r) = d0) /\
  forall i, depth (st i) = d0 \/ In i l -> depth (st' i) = d0.
Proof.
  induction 1 as [|st reps n b st1 reps1 n1 rest st2 reps2 n2 Hstep Hrun IH];
    intros Hn Hreps.
  - split; [exact Hreps|]. intros i [H|[]]. exact H.
  - pose proof (roomRun_mono _ _ _ _ _ _ _ Hrun) as Hm.
    destruct Hstep as [reps' Hbusy Hperm | r others reps' Hfree Hperm Hperm'];
      [lia|].
    assert (Hr : depth (st r) = d0).
    { apply Hreps. eapply Permutation_in; [symmetry; exact Hperm | now left]. }
    set (st1 := upd st b (set_depth (depth (st r)))) in *.
    assert (Hb : depth (st1 b) = d0) by (unfold st1; now rewrite upd_same).
    assert (Hoth : forall i, depth (st i) = d0 -> depth (st1 i) = d0).
    { intros i Hi. unfold st1, upd. destruct (Nat.eqb i b); simpl; congruence. }
    destruct (IH Hn) as (Hreps2 & Hall).
    { intros x Hx. eapply Permutation_in in Hx; [|exact Hperm'].
      destruct Hx as [<-|Hx]; [exact Hb|].
      apply Hoth, Hreps.
      eapply Permutation_in; [symmetry; exact Hperm | now right]. }
    split; [exact Hreps2|].
    intros i [Hi|[<-|Hi]]; apply Hall; auto.
Qed.

(** Blocks that do not conflict never force a room open. *)
Lemma roomRun_conflictFree st reps n l st' reps' n' :
  roomRun st reps n l st' reps' n' ->
  forall P,
    reps <> [] -> incl reps P -> NoDup (P ++ l) ->
    StronglySorted (fun x y => startMin (st x) <= startMin (st y)) l ->
    (forall p b, In p P -> In b l -> startMin (st p) <= startMin (st b)) ->
    wellFormed st (P ++ l) -> conflictFree st (P ++ l) ->
    n' = n.
Proof.
  induction 1 as [|st reps n b st1 reps1 n1 rest st2 reps2 n2 Hstep Hrun IH];
    intros P Hne Hincl Hnd Hsort Hlow Hwf Hfree; [reflexivity|].
  pose proof (roomStep_sameTimes _ _ _ _ _ _ _ Hstep) as Ht.
  inversion Hsort as [|? ? Hsort' Hall]; subst.
  rewrite Forall_forall in Hall.
  assert (HbP : ~ In b P).
  { apply NoDup_remove_2 in Hnd. intros H. apply Hnd, in_or_app. now left. }
  assert (Hnext : n2 = n1).
  { apply (IH (b :: P)).
    - destruct Hstep as [reps' _ Hperm | r others reps' _ _ Hperm'];
        intros ->.
      + apply Permutation_nil in Hperm. discriminate.
      + apply Permutation_nil in Hperm'. discriminate.
    - destruct Hstep as [reps' _ Hperm | r others reps' _ Hperm Hperm'];
        intros x Hx.
      + eapply Permutation_in in Hx; [|exact Hperm].
        destruct Hx as [<-|Hx]; [now left | right; now apply Hincl].
      + eapply Permutation_in in Hx; [|exact Hperm'].
        destruct Hx as [<-|Hx]; [now left | right; apply Hincl].
        eapply Permutation_in; [symmetry; exact Hperm | now right].
    - eapply Permutation_NoDup; [|exact Hnd].
      symmetry. apply (Permutation_middle P rest b).
    - eapply sorted_sameTimes; eauto.
    - intros p x Hp Hx. destruct (Ht p) as [-> _], (Ht x) as [-> _].
      destruct Hp as [<-|Hp]; [now apply Hall | apply Hlow; simpl; auto].
    - eapply wellFormed_sameTimes; [exact Ht|].
      intros x Hx. apply Hwf. apply in_app_or in Hx as [[<-|Hx]|Hx];
        apply in_or_app; simpl; auto.
    - intros x y Hx Hy Hxy. rewrite (conflict_sameTimes st) by exact Ht.
      apply Hfree; auto.
      + apply in_app_or in Hx as [[<-|Hx]|Hx]; apply in_or_app; simpl; auto.
      + apply in_app_or in Hy as [[<-|Hy]|Hy]; apply in_or_app; simpl; auto. }
  destruct Hstep as [reps' Hbusy Hperm | r others reps' Hfr Hperm Hperm'];
    [exfalso | exact Hnext].
  destruct reps as [|r reps]; [congruence|].
  assert (Hr : In r P) by (apply Hincl; now left).
  assert (Hrb : r <> b) by (intros ->; contradiction).
  assert (Hc : conflict (st r) (st b) = true).
  { apply conflict_true.
    pose proof (Hbusy r (or_introl eq_refl)).
    pose proof (Hlow r b Hr (or_introl eq_refl)).
    pose proof (Hwf b ltac:(apply in_or_app; simpl; auto)). lia. }
  rewrite Hfree in Hc; [discriminate | | | exact Hrb];
    apply in_or_app; simpl; auto.
Qed.

Lemma scheduleOf_sorted st blocks :
  NoDup blocks ->
  arrayAfter (scheduleOf st blocks) = sortBy (byStart st) blocks.
Proof.
  intros Hnd. unfold scheduleOf. rewrite intervalScheduling2_array.
  apply sortBy_ext. intros x y. symmetry.
  apply byStart_sameTimes. intros i.
  destruct (graphOf_sameTimes st blocks Hnd i) as [A B]. split; congruence.
Qed.

Lemma scheduleOf_run st blocks b0 rest :
  NoDup blocks -> sortBy (byStart st) blocks = b0 :: rest ->
  exists st' reps n,
    roomRun (graphOf st blocks) [b0] 0 rest st' reps n /\
    scheduleOf st blocks = (st', b0 :: rest, n + 1).
Proof.
  intros Hnd Hs. unfold scheduleOf. apply intervalScheduling2_run.
  rewrite <- Hs. symmetry.
  rewrite <- scheduleOf_sorted by assumption.
  unfold scheduleOf. apply intervalScheduling2_array.
Qed.

(** With at most one column every block carries the depth the first block
    of the sorted array entered with. *)
Lemma scheduleOf_narrow st blocks b0 rest :
  NoDup blocks -> sortBy (byStart st) blocks = b0 :: rest ->
  columnsOf (scheduleOf st blocks) <= 1 ->
  forall b, In b blocks ->
    depth (storeAfter (scheduleOf st blocks) b) = depth (st b0).
Proof.
  intros Hnd Hs Hnarrow b Hb.
  destruct (scheduleOf_run _ _ _ _ Hnd Hs) as (st' & reps & n & Hrun & Heq).
  rewrite Heq in *. unfold columnsOf, storeAfter in *. simpl in *.
  pose proof (roomRun_mono _ _ _ _ _ _ _ Hrun) as Hm.
  destruct (roomRun_single (depth (st b0)) _ _ _ _ _ _ _ Hrun ltac:(lia))
    as (_ & Hall).
  { intros r [<-|[]]. now apply graphOf_depth. }
  apply Hall.
  apply (sortBy_In (byStart st)) in Hb. rewrite Hs in Hb.
  destruct Hb as [<-|Hb]; [left; now apply graphOf_depth | now right].
Qed.

(** Well-formed blocks that do not conflict need one column. *)
Lemma scheduleOf_conflictFree st blocks :
  blocks <> [] -> NoDup blocks -> wellFormed st blocks ->
  conflictFree st blocks ->
  columnsOf (scheduleOf st blocks) = 1.
Proof.
  intros Hne Hnd Hwf Hfree.
  destruct (sortBy (byStart st) blocks) as [|b0 rest] eqn:Hs.
  { apply sortBy_nil in Hs. contradiction. }
  destruct (scheduleOf_run _ _ _ _ Hnd Hs) as (st' & reps & n & Hrun & ->).
  unfold columnsOf; simpl.
  pose proof (sortBy_perm (byStart st) blocks) as Hperm. rewrite Hs in Hperm.
  pose proof (sortByStart_sorted st blocks) as Hsort. rewrite Hs in Hsort.
  inversion Hsort as [|? ? Hsort' Hall]; subst.
  rewrite Forall_forall in Hall.
  pose proof (graphOf_sameTimes st blocks Hnd) as Ht.
  assert (Hin : forall x, In x ([b0] ++ rest) -> In x blocks).
  { intros x Hx. eapply Permutation_in; [exact Hperm | exact Hx]. }
  rewrite (roomRun_conflictFree _ _ _ _ _ _ _ Hrun [b0]); [reflexivity | | | | | | |].
  - discriminate.
  - intros x Hx. exact Hx.
  - eapply Permutation_NoDup; [symmetry; exact Hperm | exact Hnd].
  - eapply sorted_sameTimes; eauto.
  - intros p b [<-|[]] Hb. destruct (Ht b0) as [-> _], (Ht b) as [-> _].
    now apply Hall.
  - eapply wellFormed_sameTimes; [exact Ht|].
    intros x Hx. apply Hwf, Hin, Hx.
  - intros x y Hx Hy Hxy. rewrite (conflict_sameTimes st) by exact Ht.
    apply Hfree; auto.
Qed.

Lemma layoutDay_narrow_returns st blocks :
  columnsOf (scheduleOf st blocks) <= 1 ->
  exists r, layoutDay st blocks = Some r.
Proof.
  unfold layoutDay, scheduleOf, graphOf, columnsOf.
  destruct (intervalScheduling2 _ blocks) as [[st2 blocks2] total]. simpl.
  intros H. apply Z.leb_le in H. rewrite H. eauto.
Qed.

(** ** A repeated pass follows the first one *)

Lemma foldM_app {A S : Type} (f : S -> A -> option S) l1 l2 s :
  foldM f (l1 ++ l2) s
  = match foldM f l1 s with Some s1 => foldM f l2 s1 | None => None end.
Proof.
  revert s. induction l1 as [|a l1 IH]; intros s; simpl; [reflexivity|].
  destruct (f s a); [apply IH | reflexivity].
Qed.

Lemma extends_closedIn U s s' : closedIn U s -> extends U s s' -> closedIn U s'.
Proof.
  intros Hcl He x w Hx Hw. destruct (He x Hx) as (_ & _ & e & En & Hie).
  rewrite En in Hw. apply in_app_or in Hw as [Hw|Hw]; eauto.
Qed.

(** *** The first traversal *)

Lemma pathRel_mark U s s' start m :
  In start U -> pathRel U s s' ->
  pathRel U (upd (upd s start (set_visited true)) start (set_pathDepth m))
            (upd (upd s' start (set_visited true)) start (set_pathDepth m)).
Proof.
  intros Hs [He Hp]. split.
  - intros i Hi. destruct (He i Hi) as (A & B & e & C & D).
    unfold upd. destruct (Nat.eqb i start); simpl; eauto.
  - intros i Hi. unfold upd. destruct (Nat.eqb i start); simpl; auto.
Qed.

Lemma dfs_loop_sim U fuel maxDepth sd :
  (forall s s' a s1,
     closedIn U s -> In a U -> visited (s a) = false -> pathRel U s s' ->
     depthFirstSearchRec fuel maxDepth s a = Some s1 ->
     exists s1', depthFirstSearchRec fuel maxDepth s' a = Some s1' /\
                 pathRel U s1 s1') ->
  forall l s s' s1,
    closedIn U s -> incl l U -> pathRel U s s' ->
    foldM (dfsVisit (depthFirstSearchRec fuel maxDepth) sd) l s = Some s1 ->
    exists s1',
      foldM (dfsVisit (depthFirstSearchRec fuel maxDepth) sd) l s' = Some s1' /\
      pathRel U s1 s1'.
Proof.
  intros Hrec. induction l as [|a l IH]; intros s s' s1 Hcl Hl Hrel Hrun;
    cbn [foldM] in *.
  - injection Hrun as <-. eauto.
  - assert (Ha : In a U) by (apply Hl; now left).
    assert (Hl' : incl l U) by (intros w Hw; apply Hl; now right).
    destruct (dfsVisit _ sd s a) as [sa|] eqn:Hv; [|discriminate].
    unfold dfsVisit in *.
    destruct Hrel as [He Hp]. destruct (He a Ha) as (Ed & Ev & _).
    rewrite Ed, Ev.
    destruct (negb (visited (s a)) && (depth (s a) <? sd)) eqn:Hcond.
    + apply andb_true_iff in Hcond as [Va _]. apply negb_true_iff in Va.
      destruct (Hrec s s' a sa Hcl Ha Va (conj He Hp) Hv) as (sa' & -> & Hrel').
      apply (IH sa sa' s1); auto.
      eapply closedIn_pathStep; [apply (dfs_post _ _ _ _ _ Va Hv) | exact Hcl].
    + injection Hv as <-. apply (IH s s' s1); auto. split; assumption.
Qed.

Lemma dfs_loop_idle (rec : store -> nat -> option store) sd : forall e s,
  (forall a, In a e -> visited (s a) = true \/ sd <= depth (s a)) ->
  foldM (dfsVisit rec sd) e s = Some s.
Proof.
  induction e as [|a e IH]; intros s H; simpl; [reflexivity|].
  unfold dfsVisit at 1.
  destruct (H a (or_introl eq_refl)) as [V|D].
  - rewrite V. simpl. apply IH. intros x Hx. apply H. now right.
  - assert (E : (depth (s a) <? sd) = false) by (apply Z.ltb_ge; lia).
    rewrite E, andb_false_r. apply IH. intros x Hx. apply H. now right.
Qed.

Lemma dfs_sim U : forall fuel maxDepth s s' start s1,
  closedIn U s -> In start U -> visited (s start) = false -> pathRel U s s' ->
  depthFirstSearchRec fuel maxDepth s start = Some s1 ->
  exists s1', depthFirstSearchRec fuel maxDepth s' start = Some s1' /\
              pathRel U s1 s1'.
Proof.
  induction fuel as [|fuel IH]; intros maxDepth s s' start s1 Hcl Hs V Hrel Hrun;
    simpl in Hrun; [discriminate|]. simpl.
  set (st1 := upd (upd s start (set_visited true)) start
                  (set_pathDepth maxDepth)) in *.
  set (st1' := upd (upd s' start (set_visited true)) start
                   (set_pathDepth maxDepth)).
  assert (Hrel1 : pathRel U st1 st1') by now apply pathRel_mark.
  assert (Hstep1 : pathStep s st1) by now apply pathStep_mark.
  assert (Hcl1 : closedIn U st1) by (eapply closedIn_pathStep; eauto).
  destruct Hrel1 as [He1 Hp1].
  destruct (He1 start Hs) as (Ed & Ev & e & En & Hie).
  rewrite Ed, En, foldM_app.
  assert (Hl : incl (neighbors (st1 start)) U).
  { intros w Hw. eapply Hcl1; eauto. }
  destruct (dfs_loop_sim U fuel maxDepth (depth (st1 start))
              (fun a b c d => IH maxDepth a b c d)
              _ _ _ _ Hcl1 Hl (conj He1 Hp1) Hrun) as (sa' & -> & Hrela).
  exists sa'. split; [|exact Hrela].
  apply dfs_loop_idle. intros a Ha.
  destruct (dfs_loop maxDepth (depth (st1 start))
              (depthFirstSearchRec fuel maxDepth)
              (fun s0 a0 s2 Hv Hr => dfs_post _ _ _ _ _ Hv Hr)
              _ _ _ Hrun) as (Hstep2 & _ & Hseen).
  assert (HaU : In a U) by (apply Hl, Hie, Ha).
  destruct Hrela as [Hea _]. destruct (Hea a HaU) as (Eda & Eva & _).
  rewrite Eda, Eva, (pathStep_depth _ _ _ Hstep2).
  destruct (Z_lt_le_dec (depth (st1 a)) (depth (st1 start))) as [Hlt|Hge].
  - left. apply Hseen; [apply Hie, Ha | exact Hlt].
  - right. exact Hge.
Qed.

Lemma pathRoots_sim U fuel : forall todo s s' s1,
  closedIn U s -> incl todo U -> pathRel U s s' ->
  foldM (pathRoot fuel) todo s = Some s1 ->
  exists s1', foldM (pathRoot fuel) todo s' = Some s1' /\ pathRel U s1 s1'.
Proof.
  induction todo as [|r todo IH]; intros s s' s1 Hcl Hincl Hrel Hrun;
    cbn [foldM] in *.
  - injection Hrun as <-. eauto.
  - assert (Hr : In r U) by (apply Hincl; now left).
    assert (Hincl' : incl todo U) by (intros x Hx; apply Hincl; now right).
    destruct (pathRoot fuel s r) as [sa|] eqn:Hroot; [|discriminate].
    unfold pathRoot in *. destruct Hrel as [He Hp].
    destruct (He r Hr) as (Ed & Ev & _). rewrite Ed, Ev.
    destruct (visited (s r)) eqn:Vr; simpl in *.
    + injection Hroot as <-. apply (IH s s' s1); auto. split; assumption.
    + destruct (dfs_sim U fuel _ s s' r sa Hcl Hr Vr (conj He Hp) Hroot)
        as (sa' & -> & Hrel').
      apply (IH sa sa' s1); auto.
      eapply closedIn_pathStep; [apply (dfs_post _ _ _ _ _ Vr Hroot) | exact Hcl].
Qed.

Lemma pathRoots_visited fuel : forall todo s s',
  foldM (pathRoot fuel) todo s = Some s' ->
  forall x, In x todo -> visited (s' x) = true.
Proof.
  induction todo as [|r todo IH]; intros s s' Hrun x Hx; cbn [foldM] in Hrun;
    [destruct Hx|].
  destruct (pathRoot fuel s r) as [sa|] eqn:Hroot; [|discriminate].
  destruct Hx as [<-|Hx]; [|eapply IH; eauto].
  apply (pathStep_visited _ _ _ (pathRoots_step _ _ _ _ Hrun)).
  unfold pathRoot in Hroot. destruct (visited (s r)) eqn:Vr; simpl in Hroot.
  - now injection Hroot as <-.
  - apply (dfs_post _ _ _ _ _ Vr Hroot).
Qed.

(** *** The second traversal *)

Lemma fixed_result fuel st start st' r :
  DFSFindFixed fuel st start = Some (st', r) -> isFixed (st' start) = r.
Proof.
  destruct fuel as [|fuel]; simpl; [discriminate|].
  destruct (depth _ =? 0).
  - intros H. injection H as <- <-. now rewrite upd_same.
  - destruct (foldM _ _ _) as [[s flag]|]; [|discriminate].
    intros H. injection H as <- <-. now rewrite upd_same.
Qed.

Lemma samePath_eq sd pd b b' :
  depth b' = depth b -> pathDepth b' = pathDepth b ->
  samePath sd pd b' = samePath sd pd b.
Proof. unfold samePath. now intros -> ->. Qed.

(** After the loop of a call, every neighbour on the same path has been
    visited, and the flag is raised when one of them is fixed. *)
Lemma fixed_loop_seen sd pd (rec : store -> nat -> option (store * bool)) :
  (forall s a s1 r, visited (s a) = false -> rec s a = Some (s1, r) ->
     fixStep s s1 /\ visited (s1 a) = true /\ isFixed (s1 a) = r) ->
  forall l s flag s' flag',
    foldM (fixedVisit rec sd pd) l (s, flag) = Some (s', flag') ->
    (flag = true -> flag' = true) /\
    forall u, In u l -> samePath sd pd (s u) = true ->
      visited (s' u) = true /\ (isFixed (s' u) = true -> flag' = true).
Proof.
  intros Hrec. induction l as [|a l IH]; intros s flag s' flag' Hfold;
    cbn [foldM] in Hfold.
  - injection Hfold as <- <-. split; [auto | intros u []].
  - destruct (fixedVisit rec sd pd (s, flag) a) as [[s1 flag1]|] eqn:Hv;
      [|discriminate].
    assert (Hframe : fixStep s1 s').
    { eapply fixed_loop_frame; [|exact Hfold].
      intros s0 a0 s2 r0 V0 H0. destruct (Hrec s0 a0 s2 r0 V0 H0) as (A & B & _).
      now split. }
    destruct (IH _ _ _ _ Hfold) as [Hf Hu].
    assert (Hstep : fixStep s s1 /\ (flag = true -> flag1 = true) /\
              (samePath sd pd (s a) = true ->
               visited (s1 a) = true /\ (isFixed (s1 a) = true -> flag1 = true))).
    { unfold fixedVisit in Hv. cbv beta iota in Hv.
      destruct (visited (s a)) eqn:Va.
      - injection Hv as <- <-. split; [apply fixStep_refl|]. split.
        + intros ->. apply orb_true_r.
        + intros Hsame. split; [exact Va|]. intros ->. now rewrite Hsame.
      - destruct (samePath sd pd (s a)) eqn:Hsame.
        + destruct (rec s a) as [[s2 r]|] eqn:Hr; [|discriminate].
          injection Hv as <- <-.
          destruct (Hrec _ _ _ _ Va Hr) as (A & B & C).
          split; [exact A|]. split.
          * intros ->. apply orb_true_r.
          * intros _. split; [exact B|]. rewrite C. now intros ->.
        + injection Hv as <- <-. split; [apply fixStep_refl|].
          split; [auto | discriminate]. }
    destruct Hstep as (Hs1 & Hf1 & Ha).
    split; [auto|]. intros u [<-|Hin] Hsame.
    + destruct (Ha Hsame) as [Va Fa]. split.
      * apply (fixStep_visited _ _ _ Hframe Va).
      * rewrite (fixStep_old _ _ _ Hframe Va). auto.
    + apply Hu; [exact Hin|].
      rewrite (samePath_eq sd pd (s u) (s1 u)); [exact Hsame | |].
      * apply (fixStep_depth _ _ _ Hs1).
      * apply (fixStep_pathDepth _ _ _ Hs1).
Qed.

Lemma fixed_full : forall fuel s a s1 r,
  visited (s a) = false -> DFSFindFixed fuel s a = Some (s1, r) ->
  fixStep s s1 /\ visited (s1 a) = true /\ isFixed (s1 a) = r.
Proof.
  intros fuel s a s1 r V H. destruct (fixed_frame _ _ _ _ _ V H) as [A B].
  repeat split; auto. eapply fixed_result; eauto.
Qed.

Lemma fixRel_enter U stk s s' start :
  fixRel U stk s s' ->
  fixRel U (start :: stk) (upd s start (set_visited true))
                          (upd s' start (set_visited true)).
Proof.
  intros (He & Hp & Hf). split; [|split].
  - intros i Hi. destruct (He i Hi) as (A & B & e & C & D).
    unfold upd. destruct (Nat.eqb i start); simpl; eauto.
  - intros i Hi. unfold upd. destruct (Nat.eqb i start); simpl; auto.
  - intros i Hi V Hn. unfold upd in *.
    destruct (Nat.eqb_spec i start) as [->|Hne].
    + exfalso. apply Hn. now left.
    + apply Hf; auto. intros Hs. apply Hn. now right.
Qed.

Lemma fixRel_leave U stk s s' start f :
  fixRel U (start :: stk) s s' ->
  fixRel U stk (upd s start (set_isFixed f)) (upd s' start (set_isFixed f)).
Proof.
  intros (He & Hp & Hf). split; [|split].
  - intros i Hi. destruct (He i Hi) as (A & B & e & C & D).
    unfold upd. destruct (Nat.eqb i start); simpl; eauto.
  - intros i Hi. unfold upd. destruct (Nat.eqb i start); simpl; auto.
  - intros i Hi V Hn. unfold upd in *.
    destruct (Nat.eqb_spec i start) as [->|Hne]; [reflexivity|].
    apply Hf; auto. intros [E|Hs]; [now apply Hne | now apply Hn].
Qed.

Lemma fixed_loop_sim U stk fuel sd pd :
  (forall s s' a s1 r,
     closedIn U s -> In a U -> visited (s a) = false ->
     (forall t, In t stk -> depth (s a) < depth (s t)) ->
     fixRel U stk s s' -> DFSFindFixed fuel s a = Some (s1, r) ->
     exists s1', DFSFindFixed fuel s' a = Some (s1', r) /\ fixRel U stk s1 s1') ->
  forall l s s' flag s1 flag1,
    closedIn U s -> incl l U -> fixRel U stk s s' ->
    (forall t, In t stk -> sd <= depth (s t)) ->
    foldM (fixedVisit (DFSFindFixed fuel) sd pd) l (s, flag) = Some (s1, flag1) ->
    exists s1',
      foldM (fixedVisit (DFSFindFixed fuel) sd pd) l (s', flag)
      = Some (s1', flag1) /\ fixRel U stk s1 s1'.
Proof.
  intros Hrec. induction l as [|a l IH];
    intros s s' flag s1 flag1 Hcl Hl Hrel Hstk Hrun; cbn [foldM] in *.
  - injection Hrun as <- <-. eauto.
  - assert (Ha : In a U) by (apply Hl; now left).
    assert (Hl' : incl l U) by (intros w Hw; apply Hl; now right).
    destruct (fixedVisit _ sd pd (s, flag) a) as [[sa flaga]|] eqn:Hv;
      [|discriminate].
    unfold fixedVisit in *. cbv beta iota in *.
    pose proof Hrel as (He & Hp & Hf).
    destruct (He a Ha) as (Ed & Ev & _).
    rewrite (samePath_eq sd pd (s a) (s' a) Ed (Hp a Ha)), Ev.
    destruct (visited (s a)) eqn:Va.
    + injection Hv as <- <-.
      assert (E : isFixed (s' a) && samePath sd pd (s a)
                  = isFixed (s a) && samePath sd pd (s a)).
      { destruct (samePath sd pd (s a)) eqn:Hsame;
          [|now rewrite !andb_false_r].
        rewrite (Hf a Ha Va); [reflexivity|].
        intros Hin. apply samePath_depth in Hsame.
        specialize (Hstk a Hin). lia. }
      rewrite E. apply (IH s s' _ s1 flag1); auto.
    + destruct (samePath sd pd (s a)) eqn:Hsame.
      * destruct (DFSFindFixed fuel s a) as [[s2 r]|] eqn:Hr; [|discriminate].
        injection Hv as <- <-.
        assert (Hlow : forall t, In t stk -> depth (s a) < depth (s t)).
        { intros t Ht. apply samePath_depth in Hsame.
          specialize (Hstk t Ht). lia. }
        destruct (Hrec s s' a s2 r Hcl Ha Va Hlow Hrel Hr) as (s2' & -> & Hrel2).
        destruct (fixed_frame _ _ _ _ _ Va Hr) as [Hstep _].
        apply (IH s2 s2' _ s1 flag1); auto.
        -- eapply closedIn_fixStep; eauto.
        -- intros t Ht. rewrite (fixStep_depth _ _ _ Hstep). auto.
      * injection Hv as <- <-. apply (IH s s' _ s1 flag1); auto.
Qed.

Lemma fixed_loop_idle (rec : store -> nat -> option (store * bool)) sd pd flag :
  forall e s,
    (forall a, In a e ->
       (visited (s a) = true /\
        (isFixed (s a) && samePath sd pd (s a) = true -> flag = true)) \/
       (visited (s a) = false /\ samePath sd pd (s a) = false)) ->
    foldM (fixedVisit rec sd pd) e (s, flag) = Some (s, flag).
Proof.
  induction e as [|a e IH]; intros s H; cbn [foldM]; [reflexivity|].
  unfold fixedVisit at 1. cbv beta iota.
  destruct (H a (or_introl eq_refl)) as [[V F]|[V F]]; rewrite V.
  - assert (E : isFixed (s a) && samePath sd pd (s a) || flag = flag).
    { destruct (isFixed (s a) && samePath sd pd (s a)); [|reflexivity].
      now rewrite F. }
    rewrite E. apply IH. intros x Hx. apply H. now right.
  - rewrite F. apply IH. intros x Hx. apply H. now right.
Qed.

Lemma fixed_sim U : forall fuel s s' start stk s1 r,
  closedIn U s -> In start U -> visited (s start) = false ->
  (forall t, In t stk -> depth (s start) < depth (s t)) ->
  fixRel U stk s s' -> DFSFindFixed fuel s start = Some (s1, r) ->
  exists s1', DFSFindFixed fuel s' start = Some (s1', r) /\ fixRel U stk s1 s1'.
Proof.
  induction fuel as [|fuel IH];
    intros s s' start stk s1 r Hcl Hs V Hstk Hrel Hrun;
    simpl in Hrun; [discriminate|]. simpl.
  set (st1 := upd s start (set_visited true)) in *.
  set (st1' := upd s' start (set_visited true)).
  assert (Hrel1 : fixRel U (start :: stk) st1 st1') by now apply fixRel_enter.
  assert (Hstep1 : fixStep s st1) by now apply fixStep_enter.
  assert (Hcl1 : closedIn U st1) by (eapply closedIn_fixStep; eauto).
  pose proof Hrel1 as (He1 & Hp1 & Hf1).
  destruct (He1 start Hs) as (Ed & Ev & e & En & Hie).
  rewrite Ed, (Hp1 start Hs), En.
  destruct (depth (st1 start) =? 0).
  - injection Hrun as <- <-. eexists. split; [reflexivity|].
    now apply fixRel_leave.
  - destruct (foldM _ _ _) as [[sa flag]|] eqn:Hfold; [|discriminate].
    injection Hrun as <- <-.
    assert (Hl : incl (neighbors (st1 start)) U).
    { intros w Hw. eapply Hcl1; eauto. }
    assert (Hstk1 : forall t, In t (start :: stk) ->
                      depth (st1 start) <= depth (st1 t)).
    { intros t [<-|Ht]; [lia|].
      rewrite !(fixStep_depth _ _ _ Hstep1). specialize (Hstk t Ht). lia. }
    destruct (fixed_loop_sim U (start :: stk) fuel _ _
                (fun a b c d e0 => IH a b c (start :: stk) d e0)
                _ _ _ _ _ _ Hcl1 Hl Hrel1 Hstk1 Hfold) as (sa' & Hfold' & Hrela).
    rewrite foldM_app, Hfold'.
    destruct (fixed_loop_seen _ _ _ (fixed_full fuel) _ _ _ _ _ Hfold)
      as [_ Hseen].
    pose proof (fixed_loop_frame _ _ _ (fixed_frame fuel) _ _ _ _ _ Hfold)
      as Hframe.
    rewrite (fixed_loop_idle _ _ _ flag e sa').
    + eexists. split; [reflexivity|]. now apply fixRel_leave.
    + intros a Ha.
      assert (HaU : In a U) by (apply Hl, Hie, Ha).
      destruct Hrela as (Hea & Hpa & Hfa).
      destruct (Hea a HaU) as (Eda & Eva & _).
      rewrite (samePath_eq _ _ (sa a) (sa' a) Eda (Hpa a HaU)), Eva.
      destruct (visited (sa a)) eqn:Va.
      * left. split; [reflexivity|]. intros Hand.
        apply andb_true_iff in Hand as [Hfix Hsame].
        assert (Hnot : ~ In a (start :: stk)).
        { intros Hin. apply samePath_depth in Hsame.
          specialize (Hstk1 a Hin).
          rewrite (fixStep_depth _ _ _ Hframe) in Hsame. lia. }
        rewrite (Hfa a HaU Va Hnot) in Hfix.
        apply (Hseen a (Hie a Ha)); [|exact Hfix].
        now rewrite <- (samePath_fixStep _ _ _ _ a Hframe).
      * right. split; [reflexivity|].
        destruct (samePath _ _ (sa a)) eqn:Hsame; [|reflexivity].
        rewrite (samePath_fixStep _ _ _ _ a Hframe) in Hsame.
        destruct (Hseen a (Hie a Ha) Hsame) as [Va' _]. congruence.
Qed.

Lemma forallb_extended {A : Type} (f f' : A -> bool) l e :
  (forall x, In x l -> f' x = f x) -> incl e l ->
  forallb f' (l ++ e) = forallb f l.
Proof.
  intros Hf He. rewrite forallb_app.
  assert (E : forallb f' l = forallb f l).
  { clear He. induction l as [|a l IH]; simpl; [reflexivity|].
    rewrite (Hf a (or_introl eq_refl)), IH; [reflexivity|].
    intros x Hx. apply Hf. now right. }
  rewrite E. destruct (forallb f l) eqn:Hall; [|reflexivity].
  simpl. apply forallb_forall. intros x Hx.
  rewrite Hf by (apply He, Hx).
  rewrite forallb_forall in Hall. apply Hall, He, Hx.
Qed.

Lemma isLocalTop_extends U s s' x :
  closedIn U s -> extends U s s' -> In x U ->
  isLocalTop s' x = isLocalTop s x.
Proof.
  intros Hcl He Hx. unfold isLocalTop.
  destruct (He x Hx) as (Ed & _ & e & En & Hie). rewrite En, Ed.
  apply forallb_extended; [|exact Hie].
  intros v Hv. destruct (He v (Hcl x v Hx Hv)) as (Edv & _). now rewrite Edv.
Qed.

Lemma fixedRoots_sim U fuel : forall todo s s' s1,
  closedIn U s -> incl todo U -> fixRel U [] s s' ->
  foldM (fixedRoot fuel) todo s = Some s1 ->
  exists s1', foldM (fixedRoot fuel) todo s' = Some s1' /\ fixRel U [] s1 s1'.
Proof.
  induction todo as [|x todo IH]; intros s s' s1 Hcl Hincl Hrel Hrun;
    cbn [foldM] in *.
  - injection Hrun as <-. eauto.
  - assert (Hx : In x U) by (apply Hincl; now left).
    assert (Hincl' : incl todo U) by (intros w Hw; apply Hincl; now right).
    destruct (fixedRoot fuel s x) as [sa|] eqn:Hroot; [|discriminate].
    unfold fixedRoot in *. pose proof Hrel as (He & _).
    destruct (He x Hx) as (_ & Ev & _).
    rewrite Ev, (isLocalTop_extends U s s' x Hcl He Hx).
    destruct (negb (visited (s x)) && isLocalTop s x) eqn:Hcond.
    + apply andb_true_iff in Hcond as [Vx _]. apply negb_true_iff in Vx.
      destruct (DFSFindFixed fuel s x) as [[sb r]|] eqn:Hd; [|discriminate].
      simpl in Hroot. injection Hroot as <-.
      destruct (fixed_sim U fuel s s' x [] sb r Hcl Hx Vx
                  (fun t (F : In t []) => match F with end) Hrel Hd)
        as (sb' & -> & Hrel'). simpl.
      apply (IH sb sb' s1); auto.
      eapply closedIn_fixStep; [|exact Hcl].
      apply (fixed_frame _ _ _ _ _ Vx Hd).
    + injection Hroot as <-. apply (IH s s' s1); auto.
Qed.

(** *** The scheduler *)

Lemma insertBy_ext_in cmp cmp' x m :
  (forall y, In y m -> cmp x y = cmp' x y) ->
  insertBy cmp x m = insertBy cmp' x m.
Proof.
  induction m as [|y m IHm]; intros H; simpl; [reflexivity|].
  rewrite (H y (or_introl eq_refl)).
  rewrite IHm by (intros a Ha; apply H; now right). reflexivity.
Qed.

Lemma sortBy_ext_in cmp cmp' l :
  (forall x y, In x l -> In y l -> cmp x y = cmp' x y) ->
  sortBy cmp l = sortBy cmp' l.
Proof.
  induction l as [|x l IH]; intros H; simpl; [reflexivity|].
  rewrite IH by (intros a b Ha Hb; apply H; now right).
  apply insertBy_ext_in. intros y Hy. apply sortBy_In in Hy.
  apply H; [now left | now right].
Qed.

Lemma queueMin_agree st st' q : forall best,
  (forall x, In x (best :: q) ->
     endMin (st' x) = endMin (st x) /\ depth (st' x) = depth (st x)) ->
  queueMin st' best q = queueMin st best q.
Proof.
  induction q as [|r q IH]; intros best H; simpl; [reflexivity|].
  assert (E : byEnd st' r best = byEnd st r best).
  { unfold byEnd.
    destruct (H r (or_intror (or_introl eq_refl))) as [-> ->].
    destruct (H best (or_introl eq_refl)) as [-> ->]. reflexivity. }
  rewrite E. apply IH. intros x [<-|Hx].
  - destruct (byEnd st r best <? 0); apply H; simpl; auto.
  - apply H. simpl; auto.
Qed.

Lemma removeFirst_incl x q : incl (removeFirst x q) q.
Proof.
  induction q as [|y q IH]; simpl; [intros a []|].
  destruct (Nat.eqb y x).
  - intros a Ha. now right.
  - intros a [<-|Ha]; [now left | right; now apply IH].
Qed.

Lemma heapStep_agree P s s' b :
  heapAgree P s s' -> heapAgree (b :: P) (heapStep s b) (heapStep s' b).
Proof.
  intros (Eq & En & Hne & Hincl & Ht & Hd).
  assert (Ep : peek (h_store s') (h_queue s') = peek (h_store s) (h_queue s)).
  { rewrite Eq. destruct (h_queue s) as [|y q]; simpl; [reflexivity|].
    f_equal. apply queueMin_agree. intros x Hx. split.
    - apply Ht.
    - apply Hd, Hincl, Hx. }
  unfold heapStep. unfold pop. rewrite Ep, Eq, En.
  destruct (peek_nonempty (h_store s) _ Hne) as [r Hr]. rewrite Hr.
  destruct (peek_spec _ _ _ Hr) as [Hin _].
  destruct (Ht r) as [_ Er]. destruct (Ht b) as [Eb _].
  rewrite Er, Eb, (Hd r (Hincl r Hin)).
  assert (Hstore : forall d,
            sameTimes (upd (h_store s) b (set_depth d))
                      (upd (h_store s') b (set_depth d)) /\
            forall x, In x (b :: P) ->
              depth (upd (h_store s') b (set_depth d) x)
              = depth (upd (h_store s) b (set_depth d) x)).
  { intros d. split.
    - intros i. unfold upd. destruct (Nat.eqb i b); simpl; apply Ht.
    - intros x Hx. unfold upd. destruct (Nat.eqb_spec x b) as [->|Hxb];
        [reflexivity|].
      destruct Hx as [->|Hx]; [congruence | now apply Hd]. }
  destruct (endMin (h_store s r) >? startMin (h_store s b)); simpl;
    (split; [reflexivity|]); (split; [reflexivity|]);
    (split; [unfold push; intros E; apply app_eq_nil in E as [_ E];
             discriminate|]);
    (split; [|apply Hstore]).
  - intros x Hx. unfold push in Hx. apply in_app_or in Hx as [Hx|[<-|[]]];
      [right; now apply Hincl | now left].
  - intros x Hx. unfold push in Hx. apply in_app_or in Hx as [Hx|[<-|[]]];
      [right; now apply Hincl, (removeFirst_incl r) | now left].
Qed.

Lemma heap_fold_agree : forall rest P s s',
  heapAgree P s s' ->
  heapAgree (rev rest ++ P) (fold_left heapStep rest s)
                            (fold_left heapStep rest s').
Proof.
  induction rest as [|b rest IH]; intros P s s' H; simpl; [exact H|].
  rewrite <- app_assoc. simpl. apply IH. now apply heapStep_agree.
Qed.

(** Two calls of [intervalScheduling2] that sort their arrays into the same
    order and meet the same depth on the first block assign the same
    depths and count the same columns. *)
Lemma intervalScheduling2_agree st st' blocks blocks' :
  sameTimes st st' ->
  sortBy (byStart st') blocks' = sortBy (byStart st) blocks ->
  (forall b0 rest, sortBy (byStart st) blocks = b0 :: rest ->
                   depth (st' b0) = depth (st b0)) ->
  arrayAfter (intervalScheduling2 st' blocks')
  = arrayAfter (intervalScheduling2 st blocks) /\
  columnsOf (intervalScheduling2 st' blocks')
  = columnsOf (intervalScheduling2 st blocks) /\
  forall b, In b blocks ->
    depth (storeAfter (intervalScheduling2 st' blocks') b)
    = depth (storeAfter (intervalScheduling2 st blocks) b).
Proof.
  intros Ht Hs Hd. unfold intervalScheduling2. rewrite Hs.
  destruct (sortBy (byStart st) blocks) as [|b0 rest] eqn:Hsort.
  - apply sortBy_nil in Hsort. subst blocks.
    repeat split. intros b [].
  - assert (H0 : heapAgree [b0] (mkHeap st [b0] 0) (mkHeap st' [b0] 0)).
    { repeat split; simpl; try apply Ht; try discriminate.
      - intros x Hx; exact Hx.
      - intros x [<-|[]]. apply (Hd b0 rest). reflexivity. }
    destruct (heap_fold_agree rest _ _ _ H0) as (_ & En & _ & _ & _ & Hdep).
    unfold arrayAfter, columnsOf, storeAfter. simpl.
    split; [reflexivity|]. split; [now rewrite En|].
    intros b Hb. apply Hdep.
    assert (Hb' : In b (b0 :: rest)) by (rewrite <- Hsort; now apply sortBy_In).
    apply in_or_app. destruct Hb' as [<-|Hb']; [right; now left|].
    left. now apply in_rev in Hb'.
Qed.

(** *** The path-depth analysis and the driver *)

Lemma calculateMaxDepth_sim s s' blocks s3 arr :
  closedIn blocks s -> extends blocks s s' ->
  (forall i, In i blocks -> visited (s i) = false) ->
  calculateMaxDepth s blocks = Some (s3, arr) ->
  exists s3',
    calculateMaxDepth s' blocks = Some (s3', arr) /\
    forall i, In i blocks ->
      depth (s3' i) = depth (s3 i) /\ pathDepth (s3' i) = pathDepth (s3 i).
Proof.
  intros Hcl He Hunv Hrun. unfold calculateMaxDepth in *.
  assert (Es : sortBy (byDepthDesc s') blocks = sortBy (byDepthDesc s) blocks).
  { apply sortBy_ext_in. intros x y Hx Hy. unfold byDepthDesc.
    destruct (He x Hx) as [-> _]. destruct (He y Hy) as [-> _]. reflexivity. }
  rewrite Es. set (sorted := sortBy (byDepthDesc s) blocks) in *.
  assert (Hin : forall x, In x sorted <-> In x blocks)
    by (intros x; apply sortBy_In).
  assert (Hincl : incl sorted blocks) by (intros x; apply Hin).
  destruct (foldM (pathRoot _) sorted s) as [s1|] eqn:H1; [|discriminate].
  destruct (foldM (fixedRoot _) sorted _) as [s3a|] eqn:H3; [|discriminate].
  injection Hrun as <- <-.
  assert (Hrel0 : pathRel blocks s s').
  { split; [exact He|]. intros i Hi V. rewrite Hunv in V by assumption.
    discriminate. }
  destruct (pathRoots_sim blocks _ _ _ _ _ Hcl Hincl Hrel0 H1)
    as (s1' & -> & [He1 Hp1]).
  pose proof (pathRoots_step _ _ _ _ H1) as Hstep1.
  assert (Hcl1 : closedIn blocks s1) by (eapply closedIn_pathStep; eauto).
  set (s2 := fold_left clearVisited sorted s1) in *.
  set (s2' := fold_left clearVisited sorted s1').
  assert (Hcl2 : closedIn blocks s2).
  { eapply closedIn_sameGraph; [apply clearVisited_sameGraph | exact Hcl1]. }
  assert (Hrel2 : fixRel blocks [] s2 s2').
  { split; [|split].
    - intros i Hi. unfold s2, s2'. rewrite !clearVisited_spec.
      apply Hin, inb_In in Hi. rewrite Hi. simpl.
      apply inb_In, Hin in Hi. destruct (He1 i Hi) as (A & _ & B).
      split; [exact A|]. split; [reflexivity | exact B].
    - intros i Hi. unfold s2, s2'. rewrite !clearVisited_pathDepth.
      apply Hp1; [exact Hi|].
      apply (pathRoots_visited _ _ _ _ H1), Hin, Hi.
    - intros i Hi V. unfold s2 in V.
      rewrite clearVisited_visited in V by now apply Hin. discriminate. }
  destruct (fixedRoots_sim blocks _ _ _ _ _ Hcl2 Hincl Hrel2 H3)
    as (s3' & -> & (He3 & Hp3 & _)).
  exists s3'. split; [reflexivity|]. intros i Hi.
  destruct (He3 i Hi) as [A _]. split; [exact A | now apply Hp3].
Qed.

(** The driver leaves the times as they were and the depths as the
    scheduler assigned them. *)
Lemma layoutDay_fields st blocks r :
  layoutDay st blocks = Some r ->
  forall b, startMin (d_store r b) = startMin (storeAfter (scheduleOf st blocks) b) /\
            endMin (d_store r b) = endMin (storeAfter (scheduleOf st blocks) b) /\
            depth (d_store r b) = depth (storeAfter (scheduleOf st blocks) b).
Proof.
  intros Hrun b.
  destruct (layoutDay_cases _ _ _ Hrun)
    as [[Hle ->]|(_ & st3 & blocks3 & st6 & comps & Hcm & Hcomp & ->)]; simpl.
  - rewrite setFull_spec. now destruct (inb b _).
  - pose proof (components_step _ _ _ _ _ _ Hcomp) as Hstep.
    destruct (visStep_sameGraph _ _ Hstep b) as (-> & -> & -> & _).
    destruct (clearVisited_sameGraph blocks3
                (fold_left setHeuristic blocks3 st3) b) as (-> & -> & -> & _).
    rewrite setHeuristic_spec.
    destruct (calculateMaxDepth_sameGraph _ _ _ _ Hcm b) as (<- & <- & <- & _).
    now destruct (inb b blocks3).
Qed.

Lemma layoutDay_sameTimes st blocks r :
  NoDup blocks -> layoutDay st blocks = Some r -> sameTimes st (d_store r).
Proof.
  intros Hnd Hrun i. destruct (layoutDay_fields _ _ _ Hrun i) as (-> & -> & _).
  apply (scheduleOf_sameTimes st blocks Hnd).
Qed.

(** Two passes of the driver side by side: when the second one starts from
    the same times, unvisited blocks, neighbour lists that extend those of
    the first by repetitions, the same sorted order and the same depth on
    the first sorted block, it writes the same depth, left and width on
    every block. *)
Lemma layoutDay_sim st st' blocks blocks' r :
  NoDup blocks -> NoDup blocks' ->
  (forall b, In b blocks' <-> In b blocks) ->
  closedIn blocks st -> closedIn blocks' st' ->
  (forall b, In b blocks -> visited (st b) = false) ->
  (forall b, In b blocks -> visited (st' b) = false) ->
  sameTimes st st' ->
  (forall b, In b blocks ->
     exists e,
       neighbors (st' b) ++ newNeighbors st' blocks' b
       = (neighbors (st b) ++ newNeighbors st blocks b) ++ e /\
       incl e (neighbors (st b) ++ newNeighbors st blocks b)) ->
  sortBy (byStart st) blocks' = sortBy (byStart st) blocks ->
  (forall b0 rest, sortBy (byStart st) blocks = b0 :: rest ->
                   depth (st' b0) = depth (st b0)) ->
  layoutDay st blocks = Some r ->
  exists r',
    layoutDay st' blocks' = Some r' /\
    forall b, In b blocks ->
      depth (d_store r' b) = depth (d_store r b) /\
      left (d_store r' b) = left (d_store r b) /\
      width (d_store r' b) = width (d_store r b).
Proof.
  intros Hnd Hnd' Hmem Hcl Hcl' Hunv Hunv' Ht Hext Hsort Hfirst Hrun.
  destruct (layoutDay_returns st' blocks' Hnd' Hcl') as [r' Hrun'].
  exists r'. split; [exact Hrun'|].
  assert (Hg : sameTimes (graphOf st blocks) (graphOf st' blocks')).
  { intros i. destruct (graphOf_sameTimes st blocks Hnd i) as [A B].
    destruct (graphOf_sameTimes st' blocks' Hnd' i) as [A' B'].
    destruct (Ht i) as [C D]. split; congruence. }
  assert (Hgs : sortBy (byStart (graphOf st' blocks')) blocks'
                = sortBy (byStart (graphOf st blocks)) blocks).
  { pose proof (scheduleOf_sorted st blocks Hnd) as E1.
    pose proof (scheduleOf_sorted st' blocks' Hnd') as E2.
    unfold scheduleOf in E1, E2. rewrite intervalScheduling2_array in E1, E2.
    rewrite E1, E2, <- Hsort. apply sortBy_ext. intros x y.
    now apply byStart_sameTimes. }
  assert (Hgd : forall b0 rest,
            sortBy (byStart (graphOf st blocks)) blocks = b0 :: rest ->
            depth (graphOf st' blocks' b0) = depth (graphOf st blocks b0)).
  { intros b0 rest Hs. rewrite !graphOf_depth by assumption.
    apply (Hfirst b0 rest). rewrite <- Hs.
    pose proof (scheduleOf_sorted st blocks Hnd) as E1.
    unfold scheduleOf in E1. now rewrite intervalScheduling2_array in E1. }
  destruct (intervalScheduling2_agree _ _ _ _ Hg Hgs Hgd) as (Ea & Ec & Ed).
  fold (scheduleOf st blocks) in Ea, Ec, Ed.
  fold (scheduleOf st' blocks') in Ea, Ec, Ed.
  destruct (Z_le_gt_dec (columnsOf (scheduleOf st blocks)) 1) as [Hle|Hgt].
  - destruct (layoutDay_narrow _ _ _ Hrun Hle) as (_ & _ & Hr).
    destruct (layoutDay_narrow _ _ _ Hrun' ltac:(rewrite Ec; exact Hle))
      as (_ & _ & Hr').
    intros b Hb. rewrite Hr, Hr'.
    pose proof (proj2 (Hmem b) Hb) as Hb'.
    apply inb_In in Hb, Hb'. rewrite Hb, Hb'. simpl.
    apply inb_In in Hb. split; [now apply Ed | split; reflexivity].
  - assert (Hgt1 : 1 < columnsOf (scheduleOf st blocks)) by lia.
    assert (Hgt2 : 1 < columnsOf (scheduleOf st' blocks')) by (rewrite Ec; lia).
    destruct (layoutDay_wide _ _ _ Hnd Hrun Hgt1) as (st3 & Hcm & Hin & Hr).
    destruct (layoutDay_wide _ _ _ Hnd' Hrun' Hgt2) as (st3' & Hcm' & Hin' & Hr').
    set (sch := storeAfter (scheduleOf st blocks)) in *.
    set (sch' := storeAfter (scheduleOf st' blocks')) in *.
    set (arr := arrayAfter (scheduleOf st blocks)) in *.
    rewrite Ea in Hcm'. fold arr in Hcm'.
    assert (Harr : forall b, In b arr <-> In b blocks).
    { intros b. unfold arr, scheduleOf. rewrite intervalScheduling2_array.
      apply sortBy_In. }
    assert (Hcla : closedIn arr sch) by now apply scheduleOf_closedIn.
    assert (Hexa : extends arr sch sch').
    { intros i Hi. apply Harr in Hi. split; [now apply Ed|]. split.
      - unfold sch, sch'. rewrite !scheduleOf_visited by assumption.
        now rewrite Hunv, Hunv'.
      - unfold sch, sch'. rewrite !scheduleOf_neighbors by assumption.
        apply (Hext i Hi). }
    assert (Hunva : forall i, In i arr -> visited (sch i) = false).
    { intros i Hi. apply Harr in Hi. unfold sch.
      rewrite scheduleOf_visited by assumption. now apply Hunv. }
    destruct (calculateMaxDepth_sim _ _ _ _ _ Hcla Hexa Hunva Hcm)
      as (s3' & Hcm2 & Hsame).
    rewrite Hcm' in Hcm2. injection Hcm2 as E3 E4. subst s3'.
    intros b Hb. rewrite (Hr b Hb), (Hr' b (proj2 (Hmem b) Hb)).
    destruct (Hsame b (proj2 (Harr b) Hb)) as [A B]. simpl.
    rewrite A, B. repeat split.
Qed.

(** The array leaves the driver rearranged, with the same blocks. *)
Lemma layoutDay_blocks st blocks r :
  layoutDay st blocks = Some r -> Permutation (d_blocks r) blocks.
Proof.
  intros Hrun.
  assert (Ha : Permutation (arrayAfter (scheduleOf st blocks)) blocks).
  { unfold scheduleOf. rewrite intervalScheduling2_array. apply sortBy_perm. }
  destruct (layoutDay_cases _ _ _ Hrun)
    as [[_ ->]|(_ & st3 & blocks3 & st6 & comps & Hcm & _ & ->)]; simpl.
  - exact Ha.
  - destruct (calculateMaxDepth_inv _ _ _ _ Hcm) as (_ & _ & -> & _).
    rewrite sortBy_perm. exact Ha.
Qed.

(** The first block of the sorted array leaves the driver with the depth
    it entered with. *)
Lemma layoutDay_first st blocks r b0 rest :
  NoDup blocks -> layoutDay st blocks = Some r ->
  sortBy (byStart st) blocks = b0 :: rest ->
  depth (d_store r b0) = depth (st b0).
Proof.
  intros Hnd Hrun Hs.
  destruct (layoutDay_fields _ _ _ Hrun b0) as (_ & _ & ->).
  destruct (scheduleOf_run st blocks b0 rest Hnd Hs) as (st' & reps & n & Hrr & ->).
  unfold storeAfter. simpl.
  assert (Hnd2 : NoDup (b0 :: rest)) by (rewrite <- Hs; now apply sortBy_NoDup).
  inversion Hnd2 as [|? ? Hb0 _]; subst.
  rewrite (roomRun_first _ _ _ _ _ _ Hb0 Hrr). now apply graphOf_depth.
Qed.

(** * Further properties of the schedulers *)

Lemma sortByStart_lex st l :
  StronglySorted (startThenDuration st) (sortBy (byStart st) l).
Proof.
  apply sortBy_sorted.
  - unfold startThenDuration. intros x y z; lia.
  - intros x y. unfold byStart, startThenDuration.
    destruct (Z.eqb_spec (startMin (st x) - startMin (st y)) 0); lia.
  - intros x y. unfold byStart, startThenDuration.
    destruct (Z.eqb_spec (startMin (st x) - startMin (st y)) 0); lia.
Qed.

Lemma intervalScheduling_onlyDepth st blocks :
  onlyDepth blocks st (storeAfter (intervalScheduling st blocks)).
Proof.
  destruct (sortBy (byStart st) blocks) as [|b0 rest] eqn:Hs.
  - unfold intervalScheduling. rewrite Hs. apply onlyDepth_refl.
  - destruct (intervalScheduling_run _ _ _ _ Hs) as (st' & reps & n & Hrun & ->).
    unfold storeAfter; simpl.
    pose proof (roomRun_onlyDepth _ _ _ _ _ _ _ Hrun) as Hfr.
    intros i. destruct (Hfr i) as [A B]. split; [exact A|].
    intros Hi. apply B. intros Hr. apply Hi.
    apply (sortBy_In (byStart st)). rewrite Hs. now right.
Qed.

(** A run opens at most one room per block. *)
Lemma roomRun_count st reps n l st' reps' n' :
  roomRun st reps n l st' reps' n' ->
  n <= n' <= n + Z.of_nat (length l).
Proof.
  induction 1 as [|st reps n b st1 reps1 n1 rest st2 reps2 n2 Hstep _ IH].
  - simpl. lia.
  - assert (n <= n1 <= n + 1) by (inversion Hstep; subst; lia).
    simpl length. lia.
Qed.

Lemma roomStep_fill P st reps n b st' reps' n' :
  depthsFill P st reps n -> ~ In b P ->
  roomStep st reps n b st' reps' n' ->
  depthsFill (b :: P) st' reps' n'.
Proof.
  intros (Hpos & Hincl & Hrange & Hused) Hb Hstep.
  assert (Hold : forall p d, In p P -> depth (upd st b (set_depth d) p)
                                        = depth (st p)).
  { intros p d Hp. rewrite upd_other; [reflexivity|]. intros ->. contradiction. }
  inversion Hstep as [reps1 Hbusy Hperm|r others reps1 Hfree Hperm Hperm'];
    subst; (split; [|split; [|split]]).
  - lia.
  - intros x Hx. eapply Permutation_in in Hx; [|exact Hperm].
    destruct Hx as [<-|Hx]; [now left | right; now apply Hincl].
  - intros p [<-|Hp].
    + rewrite upd_same. simpl. lia.
    + rewrite Hold by assumption. specialize (Hrange p Hp). lia.
  - intros d Hd. destruct (Z.eq_dec d (n + 1)) as [->|Hne].
    + exists b. split; [now left|]. now rewrite upd_same.
    + destruct (Hused d ltac:(lia)) as (p & Hp & Hdp).
      exists p. split; [now right|]. now rewrite Hold.
  - exact Hpos.
  - intros x Hx. eapply Permutation_in in Hx; [|exact Hperm'].
    destruct Hx as [<-|Hx]; [now left|]. right. apply Hincl.
    eapply Permutation_in; [symmetry; exact Hperm | now right].
  - assert (Hr : In r P).
    { apply Hincl. eapply Permutation_in; [symmetry; exact Hperm | now left]. }
    intros p [<-|Hp].
    + rewrite upd_same. simpl. now apply Hrange.
    + rewrite Hold by assumption. now apply Hrange.
  - intros d Hd. destruct (Hused d Hd) as (p & Hp & Hdp).
    exists p. split; [now right|]. now rewrite Hold.
Qed.

Lemma roomRun_fill st reps n l st' reps' n' :
  roomRun st reps n l st' reps' n' ->
  forall P, depthsFill P st reps n -> NoDup (P ++ l) ->
            depthsFill (rev l ++ P) st' reps' n'.
Proof.
  induction 1 as [|st reps n b st1 reps1 n1 rest st2 reps2 n2 Hstep _ IH];
    intros P Hfill Hnd; [exact Hfill|].
  simpl. rewrite <- app_assoc. simpl. apply IH.
  - eapply roomStep_fill; eauto.
    apply NoDup_remove_2 in Hnd. intros Hb. apply Hnd, in_or_app. now left.
  - apply NoDup_remove in Hnd as [Hnd Hb].
    apply (Permutation_NoDup (l := b :: P ++ rest)).
    + change (b :: P ++ rest) with ((b :: P) ++ rest). reflexivity.
    + constructor; assumption.
Qed.

(** With depth 0 on the block that sorts first, the depths a scheduler run
    leaves on distinct blocks are exactly the column indices. *)
Lemma roomRun_columns st blocks b0 rest st' reps n :
  NoDup blocks -> depth (st b0) = 0 ->
  Permutation (b0 :: rest) blocks ->
  roomRun st [b0] 0 rest st' reps n ->
  (forall b, In b blocks -> 0 <= depth (st' b) < n + 1) /\
  (forall d, 0 <= d < n + 1 -> exists b, In b blocks /\ depth (st' b) = d).
Proof.
  intros Hnd Hd0 Hperm Hrun.
  assert (Hnd' : NoDup ([b0] ++ rest)).
  { eapply Permutation_NoDup; [symmetry; exact Hperm | exact Hnd]. }
  assert (H0 : depthsFill [b0] st [b0] 0).
  { split; [lia|]. split; [intros x Hx; exact Hx|]. split.
    - intros p [<-|[]]. lia.
    - intros d Hd. exists b0. split; [now left | lia]. }
  destruct (roomRun_fill _ _ _ _ _ _ _ Hrun [b0] H0 Hnd')
    as (_ & _ & Hrange & Hused).
  assert (Hin : forall x, In x (rev rest ++ [b0]) <-> In x blocks).
  { intros x. rewrite in_app_iff, <- in_rev. simpl. split.
    - intros H. eapply Permutation_in; [exact Hperm|].
      destruct H as [H|[->|[]]]; simpl; auto.
    - intros H. eapply Permutation_in in H; [|symmetry; exact Hperm].
      destruct H as [->|H]; auto. }
  split.
  - intros b Hb. apply Hin in Hb. specialize (Hrange b Hb). lia.
  - intros d Hd. destruct (Hused d ltac:(lia)) as (p & Hp & Hdp).
    exists p. split; [now apply Hin | exact Hdp].
Qed.

(** *** The element the priority queue yields *)

Lemma endThenDepth_trans st x y z :
  endThenDepth st x y -> endThenDepth st y z -> endThenDepth st x z.
Proof. unfold endThenDepth. lia. Qed.

Lemma endThenDepth_refl st x : endThenDepth st x x.
Proof. unfold endThenDepth. lia. Qed.

Lemma byEnd_lex st a b :
  (byEnd st a b < 0 -> endThenDepth st a b) /\
  (0 <= byEnd st a b -> endThenDepth st b a).
Proof.
  unfold byEnd, endThenDepth.
  destruct (Z.eqb_spec (endMin (st a) - endMin (st b)) 0); lia.
Qed.

(** [peek] yields an element that precedes or ties every element of the
    queue under the comparator. *)
Lemma queueMin_first st q : forall best r,
  In r (best :: q) -> endThenDepth st (queueMin st best q) r.
Proof.
  induction q as [|x q IH]; intros best r Hr; simpl.
  - destruct Hr as [<-|[]]. apply endThenDepth_refl.
  - set (best' := if byEnd st x best <? 0 then x else best).
    assert (Hb : endThenDepth st best' best /\ endThenDepth st best' x).
    { unfold best'. destruct (Z.ltb_spec (byEnd st x best) 0) as [H|H].
      - split; [apply (proj1 (byEnd_lex st x best) H) | apply endThenDepth_refl].
      - split; [apply endThenDepth_refl | apply (proj2 (byEnd_lex st x best) H)]. }
    pose proof (IH best' best' (or_introl eq_refl)) as Hmin.
    destruct Hr as [<-|[<-|Hr]].
    + eapply endThenDepth_trans; [exact Hmin | apply Hb].
    + eapply endThenDepth_trans; [exact Hmin | apply Hb].
    + apply IH. now right.
Qed.

Lemma peek_first st q r :
  peek st q = Some r ->
  In r q /\ forall x, In x q -> endThenDepth st r x.
Proof.
  destruct q as [|y q]; simpl; [discriminate|].
  intros [= <-]. split; [apply queueMin_In | apply queueMin_first].
Qed.

Lemma heap_fold_nonempty rest : forall s,
  h_queue s <> [] -> h_queue (fold_left heapStep rest s) <> [].
Proof.
  induction rest as [|b rest IH]; intros s Hs; simpl; [exact Hs|].
  apply IH. now apply heapStep_queue_nonempty.
Qed.

Lemma run_count_bounds st blocks b0 rest st' reps n :
  sortBy (byStart st) blocks = b0 :: rest ->
  roomRun st [b0] 0 rest st' reps n ->
  blocks <> [] /\ 1 <= n + 1 <= Z.of_nat (length blocks).
Proof.
  intros Hs Hrun. pose proof (roomRun_count _ _ _ _ _ _ _ Hrun) as Hc.
  pose proof (sortBy_length (byStart st) blocks) as Hlen.
  rewrite Hs in Hlen. simpl in Hlen. split; [|lia].
  intros ->. discriminate.
Qed.

(** *** The blocks in the queue *)

Lemma heapStep_queue_incl s b : incl (h_queue (heapStep s b)) (h_queue s ++ [b]).
Proof.
  unfold heapStep. destruct (peek (h_store s) (h_queue s)) as [r|] eqn:Hr.
  - destruct (endMin (h_store s r) >? startMin (h_store s b)); simpl;
      unfold push, pop.
    + intros x Hx. exact Hx.
    + rewrite Hr. intros x Hx. apply in_app_iff in Hx as [Hx|Hx];
        apply in_app_iff; [left; now apply (removeFirst_incl r) | now right].
  - intros x Hx. apply in_app_iff. now left.
Qed.

(** The queue holds blocks handled in earlier rounds only. *)
Lemma heap_fold_queue_incl rest : forall s,
  incl (h_queue (fold_left heapStep rest s)) (h_queue s ++ rest).
Proof.
  induction rest as [|b rest IH]; intros s; simpl.
  - rewrite app_nil_r. intros x Hx. exact Hx.
  - intros x Hx. apply IH in Hx. apply in_app_iff in Hx as [Hx|Hx].
    + apply heapStep_queue_incl in Hx. apply in_app_iff in Hx as [Hx|[<-|[]]];
        apply in_app_iff; [now left | right; now left].
    + apply in_app_iff. right. now right.
Qed.

(** A round writes the block it handles and no other. *)
Lemma heapStep_writes s b r : r <> b -> h_store (heapStep s b) r = h_store s r.
Proof.
  intros Hne. unfold heapStep.
  destruct (peek (h_store s) (h_queue s)) as [p|]; [|reflexivity].
  destruct (endMin (h_store s p) >? startMin (h_store s b)); simpl;
    now apply upd_other.
Qed.

(** * Where the path depths come from *)

Lemma descends_sameGraph st st' r x :
  sameGraph st st' -> descends st r x -> descends st' r x.
Proof.
  intros Hsg. induction 1 as [|w x _ IH Hin Hd]; [constructor|].
  apply desc_down with w; [exact IH | |].
  - destruct (Hsg w) as (_ & _ & _ & -> & _). exact Hin.
  - destruct (Hsg w) as (_ & _ & -> & _), (Hsg x) as (_ & _ & -> & _). exact Hd.
Qed.

Lemma sameGraph_sym st st' : sameGraph st st' -> sameGraph st' st.
Proof.
  intros H i. destruct (H i) as (A & B & C & D & E & F & G).
  repeat split; congruence.
Qed.

Lemma descends_trans st r w x :
  descends st r w -> descends st w x -> descends st r x.
Proof.
  intros Hrw. induction 1 as [|y x _ IH Hin Hd]; [exact Hrw|].
  now apply desc_down with y.
Qed.

Lemma descends_In U st r x :
  closedIn U st -> In r U -> descends st r x -> In x U.
Proof.
  intros Hcl Hr. induction 1 as [|w x _ IH Hin Hd]; [exact Hr|]. eauto.
Qed.

Lemma descends_depth st r x : descends st r x -> depth (st x) <= depth (st r).
Proof. induction 1; lia. Qed.

(** The blocks a call of the first traversal visits are reached from its
    start along conflicts of decreasing depth. *)
Lemma dfs_loop_origin sd (rec : store -> nat -> option store) s0 start :
  (forall s a s1, visited (s a) = false -> rec s a = Some s1 ->
     pathStep s s1 /\
     forall x, visited (s x) = false -> visited (s1 x) = true ->
               descends s a x) ->
  sd = depth (s0 start) ->
  forall l s s',
    pathStep s0 s -> incl l (neighbors (s0 start)) ->
    foldM (dfsVisit rec sd) l s = Some s' ->
    pathStep s s' /\
    forall x, visited (s x) = false -> visited (s' x) = true ->
              descends s0 start x.
Proof.
  intros Hrec ->. induction l as [|a l IH]; intros s s' Hs0 Hl Hfold;
    cbn [foldM] in Hfold.
  - injection Hfold as <-. split; [apply pathStep_refl|]. congruence.
  - destruct (dfsVisit rec _ s a) as [s1|] eqn:Hvisit; [|discriminate].
    assert (Hl' : incl l (neighbors (s0 start)))
      by (intros w Hw; apply Hl; now right).
    unfold dfsVisit in Hvisit.
    destruct (negb (visited (s a)) && (depth (s a) <? depth (s0 start)))
      eqn:Hcond.
    + apply andb_true_iff in Hcond as [Hva Hda].
      apply negb_true_iff in Hva. apply Z.ltb_lt in Hda.
      destruct (Hrec s a s1 Hva Hvisit) as (Hstep1 & Hnew1).
      destruct (IH s1 s' (pathStep_trans _ _ _ Hs0 Hstep1) Hl' Hfold)
        as (Hstep2 & Hnew2).
      split; [eapply pathStep_trans; eauto|].
      intros x V V'. destruct (visited (s1 x)) eqn:V1; [|now apply Hnew2].
      apply descends_trans with a.
      * apply desc_down with start; [constructor | apply Hl; now left |].
        now rewrite <- (pathStep_depth _ _ a Hs0).
      * apply (descends_sameGraph s).
        -- apply sameGraph_sym, pathStep_sameGraph, Hs0.
        -- now apply Hnew1.
    + injection Hvisit as <-. now apply IH.
Qed.

Lemma dfs_origin : forall fuel maxDepth st start st',
  visited (st start) = false ->
  depthFirstSearchRec fuel maxDepth st start = Some st' ->
  forall x, visited (st x) = false -> visited (st' x) = true ->
            descends st start x.
Proof.
  induction fuel as [|fuel IH]; intros maxDepth st start st' V Hrun;
    simpl in Hrun; [discriminate|].
  set (st1 := upd (upd st start (set_visited true)) start
                  (set_pathDepth maxDepth)) in *.
  assert (Hstep1 : pathStep st st1) by now apply pathStep_mark.
  assert (Hrec : forall s a s1, visited (s a) = false ->
            depthFirstSearchRec fuel maxDepth s a = Some s1 ->
            pathStep s s1 /\
            forall x, visited (s x) = false -> visited (s1 x) = true ->
                      descends s a x).
  { intros s a s1 Va Ha. split; [apply (dfs_post _ _ _ _ _ Va Ha)|].
    exact (IH maxDepth s a s1 Va Ha). }
  destruct (dfs_loop_origin (depth (st1 start)) _ st start Hrec
              ltac:(apply (pathStep_depth _ _ _ Hstep1))
              (neighbors (st1 start)) st1 st' Hstep1
              ltac:(rewrite (pathStep_neighbors _ _ _ Hstep1); intros w Hw; exact Hw)
              Hrun) as (_ & Hnew).
  intros x Vx Vx'. destruct (Nat.eq_dec x start) as [->|Hne]; [constructor|].
  apply Hnew; [|exact Vx']. unfold st1. now rewrite !upd_other.
Qed.

Lemma pathRoots_origin U s0 fuel : forall todo s s',
  incl todo U -> pathStep s0 s -> originInv U s0 s ->
  foldM (pathRoot fuel) todo s = Some s' -> originInv U s0 s'.
Proof.
  induction todo as [|r todo IH]; intros s s' Hincl Hs0 Hinv Hrun;
    cbn [foldM] in Hrun.
  - now injection Hrun as <-.
  - destruct (pathRoot fuel s r) as [s1|] eqn:Hroot; [|discriminate].
    assert (Hr : In r U) by (apply Hincl; now left).
    assert (Hincl' : incl todo U) by (intros x Hx; apply Hincl; now right).
    unfold pathRoot in Hroot. destruct (visited (s r)) eqn:Vr; simpl in Hroot.
    + injection Hroot as <-. now apply (IH s s').
    + destruct (dfs_post _ _ _ _ _ Vr Hroot) as (Hstep1 & _ & Hnew).
      apply (IH s1 s'); auto; [eapply pathStep_trans; eauto|].
      intros x Vx. destruct (visited (s x)) eqn:Vsx.
      * rewrite (pathStep_old _ _ _ Hstep1 Vsx). now apply Hinv.
      * right. exists r. split; [exact Hr|]. split.
        -- apply (descends_sameGraph s).
           ++ apply sameGraph_sym, pathStep_sameGraph, Hs0.
           ++ apply (dfs_origin _ _ _ _ _ Vr Hroot x Vsx Vx).
        -- destruct (Hnew x Vsx Vx) as (-> & _).
           now rewrite (pathStep_depth _ _ r Hs0).
Qed.

(** Along a descent the path depths do not decrease. *)
Lemma descends_pathDepth (pd : nat -> Z) st U r x :
  closedIn U st -> In r U ->
  (forall y w, In y U -> In w (neighbors (st y)) ->
               depth (st w) < depth (st y) -> pd y <= pd w) ->
  descends st r x -> pd r <= pd x.
Proof.
  intros Hcl Hr Hmono. induction 1 as [|w x Hrw IH Hin Hd]; [lia|].
  assert (In w U) by (eapply descends_In; eauto).
  specialize (Hmono w x H Hin Hd). lia.
Qed.

(** After [calculateMaxDepth] the path depth of a block is one more than
    the greatest depth among the blocks it is reached from. *)
Lemma calculateMaxDepth_greatest st blocks st' blocks' :
  closedIn blocks st ->
  (forall b, In b blocks -> visited (st b) = false) ->
  calculateMaxDepth st blocks = Some (st', blocks') ->
  forall x, In x blocks ->
    (exists r, In r blocks /\ descends st r x /\
               pathDepth (st' x) = depth (st r) + 1) /\
    (forall r, In r blocks -> descends st r x ->
               depth (st r) + 1 <= pathDepth (st' x)).
Proof.
  intros Hcl Hunv H x Hx.
  destruct (calculateMaxDepth_paths _ _ _ _ Hcl Hunv H) as (Hlow & Hmono).
  split.
  - destruct (calculateMaxDepth_inv _ _ _ _ H) as (st1 & st3 & _ & H1 & H3 & ->).
    set (sorted := sortBy (byDepthDesc st) blocks) in *.
    assert (Hincl : incl sorted blocks)
      by (intros y Hy; now apply sortBy_In in Hy).
    assert (H0 : originInv blocks st st) by (intros y Vy; now left).
    pose proof (pathRoots_origin blocks st _ _ _ _ Hincl (pathStep_refl st)
                  H0 H1) as Hinv.
    assert (Vx : visited (st1 x) = true).
    { apply (pathRoots_visited _ _ _ _ H1). now apply sortBy_In. }
    destruct (Hinv x Vx) as [V0|(r & Hr & Hd & Hp)].
    + rewrite (Hunv x Hx) in V0. discriminate.
    + exists r. split; [exact Hr|]. split; [exact Hd|].
      rewrite (fixStep_pathDepth _ _ _ (fixedRoots_step _ _ _ _ H3)),
        clearVisited_pathDepth. exact Hp.
  - intros r Hr Hd. specialize (Hlow r Hr).
    pose proof (descends_pathDepth (fun y => pathDepth (st' y)) st blocks r x
                  Hcl Hr Hmono Hd). simpl in *. lia.
Qed.

Lemma scheduleOf_columns st blocks :
  NoDup blocks -> freshDepth st blocks ->
  (forall b, In b blocks ->
     0 <= depth (storeAfter (scheduleOf st blocks) b)
       < columnsOf (scheduleOf st blocks)) /\
  (forall d, 0 <= d < columnsOf (scheduleOf st blocks) ->
     exists b, In b blocks /\ depth (storeAfter (scheduleOf st blocks) b) = d).
Proof.
  intros Hnd Hfresh.
  destruct (sortBy (byStart st) blocks) as [|b0 rest] eqn:Hs.
  - apply sortBy_nil in Hs as ->. unfold scheduleOf, columnsOf. simpl.
    split; [intros b [] | intros; lia].
  - assert (Hperm : Permutation (b0 :: rest) blocks)
      by (rewrite <- Hs; apply sortBy_perm).
    destruct (scheduleOf_run st blocks b0 rest Hnd Hs)
      as (st' & reps & n & Hrun & ->).
    unfold columnsOf, storeAfter. simpl.
    apply (roomRun_columns (graphOf st blocks) blocks b0 rest st' reps n);
      auto.
    rewrite graphOf_depth by assumption. apply Hfresh.
    eapply Permutation_in; [exact Hperm | now left].
Qed.

Lemma Qofdiv_unit_le p c : 0 < p -> p <= c -> (Qofdiv 1 c <= Qofdiv 1 p)%Q.
Proof.
  intros Hp Hc. rewrite !Qofdiv_eq by lia.
  unfold Qle. simpl. rewrite ?Z2Pos.id by lia. lia.
Qed.

(** * The chains behind the fixed blocks *)

Lemma fixedChain_fixed st x : fixedChain st x -> isFixed (st x) = true.
Proof. now destruct 1. Qed.

Lemma fixedChain_transfer U st st' :
  closedIn U st ->
  (forall b, In b U ->
     isFixed (st' b) = isFixed (st b) /\ depth (st' b) = depth (st b) /\
     pathDepth (st' b) = pathDepth (st b) /\
     neighbors (st' b) = neighbors (st b)) ->
  forall x, In x U -> fixedChain st x -> fixedChain st' x.
Proof.
  intros Hcl Hsame x Hx Hch. induction Hch as [x Hf Hd|x u Hf Hin Hd Hp _ IH].
  - destruct (Hsame x Hx) as (A & B & _).
    apply chain_bottom; congruence.
  - assert (Hu : In u U) by eauto.
    destruct (Hsame x Hx) as (A & B & C & D).
    destruct (Hsame u Hu) as (_ & B' & C' & _).
    apply chain_link with u; try congruence; auto.
Qed.

(** After [calculateMaxDepth] on blocks that enter unfixed with
    non-negative depths, every fixed block heads a chain of fixed blocks. *)
Lemma calculateMaxDepth_chain st blocks st' blocks' :
  closedIn blocks st ->
  (forall b, In b blocks -> isFixed (st b) = false) ->
  (forall b, In b blocks -> 0 <= depth (st b)) ->
  calculateMaxDepth st blocks = Some (st', blocks') ->
  forall x, In x blocks -> isFixed (st' x) = true -> fixedChain st' x.
Proof.
  intros Hcl Hunf Hpos Hcm.
  pose proof (calculateMaxDepth_sameGraph _ _ _ _ Hcm) as Hsg.
  pose proof (closedIn_sameGraph _ _ _ Hsg Hcl) as Hcl'.
  assert (Hd : forall b, depth (st' b) = depth (st b))
    by (intros b; now destruct (Hsg b) as (_ & _ & E & _)).
  assert (Hgen : forall n x, In x blocks -> depth (st' x) = Z.of_nat n ->
            isFixed (st' x) = true -> fixedChain st' x).
  { induction n as [|n IH]; intros x Hx Hn Hf.
    - now apply chain_bottom.
    - destruct (calculateMaxDepth_fixed _ _ _ _ Hcl Hcm x Hx) as (Hvis & Hnot & _).
      destruct (visited (st' x)) eqn:Vx.
      + destruct (proj1 (Hvis eq_refl) Hf) as [H0|(u & Hin & Hsame & Hfu)];
          [lia|].
        unfold samePath in Hsame. apply andb_true_iff in Hsame as [E1 E2].
        apply Z.eqb_eq in E1, E2.
        apply chain_link with u; auto.
        apply IH; [eauto | lia | exact Hfu].
      + rewrite (Hnot eq_refl), (Hunf x Hx) in Hf. discriminate. }
  intros x Hx Hf. specialize (Hpos x Hx).
  apply (Hgen (Z.to_nat (depth (st' x))) x Hx); [|exact Hf].
  rewrite Hd. lia.
Qed.

(** * What [BFS] collects *)

Lemma inb_app b l1 l2 : inb b (l1 ++ l2) = inb b l1 || inb b l2.
Proof. unfold inb. apply existsb_app. Qed.

Lemma marked_fields s0 comp i :
  startMin (marked s0 comp i) = startMin (s0 i) /\
  endMin (marked s0 comp i) = endMin (s0 i) /\
  depth (marked s0 comp i) = depth (s0 i) /\
  pathDepth (marked s0 comp i) = pathDepth (s0 i) /\
  isFixed (marked s0 comp i) = isFixed (s0 i) /\
  neighbors (marked s0 comp i) = neighbors (s0 i) /\
  (visited (marked s0 comp i) = false ->
   ~ In i comp /\ visited (s0 i) = false) /\
  (In i comp -> visited (marked s0 comp i) = true).
Proof.
  unfold marked. destruct (inb i comp) eqn:Hi; simpl; repeat split; auto;
    try discriminate.
  - now apply inb_false.
  - intros H. apply inb_In in H. congruence.
Qed.

Lemma marked_app s0 l1 l2 i :
  marked (marked s0 l1) l2 i = marked s0 (l1 ++ l2) i.
Proof.
  unfold marked. rewrite inb_app.
  destruct (inb i l1), (inb i l2); reflexivity.
Qed.

(** One pass over the neighbours of [cur]. *)
Lemma bfsVisit_inv s0 start cur : forall l s comp s' comp',
  bfsInv s0 start s comp -> reachable s0 start cur ->
  incl l (neighbors (s0 cur)) ->
  fold_left bfsVisit l (s, comp) = (s', comp') ->
  bfsInv s0 start s' comp' /\
  (exists new, comp' = comp ++ new) /\
  forall w, In w l -> isFixed (s0 w) = false ->
            In w comp' \/ visited (s0 w) = true.
Proof.
  induction l as [|a l IH]; intros s comp s' comp' Hinv Hcur Hl Hfold;
    simpl in Hfold.
  - injection Hfold as <- <-. split; [exact Hinv|].
    split; [exists []; now rewrite app_nil_r | intros w []].
  - assert (Hl' : incl l (neighbors (s0 cur)))
      by (intros w Hw; apply Hl; now right).
    destruct Hinv as (Hnd & Hst & Hreach).
    destruct (marked_fields s0 comp a) as (_ & _ & _ & _ & Fa & _ & Va & Ia).
    rewrite <- (Hst a) in Fa, Va, Ia.
    destruct (negb (visited (s a)) && negb (isFixed (s a))) eqn:Hcond.
    + apply andb_true_iff in Hcond as [Hv Hf].
      apply negb_true_iff in Hv, Hf.
      destruct (Va Hv) as [Hnot V0]. rewrite Fa in Hf.
      assert (Hinv1 : bfsInv s0 start (upd s a (set_visited true))
                             (comp ++ [a])).
      { split; [|split].
        - apply NoDup_app_remove_l with (l := []). simpl.
          apply (Permutation_NoDup (l := a :: comp)).
          + apply Permutation_cons_append.
          + now constructor.
        - intros i. destruct (Nat.eq_dec i a) as [->|Hne].
          + rewrite upd_same, (Hst a). unfold marked. rewrite inb_app.
            apply inb_false in Hnot. rewrite Hnot.
            assert (E : inb a [a] = true) by (apply inb_In; now left).
            rewrite E. reflexivity.
          + rewrite upd_other by assumption. rewrite (Hst i).
            unfold marked. rewrite inb_app.
            assert (E : inb i [a] = false).
            { apply inb_false. intros [H|[]]. congruence. }
            rewrite E, orb_false_r. reflexivity.
        - intros x Hx. apply in_app_or in Hx as [Hx|[<-|[]]]; [auto|].
          apply reach_next with cur; auto. apply Hl. now left. }
      destruct (IH _ _ _ _ Hinv1 Hcur Hl' Hfold) as (Hinv' & (new & ->) & Hseen).
      split; [exact Hinv'|]. split.
      * exists (a :: new). now rewrite <- app_assoc.
      * intros w [<-|Hw] Hfw; [|now apply Hseen].
        left. apply in_or_app. left. apply in_or_app. right. now left.
    + destruct (IH _ _ _ _ (conj Hnd (conj Hst Hreach)) Hcur Hl' Hfold)
        as (Hinv' & (new & ->) & Hseen).
      split; [exact Hinv'|]. split; [eauto|].
      intros w [<-|Hw] Hfw; [|now apply Hseen].
      apply andb_false_iff in Hcond as [Hv|Hf].
      * apply negb_false_iff in Hv.
        destruct (in_dec Nat.eq_dec a comp) as [Hin|Hnin].
        -- left. apply in_or_app. now left.
        -- right. rewrite (Hst a) in Hv. unfold marked in Hv.
           apply inb_false in Hnin. now rewrite Hnin in Hv.
      * apply negb_false_iff in Hf. congruence.
Qed.

Lemma bfsLoop_inv s0 start : forall fuel s comp qIdx s' comp',
  bfsInv s0 start s comp -> bfsDone s0 comp qIdx ->
  bfsLoop fuel s comp qIdx = Some (s', comp') ->
  bfsInv s0 start s' comp' /\ (exists new, comp' = comp ++ new) /\
  bfsDone s0 comp' (length comp').
Proof.
  induction fuel as [|fuel IH]; intros s comp qIdx s' comp' Hinv Hdone Hrun;
    simpl in Hrun; [discriminate|].
  destruct (nth_error comp qIdx) as [cur|] eqn:Hcur.
  - destruct (fold_left bfsVisit (neighbors (s cur)) (s, comp))
      as [s1 comp1] eqn:Hfold.
    pose proof Hinv as (_ & Hst & Hreach).
    assert (Hn : neighbors (s cur) = neighbors (s0 cur)).
    { rewrite (Hst cur). apply marked_fields. }
    rewrite Hn in Hfold.
    assert (HcurIn : In cur comp) by (eapply nth_error_In; eauto).
    destruct (bfsVisit_inv s0 start cur _ _ _ _ _ Hinv (Hreach cur HcurIn)
                (fun w Hw => Hw) Hfold) as (Hinv1 & (new & ->) & Hseen).
    assert (Hq : (qIdx < length comp)%nat)
      by (apply nth_error_Some; congruence).
    assert (Hdone1 : bfsDone s0 (comp ++ new) (S qIdx)).
    { intros k x Hk Hx w Hw Hf.
      rewrite nth_error_app1 in Hx by lia.
      destruct (Nat.eq_dec k qIdx) as [->|Hne].
      - rewrite Hcur in Hx. injection Hx as <-. now apply Hseen.
      - destruct (Hdone k x ltac:(lia) Hx w Hw Hf) as [H|H]; [|now right].
        left. apply in_or_app. now left. }
    destruct (IH _ _ _ _ _ Hinv1 Hdone1 Hrun) as (Hinv' & (new' & ->) & Hd').
    split; [exact Hinv'|]. split; [|exact Hd'].
    exists (new ++ new'). now rewrite app_assoc.
  - injection Hrun as <- <-. split; [exact Hinv|]. split.
    + exists []. now rewrite app_nil_r.
    + apply nth_error_None in Hcur. intros k x Hk. apply Hdone. lia.
Qed.

(** [BFS] returns the blocks reached from [start] through blocks that are
    neither visited nor fixed, each once and [start] first, and marks
    exactly these. *)
Lemma BFS_component fuel s start s' comp :
  BFS fuel s start = Some (s', comp) ->
  NoDup comp /\ hd_error comp = Some start /\
  (forall i, s' i = marked s comp i) /\
  (forall x, In x comp <-> reachable s start x).
Proof.
  unfold BFS. intros Hrun.
  assert (Hinv0 : bfsInv s start (upd s start (set_visited true)) [start]).
  { split; [|split].
    - repeat constructor. intros [].
    - intros i. unfold upd, marked, inb. simpl. now rewrite orb_false_r.
    - intros x [<-|[]]. constructor. }
  assert (Hdone0 : bfsDone s [start] 0) by (intros k x Hk; lia).
  destruct (bfsLoop_inv s start _ _ _ _ _ _ Hinv0 Hdone0 Hrun)
    as ((Hnd & Hst & Hreach) & (new & ->) & Hdone).
  split; [exact Hnd|]. split; [reflexivity|]. split; [exact Hst|].
  intros x. split; [apply Hreach|].
  induction 1 as [|y x _ IH Hin Hv Hf]; [now left|].
  apply In_nth_error in IH as [k Hk].
  assert (Hlt : (k < length ([start] ++ new))%nat)
    by (apply nth_error_Some; congruence).
  destruct (Hdone k y Hlt Hk x Hin Hf) as [H|H]; [exact H | congruence].
Qed.

Lemma reachable_In U s start x :
  closedIn U s -> In start U -> reachable s start x -> In x U.
Proof.
  intros Hcl Hs. induction 1 as [|y x _ IH Hin _ _]; [exact Hs | eauto].
Qed.

Lemma reachable_joined s start x : reachable s start x -> joined s start x.
Proof.
  induction 1 as [|y x _ IH Hin _ Hf]; [constructor|].
  now apply join_next with y.
Qed.

Lemma reachable_new s start x :
  reachable s start x -> x = start \/
  (visited (s x) = false /\ isFixed (s x) = false).
Proof. destruct 1; auto. Qed.

(** * The components the driver submits *)

Lemma joined_ext s s' b x :
  (forall i, neighbors (s' i) = neighbors (s i) /\
             isFixed (s' i) = isFixed (s i)) ->
  joined s b x -> joined s' b x.
Proof.
  intros Hsame. induction 1 as [|y x _ IH Hin Hf]; [constructor|].
  apply join_next with y; [exact IH | |].
  - now rewrite (proj1 (Hsame y)).
  - now rewrite (proj2 (Hsame x)).
Qed.

Lemma compsInv_start U s0 : compsInv U s0 s0 [].
Proof.
  split; [constructor|]. split; [reflexivity|].
  split; [intros x []|]. split; [intros c x w []|intros c []].
Qed.

Lemma components_inv U s0 fuel :
  symmetricIn U s0 -> closedIn U s0 ->
  (forall i, In i U -> visited (s0 i) = false) ->
  forall todo s comps s' comps',
    incl todo U -> compsInv U s0 s comps ->
    foldM (componentRoot fuel) todo (s, comps) = Some (s', comps') ->
    compsInv U s0 s' comps' /\
    (exists new, comps' = comps ++ new) /\
    (forall b, In b todo -> isFixed (s0 b) = false -> In b (concat comps')).
Proof.
  intros Hsym Hcl Hunv.
  induction todo as [|b todo IH]; intros s comps s' comps' Hincl Hinv Hrun;
    cbn [foldM] in Hrun.
  - injection Hrun as <- <-. split; [exact Hinv|].
    split; [exists []; now rewrite app_nil_r | intros b []].
  - assert (Hb : In b U) by (apply Hincl; now left).
    assert (Hincl' : incl todo U) by (intros x Hx; apply Hincl; now right).
    destruct (componentRoot fuel (s, comps) b) as [[s1 comps1]|] eqn:Hroot;
      [|discriminate].
    pose proof Hinv as (Hnd & Hst & Hmem & Hclosed & Hhead).
    assert (Hfld : forall i, neighbors (s i) = neighbors (s0 i) /\
                             isFixed (s i) = isFixed (s0 i)).
    { intros i. rewrite (Hst i).
      destruct (marked_fields s0 (concat comps) i) as (_&_&_&_&A&B&_). auto. }
    assert (Hvis : forall i, In i U -> visited (s i) = true ->
                             In i (concat comps)).
    { intros i Hi Vi. rewrite (Hst i) in Vi. unfold marked in Vi.
      destruct (inb i (concat comps)) eqn:E; [now apply inb_In|].
      rewrite (Hunv i Hi) in Vi. discriminate. }
    assert (Hvis' : forall i, In i (concat comps) -> visited (s i) = true).
    { intros i Hi. rewrite (Hst i). now apply marked_fields. }
    unfold componentRoot in Hroot.
    destruct (negb (visited (s b)) && negb (isFixed (s b))) eqn:Hcond.
    + apply andb_true_iff in Hcond as [Vb Fb].
      apply negb_true_iff in Vb, Fb.
      destruct (BFS fuel s b) as [[s2 comp]|] eqn:HB; [|discriminate].
      injection Hroot as <- <-.
      destruct (BFS_component _ _ _ _ _ HB) as (Hndc & Hhd & Hst2 & Hreach).
      assert (Hcls : closedIn U s).
      { intros x w Hx Hw. rewrite (proj1 (Hfld x)) in Hw. eauto. }
      assert (Hnew : forall x, In x comp -> visited (s x) = false).
      { intros x Hx. apply Hreach, reachable_new in Hx as [->|[H _]]; auto. }
      assert (Hdisj : forall x, In x (concat comps) -> ~ In x comp).
      { intros x Hx Hc. pose proof (Hnew x Hc) as H.
        rewrite (Hvis' x Hx) in H. discriminate. }
      assert (HcompU : forall x, In x comp ->
                         In x U /\ isFixed (s0 x) = false).
      { intros x Hx. apply Hreach in Hx. split.
        - eapply reachable_In; eauto.
        - rewrite <- (proj2 (Hfld x)).
          apply reachable_new in Hx as [->|[_ H]]; auto. }
      assert (Hinv1 : compsInv U s0 s2 (comps ++ [comp])).
      { split; [|split; [|split; [|split]]].
        - rewrite concat_app. simpl. rewrite app_nil_r.
          now apply NoDup_app.
        - intros i. rewrite concat_app. simpl. rewrite app_nil_r.
          rewrite <- marked_app, (Hst2 i). unfold marked at 1 2.
          now rewrite (Hst i).
        - intros x Hx. rewrite concat_app in Hx. simpl in Hx.
          rewrite app_nil_r in Hx.
          apply in_app_or in Hx as [Hx|Hx]; [now apply Hmem | now apply HcompU].
        - intros c x w Hc Hx Hw Hfw.
          apply in_app_or in Hc as [Hc|[<-|[]]]; [eapply Hclosed; eauto|].
          destruct (HcompU x Hx) as [HxU Hfx].
          assert (HwU : In w U) by eauto.
          destruct (visited (s w)) eqn:Vw.
          + exfalso. apply Hvis in Vw; [|exact HwU].
            apply in_concat in Vw as (c' & Hc' & Hwc').
            apply (Hdisj x); [|exact Hx]. apply in_concat. exists c'.
            split; [exact Hc'|].
            apply (Hclosed c' w x Hc' Hwc'); [|exact Hfx].
            now apply Hsym.
          + apply Hreach. apply reach_next with x; auto.
            * now apply Hreach.
            * now rewrite (proj1 (Hfld x)).
            * now rewrite (proj2 (Hfld w)).
        - intros c Hc. apply in_app_or in Hc as [Hc|[<-|[]]]; [now apply Hhead|].
          exists b. split; [exact Hhd|]. intros x Hx.
          apply (joined_ext s); [|now apply reachable_joined, Hreach].
          intros i. destruct (Hfld i). split; congruence. }
      destruct (IH _ _ _ _ Hincl' Hinv1 Hrun) as (Hinv' & (new & ->) & Hcov).
      split; [exact Hinv'|]. split.
      * exists (comp :: new). now rewrite <- app_assoc.
      * intros x [<-|Hx] Hfx; [|now apply Hcov].
        rewrite !concat_app. simpl. apply in_or_app. left.
        apply in_or_app. right. rewrite app_nil_r.
        apply Hreach. constructor.
    + injection Hroot as <- <-.
      destruct (IH _ _ _ _ Hincl' Hinv Hrun) as (Hinv' & (new & ->) & Hcov).
      split; [exact Hinv'|]. split; [eauto|].
      intros x [<-|Hx] Hfx; [|now apply Hcov].
      rewrite concat_app. apply in_or_app. left. apply Hvis; [exact Hb|].
      apply andb_false_iff in Hcond as [H|H]; apply negb_false_iff in H;
        [exact H|].
      rewrite (proj2 (Hfld b)) in H. congruence.
Qed.

Lemma joined_closed (c : list nat) s b :
  In b c ->
  (forall x w, In x c -> In w (neighbors (s x)) -> isFixed (s w) = false ->
               In w c) ->
  forall x, joined s b x -> In x c.
Proof.
  intros Hb Hcl x. induction 1 as [|y x _ IH Hin Hf]; [exact Hb | eauto].
Qed.

(** On fresh blocks the neighbour lists the driver works with go both
    ways. *)
Lemma scheduleOf_symmetric st blocks :
  NoDup blocks -> freshBlocks st blocks ->
  forall x w, In x blocks ->
    In w (neighbors (storeAfter (scheduleOf st blocks) x)) ->
    In x (neighbors (storeAfter (scheduleOf st blocks) w)).
Proof.
  intros Hnd Hfresh x w Hx Hw.
  rewrite scheduleOf_neighbors in Hw |- * by assumption.
  rewrite (Hfresh x Hx) in Hw. simpl in Hw.
  apply newNeighbors_iff in Hw as (_ & Hw & Hne & Hc).
  apply in_or_app. right. apply newNeighbors_iff.
  repeat split; auto. now rewrite conflict_sym.
Qed.

(** * What the pass leaves alone *)

Lemma sameOutside_refl U s : sameOutside U s s.
Proof. intros i _. reflexivity. Qed.

Lemma sameOutside_trans U s1 s2 s3 :
  sameOutside U s1 s2 -> sameOutside U s2 s3 -> sameOutside U s1 s3.
Proof. intros H12 H23 i Hi. now rewrite (H23 i Hi), (H12 i Hi). Qed.

Lemma sameOutside_upd U s x f : In x U -> sameOutside U s (upd s x f).
Proof. intros Hx i Hi. apply upd_other. intros ->. contradiction. Qed.

Lemma sameOutside_incl U U' s s' :
  incl U U' -> sameOutside U s s' -> sameOutside U' s s'.
Proof. intros Hincl H i Hi. apply H. intros Hin. apply Hi, Hincl, Hin. Qed.

Lemma setIdx_outside : forall blocks k st,
  sameOutside blocks st (setIdx k blocks st).
Proof.
  induction blocks as [|b rest IH]; intros k st i Hi; simpl; [reflexivity|].
  rewrite IH by (intros H; apply Hi; now right).
  apply upd_other. intros ->. apply Hi. now left.
Qed.

(** [blocks.forEach((b, i) => (b.idx = i))] on distinct blocks: every block
    carries its position. *)
Lemma setIdx_position : forall blocks k st j b,
  NoDup blocks -> nth_error blocks j = Some b ->
  idx (setIdx k blocks st b) = (k + j)%nat.
Proof.
  induction blocks as [|x rest IH]; intros k st j b Hnd Hj;
    [destruct j; discriminate|].
  inversion Hnd as [|? ? Hx Hnd']; subst. simpl. destruct j as [|j]; simpl in Hj.
  - injection Hj as ->. rewrite (setIdx_outside rest (S k) _ b Hx).
    rewrite upd_same. simpl. lia.
  - rewrite (IH (S k) _ j b Hnd' Hj). lia.
Qed.

Lemma dfs_outside U fuel maxDepth s start s' :
  closedIn U s -> In start U -> visited (s start) = false ->
  depthFirstSearchRec fuel maxDepth s start = Some s' ->
  sameOutside U s s'.
Proof.
  intros Hcl Hs V Hrun i Hi.
  destruct (dfs_post _ _ _ _ _ V Hrun) as (Hstep & _).
  destruct (Hstep i) as [E|(Vi & m & E)]; [exact E|].
  exfalso. apply Hi. apply (descends_In U s start i Hcl Hs).
  apply (dfs_origin _ _ _ _ _ V Hrun i Vi). now rewrite E.
Qed.

Lemma pathRoots_outside U fuel : forall todo s s',
  closedIn U s -> incl todo U ->
  foldM (pathRoot fuel) todo s = Some s' -> sameOutside U s s'.
Proof.
  induction todo as [|r todo IH]; intros s s' Hcl Hincl Hrun;
    cbn [foldM] in Hrun.
  - injection Hrun as <-. apply sameOutside_refl.
  - destruct (pathRoot fuel s r) as [s1|] eqn:Hroot; [|discriminate].
    assert (Hr : In r U) by (apply Hincl; now left).
    assert (Hincl' : incl todo U) by (intros x Hx; apply Hincl; now right).
    unfold pathRoot in Hroot. destruct (visited (s r)) eqn:Vr; simpl in Hroot.
    + injection Hroot as <-. now apply IH.
    + apply (sameOutside_trans U s s1 s').
      * eapply dfs_outside; eauto.
      * apply IH; auto. eapply closedIn_pathStep; [|exact Hcl].
        apply (dfs_post _ _ _ _ _ Vr Hroot).
Qed.

Lemma fixed_loop_outside U sd pd (rec : store -> nat -> option (store * bool)) :
  (forall s a s1 r, closedIn U s -> In a U -> visited (s a) = false ->
     rec s a = Some (s1, r) -> fixStep s s1 /\ sameOutside U s s1) ->
  forall l s flag s' flag',
    closedIn U s -> incl l U ->
    foldM (fixedVisit rec sd pd) l (s, flag) = Some (s', flag') ->
    sameOutside U s s'.
Proof.
  intros Hrec. induction l as [|a l IH]; intros s flag s' flag' Hcl Hl Hfold;
    cbn [foldM] in Hfold.
  - injection Hfold as <- <-. apply sameOutside_refl.
  - destruct (fixedVisit rec sd pd (s, flag) a) as [[s1 flag1]|] eqn:Hv;
      [|discriminate].
    assert (Ha : In a U) by (apply Hl; now left).
    assert (Hl' : incl l U) by (intros w Hw; apply Hl; now right).
    unfold fixedVisit in Hv. cbv beta iota in Hv.
    destruct (visited (s a)) eqn:Va.
    + injection Hv as <- <-. eapply IH; eauto.
    + destruct (samePath sd pd (s a)).
      * destruct (rec s a) as [[s2 r]|] eqn:Hr; [|discriminate].
        injection Hv as <- <-.
        destruct (Hrec s a s2 r Hcl Ha Va Hr) as [Hstep Hout].
        apply (sameOutside_trans U s s2 s'); [exact Hout|].
        eapply IH; eauto. eapply closedIn_fixStep; eauto.
      * injection Hv as <- <-. eapply IH; eauto.
Qed.

Lemma fixed_outside U : forall fuel s start s' r,
  closedIn U s -> In start U -> visited (s start) = false ->
  DFSFindFixed fuel s start = Some (s', r) -> sameOutside U s s'.
Proof.
  induction fuel as [|fuel IH]; intros s start s' r Hcl Hs V Hrun;
    simpl in Hrun; [discriminate|].
  set (st1 := upd s start (set_visited true)) in *.
  assert (H1 : sameOutside U s st1) by now apply sameOutside_upd.
  assert (Hstep1 : fixStep s st1) by now apply fixStep_enter.
  assert (Hcl1 : closedIn U st1) by (eapply closedIn_fixStep; eauto).
  destruct (depth (st1 start) =? 0).
  - injection Hrun as <- <-.
    apply (sameOutside_trans U s st1); [exact H1 | now apply sameOutside_upd].
  - destruct (foldM _ _ _) as [[sl flag]|] eqn:Hfold; [|discriminate].
    injection Hrun as <- <-.
    apply (sameOutside_trans U s st1); [exact H1|].
    apply (sameOutside_trans U st1 sl); [|now apply sameOutside_upd].
    eapply (fixed_loop_outside U _ _ (DFSFindFixed fuel)); [| exact Hcl1 | | exact Hfold].
    + intros s0 a s1 r0 Hcl0 Ha Va Hr. split.
      * apply (fixed_frame _ _ _ _ _ Va Hr).
      * eapply IH; eauto.
    + intros w Hw. eapply Hcl1; eauto.
Qed.

Lemma fixedRoots_outside U fuel : forall todo s s',
  closedIn U s -> incl todo U ->
  foldM (fixedRoot fuel) todo s = Some s' -> sameOutside U s s'.
Proof.
  induction todo as [|x todo IH]; intros s s' Hcl Hincl Hrun;
    cbn [foldM] in Hrun.
  - injection Hrun as <-. apply sameOutside_refl.
  - destruct (fixedRoot fuel s x) as [s1|] eqn:Hroot; [|discriminate].
    assert (Hx : In x U) by (apply Hincl; now left).
    assert (Hincl' : incl todo U) by (intros w Hw; apply Hincl; now right).
    unfold fixedRoot in Hroot.
    destruct (negb (visited (s x)) && isLocalTop s x) eqn:Hcond.
    + apply andb_true_iff in Hcond as [Vx _]. apply negb_true_iff in Vx.
      destruct (DFSFindFixed fuel s x) as [[s2 r]|] eqn:Hd; [|discriminate].
      simpl in Hroot. injection Hroot as <-.
      apply (sameOutside_trans U s s2 s').
      * eapply fixed_outside; eauto.
      * apply IH; auto. eapply closedIn_fixStep; [|exact Hcl].
        apply (fixed_frame _ _ _ _ _ Vx Hd).
    + injection Hroot as <-. now apply IH.
Qed.

Lemma fold_outside (f : store -> nat -> store) U :
  (forall s x, In x U -> sameOutside U s (f s x)) ->
  forall l s, incl l U -> sameOutside U s (fold_left f l s).
Proof.
  intros Hf. induction l as [|x l IH]; intros s Hl; simpl;
    [apply sameOutside_refl|].
  apply (sameOutside_trans U s (f s x)).
  - apply Hf, Hl. now left.
  - apply IH. intros w Hw. apply Hl. now right.
Qed.

Lemma calculateMaxDepth_outside st blocks st' blocks' :
  closedIn blocks st ->
  calculateMaxDepth st blocks = Some (st', blocks') ->
  sameOutside blocks st st'.
Proof.
  intros Hcl H.
  destruct (calculateMaxDepth_inv _ _ _ _ H) as (st1 & st3 & _ & H1 & H3 & ->).
  set (sorted := sortBy (byDepthDesc st) blocks) in *.
  assert (Hincl : incl sorted blocks)
    by (intros x Hx; now apply sortBy_In in Hx).
  pose proof (pathRoots_step _ _ _ _ H1) as Hs1.
  apply (sameOutside_trans blocks st st1);
    [eapply pathRoots_outside; eauto|].
  apply (sameOutside_trans blocks st1 (fold_left clearVisited sorted st1)).
  - apply fold_outside; [|exact Hincl].
    intros s x Hx. now apply sameOutside_upd.
  - eapply fixedRoots_outside; [| exact Hincl | exact H3].
    eapply closedIn_sameGraph; [apply clearVisited_sameGraph|].
    eapply closedIn_pathStep; eauto.
Qed.

Lemma components_outside U fuel : forall todo s comps s' comps',
  closedIn U s -> incl todo U ->
  foldM (componentRoot fuel) todo (s, comps) = Some (s', comps') ->
  sameOutside U s s'.
Proof.
  induction todo as [|b todo IH]; intros s comps s' comps' Hcl Hincl Hrun;
    cbn [foldM] in Hrun.
  - injection Hrun as <- <-. apply sameOutside_refl.
  - destruct (componentRoot fuel (s, comps) b) as [[s1 comps1]|] eqn:Hroot;
      [|discriminate].
    assert (Hb : In b U) by (apply Hincl; now left).
    assert (Hincl' : incl todo U) by (intros w Hw; apply Hincl; now right).
    unfold componentRoot in Hroot.
    destruct (negb (visited (s b)) && negb (isFixed (s b))).
    + destruct (BFS fuel s b) as [[s2 comp]|] eqn:HB; [|discriminate].
      injection Hroot as <- <-.
      destruct (BFS_component _ _ _ _ _ HB) as (_ & _ & Hst & Hreach).
      assert (Hout : sameOutside U s s2).
      { intros i Hi. rewrite (Hst i). unfold marked.
        destruct (inb i comp) eqn:E; [|reflexivity].
        exfalso. apply Hi. apply inb_In, Hreach in E.
        eapply reachable_In; eauto. }
      apply (sameOutside_trans U s s2 s'); [exact Hout|].
      eapply IH; eauto.
      intros x w Hx Hw. rewrite (Hst x) in Hw.
      destruct (marked_fields s comp x) as (_&_&_&_&_&E&_).
      rewrite E in Hw. eauto.
    + injection Hroot as <- <-. eapply IH; eauto.
Qed.

Lemma graphOf_outside st blocks :
  NoDup blocks -> sameOutside blocks st (graphOf st blocks).
Proof.
  intros Hnd i Hi. unfold graphOf.
  rewrite constructAdjList_spec by assumption.
  apply inb_false in Hi as Hi'. unfold newNeighbors. rewrite Hi'.
  rewrite addNeighbors_nil. now apply setIdx_outside.
Qed.

Lemma scheduleOf_outside st blocks :
  NoDup blocks ->
  sameOutside blocks st (storeAfter (scheduleOf st blocks)).
Proof.
  intros Hnd i Hi. unfold scheduleOf.
  destruct (intervalScheduling2_onlyDepth (graphOf st blocks) blocks i)
    as [_ E]. rewrite (E Hi). now apply graphOf_outside.
Qed.

(** The pass writes no block outside the array. *)
Lemma layoutDay_outside st blocks r :
  NoDup blocks -> closedIn blocks st ->
  layoutDay st blocks = Some r -> sameOutside blocks st (d_store r).
Proof.
  intros Hnd Hcl Hrun.
  pose proof (scheduleOf_outside st blocks Hnd) as Hsch.
  assert (Harr : forall b, In b (arrayAfter (scheduleOf st blocks))
                           <-> In b blocks).
  { intros b. unfold scheduleOf. rewrite intervalScheduling2_array.
    apply sortBy_In. }
  destruct (layoutDay_cases _ _ _ Hrun)
    as [[_ ->]|(_ & st3 & blocks3 & st6 & comps & Hcm & Hcomp & ->)]; simpl.
  - intros i Hi. rewrite setFull_spec.
    assert (E : inb i (arrayAfter (scheduleOf st blocks)) = false)
      by (apply inb_false; now rewrite Harr).
    rewrite E. now apply Hsch.
  - assert (Hin3 : forall b, In b blocks3 <-> In b blocks).
    { intros b. destruct (calculateMaxDepth_inv _ _ _ _ Hcm) as (_ & _ & -> & _).
      rewrite sortBy_In. apply Harr. }
    pose proof (scheduleOf_closedIn st blocks Hnd Hcl) as Hcla.
    pose proof (calculateMaxDepth_outside _ _ _ _ Hcla Hcm) as Hout3.
    pose proof (calculateMaxDepth_sameGraph _ _ _ _ Hcm) as Hsg.
    set (s5 := fold_left clearVisited blocks3
                         (fold_left setHeuristic blocks3 st3)) in *.
    assert (Hnb : forall i, neighbors (s5 i) = neighbors (st3 i)).
    { intros i. unfold s5.
      destruct (clearVisited_sameGraph blocks3
                  (fold_left setHeuristic blocks3 st3) i) as (_&_&_&->&_).
      rewrite setHeuristic_spec. now destruct (inb i blocks3). }
    assert (Hcl5 : closedIn blocks3 s5).
    { intros x w Hx Hw. rewrite Hnb in Hw.
      destruct (Hsg x) as (_&_&_&E&_). rewrite E in Hw.
      apply Hin3, Harr. apply (Hcla x w); [|exact Hw].
      now apply Harr, Hin3. }
    pose proof (components_outside blocks3 _ _ _ _ _ _ Hcl5 (fun x H => H)
                  Hcomp) as Hout6.
    intros i Hi.
    assert (Hi3 : ~ In i blocks3) by now rewrite Hin3.
    rewrite (Hout6 i Hi3). unfold s5.
    rewrite clearVisited_spec, setHeuristic_spec.
    apply inb_false in Hi3. rewrite Hi3.
    rewrite (Hout3 i) by now rewrite Harr. now apply Hsch.
Qed.

(** The [idx] the pass leaves on a block is its position in the array as
    the pass received it. *)
Lemma layoutDay_idx st blocks r :
  NoDup blocks -> layoutDay st blocks = Some r ->
  forall j b, nth_error blocks j = Some b -> idx (d_store r b) = j.
Proof.
  intros Hnd Hrun j b Hj.
  assert (Hg : idx (graphOf st blocks b) = j).
  { unfold graphOf. rewrite constructAdjList_spec by assumption. simpl.
    apply (setIdx_position blocks 0 st j b Hnd Hj). }
  assert (Hs : idx (storeAfter (scheduleOf st blocks) b) = j).
  { unfold scheduleOf.
    destruct (intervalScheduling2_onlyDepth (graphOf st blocks) blocks b)
      as [-> _]. exact Hg. }
  destruct (layoutDay_cases _ _ _ Hrun)
    as [[_ ->]|(_ & st3 & blocks3 & st6 & comps & Hcm & Hcomp & ->)]; simpl.
  - rewrite setFull_spec. now destruct (inb b _).
  - pose proof (components_step _ _ _ _ _ _ Hcomp) as Hstep.
    destruct (visStep_sameGraph _ _ Hstep b) as (_&_&_&_&_&_&->).
    destruct (clearVisited_sameGraph blocks3
                (fold_left setHeuristic blocks3 st3) b) as (_&_&_&_&_&_&->).
    rewrite setHeuristic_spec.
    destruct (calculateMaxDepth_sameGraph _ _ _ _ Hcm b) as (_&_&_&_&_&_&E).
    destruct (inb b blocks3); simpl; congruence.
Qed.

(** * The weekdays do not interfere *)

Lemma NoDup_concat_cons (blocks : list nat) rest :
  NoDup (concat (blocks :: rest)) ->
  NoDup blocks /\ NoDup (concat rest) /\
  (forall b, In b blocks -> ~ In b (concat rest)).
Proof.
  simpl. intros H. split; [eapply NoDup_app_remove_r; eauto|].
  split; [eapply NoDup_app_remove_l; eauto|].
  intros b Hb Hr. induction blocks as [|x l IH]; [destruct Hb|].
  simpl in H. inversion H as [|? ? Hx Hnd]; subst.
  destruct Hb as [->|Hb]; [|now apply IH].
  apply Hx, in_or_app. now right.
Qed.

Lemma closedIn_agree U s s' :
  (forall b, In b U -> s' b = s b) -> closedIn U s -> closedIn U s'.
Proof. intros H Hcl x w Hx Hw. rewrite (H x Hx) in Hw. eauto. Qed.

Lemma week_run : forall days s,
  NoDup (concat days) ->
  (forall blocks, In blocks days -> closedIn blocks s) ->
  exists w, computeBlockPositions s days = Some w /\ weekPost s days w.
Proof.
  induction days as [|blocks rest IH]; intros s Hnd Hcl.
  - exists (mkWeek s [] []). split; [reflexivity|].
    split; [apply sameOutside_refl|]. split; [apply sameTimes_refl|].
    split; [constructor | intros blocks []].
  - destruct (NoDup_concat_cons _ _ Hnd) as (Hndb & Hndr & Hdisj).
    destruct (layoutDay_returns s blocks Hndb (Hcl blocks (or_introl eq_refl)))
      as [r Hrun].
    pose proof (layoutDay_outside s blocks r Hndb
                  (Hcl blocks (or_introl eq_refl)) Hrun) as Hout.
    pose proof (layoutDay_sameTimes s blocks r Hndb Hrun) as Htimes.
    assert (Hkeep : forall b, In b (concat rest) -> d_store r b = s b).
    { intros b Hb. apply Hout. intros Hin. now apply (Hdisj b Hin). }
    assert (Hcl1 : forall bl, In bl rest -> closedIn bl (d_store r)).
    { intros bl Hbl. apply (closedIn_agree bl s).
      - intros b Hb. apply Hkeep. apply in_concat. eauto.
      - apply Hcl. now right. }
    destruct (IH (d_store r) Hndr Hcl1) as (w & Hw & Hout' & Ht' & Hperm & Hday).
    simpl. rewrite Hrun, Hw. eexists. split; [reflexivity|].
    unfold weekPost. simpl.
    split; [|split; [|split]].
    + intros i Hi. rewrite Hout'.
      * apply Hout. intros Hin. apply Hi, in_or_app. now left.
      * intros Hin. apply Hi, in_or_app. now right.
    + eapply sameTimes_trans; eauto.
    + constructor; [now apply (layoutDay_blocks s) | exact Hperm].
    + intros bl [<-|Hbl].
      * exists s, r. split; [exact Hrun|]. split; [apply sameTimes_refl|].
        split; [reflexivity|]. intros b Hb. apply Hout'. now apply Hdisj.
      * destruct (Hday bl Hbl) as (sk & rk & Hk & Htk & Hagree & Hfinal).
        exists sk, rk. split; [exact Hk|].
        split; [eapply sameTimes_trans; eauto|]. split; [|exact Hfinal].
        intros b Hb. rewrite (Hagree b Hb). apply Hkeep.
        apply in_concat. eauto.
Qed.


Lemma newNeighbors_sameTimes st st' blocks b :
  sameTimes st st' -> newNeighbors st' blocks b = newNeighbors st blocks b.
Proof.
  intros Ht. unfold newNeighbors, conflictsOf.
  destruct (inb b blocks); [|reflexivity].
  apply filter_ext. intros c. now rewrite (conflict_sameTimes st st').
Qed.

(** A pass over a weekday gives the same depth, left and width whatever
    the store holds outside the weekday, the times apart. *)
Lemma layoutDay_local st s blocks r0 r :
  NoDup blocks -> closedIn blocks st ->
  (forall b, In b blocks -> visited (st b) = false) ->
  sameTimes st s -> (forall b, In b blocks -> s b = st b) ->
  layoutDay st blocks = Some r0 -> layoutDay s blocks = Some r ->
  forall b, In b blocks ->
    depth (d_store r b) = depth (d_store r0 b) /\
    left (d_store r b) = left (d_store r0 b) /\
    width (d_store r b) = width (d_store r0 b).
Proof.
  intros Hnd Hcl Hunv Ht Hagree Hrun0 Hrun.
  destruct (layoutDay_sim st s blocks blocks r0) as (r' & Hrun' & Hsame); auto.
  - intros b. reflexivity.
  - now apply (closedIn_agree blocks st).
  - intros b Hb. rewrite (Hagree b Hb). now apply Hunv.
  - intros b Hb. exists []. split; [|intros x []].
    rewrite app_nil_r, (Hagree b Hb).
    now rewrite (newNeighbors_sameTimes st s).
  - intros b0 rest Hs. rewrite Hagree; [reflexivity|].
    apply (sortBy_In (byStart st)). rewrite Hs. now left.
  - rewrite Hrun in Hrun'. injection Hrun' as <-. exact Hsame.
Qed.
(** *** The quadratic scheduler is first-fit *)

Lemma firstFit_init st b0 : depth (st b0) = 0 -> firstFit [b0] st.
Proof. intros H b [<-|[]] d Hd. lia. Qed.

(** The depth a round of [intervalScheduling] gives to its block: every
    column below it is still running when the block starts. *)
Lemma greedyStep_depth P s b :
  RoomInv P (g_store s) (g_occupied s) (g_numRooms s) ->
  exists m,
    g_store (greedyStep s b) = upd (g_store s) b (set_depth m) /\
    forall d, 0 <= d < m ->
      exists r, In r (g_occupied s) /\ depth (g_store s r) = d /\
                startMin (g_store s b) < endMin (g_store s r).
Proof.
  intros [Hnd Hincl Hlen Hinj Hrange Hrep Hproper _ Hused].
  assert (Hcol : forall d, 0 <= d <= g_numRooms s ->
            exists r, In r (g_occupied s) /\ depth (g_store s r) = d).
  { intros d Hd. destruct (Hused d Hd) as (p & Hp & Hdp).
    destruct (Hrep p Hp) as (r & Hr & Hdr & _).
    exists r. split; [exact Hr | lia]. }
  unfold greedyStep.
  pose proof (pickRoom_spec (g_store s) b (g_occupied s)) as Hpick.
  destruct (pickRoom (g_store s) b (g_occupied s) 0 None) as [[k m]|];
    simpl in *.
  - destruct Hpick as (r & Hk & Hfree & Hd & Hmin).
    rewrite (nth_error_nth _ _ b Hk).
    exists (depth (g_store s r)). split; [reflexivity|].
    intros d Hd'.
    assert (Hr : In r (g_occupied s)) by (eapply nth_error_In; exact Hk).
    specialize (Hrange r Hr).
    destruct (Hcol d ltac:(lia)) as (r' & Hr' & Hdr').
    exists r'. split; [exact Hr' | split; [exact Hdr'|]].
    destruct (Z.lt_ge_cases (startMin (g_store s b)) (endMin (g_store s r')))
      as [H|H]; [exact H|].
    specialize (Hmin r' Hr' H). lia.
  - exists (g_numRooms s + 1). split; [reflexivity|].
    intros d Hd. destruct (Hcol d ltac:(lia)) as (r' & Hr' & Hdr').
    exists r'. auto.
Qed.

Lemma greedyStep_firstFit P s b :
  RoomInv P (g_store s) (g_occupied s) (g_numRooms s) ->
  firstFit P (g_store s) ->
  ~ In b P ->
  (forall p, In p P -> startMin (g_store s p) <= startMin (g_store s b)) ->
  startMin (g_store s b) < endMin (g_store s b) ->
  firstFit (b :: P) (g_store (greedyStep s b)).
Proof.
  intros Hinv Hff HbP Hlow Hwf.
  destruct (greedyStep_depth P s b Hinv) as (m & -> & Hm).
  assert (Hold : forall p, In p P -> upd (g_store s) b (set_depth m) p = g_store s p).
  { intros p Hp. apply upd_other. intros ->. contradiction. }
  intros x [<-|Hx] d Hd.
  - rewrite upd_same in Hd. simpl in Hd.
    destruct (Hm d Hd) as (r & Hr & Hdr & Hbusy).
    assert (HrP : In r P) by (apply (ri_incl _ _ _ _ Hinv), Hr).
    exists r. rewrite (Hold r HrP), upd_same.
    split; [now right | split; [exact Hdr|]].
    specialize (Hlow r HrP). split; [|simpl; exact Hlow].
    apply conflict_true. simpl. lia.
  - rewrite (Hold x Hx) in *.
    destruct (Hff x Hx d Hd) as (a & Ha & Hda & Hc & Hs).
    exists a. rewrite (Hold a Ha). split; [now right | auto].
Qed.

Lemma greedy_fold_firstFit rest : forall s P,
  RoomInv P (g_store s) (g_occupied s) (g_numRooms s) ->
  firstFit P (g_store s) ->
  NoDup (P ++ rest) ->
  StronglySorted
    (fun x y => startMin (g_store s x) <= startMin (g_store s y)) rest ->
  (forall p b, In p P -> In b rest ->
               startMin (g_store s p) <= startMin (g_store s b)) ->
  wellFormed (g_store s) rest ->
  firstFit (rev rest ++ P) (g_store (fold_left greedyStep rest s)).
Proof.
  induction rest as [|b rest IH]; intros s P Hinv Hff Hnd Hsort Hlow Hwf;
    simpl; [exact Hff|].
  pose proof (greedyStep_roomStep s b) as Hstep.
  pose proof (roomStep_sameTimes _ _ _ _ _ _ _ Hstep) as Ht.
  assert (HndP : NoDup P) by (eapply NoDup_app_remove_r; exact Hnd).
  assert (HbP : ~ In b P).
  { apply NoDup_remove_2 in Hnd. intros H. apply Hnd, in_or_app. now left. }
  inversion Hsort as [|? ? Hsort' Hall]; subst.
  assert (HlowP : forall p, In p P ->
            startMin (g_store s p) <= startMin (g_store s b))
    by (intros p Hp; apply Hlow; [exact Hp | now left]).
  assert (Hwfb : startMin (g_store s b) < endMin (g_store s b))
    by (apply Hwf; now left).
  rewrite <- app_assoc. simpl. apply IH.
  - eapply roomStep_inv; eauto.
  - now apply greedyStep_firstFit.
  - eapply Permutation_NoDup; [|exact Hnd].
    symmetry. apply Permutation_middle.
  - eapply sorted_sameTimes; eauto.
  - intros p x Hp Hx.
    destruct (Ht p) as [-> _], (Ht x) as [-> _].
    destruct Hp as [<-|Hp].
    + rewrite Forall_forall in Hall. now apply Hall.
    + apply Hlow; [exact Hp | now right].
  - eapply wellFormed_sameTimes; [exact Ht|].
    intros x Hx. apply Hwf. now right.
Qed.

(** The whole of [intervalScheduling]. *)
Lemma intervalScheduling_firstFit st blocks :
  NoDup blocks -> wellFormed st blocks -> freshDepth st blocks ->
  firstFit blocks (storeAfter (intervalScheduling st blocks)).
Proof.
  intros Hnd Hwf Hfresh. unfold intervalScheduling, storeAfter.
  destruct (sortBy (byStart st) blocks) as [|b0 rest] eqn:Hs; simpl.
  - apply sortBy_nil in Hs as ->. intros b [].
  - pose proof (sortBy_perm (byStart st) blocks) as Hperm. rewrite Hs in Hperm.
    assert (Hnd' : NoDup (b0 :: rest))
      by (eapply Permutation_NoDup; [symmetry; exact Hperm | exact Hnd]).
    pose proof (sortByStart_sorted st blocks) as Hsort. rewrite Hs in Hsort.
    inversion Hsort as [|? ? Hsort' Hall]; subst.
    rewrite Forall_forall in Hall.
    assert (Hwf0 : wellFormed st (b0 :: rest)).
    { intros x Hx. apply Hwf. eapply Permutation_in; [exact Hperm | exact Hx]. }
    assert (Hd0 : depth (st b0) = 0).
    { apply Hfresh. eapply Permutation_in; [exact Hperm | now left]. }
    pose proof (greedy_fold_firstFit rest (mkGreedy st [b0] 0) [b0]
                  (RoomInv_init st b0 Hd0 (Hwf0 b0 (or_introl eq_refl)))
                  (firstFit_init st b0 Hd0) Hnd' Hsort'
                  ltac:(intros p b [<-|[]] Hb; now apply Hall)
                  ltac:(intros x Hx; apply Hwf0; now right)) as Hff.
    simpl in Hff.
    assert (Hin : forall x, In x (rev rest ++ [b0]) <-> In x blocks).
    { intros x. rewrite in_app_iff, <- in_rev. simpl. split.
      - intros H. eapply Permutation_in; [exact Hperm|].
        destruct H as [H|[->|[]]]; simpl; auto.
      - intros H. eapply Permutation_in in H; [|symmetry; exact Hperm].
        destruct H as [->|H]; auto. }
    intros b Hb d Hd. apply Hin in Hb.
    destruct (Hff b Hb d Hd) as (a & Ha & H). exists a.
    split; [now apply Hin | exact H].
Qed.
(** * What one call of the first traversal reaches *)

Lemma pathStep_unvisited st st' i :
  pathStep st st' -> visited (st' i) = false -> visited (st i) = false.
Proof.
  intros H V. destruct (visited (st i)) eqn:E; [|reflexivity].
  now rewrite (pathStep_visited _ _ _ H E) in V.
Qed.

(** A descent through blocks unvisited in a later store is one in an
    earlier store. *)
Lemma descendsFresh_back st st' r x :
  pathStep st st' -> descendsFresh st' r x -> descendsFresh st r x.
Proof.
  intros Hs. induction 1 as [|w x _ IH Hin Hd Hv]; [constructor|].
  apply fresh_down with w; [exact IH | | |].
  - now rewrite <- (pathStep_neighbors _ _ w Hs).
  - now rewrite <- (pathStep_depth _ _ x Hs), <- (pathStep_depth _ _ w Hs).
  - now apply (pathStep_unvisited _ _ _ Hs).
Qed.

Lemma descendsFresh_trans st r w x :
  descendsFresh st r w -> descendsFresh st w x -> descendsFresh st r x.
Proof.
  intros Hrw. induction 1 as [|y x _ IH Hin Hd Hv]; [exact Hrw|].
  now apply fresh_down with y.
Qed.

Lemma dfs_loop_fresh sd (rec : store -> nat -> option store) s0 start :
  (forall s a s1, visited (s a) = false -> rec s a = Some s1 ->
     pathStep s s1 /\
     forall x, visited (s x) = false -> visited (s1 x) = true ->
               descendsFresh s a x) ->
  sd = depth (s0 start) ->
  forall l s s',
    pathStep s0 s -> incl l (neighbors (s0 start)) ->
    foldM (dfsVisit rec sd) l s = Some s' ->
    pathStep s s' /\
    forall x, visited (s x) = false -> visited (s' x) = true ->
              descendsFresh s0 start x.
Proof.
  intros Hrec ->. induction l as [|a l IH]; intros s s' Hs0 Hl Hfold;
    cbn [foldM] in Hfold.
  - injection Hfold as <-. split; [apply pathStep_refl|]. congruence.
  - destruct (dfsVisit rec _ s a) as [s1|] eqn:Hvisit; [|discriminate].
    assert (Hl' : incl l (neighbors (s0 start)))
      by (intros w Hw; apply Hl; now right).
    unfold dfsVisit in Hvisit.
    destruct (negb (visited (s a)) && (depth (s a) <? depth (s0 start)))
      eqn:Hcond.
    + apply andb_true_iff in Hcond as [Hva Hda].
      apply negb_true_iff in Hva. apply Z.ltb_lt in Hda.
      destruct (Hrec s a s1 Hva Hvisit) as (Hstep1 & Hnew1).
      destruct (IH s1 s' (pathStep_trans _ _ _ Hs0 Hstep1) Hl' Hfold)
        as (Hstep2 & Hnew2).
      split; [eapply pathStep_trans; eauto|].
      intros x V V'. destruct (visited (s1 x)) eqn:V1; [|now apply Hnew2].
      apply descendsFresh_trans with a.
      * apply fresh_down with start; [constructor | apply Hl; now left | |].
        -- now rewrite <- (pathStep_depth _ _ a Hs0).
        -- now apply (pathStep_unvisited _ _ _ Hs0).
      * apply (descendsFresh_back s0 s); [exact Hs0 | now apply Hnew1].
    + injection Hvisit as <-. now apply IH.
Qed.

(** The blocks a call newly visits are reached from its start by a
    descent through blocks that were unvisited when it was entered. *)
Lemma dfs_fresh : forall fuel maxDepth st start st',
  visited (st start) = false ->
  depthFirstSearchRec fuel maxDepth st start = Some st' ->
  forall x, visited (st x) = false -> visited (st' x) = true ->
            descendsFresh st start x.
Proof.
  induction fuel as [|fuel IH]; intros maxDepth st start st' V Hrun;
    simpl in Hrun; [discriminate|].
  set (st1 := upd (upd st start (set_visited true)) start
                  (set_pathDepth maxDepth)) in *.
  assert (Hstep1 : pathStep st st1) by now apply pathStep_mark.
  assert (Hrec : forall s a s1, visited (s a) = false ->
            depthFirstSearchRec fuel maxDepth s a = Some s1 ->
            pathStep s s1 /\
            forall x, visited (s x) = false -> visited (s1 x) = true ->
                      descendsFresh s a x).
  { intros s a s1 Va Ha. split; [apply (dfs_post _ _ _ _ _ Va Ha)|].
    exact (IH maxDepth s a s1 Va Ha). }
  destruct (dfs_loop_fresh (depth (st1 start)) _ st start Hrec
              ltac:(apply (pathStep_depth _ _ _ Hstep1))
              (neighbors (st1 start)) st1 st' Hstep1
              ltac:(rewrite (pathStep_neighbors _ _ _ Hstep1); intros w Hw; exact Hw)
              Hrun) as (_ & Hnew).
  intros x Vx Vx'. destruct (Nat.eq_dec x start) as [->|Hne]; [constructor|].
  apply Hnew; [|exact Vx']. unfold st1. now rewrite !upd_other.
Qed.

(** Conversely the call visits every block of such a descent. *)
Lemma dfs_reaches maxDepth st start st' :
  visited (st start) = false ->
  dfsPost maxDepth st start st' ->
  forall x, descendsFresh st start x ->
    visited (st x) = false /\ visited (st' x) = true.
Proof.
  intros V (Hstep & Vs & Hnew).
  induction 1 as [|w x _ [Vw Vw'] Hin Hd Hv]; [now split|].
  split; [exact Hv|].
  destruct (Hnew w Vw Vw') as (_ & _ & Hcl). apply Hcl.
  - now rewrite (pathStep_neighbors _ _ w Hstep).
  - now rewrite (pathStep_depth _ _ x Hstep), (pathStep_depth _ _ w Hstep).
Qed.
(** * What one call of the second traversal reaches *)

Lemma fixStep_unvisited st st' i :
  fixStep st st' -> visited (st' i) = false -> visited (st i) = false.
Proof.
  intros H V. destruct (visited (st i)) eqn:E; [|reflexivity].
  now rewrite (fixStep_visited _ _ _ H E) in V.
Qed.

Lemma samePath_of_fixStep st st' w x :
  fixStep st st' ->
  samePath (depth (st' w)) (pathDepth (st' w)) (st' x)
  = samePath (depth (st w)) (pathDepth (st w)) (st x).
Proof.
  intros H. rewrite (samePath_fixStep _ _ _ _ _ H).
  now rewrite (fixStep_depth _ _ w H), (fixStep_pathDepth _ _ w H).
Qed.

Lemma chainFresh_back st st' r x :
  fixStep st st' -> chainFresh st' r x -> chainFresh st r x.
Proof.
  intros Hs. induction 1 as [|w x _ IH Hd Hin Hsame Hv]; [constructor|].
  apply cf_down with w; [exact IH | | | |].
  - now rewrite <- (fixStep_depth _ _ w Hs).
  - now rewrite <- (fixStep_neighbors _ _ w Hs).
  - now rewrite <- (samePath_of_fixStep _ _ w x Hs).
  - now apply (fixStep_unvisited _ _ _ Hs).
Qed.

Lemma chainFresh_trans st r w x :
  chainFresh st r w -> chainFresh st w x -> chainFresh st r x.
Proof.
  intros Hrw. induction 1 as [|y x _ IH Hd Hin Hsame Hv]; [exact Hrw|].
  now apply cf_down with y.
Qed.

Lemma chainFresh_In U st r x :
  closedIn U st -> In r U -> chainFresh st r x -> In x U.
Proof.
  intros Hcl Hr. induction 1 as [|w x _ IH Hd Hin Hsame Hv]; [exact Hr|]. eauto.
Qed.

Lemma fixed_loop_fresh (rec : store -> nat -> option (store * bool)) s0 start :
  (forall s a s1 r, visited (s a) = false -> rec s a = Some (s1, r) ->
     fixStep s s1 /\
     forall x, visited (s x) = false -> visited (s1 x) = true ->
               chainFresh s a x) ->
  depth (s0 start) <> 0 ->
  forall l s flag s' flag',
    fixStep s0 s -> incl l (neighbors (s0 start)) ->
    foldM (fixedVisit rec (depth (s0 start)) (pathDepth (s0 start))) l (s, flag)
    = Some (s', flag') ->
    fixStep s s' /\
    forall x, visited (s x) = false -> visited (s' x) = true ->
              chainFresh s0 start x.
Proof.
  intros Hrec Hd0. induction l as [|a l IH]; intros s flag s' flag' Hs0 Hl Hfold;
    cbn [foldM] in Hfold.
  - injection Hfold as <- <-. split; [apply fixStep_refl|]. congruence.
  - destruct (fixedVisit rec _ _ (s, flag) a) as [[s1 flag1]|] eqn:Hvisit;
      [|discriminate].
    assert (Hl' : incl l (neighbors (s0 start)))
      by (intros w Hw; apply Hl; now right).
    unfold fixedVisit in Hvisit. cbv beta iota in Hvisit.
    destruct (visited (s a)) eqn:Va.
    + injection Hvisit as <- <-. exact (IH s _ s' flag' Hs0 Hl' Hfold).
    + destruct (samePath _ _ (s a)) eqn:Hsame.
      * destruct (rec s a) as [[s2 r]|] eqn:Hr; [|discriminate].
        injection Hvisit as <- <-.
        destruct (Hrec s a s2 r Va Hr) as (Hstep1 & Hnew1).
        destruct (IH s2 _ s' flag' (fixStep_trans _ _ _ Hs0 Hstep1) Hl' Hfold)
          as (Hstep2 & Hnew2).
        split; [eapply fixStep_trans; eauto|].
        intros x V V'. destruct (visited (s2 x)) eqn:V2; [|now apply Hnew2].
        apply chainFresh_trans with a.
        -- apply cf_down with start; [constructor | exact Hd0 | | |].
           ++ apply Hl. now left.
           ++ now rewrite <- (samePath_fixStep _ _ _ _ a Hs0).
           ++ now apply (fixStep_unvisited _ _ _ Hs0).
        -- apply (chainFresh_back s0 s); [exact Hs0 | now apply Hnew1].
      * injection Hvisit as <- <-. exact (IH s _ s' flag' Hs0 Hl' Hfold).
Qed.

(** The blocks a call newly visits are reached from its start by
    same-path steps through blocks unvisited when it was entered. *)
Lemma fixed_fresh : forall fuel st start st' r,
  visited (st start) = false ->
  DFSFindFixed fuel st start = Some (st', r) ->
  forall x, visited (st x) = false -> visited (st' x) = true ->
            chainFresh st start x.
Proof.
  induction fuel as [|fuel IH]; intros st start st' r V Hrun;
    simpl in Hrun; [discriminate|].
  set (st1 := upd st start (set_visited true)) in *.
  assert (Hstep1 : fixStep st st1) by now apply fixStep_enter.
  assert (Ed : depth (st1 start) = depth (st start))
    by apply (fixStep_depth _ _ _ Hstep1).
  assert (Ep : pathDepth (st1 start) = pathDepth (st start))
    by apply (fixStep_pathDepth _ _ _ Hstep1).
  assert (En : neighbors (st1 start) = neighbors (st start))
    by apply (fixStep_neighbors _ _ _ Hstep1).
  intros x Vx Vx'. destruct (Nat.eq_dec x start) as [->|Hne]; [constructor|].
  destruct (Z.eqb_spec (depth (st1 start)) 0) as [H0|H0].
  - injection Hrun as <- <-. unfold st1 in Vx'.
    rewrite !upd_other in Vx' by assumption. congruence.
  - destruct (foldM _ _ _) as [[s flag]|] eqn:Hfold; [|discriminate].
    injection Hrun as <- <-. rewrite upd_other in Vx' by assumption.
    rewrite Ed, Ep, En in Hfold.
    assert (Hrec : forall s a s1 r, visited (s a) = false ->
              DFSFindFixed fuel s a = Some (s1, r) ->
              fixStep s s1 /\
              forall x, visited (s x) = false -> visited (s1 x) = true ->
                        chainFresh s a x).
    { intros s2 a s3 r2 Va Ha. split; [apply (fixed_frame _ _ _ _ _ Va Ha)|].
      exact (IH s2 a s3 r2 Va Ha). }
    destruct (fixed_loop_fresh _ st start Hrec ltac:(lia)
                (neighbors (st start)) st1 false s flag Hstep1
                ltac:(intros w Hw; exact Hw) Hfold) as (_ & Hnew).
    apply Hnew; [|exact Vx']. unfold st1. now rewrite upd_other.
Qed.

(** Conversely the call visits every block of such a chain. *)
Lemma fixed_reaches U st start st' r :
  closedIn U st -> In start U -> visited (st start) = false ->
  fixPost U [] st start st' r ->
  forall x, chainFresh st start x ->
    In x U /\ visited (st x) = false /\ visited (st' x) = true.
Proof.
  intros Hcl Hs V (Hstep & Vs & Hinv & _).
  induction 1 as [|w x _ (Hw & Vw & Vw') Hd Hin Hsame Hv]; [now repeat split|].
  split; [eauto | split; [exact Hv|]].
  destruct (Hinv w Hw Vw' ltac:(intros [])) as (_ & Hdown).
  apply Hdown.
  - now rewrite (fixStep_depth _ _ w Hstep).
  - now rewrite (fixStep_neighbors _ _ w Hstep).
  - now rewrite (samePath_of_fixStep _ _ w x Hstep).
Qed.
(** * The order of the array after the sorts *)

Section Stable.
Variable st : store.
Variable S : nat -> nat -> Prop.

Lemma insertByDepth_stable x l :
  StronglySorted (deeperThen st S) l -> Forall (S x) l ->
  StronglySorted (deeperThen st S) (insertBy (byDepthDesc st) x l).
Proof.
  induction 1 as [|y l Hs IH Hall]; intros HS; simpl.
  - repeat constructor.
  - inversion HS as [|? ? HSy HSl]; subst.
    unfold byDepthDesc at 1.
    destruct (Z.leb_spec (depth (st y) - depth (st x)) 0) as [Hle|Hgt].
    + constructor; [now constructor|].
      assert (Hxy : deeperThen st S x y).
      { unfold deeperThen. destruct (Z.eq_dec (depth (st x)) (depth (st y)));
          [right; now split | left; lia]. }
      constructor; [exact Hxy|].
      rewrite Forall_forall in *. intros z Hz.
      specialize (Hall z Hz). specialize (HSl z Hz). unfold deeperThen in *.
      destruct (Z.eq_dec (depth (st x)) (depth (st z)));
        [right; now split | left; lia].
    + constructor; [now apply IH|].
      eapply Permutation_Forall;
        [symmetry; apply (insertBy_perm (byDepthDesc st))|].
      constructor; [unfold deeperThen; left; lia | exact Hall].
Qed.

(** Sorting by descending depth keeps blocks of equal depth in the order
    they had. *)
Lemma sortByDepth_stable l :
  StronglySorted S l -> StronglySorted (deeperThen st S) (sortBy (byDepthDesc st) l).
Proof.
  induction 1 as [|x l Hs IH Hall]; simpl; [constructor|].
  apply insertByDepth_stable; [exact IH|].
  eapply Permutation_Forall; [symmetry; apply sortBy_perm | exact Hall].
Qed.
End Stable.

Lemma startThenDuration_sameTimes st st' x y :
  sameTimes st st' -> startThenDuration st x y -> startThenDuration st' x y.
Proof.
  intros H. unfold startThenDuration, duration.
  destruct (H x) as [-> ->], (H y) as [-> ->]. auto.
Qed.

Lemma sorted_impl {A : Type} (P Q : A -> A -> Prop) l :
  (forall x y, P x y -> Q x y) -> StronglySorted P l -> StronglySorted Q l.
Proof.
  intros H. induction 1 as [|x l Hs IH Hall]; constructor; [exact IH|].
  eapply Forall_impl; [|exact Hall]. intros y. apply H.
Qed.

(** The array [calculateMaxDepth] leaves. *)
Lemma calculateMaxDepth_order st blocks st' blocks' :
  calculateMaxDepth st blocks = Some (st', blocks') ->
  StronglySorted (startThenDuration st) blocks ->
  StronglySorted (depthThenStart st') blocks'.
Proof.
  intros Hcm Hs.
  pose proof (calculateMaxDepth_sameGraph _ _ _ _ Hcm) as Hsg.
  destruct (calculateMaxDepth_inv _ _ _ _ Hcm) as (_ & _ & -> & _).
  eapply sorted_impl;
    [|apply (sortByDepth_stable st (startThenDuration st)); exact Hs].
  intros x y. unfold depthThenStart, deeperThen.
  destruct (Hsg x) as (Sx & Ex & Dx & _), (Hsg y) as (Sy & Ey & Dy & _).
  rewrite Dx, Dy. intros [H|[H1 H2]]; [now left | right]. split; [exact H1|].
  unfold startThenDuration, duration in *. rewrite Sx, Sy, Ex, Ey. exact H2.
Qed.

(** * The properties of the specification *)

(** [observe X H]: evaluate the closed term [X] and record its value. *)
Ltac observe X H :=
  let v := eval vm_compute in X in
  assert (H : X = v) by (vm_compute; reflexivity).

(** C3.  For every block list the quadratic scheduler [intervalScheduling]
    and the priority-queue scheduler [intervalScheduling2] return the same
    number of columns. *)
Theorem schedulers_same_column_count (st : store) (blocks : list nat) :
  columnsOf (intervalScheduling st blocks)
  = columnsOf (intervalScheduling2 st blocks).
Proof.
  destruct (sortBy (byStart st) blocks) as [|b0 rest] eqn:Hs.
  - unfold intervalScheduling, intervalScheduling2. now rewrite Hs.
  - destruct (intervalScheduling_run _ _ _ _ Hs) as (s1 & r1 & n1 & Hrun1 & ->).
    destruct (intervalScheduling2_run _ _ _ _ Hs) as (s2 & r2 & n2 & Hrun2 & ->).
    unfold columnsOf; simpl. f_equal.
    pose proof (sortByStart_sorted st blocks) as Hsort. rewrite Hs in Hsort.
    inversion Hsort; subst.
    eapply roomRun_lockstep; eauto using sameTimes_refl.
Qed.

(** C7.  In the quadratic scheduler, for each block taken in sorted order:
    if the latest block of some occupied column ends at or before the start
    of the block, the column reused is one of those, and of the least depth
    among them (not merely the first such column met); a new column is
    opened exactly when every occupied column is still running at the
    start of the block. *)
Theorem greedy_reuses_lowest_free_column
    (st : store) (blocks : list nat) (b0 : nat) (pre : list nat)
    (block : nat) (post : list nat)
    (Hsorted : sortBy (byStart st) blocks = b0 :: pre ++ block :: post) :
  let s := fold_left greedyStep pre (mkGreedy st [b0] 0) in
  let s' := greedyStep s block in
  let ended r := endMin (g_store s r) <= startMin (g_store s block) in
  storeAfter (intervalScheduling st blocks)
    = g_store (fold_left greedyStep post s') /\
  ((exists r, In r (g_occupied s) /\ ended r) ->
     exists k r,
       nth_error (g_occupied s) k = Some r /\ ended r /\
       (forall r', In r' (g_occupied s) -> ended r' ->
                   depth (g_store s r) <= depth (g_store s r')) /\
       depth (g_store s' block) = depth (g_store s r) /\
       g_occupied s' = replaceAt k block (g_occupied s) /\
       g_numRooms s' = g_numRooms s) /\
  ((forall r, In r (g_occupied s) -> ~ ended r) <->
     g_numRooms s' = g_numRooms s + 1 /\
     depth (g_store s' block) = g_numRooms s + 1 /\
     g_occupied s' = g_occupied s ++ [block]).
Proof.
  intros s s' ended. split; [|split].
  - unfold intervalScheduling, storeAfter. rewrite Hsorted. simpl.
    rewrite fold_left_app. reflexivity.
  - intros (r0 & Hr0 & Hend0). unfold s', greedyStep.
    pose proof (pickRoom_spec (g_store s) block (g_occupied s)) as Hpick.
    destruct (pickRoom (g_store s) block (g_occupied s) 0 None) as [[k m]|];
      simpl in Hpick.
    + destruct Hpick as (r & Hk & Hfree & Hd & Hmin).
      exists k, r. simpl. rewrite (nth_error_nth _ _ block Hk), upd_same.
      subst m. repeat split; auto.
    + exfalso. specialize (Hpick r0 Hr0). unfold ended in Hend0. lia.
  - unfold s', greedyStep.
    pose proof (pickRoom_spec (g_store s) block (g_occupied s)) as Hpick.
    destruct (pickRoom (g_store s) block (g_occupied s) 0 None) as [[k m]|];
      simpl in *.
    + destruct Hpick as (r & Hk & Hfree & Hd & Hmin). split.
      * intros Hall. exfalso. apply (Hall r); [|exact Hfree].
        eapply nth_error_In; eauto.
      * intros (H & _). lia.
    + split.
      * intros _. rewrite upd_same. auto.
      * intros _ r Hr. specialize (Hpick r Hr). unfold ended. lia.
Qed.

Lemma greedy_reuses_lowest_free_column_witness :
  sortBy (byStart threeBlocks) [2; 0; 1]%nat = 0%nat :: [1%nat] ++ 2%nat :: [] /\
  storeAfter (intervalScheduling threeBlocks [2; 0; 1]%nat)
  = g_store (fold_left greedyStep []
       (greedyStep (fold_left greedyStep [1%nat] (mkGreedy threeBlocks [0%nat] 0))
                   2%nat)).
Proof.
  split; [reflexivity|].
  exact (proj1 (greedy_reuses_lowest_free_column
                  threeBlocks [2; 0; 1]%nat 0%nat [1%nat] 2%nat [] eq_refl)).
Defined.

(** C2 (as amended).  On blocks that satisfy [startMin < endMin] and enter
    with [depth = 0], both schedulers leave no two conflicting blocks at the
    same depth, and the number of distinct depth values in use equals the
    greatest number of blocks running at one instant, which is the column
    count returned. *)
Theorem schedulers_proper_and_minimal
    (st : store) (blocks : list nat)
    (Hnodup : NoDup blocks)
    (Hwf : wellFormed st blocks)
    (Hfresh : freshDepth st blocks) :
  properAndMinimal st blocks (intervalScheduling st blocks) /\
  properAndMinimal st blocks (intervalScheduling2 st blocks).
Proof.
  split.
  - pose proof (intervalScheduling_Scheduled st blocks Hnodup Hwf Hfresh) as H.
    split; [apply H | split; [eapply Scheduled_distinct; exact H|]].
    split; apply H.
  - pose proof (intervalScheduling2_Scheduled st blocks Hnodup Hwf Hfresh) as H.
    split; [apply H | split; [eapply Scheduled_distinct; exact H|]].
    split; apply H.
Qed.

Lemma schedulers_proper_and_minimal_witness :
  NoDup [2; 0; 1]%nat /\ wellFormed threeBlocks [2; 0; 1]%nat /\
  freshDepth threeBlocks [2; 0; 1]%nat /\
  properAndMinimal threeBlocks [2; 0; 1]%nat
    (intervalScheduling threeBlocks [2; 0; 1]%nat) /\
  properAndMinimal threeBlocks [2; 0; 1]%nat
    (intervalScheduling2 threeBlocks [2; 0; 1]%nat).
Proof.
  assert (Hnd : NoDup [2; 0; 1]%nat).
  { repeat constructor; simpl; intuition discriminate. }
  assert (Hwf : wellFormed threeBlocks [2; 0; 1]%nat).
  { intros b [<-|[<-|[<-|[]]]]; vm_compute; reflexivity. }
  assert (Hfr : freshDepth threeBlocks [2; 0; 1]%nat).
  { intros b [<-|[<-|[<-|[]]]]; reflexivity. }
  split; [exact Hnd | split; [exact Hwf | split; [exact Hfr|]]].
  exact (schedulers_proper_and_minimal threeBlocks _ Hnd Hwf Hfr).
Defined.

(** C2 as stated fails: a block that sorts first and enters with depth 1
    shares that depth with the conflicting block each scheduler places in
    the column it opens. *)
Lemma schedulers_stale_depth_counterexample :
  NoDup [0; 1]%nat /\ wellFormed staleFirst [0; 1]%nat /\
  ~ properAndMinimal staleFirst [0; 1]%nat
      (intervalScheduling staleFirst [0; 1]%nat) /\
  ~ properAndMinimal staleFirst [0; 1]%nat
      (intervalScheduling2 staleFirst [0; 1]%nat).
Proof.
  split; [repeat constructor; simpl; intuition discriminate|].
  split; [intros b [<-|[<-|[]]]; vm_compute; reflexivity|].
  split; intros [Hproper _];
    apply (Hproper 0%nat 1%nat); simpl; auto; reflexivity.
Qed.

(** C9.  For a non-empty block list neither scheduler writes the [depth]
    of the block that sorts first: it keeps the depth it entered with.
    When every block enters with depth 0 conflicting blocks end at distinct
    depths; without that precondition they need not. *)
Theorem first_sorted_block_keeps_depth
    (st : store) (blocks : list nat) (b0 : nat) (rest : list nat)
    (Hnodup : NoDup blocks)
    (Hsorted : sortBy (byStart st) blocks = b0 :: rest) :
  depth (storeAfter (intervalScheduling st blocks) b0) = depth (st b0) /\
  depth (storeAfter (intervalScheduling2 st blocks) b0) = depth (st b0) /\
  (wellFormed st blocks -> freshDepth st blocks ->
     properDepths (storeAfter (intervalScheduling st blocks)) blocks /\
     properDepths (storeAfter (intervalScheduling2 st blocks)) blocks) /\
  (exists st1 blocks1,
     NoDup blocks1 /\ wellFormed st1 blocks1 /\
     ~ properDepths (storeAfter (intervalScheduling st1 blocks1)) blocks1 /\
     ~ properDepths (storeAfter (intervalScheduling2 st1 blocks1)) blocks1).
Proof.
  assert (Hb0 : ~ In b0 rest).
  { pose proof (sortBy_NoDup (byStart st) blocks Hnodup) as H.
    rewrite Hsorted in H. now inversion H. }
  split; [|split; [|split]].
  - destruct (intervalScheduling_run _ _ _ _ Hsorted)
      as (st' & reps & n & Hrun & ->).
    unfold storeAfter; simpl. now rewrite (roomRun_first _ _ _ _ _ _ Hb0 Hrun).
  - destruct (intervalScheduling2_run _ _ _ _ Hsorted)
      as (st' & reps & n & Hrun & ->).
    unfold storeAfter; simpl. now rewrite (roomRun_first _ _ _ _ _ _ Hb0 Hrun).
  - intros Hwf Hfresh. split.
    + apply (intervalScheduling_Scheduled st blocks Hnodup Hwf Hfresh).
    + apply (intervalScheduling2_Scheduled st blocks Hnodup Hwf Hfresh).
  - exists staleFirst, [0; 1]%nat.
    split; [repeat constructor; simpl; intuition discriminate|].
    split; [intros b [<-|[<-|[]]]; vm_compute; reflexivity|].
    split; intros Hproper;
      apply (Hproper 0%nat 1%nat); simpl; auto; reflexivity.
Qed.

Lemma first_sorted_block_keeps_depth_witness :
  NoDup [0; 1]%nat /\
  sortBy (byStart staleFirst) [0; 1]%nat = [0; 1]%nat /\
  depth (storeAfter (intervalScheduling staleFirst [0; 1]%nat) 0%nat) = 1 /\
  depth (storeAfter (intervalScheduling2 staleFirst [0; 1]%nat) 0%nat) = 1.
Proof.
  assert (Hnd : NoDup [0; 1]%nat).
  { repeat constructor; simpl; intuition discriminate. }
  split; [exact Hnd | split; [reflexivity|]].
  destruct (first_sorted_block_keeps_depth staleFirst [0; 1]%nat 0%nat [1%nat]
              Hnd eq_refl) as (H1 & H2 & _).
  split; [exact H1 | exact H2].
Defined.

(** C10 (as amended).  On a weekday of distinct blocks that needs two or
    more columns, whose blocks enter unvisited with non-negative depths and
    neighbour lists inside the weekday, the pass returns, and after
    [calculateMaxDepth] every block has [0 <= depth] and
    [pathDepth >= depth + 1].  The numbers then stored in [left] and
    [width] are the quotients [depth / pathDepth] and [1 / pathDepth] of
    numbers; as exact quotients they satisfy [0 <= depth / pathDepth < 1]
    and [depth / pathDepth + 1 / pathDepth = (depth + 1) / pathDepth <= 1].
    Nothing is said of the sum of the two numbers stored, which is
    rounded. *)
Theorem pathDepth_exceeds_depth
    (st : store) (blocks : list nat)
    (Hnodup : NoDup blocks)
    (Hclosed : closedIn blocks st)
    (Hunvisited : forall b, In b blocks -> visited (st b) = false)
    (Hdepth : forall b, In b blocks -> 0 <= depth (st b))
    (Hwide : 1 < columnsOf (scheduleOf st blocks)) :
  exists r st3,
    layoutDay st blocks = Some r /\
    calculateMaxDepth (storeAfter (scheduleOf st blocks))
                      (arrayAfter (scheduleOf st blocks))
    = Some (st3, d_blocks r) /\
    forall b, In b blocks ->
      0 <= depth (st3 b) /\
      depth (st3 b) + 1 <= pathDepth (st3 b) /\
      depth (d_store r b) = depth (st3 b) /\
      pathDepth (d_store r b) = pathDepth (st3 b) /\
      double (left (d_store r b))
      = PrimFloat.div (number (depth (st3 b))) (number (pathDepth (st3 b))) /\
      double (width (d_store r b))
      = PrimFloat.div PrimFloat.one (number (pathDepth (st3 b))) /\
      (0 <= Qofdiv (depth (st3 b)) (pathDepth (st3 b)))%Q /\
      (Qofdiv (depth (st3 b)) (pathDepth (st3 b)) < 1)%Q /\
      (Qofdiv (depth (st3 b)) (pathDepth (st3 b)) + Qofdiv 1 (pathDepth (st3 b))
       == Qofdiv (depth (st3 b) + 1) (pathDepth (st3 b)))%Q /\
      (Qofdiv (depth (st3 b) + 1) (pathDepth (st3 b)) <= 1)%Q.
Proof.
  destruct (layoutDay_returns st blocks Hnodup Hclosed) as [r Hrun].
  destruct (layoutDay_wide st blocks r Hnodup Hrun Hwide)
    as (st3 & Hcm & Hin & Hfinal).
  exists r, st3. split; [exact Hrun|]. split; [exact Hcm|].
  destruct (layoutDay_paths st blocks r st3 Hnodup Hclosed Hunvisited Hcm)
    as (Hd & Hgt & _).
  intros b Hb. specialize (Hgt b Hb).
  assert (Hpos : 0 <= depth (st3 b)).
  { rewrite Hd. unfold scheduleOf. apply intervalScheduling2_nonneg; [|exact Hb].
    intros x Hx. rewrite graphOf_depth by assumption. now apply Hdepth. }
  destruct (layoutDay_stored st blocks r Hnodup Hclosed Hunvisited Hdepth
              Hrun Hwide b Hb) as (Hl & Hw).
  assert (Ed : depth (d_store r b) = depth (st3 b))
    by (rewrite (Hfinal b Hb); reflexivity).
  assert (Ep : pathDepth (d_store r b) = pathDepth (st3 b))
    by (rewrite (Hfinal b Hb); reflexivity).
  rewrite Ed, Ep in Hl. rewrite Ep in Hw.
  destruct (heuristic_bounds (depth (st3 b)) (pathDepth (st3 b)) Hpos Hgt)
    as (B1 & B2 & B3).
  pose proof (heuristic_sum (depth (st3 b)) (pathDepth (st3 b)) ltac:(lia))
    as Hsum.
  repeat split; auto.
Qed.

Lemma pathDepth_exceeds_depth_witness :
  NoDup [0; 1]%nat /\ closedIn [0; 1]%nat twoOverlapping /\
  (forall b, In b [0; 1]%nat -> visited (twoOverlapping b) = false) /\
  (forall b, In b [0; 1]%nat -> 0 <= depth (twoOverlapping b)) /\
  1 < columnsOf (scheduleOf twoOverlapping [0; 1]%nat) /\
  exists r, layoutDay twoOverlapping [0; 1]%nat = Some r.
Proof.
  assert (Hnd : NoDup [0; 1]%nat).
  { repeat constructor; simpl; intuition discriminate. }
  assert (Hcl : closedIn [0; 1]%nat twoOverlapping).
  { intros x w [<-|[<-|[]]] Hw; destruct Hw. }
  assert (Hv : forall b, In b [0; 1]%nat -> visited (twoOverlapping b) = false).
  { intros b [<-|[<-|[]]]; reflexivity. }
  assert (Hd : forall b, In b [0; 1]%nat -> 0 <= depth (twoOverlapping b)).
  { intros b [<-|[<-|[]]]; vm_compute; discriminate. }
  assert (Hw : 1 < columnsOf (scheduleOf twoOverlapping [0; 1]%nat))
    by reflexivity.
  repeat (split; [assumption|]).
  destruct (pathDepth_exceeds_depth twoOverlapping [0; 1]%nat Hnd Hcl Hv Hd Hw)
    as (r & _ & Hrun & _).
  exists r. exact Hrun.
Defined.

(** C10 as stated fails in three ways.  On five blocks that run together
    the block in column 2 has path depth 5, and the sum of the numbers
    stored in [left] and [width], 2/5 and 1/5, exceeds the number 3/5: the
    sum is not [(depth + 1) / pathDepth] without a tolerance.  On two
    overlapping blocks that enter with [visited] set the first traversal
    visits nothing, the path depths stay 0 and the pass divides by zero.
    On two overlapping blocks of which the earlier enters with depth -1
    that depth is kept, and the number stored in [left] is negative. *)
Lemma stored_sum_counterexample :
  (1 < columnsOf (scheduleOf fiveTogether [0; 1; 2; 3; 4]%nat) /\
   exists r,
     layoutDay fiveTogether [0; 1; 2; 3; 4]%nat = Some r /\
     depth (d_store r 2%nat) = 2 /\ pathDepth (d_store r 2%nat) = 5 /\
     PrimFloat.eqb
       (PrimFloat.add (double (left (d_store r 2%nat)))
                      (double (width (d_store r 2%nat))))
       (PrimFloat.div (number 3) (number 5)) = false /\
     PrimFloat.ltb
       (PrimFloat.div (number 3) (number 5))
       (PrimFloat.add (double (left (d_store r 2%nat)))
                      (double (width (d_store r 2%nat)))) = true) /\
  (1 < columnsOf (scheduleOf twoVisited [0; 1]%nat) /\
   exists r,
     layoutDay twoVisited [0; 1]%nat = Some r /\
     depth (d_store r 1%nat) = 1 /\ pathDepth (d_store r 1%nat) = 0 /\
     PrimFloat.div (number 1) (number 0) = PrimFloat.infinity) /\
  (1 < columnsOf (scheduleOf negativeFirst [0; 1]%nat) /\
   exists r,
     layoutDay negativeFirst [0; 1]%nat = Some r /\
     depth (d_store r 0%nat) = -1 /\ pathDepth (d_store r 0%nat) = 2 /\
     PrimFloat.ltb (double (left (d_store r 0%nat))) PrimFloat.zero = true).
Proof.
  split; [|split].
  - split; [reflexivity|].
    observe (option_map
               (fun r => (depth (d_store r 2%nat), pathDepth (d_store r 2%nat),
                          left (d_store r 2%nat), width (d_store r 2%nat)))
               (layoutDay fiveTogether [0; 1; 2; 3; 4]%nat)) Hobs.
    destruct (layoutDay fiveTogether [0; 1; 2; 3; 4]%nat) as [r|];
      [|discriminate].
    cbn [option_map] in Hobs. injection Hobs as D P L W.
    exists r. rewrite D, P, L, W. repeat split; reflexivity.
  - split; [reflexivity|].
    observe (option_map
               (fun r => (depth (d_store r 1%nat), pathDepth (d_store r 1%nat)))
               (layoutDay twoVisited [0; 1]%nat)) Hobs.
    destruct (layoutDay twoVisited [0; 1]%nat) as [r|]; [|discriminate].
    cbn [option_map] in Hobs. injection Hobs as D P.
    exists r. rewrite D, P. repeat split; reflexivity.
  - split; [reflexivity|].
    observe (option_map
               (fun r => (depth (d_store r 0%nat), pathDepth (d_store r 0%nat),
                          left (d_store r 0%nat)))
               (layoutDay negativeFirst [0; 1]%nat)) Hobs.
    destruct (layoutDay negativeFirst [0; 1]%nat) as [r|]; [|discriminate].
    cbn [option_map] in Hobs. injection Hobs as D P L.
    exists r. rewrite D, P, L. repeat split; reflexivity.
Qed.

(** C8 (as amended).  On empty input both schedulers return zero columns
    and the layout pass changes nothing.  On a weekday for which the
    scheduler returns at most one column every block receives [left = 0]
    and [width = 1], and its depth is the depth the first block of the
    sorted array entered with (0 on fresh blocks).  A single block, and any
    set of well-formed blocks that do not overlap pairwise, is such a
    weekday. *)
Theorem narrow_weekday_layout (st : store) :
  (intervalScheduling st [] = (st, [], 0) /\
   intervalScheduling2 st [] = (st, [], 0) /\
   layoutDay st [] = Some (mkDay st [] [])) /\
  (forall blocks b0 rest,
     NoDup blocks -> sortBy (byStart st) blocks = b0 :: rest ->
     columnsOf (scheduleOf st blocks) <= 1 ->
     exists r, layoutDay st blocks = Some r /\
       forall b, In b blocks ->
         left (d_store r b) = 0%Q /\ width (d_store r b) = 1%Q /\
         depth (d_store r b) = depth (st b0)) /\
  (forall blocks,
     blocks <> [] -> NoDup blocks -> wellFormed st blocks ->
     conflictFree st blocks ->
     columnsOf (scheduleOf st blocks) = 1).
Proof.
  split; [repeat split|]. split.
  - intros blocks b0 rest Hnd Hs Hnarrow.
    destruct (layoutDay_narrow_returns st blocks Hnarrow) as [r Hrun].
    exists r. split; [exact Hrun|].
    destruct (layoutDay_narrow st blocks r Hrun Hnarrow) as (_ & _ & Hfinal).
    intros b Hb. rewrite Hfinal.
    apply inb_In in Hb as Hb'. rewrite Hb'. simpl.
    repeat split. now apply (scheduleOf_narrow st blocks b0 rest).
  - intros blocks. apply scheduleOf_conflictFree.
Qed.

Lemma narrow_weekday_layout_witness :
  NoDup [0; 1]%nat /\
  sortBy (byStart twoTouching) [0; 1]%nat = [0; 1]%nat /\
  columnsOf (scheduleOf twoTouching [0; 1]%nat) <= 1 /\
  exists r, layoutDay twoTouching [0; 1]%nat = Some r /\
    forall b, In b [0; 1]%nat ->
      left (d_store r b) = 0%Q /\ width (d_store r b) = 1%Q /\
      depth (d_store r b) = depth (twoTouching 0%nat).
Proof.
  assert (Hnd : NoDup [0; 1]%nat).
  { repeat constructor; simpl; intuition discriminate. }
  assert (Hn : columnsOf (scheduleOf twoTouching [0; 1]%nat) <= 1)
    by (vm_compute; discriminate).
  split; [exact Hnd | split; [reflexivity | split; [exact Hn|]]].
  exact (proj1 (proj2 (narrow_weekday_layout twoTouching))
               [0; 1]%nat 0%nat [1%nat] Hnd eq_refl Hn).
Defined.

(** C8 as stated fails in its last clause: a single block that enters at
    depth 3 needs one column, receives [left = 0] and [width = 1], and
    leaves at depth 3, not 0. *)
Lemma narrow_weekday_depth_counterexample :
  exists r,
    layoutDay staleSingle [0%nat] = Some r /\
    columnsOf (scheduleOf staleSingle [0%nat]) = 1 /\
    left (d_store r 0%nat) = 0%Q /\ width (d_store r 0%nat) = 1%Q /\
    depth (d_store r 0%nat) = 3 /\ depth (d_store r 0%nat) <> 0.
Proof.
  eexists. split; [reflexivity|]. repeat split. discriminate.
Qed.

(** C4 (as amended).  [calculateMaxDepth] returns on every weekday whose
    neighbour lists stay inside the weekday.  Afterwards a block that the
    fixed-block detection reached is marked [isFixed] exactly when it sits
    at depth 0 or at least one of its neighbours exactly one level lower
    with the same path depth is fixed; a block the detection did not reach
    keeps the flag it entered with; and the detection reaches every block
    all of whose neighbours have strictly lower depth, those being its
    seeds. *)
Theorem fixed_detection_rule
    (st : store) (blocks : list nat)
    (Hclosed : closedIn blocks st) :
  exists st' blocks',
    calculateMaxDepth st blocks = Some (st', blocks') /\
    forall x, In x blocks ->
      (visited (st' x) = true ->
         (isFixed (st' x) = true <-> fixedRule st' x)) /\
      (visited (st' x) = false -> isFixed (st' x) = isFixed (st x)) /\
      (isLocalTop st' x = true -> visited (st' x) = true).
Proof.
  destruct (calculateMaxDepth_returns st blocks Hclosed) as (st' & Hcm).
  exists st', (sortBy (byDepthDesc st) blocks). split; [exact Hcm|].
  now apply (calculateMaxDepth_fixed st blocks st' _ Hclosed Hcm).
Qed.

Lemma fixed_detection_rule_witness :
  closedIn [0; 1; 2; 3; 4]%nat
           (storeAfter (scheduleOf fiveBlocks [0; 1; 2; 3; 4]%nat)) /\
  exists st' blocks',
    calculateMaxDepth (storeAfter (scheduleOf fiveBlocks [0; 1; 2; 3; 4]%nat))
                      [0; 1; 2; 3; 4]%nat = Some (st', blocks').
Proof.
  assert (Hcl : closedIn [0; 1; 2; 3; 4]%nat
                  (storeAfter (scheduleOf fiveBlocks [0; 1; 2; 3; 4]%nat))).
  { intros x w [<-|[<-|[<-|[<-|[<-|[]]]]]] Hw; vm_compute in Hw; vm_compute;
      intuition. }
  split; [exact Hcl|].
  destruct (fixed_detection_rule _ _ Hcl) as (st' & blocks' & Hcm & _).
  exists st', blocks'. exact Hcm.
Defined.

(** C4 as stated fails in both directions on [fiveBlocks].  Block 2
    (depth 2) is marked fixed although its neighbour 4, one level lower and
    of the same path depth, is not fixed; block 4 (depth 1) has no neighbour
    one level lower, so "every such neighbour is fixed" holds of it, yet it
    is not marked fixed. *)
Lemma fixed_every_counterexample :
  exists st' blocks',
    calculateMaxDepth (storeAfter (scheduleOf fiveBlocks [0; 1; 2; 3; 4]%nat))
                      (arrayAfter (scheduleOf fiveBlocks [0; 1; 2; 3; 4]%nat))
    = Some (st', blocks') /\
    visited (st' 2%nat) = true /\ visited (st' 4%nat) = true /\
    isFixed (st' 2%nat) = true /\ ~ fixedRuleEvery st' 2%nat /\
    isFixed (st' 4%nat) = false /\ fixedRuleEvery st' 4%nat.
Proof.
  observe (option_map (fun p => snapshot [2; 4]%nat (fst p))
             (calculateMaxDepth
                (storeAfter (scheduleOf fiveBlocks [0; 1; 2; 3; 4]%nat))
                (arrayAfter (scheduleOf fiveBlocks [0; 1; 2; 3; 4]%nat))))
          Hobs.
  destruct (calculateMaxDepth _ _) as [[st' blocks']|]; [|discriminate].
  simpl in Hobs. injection Hobs as E2 E4.
  exists st', blocks'. split; [reflexivity|]. rewrite ?E2, ?E4.
  split; [reflexivity|]. split; [reflexivity|]. split; [reflexivity|].
  split; [|split; [reflexivity|]].
  - intros [H|H]; [rewrite E2 in H; discriminate|].
    specialize (H 4%nat). rewrite E2, E4 in H.
    assert (false = true) by (apply H; simpl; auto). discriminate.
  - right. rewrite E4. intros u Hu Hs. simpl in Hu.
    destruct Hu as [<-|[]]. rewrite E2 in Hs. discriminate.
Qed.

(** C6 (as amended).  A layout pass neither clears [neighbors] nor resets
    [visited] when it begins.  On a weekday whose neighbour lists stay
    inside the weekday it returns and leaves each block with the neighbour
    list it entered with followed by the blocks of the array that conflict
    with it, each once: exactly the conflicts on fresh blocks, every
    conflict once more on each repeated pass.  When the scheduler needs at
    most one column the [visited] flags leave as they entered; otherwise the
    blocks left with [visited = true] are the blocks of the components
    handed to the width optimiser. *)
Theorem layout_pass_appends_neighbors
    (st : store) (blocks : list nat)
    (Hnodup : NoDup blocks)
    (Hclosed : closedIn blocks st) :
  exists r,
    layoutDay st blocks = Some r /\
    (forall b, neighbors (d_store r b)
               = neighbors (st b) ++ newNeighbors st blocks b) /\
    (forall b, NoDup (newNeighbors st blocks b)) /\
    (forall b c, In c (newNeighbors st blocks b) <->
                 In b blocks /\ In c blocks /\ c <> b /\
                 conflict (st b) (st c) = true) /\
    (columnsOf (scheduleOf st blocks) <= 1 ->
     forall b, visited (d_store r b) = visited (st b)) /\
    (1 < columnsOf (scheduleOf st blocks) ->
     forall b, In b blocks ->
       (visited (d_store r b) = true <->
        exists c, In c (d_components r) /\ In b c)).
Proof.
  destruct (layoutDay_returns st blocks Hnodup Hclosed) as [r Hrun].
  exists r. split; [exact Hrun|].
  split; [now apply layoutDay_neighbors|].
  split; [intros b; now apply newNeighbors_NoDup|].
  split; [intros b c; apply newNeighbors_iff|].
  now apply layoutDay_visited.
Qed.

Lemma layout_pass_appends_neighbors_witness :
  NoDup [0; 1]%nat /\ closedIn [0; 1]%nat twoOverlapping /\
  exists r, layoutDay twoOverlapping [0; 1]%nat = Some r /\
    forall b, neighbors (d_store r b)
              = neighbors (twoOverlapping b)
                ++ newNeighbors twoOverlapping [0; 1]%nat b.
Proof.
  assert (Hnd : NoDup [0; 1]%nat).
  { repeat constructor; simpl; intuition discriminate. }
  assert (Hcl : closedIn [0; 1]%nat twoOverlapping).
  { intros x w [<-|[<-|[]]] Hw; destruct Hw. }
  split; [exact Hnd | split; [exact Hcl|]].
  destruct (layout_pass_appends_neighbors twoOverlapping [0; 1]%nat Hnd Hcl)
    as (r & Hrun & Hnb & _).
  exists r. split; [exact Hrun | exact Hnb].
Defined.

(** C6 as stated fails.  A second pass over the two overlapping blocks
    leaves block 0 with its neighbour listed twice; and a pass over
    [fiveBlocks] leaves block 4, which it hands to the width optimiser,
    with [visited = true]. *)
Lemma layout_pass_stale_counterexample :
  (exists r1 r2,
     layoutDay twoOverlapping [0; 1]%nat = Some r1 /\
     layoutDay (d_store r1) (d_blocks r1) = Some r2 /\
     neighbors (d_store r1 0%nat) = [1%nat] /\
     neighbors (d_store r2 0%nat) = [1%nat; 1%nat] /\
     ~ NoDup (neighbors (d_store r2 0%nat))) /\
  (exists r,
     layoutDay fiveBlocks [0; 1; 2; 3; 4]%nat = Some r /\
     d_components r = [[4%nat]] /\
     visited (d_store r 4%nat) = true).
Proof.
  split.
  - observe (match layoutDay twoOverlapping [0; 1]%nat with
             | Some r1 =>
                 match layoutDay (d_store r1) (d_blocks r1) with
                 | Some r2 => Some (neighbors (d_store r1 0%nat),
                                    neighbors (d_store r2 0%nat))
                 | None => None
                 end
             | None => None
             end) Hobs.
    destruct (layoutDay twoOverlapping [0; 1]%nat) as [r1|]; [|discriminate].
    destruct (layoutDay (d_store r1) (d_blocks r1)) as [r2|] eqn:L2;
      [|discriminate].
    injection Hobs as E1 E2. exists r1, r2. rewrite E1, E2.
    split; [reflexivity|]. split; [exact L2|].
    do 2 (split; [reflexivity|]).
    intros H. inversion H as [|? ? Hn _]. apply Hn. now left.
  - observe (option_map (fun r => (d_components r, visited (d_store r 4%nat)))
                        (layoutDay fiveBlocks [0; 1; 2; 3; 4]%nat)) Hobs.
    destruct (layoutDay fiveBlocks [0; 1; 2; 3; 4]%nat) as [r|]; [|discriminate].
    simpl in Hobs. injection Hobs as E1 E2. exists r. auto.
Qed.

(** C5 (as amended).  A first pass over a weekday whose blocks enter unvisited,
    with neighbour lists inside the weekday, followed by a second pass over
    the array and the blocks as the first one left them, [visited] reset in
    between: when the second pass's sort by start and duration arranges the
    array in the order the first pass's sort did, the second pass returns
    and leaves every block with the depth, left and width of the first. *)
Theorem repeated_pass_same_layout
    (st : store) (blocks : list nat) (r1 : dayResult)
    (Hnd : NoDup blocks)
    (Hcl : closedIn blocks st)
    (Hunv : forall b, In b blocks -> visited (st b) = false)
    (Hrun : layoutDay st blocks = Some r1)
    (Horder : sortBy (byStart (d_store r1)) (d_blocks r1)
              = sortBy (byStart st) blocks) :
  exists r2,
    layoutDay (resetVisited (d_blocks r1) (d_store r1)) (d_blocks r1) = Some r2 /\
    forall b, In b blocks ->
      depth (d_store r2 b) = depth (d_store r1 b) /\
      left (d_store r2 b) = left (d_store r1 b) /\
      width (d_store r2 b) = width (d_store r1 b).
Proof.
  pose proof (layoutDay_blocks _ _ _ Hrun) as Hperm.
  set (blocks' := d_blocks r1) in *.
  set (st' := resetVisited blocks' (d_store r1)).
  assert (Hnd' : NoDup blocks').
  { eapply Permutation_NoDup; [symmetry; exact Hperm | exact Hnd]. }
  assert (Hmem : forall b, In b blocks' <-> In b blocks).
  { intros b. split; apply Permutation_in; [|symmetry]; exact Hperm. }
  assert (Hsg : sameGraph (d_store r1) st')
    by apply clearVisited_sameGraph.
  assert (Ht1 : sameTimes st (d_store r1))
    by now apply (layoutDay_sameTimes st blocks).
  assert (Ht : sameTimes st st').
  { intros i. destruct (Ht1 i) as [A B], (Hsg i) as (C & D & _).
    split; congruence. }
  assert (Hnb : forall b, neighbors (st' b)
                          = neighbors (st b) ++ newNeighbors st blocks b).
  { intros b. destruct (Hsg b) as (_ & _ & _ & -> & _).
    now apply layoutDay_neighbors. }
  assert (Hcl' : closedIn blocks' st').
  { intros x w Hx Hw. apply Hmem in Hx. apply Hmem. rewrite Hnb in Hw.
    apply in_app_or in Hw as [Hw|Hw]; [eauto | eapply newNeighbors_incl; eauto]. }
  assert (Hrel : exists r2,
            layoutDay st' blocks' = Some r2 /\
            forall b, In b blocks ->
              depth (d_store r2 b) = depth (d_store r1 b) /\
              left (d_store r2 b) = left (d_store r1 b) /\
              width (d_store r2 b) = width (d_store r1 b)).
  { apply (layoutDay_sim st st' blocks blocks' r1); auto.
    - intros b Hb. unfold st', resetVisited.
      apply clearVisited_visited. now apply Hmem.
    - intros b Hb. exists (newNeighbors st' blocks' b).
      split; [now rewrite Hnb|].
      intros x Hx. apply in_or_app. right.
      apply newNeighbors_iff in Hx as (Hb' & Hx' & Hne & Hc).
      apply newNeighbors_iff. rewrite (conflict_sameTimes _ _ _ _ Ht) in Hc.
      repeat split; auto; now apply Hmem.
    - rewrite <- Horder. apply sortBy_ext. intros x y. symmetry.
      now apply byStart_sameTimes.
    - intros b0 rest Hs. destruct (Hsg b0) as (_ & _ & -> & _).
      apply (layoutDay_first st blocks r1 b0 rest Hnd Hrun Hs). }
  exact Hrel.
Qed.

Lemma repeated_pass_same_layout_witness :
  NoDup [0; 1; 2; 3; 4]%nat /\
  exists r1 r2,
    layoutDay fiveBlocks [0; 1; 2; 3; 4]%nat = Some r1 /\
    sortBy (byStart (d_store r1)) (d_blocks r1)
    = sortBy (byStart fiveBlocks) [0; 1; 2; 3; 4]%nat /\
    layoutDay (resetVisited (d_blocks r1) (d_store r1)) (d_blocks r1) = Some r2 /\
    forall b, In b [0; 1; 2; 3; 4]%nat ->
      depth (d_store r2 b) = depth (d_store r1 b) /\
      left (d_store r2 b) = left (d_store r1 b) /\
      width (d_store r2 b) = width (d_store r1 b).
Proof.
  assert (Hnd : NoDup [0; 1; 2; 3; 4]%nat).
  { repeat constructor; simpl; intuition discriminate. }
  assert (Hcl : closedIn [0; 1; 2; 3; 4]%nat fiveBlocks).
  { intros x w [<-|[<-|[<-|[<-|[<-|[]]]]]] Hw; destruct Hw. }
  assert (Hunv : forall b, In b [0; 1; 2; 3; 4]%nat ->
                           visited (fiveBlocks b) = false).
  { intros b [<-|[<-|[<-|[<-|[<-|[]]]]]]; reflexivity. }
  split; [exact Hnd|].
  observe (option_map (fun r => sortBy (byStart (d_store r)) (d_blocks r))
                      (layoutDay fiveBlocks [0; 1; 2; 3; 4]%nat)) Hobs.
  destruct (layoutDay fiveBlocks [0; 1; 2; 3; 4]%nat) as [r1|] eqn:L1;
    [|discriminate].
  cbn [option_map] in Hobs. injection Hobs as E.
  assert (Horder : sortBy (byStart (d_store r1)) (d_blocks r1)
                   = sortBy (byStart fiveBlocks) [0; 1; 2; 3; 4]%nat)
    by (rewrite E; vm_compute; reflexivity).
  destruct (repeated_pass_same_layout fiveBlocks [0; 1; 2; 3; 4]%nat r1
              Hnd Hcl Hunv L1 Horder) as (r2 & L2 & Hsame).
  exists r1, r2. auto.
Defined.

(** C5 as stated fails.  On two blocks over the same interval the first
    pass assigns depths 0 and 1 and sorts the array by descending depth; a
    second pass, with [visited] reset, finds the block of depth 1 first in
    its stable sort, never rewrites that depth, and opens column 1 for the
    other block as well. *)
Lemma repeated_pass_counterexample :
  exists r1 r2,
    layoutDay twoTwins [0; 1]%nat = Some r1 /\
    layoutDay (resetVisited (d_blocks r1) (d_store r1)) (d_blocks r1)
    = Some r2 /\
    depth (d_store r1 0%nat) = 0 /\ depth (d_store r2 0%nat) = 1 /\
    (left (d_store r1 0%nat) == 0)%Q /\
    (left (d_store r2 0%nat) == 1 # 2)%Q /\
    ~ (left (d_store r2 0%nat) == left (d_store r1 0%nat))%Q.
Proof.
  observe (match layoutDay twoTwins [0; 1]%nat with
           | Some r1 =>
               match layoutDay (resetVisited (d_blocks r1) (d_store r1))
                               (d_blocks r1) with
               | Some r2 => Some (snapshot [0%nat] (d_store r1),
                                  snapshot [0%nat] (d_store r2))
               | None => None
               end
           | None => None
           end) Hobs.
  destruct (layoutDay twoTwins [0; 1]%nat) as [r1|]; [|discriminate].
  destruct (layoutDay _ (d_blocks r1)) as [r2|] eqn:L2; [|discriminate].
  simpl in Hobs. injection Hobs as E1 E2. exists r1, r2. rewrite E1, E2. simpl.
  split; [reflexivity|]. split; [exact L2|].
  do 2 (split; [reflexivity|]).
  do 2 (split; [unfold Qeq; reflexivity|]).
  intros H. unfold Qeq in H. simpl in H. discriminate.
Qed.

(** C1 (as amended).  On a weekday of distinct blocks with [startMin < endMin]
    and every layout field at its default, [computeBlockPositions] returns,
    and in the layout it writes from [depth] and [pathDepth] any two blocks
    whose intervals overlap sit at distinct depths with
    [0 <= depth < pathDepth]; the numbers stored in [left] and [width] are
    the quotients [depth / pathDepth] and [1 / pathDepth] of numbers, and
    as exact quotients the ranges of the two blocks, from
    [depth / pathDepth] to [(depth + 1) / pathDepth], do not overlap.
    Nothing is said of the sums [left + width] of the numbers stored,
    which are rounded, nor of a layout the width optimiser leaves. *)
Theorem conflicting_blocks_apart
    (st : store) (blocks : list nat)
    (Hnd : NoDup blocks)
    (Hwf : wellFormed st blocks)
    (Hfresh : freshBlocks st blocks) :
  exists r,
    layoutDay st blocks = Some r /\
    forall a b, In a blocks -> In b blocks -> a <> b ->
      conflict (st a) (st b) = true ->
      depth (d_store r a) <> depth (d_store r b) /\
      0 <= depth (d_store r a) < pathDepth (d_store r a) /\
      0 <= depth (d_store r b) < pathDepth (d_store r b) /\
      double (left (d_store r a))
      = PrimFloat.div (number (depth (d_store r a)))
                      (number (pathDepth (d_store r a))) /\
      double (width (d_store r a))
      = PrimFloat.div PrimFloat.one (number (pathDepth (d_store r a))) /\
      exactlyApart (d_store r a) (d_store r b).
Proof.
  pose proof (freshBlocks_closedIn _ _ Hfresh) as Hcl.
  destruct (layoutDay_returns st blocks Hnd Hcl) as [r Hrun].
  exists r. split; [exact Hrun|].
  intros a b Ha Hb Hab Hc.
  destruct (layoutDay_apart st blocks r Hnd Hwf Hfresh Hrun a b Ha Hb Hab Hc)
    as (Hwide & Hne & Hra & Hrb & Hapart).
  destruct (layoutDay_stored st blocks r Hnd Hcl
              ltac:(intros x Hx; now rewrite (Hfresh x Hx))
              ltac:(intros x Hx; rewrite (Hfresh x Hx); simpl; lia)
              Hrun Hwide a Ha) as (Hl & Hw).
  repeat split; auto; lia.
Qed.

Lemma conflicting_blocks_apart_witness :
  NoDup [0; 1; 2; 3; 4]%nat /\
  wellFormed fiveTogether [0; 1; 2; 3; 4]%nat /\
  freshBlocks fiveTogether [0; 1; 2; 3; 4]%nat /\
  exists r,
    layoutDay fiveTogether [0; 1; 2; 3; 4]%nat = Some r /\
    exactlyApart (d_store r 2%nat) (d_store r 3%nat).
Proof.
  assert (Hnd : NoDup [0; 1; 2; 3; 4]%nat).
  { repeat constructor; simpl; intuition discriminate. }
  assert (Hwf : wellFormed fiveTogether [0; 1; 2; 3; 4]%nat).
  { intros b [<-|[<-|[<-|[<-|[<-|[]]]]]]; reflexivity. }
  assert (Hfresh : freshBlocks fiveTogether [0; 1; 2; 3; 4]%nat).
  { intros b [<-|[<-|[<-|[<-|[<-|[]]]]]]; reflexivity. }
  split; [exact Hnd | split; [exact Hwf | split; [exact Hfresh|]]].
  destruct (conflicting_blocks_apart fiveTogether [0; 1; 2; 3; 4]%nat
              Hnd Hwf Hfresh) as (r & Hrun & Hall).
  exists r. split; [exact Hrun|].
  apply (Hall 2%nat 3%nat);
    [simpl; tauto | simpl; tauto | discriminate | reflexivity].
Defined.

(** C1 as stated fails for the layout [Graph.ts] writes.  Five blocks that
    run together take the columns 0 to 4 and path depth 5.  For the block
    in column 2 the numbers stored are 2/5 and 1/5, whose sum, rounded, is
    0.6000000000000001; the block in column 3 begins at the number 3/5,
    which is smaller.  The two blocks conflict and their ranges
    [[left, left + width)] overlap.  All five blocks are fixed, so no
    component is submitted to the width optimiser and the layout is
    final. *)
Lemma stored_ranges_overlap_counterexample :
  NoDup [0; 1; 2; 3; 4]%nat /\
  wellFormed fiveTogether [0; 1; 2; 3; 4]%nat /\
  freshBlocks fiveTogether [0; 1; 2; 3; 4]%nat /\
  conflict (fiveTogether 2%nat) (fiveTogether 3%nat) = true /\
  exists r,
    layoutDay fiveTogether [0; 1; 2; 3; 4]%nat = Some r /\
    d_components r = [] /\
    depth (d_store r 2%nat) = 2 /\ pathDepth (d_store r 2%nat) = 5 /\
    depth (d_store r 3%nat) = 3 /\ pathDepth (d_store r 3%nat) = 5 /\
    PrimFloat.ltb
      (PrimFloat.div (number 3) (number 5))
      (PrimFloat.add (PrimFloat.div (number 2) (number 5))
                     (PrimFloat.div PrimFloat.one (number 5))) = true /\
    PrimFloat.ltb (double (left (d_store r 3%nat)))
                  (PrimFloat.add (double (left (d_store r 2%nat)))
                                 (double (width (d_store r 2%nat)))) = true /\
    rangesOverlap (d_store r 2%nat) (d_store r 3%nat) = true.
Proof.
  split. { repeat constructor; simpl; intuition discriminate. }
  split. { intros b [<-|[<-|[<-|[<-|[<-|[]]]]]]; reflexivity. }
  split. { intros b [<-|[<-|[<-|[<-|[<-|[]]]]]]; reflexivity. }
  split; [reflexivity|].
  observe (option_map
             (fun r => (d_components r,
                        depth (d_store r 2%nat), pathDepth (d_store r 2%nat),
                        depth (d_store r 3%nat), pathDepth (d_store r 3%nat),
                        left (d_store r 2%nat), width (d_store r 2%nat),
                        left (d_store r 3%nat), width (d_store r 3%nat)))
             (layoutDay fiveTogether [0; 1; 2; 3; 4]%nat)) Hobs.
  destruct (layoutDay fiveTogether [0; 1; 2; 3; 4]%nat) as [r|];
    [|discriminate].
  cbn [option_map] in Hobs. injection Hobs as C D2 P2 D3 P3 L2 W2 L3 W3.
  exists r. split; [reflexivity|]. split; [exact C|].
  do 4 (split; [assumption|]). split; [reflexivity|].
  unfold rangesOverlap. rewrite L2, W2, L3, W3. split; reflexivity.
Qed.

(** * Further properties of the code *)

(** X1.  Either scheduler leaves the array as a rearrangement of its
    blocks in ascending order of start time, blocks with equal start
    times in ascending order of duration; in the store it writes nothing
    but [depth], and that only on blocks of the array. *)
Theorem schedulers_sort_and_frame (st : store) (blocks : list nat) :
  (Permutation (arrayAfter (intervalScheduling st blocks)) blocks /\
   StronglySorted (startThenDuration st)
                  (arrayAfter (intervalScheduling st blocks)) /\
   onlyDepth blocks st (storeAfter (intervalScheduling st blocks))) /\
  (Permutation (arrayAfter (intervalScheduling2 st blocks)) blocks /\
   StronglySorted (startThenDuration st)
                  (arrayAfter (intervalScheduling2 st blocks)) /\
   onlyDepth blocks st (storeAfter (intervalScheduling2 st blocks))).
Proof.
  rewrite intervalScheduling_array, intervalScheduling2_array.
  repeat split; try apply sortBy_perm; try apply sortByStart_lex.
  - apply (intervalScheduling_onlyDepth st blocks i).
  - apply (intervalScheduling_onlyDepth st blocks i).
  - apply (intervalScheduling2_onlyDepth st blocks i).
  - apply (intervalScheduling2_onlyDepth st blocks i).
Qed.

(** X2.  Either scheduler returns 0 exactly on the empty array, and on a
    non-empty array a column count between 1 and the number of blocks,
    whatever the blocks carry on entry. *)
Theorem column_count_bounds (st : store) (blocks : list nat) :
  ((columnsOf (intervalScheduling st blocks) = 0 <-> blocks = []) /\
   (blocks <> [] ->
    1 <= columnsOf (intervalScheduling st blocks)
      <= Z.of_nat (length blocks))) /\
  ((columnsOf (intervalScheduling2 st blocks) = 0 <-> blocks = []) /\
   (blocks <> [] ->
    1 <= columnsOf (intervalScheduling2 st blocks)
      <= Z.of_nat (length blocks))).
Proof.
  destruct (sortBy (byStart st) blocks) as [|b0 rest] eqn:Hs.
  - apply sortBy_nil in Hs as ->. unfold columnsOf. simpl.
    split; (split; [tauto | intros H; now elim H]).
  - destruct (intervalScheduling_run _ _ _ _ Hs) as (s1 & reps1 & n1 & Hrun1 & ->).
    destruct (intervalScheduling2_run _ _ _ _ Hs) as (s2 & reps2 & n2 & Hrun2 & ->).
    destruct (run_count_bounds _ _ _ _ _ _ _ Hs Hrun1) as [Hne H1].
    destruct (run_count_bounds _ _ _ _ _ _ _ Hs Hrun2) as [_ H2].
    unfold columnsOf. simpl.
    split; (split; [split; [lia | intros H; contradiction] | intros _; lia]).
Qed.

(** X3.  When distinct blocks enter with [depth = 0], the depths either
    scheduler leaves on them are exactly the column indices: every depth
    lies between 0 and the column count less one, and every such index is
    the depth of some block. *)
Theorem depths_are_column_indices
    (st : store) (blocks : list nat)
    (Hnd : NoDup blocks)
    (Hfresh : freshDepth st blocks) :
  ((forall b, In b blocks ->
      0 <= depth (storeAfter (intervalScheduling st blocks) b)
        < columnsOf (intervalScheduling st blocks)) /\
   (forall d, 0 <= d < columnsOf (intervalScheduling st blocks) ->
      exists b, In b blocks /\
                depth (storeAfter (intervalScheduling st blocks) b) = d)) /\
  ((forall b, In b blocks ->
      0 <= depth (storeAfter (intervalScheduling2 st blocks) b)
        < columnsOf (intervalScheduling2 st blocks)) /\
   (forall d, 0 <= d < columnsOf (intervalScheduling2 st blocks) ->
      exists b, In b blocks /\
                depth (storeAfter (intervalScheduling2 st blocks) b) = d)).
Proof.
  destruct (sortBy (byStart st) blocks) as [|b0 rest] eqn:Hs.
  - apply sortBy_nil in Hs as ->. unfold columnsOf. simpl.
    repeat split; try (intros b []); intros; lia.
  - assert (Hperm : Permutation (b0 :: rest) blocks)
      by (rewrite <- Hs; apply sortBy_perm).
    assert (Hd0 : depth (st b0) = 0).
    { apply Hfresh. eapply Permutation_in; [exact Hperm | now left]. }
    destruct (intervalScheduling_run _ _ _ _ Hs) as (s1 & reps1 & n1 & Hrun1 & ->).
    destruct (intervalScheduling2_run _ _ _ _ Hs) as (s2 & reps2 & n2 & Hrun2 & ->).
    unfold columnsOf, storeAfter. simpl. split.
    + exact (roomRun_columns _ _ _ _ _ _ _ Hnd Hd0 Hperm Hrun1).
    + exact (roomRun_columns _ _ _ _ _ _ _ Hnd Hd0 Hperm Hrun2).
Qed.

Lemma depths_are_column_indices_witness :
  NoDup [2; 0; 1]%nat /\ freshDepth threeBlocks [2; 0; 1]%nat /\
  forall b, In b [2; 0; 1]%nat ->
    0 <= depth (storeAfter (intervalScheduling2 threeBlocks [2; 0; 1]%nat) b)
      < columnsOf (intervalScheduling2 threeBlocks [2; 0; 1]%nat).
Proof.
  assert (Hnd : NoDup [2; 0; 1]%nat).
  { repeat constructor; simpl; intuition discriminate. }
  assert (Hfr : freshDepth threeBlocks [2; 0; 1]%nat).
  { intros b [<-|[<-|[<-|[]]]]; reflexivity. }
  split; [exact Hnd | split; [exact Hfr|]].
  exact (proj1 (proj2 (depths_are_column_indices threeBlocks _ Hnd Hfr))).
Defined.

(** X4.  In the scheduler with the priority queue, on an array that holds
    no block twice, for each block taken in sorted order: the queue holds
    blocks handled in earlier rounds, none of which the round writes (so
    that the order the queue keeps among them stays the order of the
    comparator); if the latest block of some column has ended when the
    block starts, the block takes the depth of a column whose latest block
    ends earliest (of the least depth among those that end together), and
    replaces that block in the queue; a new column is opened exactly when
    the latest block of every column is still running. *)
Theorem heap_reuses_earliest_ending_column
    (st : store) (blocks : list nat) (b0 : nat) (pre : list nat)
    (block : nat) (post : list nat)
    (Hnd : NoDup blocks)
    (Hsorted : sortBy (byStart st) blocks = b0 :: pre ++ block :: post) :
  let s := fold_left heapStep pre (mkHeap st [b0] 0) in
  let s' := heapStep s block in
  let ended r := endMin (h_store s r) <= startMin (h_store s block) in
  storeAfter (intervalScheduling2 st blocks)
    = h_store (fold_left heapStep post s') /\
  (forall r, In r (h_queue s) ->
     In r (b0 :: pre) /\ r <> block /\ h_store s' r = h_store s r) /\
  ((exists r, In r (h_queue s) /\ ended r) ->
     exists r,
       In r (h_queue s) /\ ended r /\
       (forall r', In r' (h_queue s) -> endThenDepth (h_store s) r r') /\
       depth (h_store s' block) = depth (h_store s r) /\
       h_queue s' = removeFirst r (h_queue s) ++ [block] /\
       h_numRooms s' = h_numRooms s) /\
  ((forall r, In r (h_queue s) -> ~ ended r) <->
     h_numRooms s' = h_numRooms s + 1 /\
     depth (h_store s' block) = h_numRooms s + 1 /\
     h_queue s' = h_queue s ++ [block]).
Proof.
  intros s s' ended.
  assert (Hq : h_queue s <> []).
  { apply heap_fold_nonempty. simpl. discriminate. }
  destruct (peek_nonempty (h_store s) _ Hq) as [r Hr].
  destruct (peek_first _ _ _ Hr) as [Hin Hfirst].
  destruct (peek_spec _ _ _ Hr) as [_ Hmin].
  split; [|split; [|split]].
  - unfold intervalScheduling2, storeAfter. rewrite Hsorted. simpl.
    rewrite fold_left_app. reflexivity.
  - intros q Hqin.
    assert (Hin0 : In q (b0 :: pre)).
    { apply (heap_fold_queue_incl pre (mkHeap st [b0] 0)) in Hqin.
      exact Hqin. }
    assert (Hne : q <> block).
    { pose proof (sortBy_NoDup (byStart st) blocks Hnd) as Hnd'.
      rewrite Hsorted in Hnd'.
      change (b0 :: pre ++ block :: post)
        with ((b0 :: pre) ++ block :: post) in Hnd'.
      apply NoDup_remove_2 in Hnd'. intros ->. apply Hnd'.
      apply in_or_app. now left. }
    split; [exact Hin0|]. split; [exact Hne|].
    now apply heapStep_writes.
  - intros (r0 & Hr0 & Hend0). unfold ended in Hend0.
    exists r. unfold s', heapStep, pop, push. rewrite Hr.
    specialize (Hmin r0 Hr0).
    destruct (Z.gtb_spec (endMin (h_store s r)) (startMin (h_store s block)))
      as [Hgt|Hle]; [lia|]. simpl. rewrite upd_same.
    repeat split; auto.
  - unfold s', heapStep, pop, push. rewrite Hr.
    destruct (Z.gtb_spec (endMin (h_store s r)) (startMin (h_store s block)))
      as [Hgt|Hle]; simpl.
    + split.
      * intros _. rewrite upd_same. auto.
      * intros _ r' Hr'. specialize (Hmin r' Hr'). unfold ended. lia.
    + split.
      * intros Hall. exfalso. apply (Hall r Hin). exact Hle.
      * intros (H & _). lia.
Qed.

Lemma heap_reuses_earliest_ending_column_witness :
  NoDup [2; 0; 1]%nat /\
  sortBy (byStart threeBlocks) [2; 0; 1]%nat = 0%nat :: [1%nat] ++ 2%nat :: [] /\
  storeAfter (intervalScheduling2 threeBlocks [2; 0; 1]%nat)
  = h_store (fold_left heapStep []
       (heapStep (fold_left heapStep [1%nat] (mkHeap threeBlocks [0%nat] 0))
                 2%nat)).
Proof.
  assert (Hnd : NoDup [2; 0; 1]%nat).
  { repeat constructor; simpl; intuition discriminate. }
  split; [exact Hnd|]. split; [reflexivity|].
  exact (proj1 (heap_reuses_earliest_ending_column
                  threeBlocks [2; 0; 1]%nat 0%nat [1%nat] 2%nat [] Hnd eq_refl)).
Defined.

(** X5.  On an array of distinct blocks whose neighbour lists are empty,
    [constructAdjList] builds an undirected graph without loops: every
    entry of a list is another block of the array that conflicts with the
    owner, [a] is listed by [b] exactly when [b] is listed by [a], and no
    block is listed twice.  It changes no other field, and no block
    outside the array. *)
Theorem conflict_graph_undirected
    (st : store) (blocks : list nat)
    (Hnd : NoDup blocks)
    (Hempty : forall b, In b blocks -> neighbors (st b) = []) :
  onlyNeighbors blocks st (constructAdjList blocks st) /\
  (forall a b, In b blocks ->
     In a (neighbors (constructAdjList blocks st b)) ->
     In a blocks /\ a <> b /\ conflict (st b) (st a) = true /\
     In b (neighbors (constructAdjList blocks st a))) /\
  (forall b, In b blocks -> NoDup (neighbors (constructAdjList blocks st b))).
Proof.
  assert (Hnb : forall b, In b blocks ->
            neighbors (constructAdjList blocks st b) = newNeighbors st blocks b).
  { intros b Hb. rewrite constructAdjList_spec by assumption.
    simpl. now rewrite (Hempty b Hb). }
  split; [|split].
  - intros i. rewrite constructAdjList_spec by assumption. split; [eauto|].
    intros Hi. apply inb_false in Hi. unfold newNeighbors. rewrite Hi.
    apply addNeighbors_nil.
  - intros a b Hb Ha. rewrite (Hnb b Hb) in Ha.
    apply newNeighbors_iff in Ha as (_ & Ha & Hne & Hc).
    repeat split; auto. rewrite (Hnb a Ha). apply newNeighbors_iff.
    repeat split; auto. now rewrite conflict_sym.
  - intros b Hb. rewrite (Hnb b Hb). now apply newNeighbors_NoDup.
Qed.

Lemma conflict_graph_undirected_witness :
  NoDup [0; 1]%nat /\
  (forall b, In b [0; 1]%nat -> neighbors (twoOverlapping b) = []) /\
  forall b, In b [0; 1]%nat ->
    NoDup (neighbors (constructAdjList [0; 1]%nat twoOverlapping b)).
Proof.
  assert (Hnd : NoDup [0; 1]%nat).
  { repeat constructor; simpl; intuition discriminate. }
  assert (He : forall b, In b [0; 1]%nat -> neighbors (twoOverlapping b) = []).
  { intros b [<-|[<-|[]]]; reflexivity. }
  split; [exact Hnd | split; [exact He|]].
  exact (proj2 (proj2 (conflict_graph_undirected twoOverlapping _ Hnd He))).
Defined.

(** X6.  [calculateMaxDepth] returns on every weekday whose neighbour lists
    stay inside the weekday.  When the blocks enter unvisited, the path
    depth it leaves on a block is one more than the greatest depth among
    the blocks from which the block is reached along conflicts of strictly
    decreasing depth, the block itself included. *)
Theorem pathDepth_is_greatest_depth_above
    (st : store) (blocks : list nat)
    (Hclosed : closedIn blocks st)
    (Hunvisited : forall b, In b blocks -> visited (st b) = false) :
  exists st' blocks',
    calculateMaxDepth st blocks = Some (st', blocks') /\
    forall x, In x blocks ->
      (exists r, In r blocks /\ descends st r x /\
                 pathDepth (st' x) = depth (st r) + 1) /\
      (forall r, In r blocks -> descends st r x ->
                 depth (st r) + 1 <= pathDepth (st' x)).
Proof.
  destruct (calculateMaxDepth_returns st blocks Hclosed) as (st' & Hcm).
  exists st', (sortBy (byDepthDesc st) blocks). split; [exact Hcm|].
  now apply (calculateMaxDepth_greatest st blocks st' _ Hclosed Hunvisited Hcm).
Qed.

Lemma pathDepth_is_greatest_depth_above_witness :
  closedIn [0; 1; 2; 3; 4]%nat
           (storeAfter (scheduleOf fiveBlocks [0; 1; 2; 3; 4]%nat)) /\
  exists st' blocks',
    calculateMaxDepth (storeAfter (scheduleOf fiveBlocks [0; 1; 2; 3; 4]%nat))
                      [0; 1; 2; 3; 4]%nat = Some (st', blocks').
Proof.
  assert (Hcl : closedIn [0; 1; 2; 3; 4]%nat
                  (storeAfter (scheduleOf fiveBlocks [0; 1; 2; 3; 4]%nat))).
  { intros x w [<-|[<-|[<-|[<-|[<-|[]]]]]] Hw; vm_compute in Hw; vm_compute;
      intuition. }
  assert (Hunv : forall b, In b [0; 1; 2; 3; 4]%nat ->
            visited (storeAfter (scheduleOf fiveBlocks [0; 1; 2; 3; 4]%nat) b)
            = false).
  { intros b [<-|[<-|[<-|[<-|[<-|[]]]]]]; vm_compute; reflexivity. }
  split; [exact Hcl|].
  destruct (pathDepth_is_greatest_depth_above _ _ Hcl Hunv)
    as (st' & blocks' & Hcm & _).
  exists st', blocks'. exact Hcm.
Defined.

(** X7.  On a weekday of distinct blocks with every layout field at its
    default that needs two or more columns, no path depth exceeds the
    column count, so that no block is narrower than one column of the
    evenly divided width, and some block has exactly that path depth. *)
Theorem pathDepth_at_most_columns
    (st : store) (blocks : list nat)
    (Hnd : NoDup blocks)
    (Hfresh : freshBlocks st blocks)
    (Hwide : 1 < columnsOf (scheduleOf st blocks)) :
  exists r,
    layoutDay st blocks = Some r /\
    (forall b, In b blocks ->
       pathDepth (d_store r b) <= columnsOf (scheduleOf st blocks) /\
       (Qofdiv 1 (columnsOf (scheduleOf st blocks)) <= width (d_store r b))%Q) /\
    (exists b, In b blocks /\
               pathDepth (d_store r b) = columnsOf (scheduleOf st blocks)).
Proof.
  pose proof (freshBlocks_closedIn _ _ Hfresh) as Hcl.
  assert (Hunv : forall b, In b blocks -> visited (st b) = false)
    by (intros b Hb; now rewrite (Hfresh b Hb)).
  assert (Hfd : freshDepth st blocks)
    by (intros b Hb; now rewrite (Hfresh b Hb)).
  destruct (layoutDay_returns st blocks Hnd Hcl) as [r Hrun].
  destruct (layoutDay_wide st blocks r Hnd Hrun Hwide)
    as (st3 & Hcm & Hin & Hfinal).
  destruct (scheduleOf_columns st blocks Hnd Hfd) as (Hrange & Hused).
  set (sch := storeAfter (scheduleOf st blocks)) in *.
  set (arr := arrayAfter (scheduleOf st blocks)) in *.
  assert (Harr : forall b, In b arr <-> In b blocks).
  { intros b. unfold arr, scheduleOf. rewrite intervalScheduling2_array.
    apply sortBy_In. }
  assert (Hgr := calculateMaxDepth_greatest sch arr st3 (d_blocks r)
                   (scheduleOf_closedIn st blocks Hnd Hcl)
                   ltac:(intros b Hb; unfold sch;
                         rewrite scheduleOf_visited by assumption;
                         apply Hunv, Harr, Hb)
                   Hcm).
  assert (Hle : forall b, In b blocks ->
            depth (sch b) + 1 <= pathDepth (st3 b)
            <= columnsOf (scheduleOf st blocks)).
  { intros b Hb. destruct (Hgr b (proj2 (Harr b) Hb))
      as ((r0 & Hr0 & _ & ->) & Hlow).
    specialize (Hlow b (proj2 (Harr b) Hb) (desc_here _ _)).
    apply Harr in Hr0. specialize (Hrange r0 Hr0). lia. }
  exists r. split; [exact Hrun|]. split.
  - intros b Hb. rewrite (Hfinal b Hb). simpl.
    specialize (Hle b Hb). specialize (Hrange b Hb).
    split; [lia | apply Qofdiv_unit_le; lia].
  - destruct (Hused (columnsOf (scheduleOf st blocks) - 1) ltac:(lia))
      as (b & Hb & Hdb).
    exists b. split; [exact Hb|]. rewrite (Hfinal b Hb). simpl.
    specialize (Hle b Hb). lia.
Qed.

Lemma pathDepth_at_most_columns_witness :
  NoDup [0; 1]%nat /\ freshBlocks twoOverlapping [0; 1]%nat /\
  1 < columnsOf (scheduleOf twoOverlapping [0; 1]%nat) /\
  exists r,
    layoutDay twoOverlapping [0; 1]%nat = Some r /\
    forall b, In b [0; 1]%nat -> pathDepth (d_store r b) <= 2.
Proof.
  assert (Hnd : NoDup [0; 1]%nat).
  { repeat constructor; simpl; intuition discriminate. }
  assert (Hfr : freshBlocks twoOverlapping [0; 1]%nat).
  { intros b [<-|[<-|[]]]; reflexivity. }
  assert (Hw : 1 < columnsOf (scheduleOf twoOverlapping [0; 1]%nat))
    by (vm_compute; reflexivity).
  split; [exact Hnd | split; [exact Hfr | split; [exact Hw|]]].
  destruct (pathDepth_at_most_columns twoOverlapping _ Hnd Hfr Hw)
    as (r & Hrun & Hall & _).
  exists r. split; [exact Hrun|].
  intros b Hb. destruct (Hall b Hb) as [H _].
  assert (E : columnsOf (scheduleOf twoOverlapping [0; 1]%nat) = 2)
    by (vm_compute; reflexivity).
  now rewrite E in H.
Defined.

(** X8.  On a weekday of distinct blocks with every layout field at its
    default, the pass marks a block fixed exactly when a chain of fixed
    blocks leads from it down to depth 0, each block of the chain listing
    the next among its neighbours, one level lower and with the same path
    depth. *)
Theorem fixed_blocks_head_chains
    (st : store) (blocks : list nat)
    (Hnd : NoDup blocks)
    (Hfresh : freshBlocks st blocks) :
  exists r,
    layoutDay st blocks = Some r /\
    forall x, In x blocks ->
      (isFixed (d_store r x) = true <-> fixedChain (d_store r) x).
Proof.
  pose proof (freshBlocks_closedIn _ _ Hfresh) as Hcl.
  destruct (layoutDay_returns st blocks Hnd Hcl) as [r Hrun].
  exists r. split; [exact Hrun|].
  intros x Hx. split; [|apply fixedChain_fixed].
  set (sch := storeAfter (scheduleOf st blocks)).
  set (arr := arrayAfter (scheduleOf st blocks)).
  assert (Harr : forall b, In b arr <-> In b blocks).
  { intros b. unfold arr, scheduleOf. rewrite intervalScheduling2_array.
    apply sortBy_In. }
  assert (Hunf : forall b, In b blocks -> isFixed (sch b) = false).
  { intros b Hb. unfold sch, scheduleOf.
    destruct (intervalScheduling2_onlyDepth (graphOf st blocks) blocks b)
      as [-> _]. simpl. rewrite graphOf_spec by assumption. simpl.
    now rewrite (Hfresh b Hb). }
  destruct (Z_le_gt_dec (columnsOf (scheduleOf st blocks)) 1) as [Hle|Hgt].
  - destruct (layoutDay_narrow _ _ _ Hrun Hle) as (_ & _ & Hfinal).
    rewrite Hfinal. apply inb_In in Hx as Hx'. rewrite Hx'. simpl.
    fold sch. now rewrite (Hunf x Hx).
  - destruct (layoutDay_wide st blocks r Hnd Hrun ltac:(lia))
      as (st3 & Hcm & _ & Hfinal).
    fold sch arr in Hcm.
    assert (Hcla : closedIn arr sch) by now apply scheduleOf_closedIn.
    assert (Hcl3 : closedIn arr st3).
    { eapply closedIn_sameGraph; [|exact Hcla].
      apply (calculateMaxDepth_sameGraph _ _ _ _ Hcm). }
    intros Hf. apply (fixedChain_transfer arr st3).
    + exact Hcl3.
    + intros b Hb. apply Harr in Hb. rewrite (Hfinal b Hb). simpl. auto.
    + now apply Harr.
    + apply (calculateMaxDepth_chain sch arr st3 (d_blocks r) Hcla).
      * intros b Hb. apply Hunf, Harr, Hb.
      * intros b Hb. apply Harr in Hb. unfold sch, scheduleOf.
        apply intervalScheduling2_nonneg; [|exact Hb].
        intros y Hy. rewrite graphOf_depth by assumption.
        rewrite (Hfresh y Hy). simpl. lia.
      * exact Hcm.
      * now apply Harr.
      * rewrite (Hfinal x Hx) in Hf. exact Hf.
Qed.

Lemma fixed_blocks_head_chains_witness :
  NoDup [0; 1]%nat /\ freshBlocks twoOverlapping [0; 1]%nat /\
  exists r,
    layoutDay twoOverlapping [0; 1]%nat = Some r /\
    (isFixed (d_store r 1%nat) = true <-> fixedChain (d_store r) 1%nat).
Proof.
  assert (Hnd : NoDup [0; 1]%nat).
  { repeat constructor; simpl; intuition discriminate. }
  assert (Hfr : freshBlocks twoOverlapping [0; 1]%nat).
  { intros b [<-|[<-|[]]]; reflexivity. }
  split; [exact Hnd | split; [exact Hfr|]].
  destruct (fixed_blocks_head_chains twoOverlapping _ Hnd Hfr)
    as (r & Hrun & Hall).
  exists r. split; [exact Hrun|]. apply Hall. simpl. auto.
Defined.

(** X9.  Started on an unvisited block of a weekday whose neighbour lists
    stay inside the weekday, [BFS] returns the blocks reached from the
    start through neighbours that are neither visited nor fixed: the start
    comes first, no block appears twice, and the blocks returned are
    exactly the blocks it marks visited; it writes nothing else. *)
Theorem BFS_collects_reachable
    (U : list nat) (s : store) (start : nat) (fuel : nat)
    (Hclosed : closedIn U s)
    (Hstart : In start U)
    (Hunvisited : visited (s start) = false)
    (Hfuel : (length U < fuel)%nat) :
  exists s' comp,
    BFS fuel s start = Some (s', comp) /\
    hd_error comp = Some start /\ NoDup comp /\
    (forall x, In x comp <-> reachable s start x) /\
    (forall i, s' i = marked s comp i).
Proof.
  destruct (BFS_returns U fuel s start Hclosed Hstart Hunvisited Hfuel)
    as (s' & comp & Hrun & _).
  destruct (BFS_component _ _ _ _ _ Hrun) as (A & B & C & D).
  exists s', comp. auto.
Qed.

Lemma BFS_collects_reachable_witness :
  closedIn [0; 1]%nat (graphOf twoOverlapping [0; 1]%nat) /\
  exists s' comp,
    BFS 3 (graphOf twoOverlapping [0; 1]%nat) 0%nat = Some (s', comp) /\
    hd_error comp = Some 0%nat /\ NoDup comp.
Proof.
  assert (Hcl : closedIn [0; 1]%nat (graphOf twoOverlapping [0; 1]%nat)).
  { intros x w [<-|[<-|[]]] Hw; vm_compute in Hw; vm_compute; intuition. }
  split; [exact Hcl|].
  destruct (BFS_collects_reachable [0; 1]%nat
              (graphOf twoOverlapping [0; 1]%nat) 0%nat 3 Hcl
              ltac:(simpl; auto) eq_refl ltac:(simpl; lia))
    as (s' & comp & Hrun & Hhd & Hnd & _).
  exists s', comp. auto.
Defined.

(** X10.  On a weekday of distinct blocks with every layout field at its
    default that needs two or more columns, the components the pass hands
    to the width optimiser are the connected components of the conflict
    graph among the blocks that are not fixed: no block lies in two of
    them, every block of the weekday that is not fixed lies in one and no
    fixed block in any, and each component consists of the blocks joined
    to its first block by a chain of neighbours that are not fixed. *)
Theorem components_partition_unfixed_blocks
    (st : store) (blocks : list nat)
    (Hnd : NoDup blocks)
    (Hfresh : freshBlocks st blocks)
    (Hwide : 1 < columnsOf (scheduleOf st blocks)) :
  exists r,
    layoutDay st blocks = Some r /\
    NoDup (concat (d_components r)) /\
    (forall x, In x (concat (d_components r)) <->
               In x blocks /\ isFixed (d_store r x) = false) /\
    (forall c, In c (d_components r) ->
       exists b, hd_error c = Some b /\
                 forall x, In x c <-> joined (d_store r) b x).
Proof.
  pose proof (freshBlocks_closedIn _ _ Hfresh) as Hcl.
  destruct (layoutDay_returns st blocks Hnd Hcl) as [r Hrun].
  exists r. split; [exact Hrun|].
  destruct (layoutDay_cases _ _ _ Hrun)
    as [[Hle _]|(_ & st3 & blocks3 & st6 & comps & Hcm & Hcomp & ->)]; [lia|].
  simpl.
  set (sch := storeAfter (scheduleOf st blocks)) in *.
  set (s5 := fold_left clearVisited blocks3
                       (fold_left setHeuristic blocks3 st3)) in *.
  assert (Hin3 : forall b, In b blocks3 <-> In b blocks).
  { intros b. destruct (calculateMaxDepth_inv _ _ _ _ Hcm) as (_ & _ & -> & _).
    rewrite sortBy_In. unfold scheduleOf.
    rewrite intervalScheduling2_array. apply sortBy_In. }
  assert (Hnb : forall i, neighbors (s5 i) = neighbors (sch i)).
  { intros i. unfold s5.
    destruct (clearVisited_sameGraph blocks3
                (fold_left setHeuristic blocks3 st3) i) as (_&_&_&->&_).
    rewrite setHeuristic_spec.
    destruct (calculateMaxDepth_sameGraph _ _ _ _ Hcm i) as (_&_&_&<-&_).
    now destruct (inb i blocks3). }
  assert (Hcl5 : closedIn blocks3 s5).
  { assert (Harr : forall b, In b (arrayAfter (scheduleOf st blocks))
                             <-> In b blocks).
    { intros b. unfold scheduleOf. rewrite intervalScheduling2_array.
      apply sortBy_In. }
    intros x w Hx Hw. rewrite Hnb in Hw. apply Hin3, Harr.
    apply (scheduleOf_closedIn st blocks Hnd Hcl x w); [|exact Hw].
    now apply Harr, Hin3. }
  assert (Hsym5 : symmetricIn blocks3 s5).
  { intros x w Hx Hw. rewrite Hnb in Hw |- *. apply Hin3 in Hx.
    now apply (scheduleOf_symmetric st blocks Hnd Hfresh). }
  assert (Hunv5 : forall i, In i blocks3 -> visited (s5 i) = false).
  { intros i Hi. unfold s5. now apply clearVisited_visited. }
  destruct (components_inv blocks3 s5 _ Hsym5 Hcl5 Hunv5 blocks3 s5 [] st6
              comps (fun x H => H) (compsInv_start _ _) Hcomp)
    as ((Hndc & Hst & Hmem & Hclosed & Hhead) & _ & Hcov).
  assert (Hfld : forall i, neighbors (st6 i) = neighbors (s5 i) /\
                           isFixed (st6 i) = isFixed (s5 i)).
  { intros i. rewrite (Hst i).
    destruct (marked_fields s5 (concat comps) i) as (_&_&_&_&A&B&_). auto. }
  split; [exact Hndc|]. split.
  - intros x. rewrite (proj2 (Hfld x)). split.
    + intros Hx. destruct (Hmem x Hx) as [A B]. split; [now apply Hin3 | exact B].
    + intros [Hx Hf]. apply Hcov; [now apply Hin3 | exact Hf].
  - intros c Hc. destruct (Hhead c Hc) as (b & Hhd & Hj).
    exists b. split; [exact Hhd|]. intros x. split.
    + intros Hx. apply (joined_ext s5); [exact Hfld | now apply Hj].
    + apply joined_closed.
      * destruct c as [|b' c']; [discriminate|].
        injection Hhd as ->. now left.
      * intros y w Hy Hw Hf.
        rewrite (proj1 (Hfld y)) in Hw. rewrite (proj2 (Hfld w)) in Hf.
        eapply Hclosed; eauto.
Qed.

Lemma components_partition_unfixed_blocks_witness :
  NoDup [0; 1; 2; 3; 4; 5]%nat /\
  freshBlocks sixBlocks [0; 1; 2; 3; 4; 5]%nat /\
  1 < columnsOf (scheduleOf sixBlocks [0; 1; 2; 3; 4; 5]%nat) /\
  exists r,
    layoutDay sixBlocks [0; 1; 2; 3; 4; 5]%nat = Some r /\
    NoDup (concat (d_components r)).
Proof.
  assert (Hnd : NoDup [0; 1; 2; 3; 4; 5]%nat).
  { repeat constructor; simpl; intuition discriminate. }
  assert (Hfresh : freshBlocks sixBlocks [0; 1; 2; 3; 4; 5]%nat).
  { intros b [<-|[<-|[<-|[<-|[<-|[<-|[]]]]]]]; reflexivity. }
  assert (Hw : 1 < columnsOf (scheduleOf sixBlocks [0; 1; 2; 3; 4; 5]%nat))
    by (vm_compute; reflexivity).
  split; [exact Hnd | split; [exact Hfresh | split; [exact Hw|]]].
  destruct (components_partition_unfixed_blocks sixBlocks _ Hnd Hfresh Hw)
    as (r & Hrun & Hndc & _).
  exists r. auto.
Defined.

(** X11.  On an array of distinct blocks whose neighbour lists stay inside
    the array, the pass over a weekday returns; it writes no block outside
    the array and no start or end time, leaves the array a rearrangement
    of the blocks it received, and leaves in [idx] the position each
    block had in the array on entry (not its position after the sorts). *)
Theorem pass_frame
    (st : store) (blocks : list nat)
    (Hnd : NoDup blocks)
    (Hclosed : closedIn blocks st) :
  exists r,
    layoutDay st blocks = Some r /\
    sameOutside blocks st (d_store r) /\
    sameTimes st (d_store r) /\
    Permutation (d_blocks r) blocks /\
    (forall j b, nth_error blocks j = Some b -> idx (d_store r b) = j).
Proof.
  destruct (layoutDay_returns st blocks Hnd Hclosed) as [r Hrun].
  exists r. split; [exact Hrun|].
  split; [now apply layoutDay_outside|].
  split; [now apply (layoutDay_sameTimes st blocks)|].
  split; [now apply (layoutDay_blocks st)|].
  exact (layoutDay_idx st blocks r Hnd Hrun).
Qed.

Lemma pass_frame_witness :
  NoDup [0; 1]%nat /\ closedIn [0; 1]%nat twoOverlapping /\
  exists r,
    layoutDay twoOverlapping [0; 1]%nat = Some r /\
    Permutation (d_blocks r) [0; 1]%nat.
Proof.
  assert (Hnd : NoDup [0; 1]%nat).
  { repeat constructor; simpl; intuition discriminate. }
  assert (Hcl : closedIn [0; 1]%nat twoOverlapping).
  { intros x w [<-|[<-|[]]] Hw; destruct Hw. }
  split; [exact Hnd | split; [exact Hcl|]].
  destruct (pass_frame twoOverlapping [0; 1]%nat Hnd Hcl)
    as (r & Hrun & _ & _ & Hperm & _).
  exists r. auto.
Defined.



(** X13.  The weekdays do not interfere: when they share no block, their
    arrays hold distinct unvisited blocks and the neighbour lists of each
    stay inside it, [computeBlockPositions] returns and leaves on the
    blocks of every weekday the depth, left and width that a pass over
    that weekday alone gives, whatever the order of the weekdays. *)
Theorem weekdays_independent
    (st : store) (days : list (list nat))
    (Hnd : NoDup (concat days))
    (Hclosed : forall blocks, In blocks days -> closedIn blocks st)
    (Hunvisited : forall b, In b (concat days) -> visited (st b) = false) :
  exists w,
    computeBlockPositions st days = Some w /\
    forall blocks, In blocks days ->
      exists r,
        layoutDay st blocks = Some r /\
        forall b, In b blocks ->
          depth (w_store w b) = depth (d_store r b) /\
          left (w_store w b) = left (d_store r b) /\
          width (w_store w b) = width (d_store r b).
Proof.
  destruct (week_run days st Hnd Hclosed) as (w & Hw & _ & _ & _ & Hday).
  exists w. split; [exact Hw|]. intros blocks Hbl.
  destruct (Hday blocks Hbl) as (sk & rk & Hrunk & Htk & Hagree & Hfinal).
  assert (Hndb : NoDup blocks).
  { clear - Hnd Hbl. induction days as [|d rest IH]; [destruct Hbl|].
    destruct (NoDup_concat_cons _ _ Hnd) as (A & B & _).
    destruct Hbl as [->|Hbl]; auto. }
  destruct (layoutDay_returns st blocks Hndb (Hclosed blocks Hbl)) as [r Hrun].
  exists r. split; [exact Hrun|]. intros b Hb. rewrite (Hfinal b Hb).
  apply (layoutDay_local st sk blocks r rk); auto.
  intros x Hx. apply Hunvisited, in_concat. eauto.
Qed.

Lemma weekdays_independent_witness :
  NoDup (concat [[0; 1; 2]; [3; 4]]%nat) /\
  exists w,
    computeBlockPositions fiveBlocks [[0; 1; 2]; [3; 4]]%nat = Some w /\
    exists r,
      layoutDay fiveBlocks [3; 4]%nat = Some r /\
      forall b, In b [3; 4]%nat -> depth (w_store w b) = depth (d_store r b).
Proof.
  assert (Hnd : NoDup (concat [[0; 1; 2]; [3; 4]]%nat)).
  { simpl. repeat constructor; simpl; intuition discriminate. }
  assert (Hcl : forall blocks, In blocks [[0; 1; 2]; [3; 4]]%nat ->
                               closedIn blocks fiveBlocks).
  { intros blocks [<-|[<-|[]]] x w.
    - intros [<-|[<-|[<-|[]]]] Hw; destruct Hw.
    - intros [<-|[<-|[]]] Hw; destruct Hw. }
  assert (Hunv : forall b, In b (concat [[0; 1; 2]; [3; 4]]%nat) ->
                           visited (fiveBlocks b) = false).
  { intros b [<-|[<-|[<-|[<-|[<-|[]]]]]]; reflexivity. }
  split; [exact Hnd|].
  destruct (weekdays_independent fiveBlocks _ Hnd Hcl Hunv) as (w & Hw & Hday).
  exists w. split; [exact Hw|].
  destruct (Hday [3; 4]%nat ltac:(simpl; auto)) as (r & Hrun & Hsame).
  exists r. split; [exact Hrun|]. intros b Hb. apply (Hsame b Hb).
Defined.

(** X14.  The quadratic scheduler is first-fit.  On distinct blocks with
    [startMinute < endMinute] that enter with [depth = 0], a block that
    [intervalScheduling] leaves at depth [k] conflicts, in every column
    [0 .. k - 1], with a block of that column that starts no later than it
    does: no column to its left could have taken it. *)
Theorem greedy_scheduler_first_fit
    (st : store) (blocks : list nat)
    (Hnd : NoDup blocks)
    (Hwf : wellFormed st blocks)
    (Hfresh : freshDepth st blocks) :
  forall b d,
    In b blocks ->
    0 <= d < depth (storeAfter (intervalScheduling st blocks) b) ->
    exists a,
      In a blocks /\
      depth (storeAfter (intervalScheduling st blocks) a) = d /\
      conflict (st a) (st b) = true /\
      startMin (st a) <= startMin (st b).
Proof.
  intros b d Hb Hd.
  pose proof (onlyDepth_sameTimes _ _ _ (intervalScheduling_onlyDepth st blocks))
    as Ht.
  destruct (intervalScheduling_firstFit st blocks Hnd Hwf Hfresh b Hb d Hd)
    as (a & Ha & Hda & Hc & Hs).
  exists a. rewrite (conflict_sameTimes _ _ a b Ht) in Hc.
  destruct (Ht a) as [Ea _], (Ht b) as [Eb _]. rewrite Ea, Eb in Hs.
  auto.
Qed.

Lemma greedy_scheduler_first_fit_witness :
  NoDup [2; 0; 1]%nat /\ wellFormed threeBlocks [2; 0; 1]%nat /\
  freshDepth threeBlocks [2; 0; 1]%nat /\
  forall b d,
    In b [2; 0; 1]%nat ->
    0 <= d < depth (storeAfter (intervalScheduling threeBlocks [2; 0; 1]%nat) b) ->
    exists a,
      In a [2; 0; 1]%nat /\
      depth (storeAfter (intervalScheduling threeBlocks [2; 0; 1]%nat) a) = d /\
      conflict (threeBlocks a) (threeBlocks b) = true /\
      startMin (threeBlocks a) <= startMin (threeBlocks b).
Proof.
  assert (Hnd : NoDup [2; 0; 1]%nat).
  { repeat constructor; simpl; intuition discriminate. }
  assert (Hwf : wellFormed threeBlocks [2; 0; 1]%nat).
  { intros b [<-|[<-|[<-|[]]]]; vm_compute; reflexivity. }
  assert (Hfr : freshDepth threeBlocks [2; 0; 1]%nat).
  { intros b [<-|[<-|[<-|[]]]]; reflexivity. }
  split; [exact Hnd | split; [exact Hwf | split; [exact Hfr|]]].
  exact (greedy_scheduler_first_fit threeBlocks _ Hnd Hwf Hfr).
Defined.



(** X16.  A call of [depthFirstSearchRec] on an unvisited block of a
    weekday whose neighbour lists stay inside the weekday returns, and
    its effect is exactly this: every block reached from the start along
    conflicts of strictly decreasing depth, through blocks that were
    unvisited at the call, is marked visited and given the path depth
    passed in; every other block is left as it was. *)
Theorem first_traversal_marks_fresh_descent
    (U : list nat) (fuel : nat) (maxDepth : Z) (st : store) (start : nat)
    (Hclosed : closedIn U st)
    (Hstart : In start U)
    (Hunvisited : visited (st start) = false)
    (Hfuel : (length (unvisited st U) <= fuel)%nat) :
  exists st',
    depthFirstSearchRec fuel maxDepth st start = Some st' /\
    forall x,
      (descendsFresh st start x -> st' x = markPath maxDepth (st x)) /\
      (~ descendsFresh st start x -> st' x = st x).
Proof.
  destruct (dfs_returns U fuel maxDepth st start Hclosed Hstart Hunvisited Hfuel)
    as (st' & Hrun).
  exists st'. split; [exact Hrun|].
  pose proof (dfs_post _ _ _ _ _ Hunvisited Hrun) as Hpost.
  pose proof (dfs_fresh _ _ _ _ _ Hunvisited Hrun) as Hsound.
  pose proof (dfs_reaches _ _ _ _ Hunvisited Hpost) as Hcomplete.
  destruct Hpost as (Hstep & _ & Hnew).
  intros x. split.
  - intros Hx. destruct (Hcomplete x Hx) as (V & V').
    destruct (Hnew x V V') as (Hpd & _).
    destruct (Hstep x) as [E|(_ & m & E)].
    + rewrite E, V in V'. discriminate.
    + rewrite E in Hpd. simpl in Hpd. now subst m.
  - intros Hx. destruct (Hstep x) as [E|(V & m & E)]; [exact E|].
    exfalso. apply Hx, Hsound; [exact V|]. now rewrite E.
Qed.

Lemma first_traversal_marks_fresh_descent_witness :
  closedIn [0; 1]%nat (storeAfter (scheduleOf twoOverlapping [0; 1]%nat)) /\
  In 1%nat [0; 1]%nat /\
  visited (storeAfter (scheduleOf twoOverlapping [0; 1]%nat) 1%nat) = false /\
  (length (unvisited (storeAfter (scheduleOf twoOverlapping [0; 1]%nat))
                     [0; 1]%nat) <= 2)%nat /\
  exists st',
    depthFirstSearchRec 2 2 (storeAfter (scheduleOf twoOverlapping [0; 1]%nat))
                        1%nat = Some st'.
Proof.
  assert (Hcl : closedIn [0; 1]%nat
                  (storeAfter (scheduleOf twoOverlapping [0; 1]%nat))).
  { intros x w [<-|[<-|[]]] Hw; vm_compute in Hw; vm_compute; intuition. }
  assert (Hin : In 1%nat [0; 1]%nat) by (simpl; auto).
  assert (Hv : visited (storeAfter (scheduleOf twoOverlapping [0; 1]%nat) 1%nat)
               = false) by (vm_compute; reflexivity).
  assert (Hf : (length (unvisited
                          (storeAfter (scheduleOf twoOverlapping [0; 1]%nat))
                          [0; 1]%nat) <= 2)%nat)
    by (vm_compute; repeat constructor).
  split; [exact Hcl | split; [exact Hin | split; [exact Hv | split; [exact Hf|]]]].
  destruct (first_traversal_marks_fresh_descent
              [0; 1]%nat 2 2 _ 1%nat Hcl Hin Hv Hf) as (st' & Hrun & _).
  exists st'. exact Hrun.
Defined.

(** X17.  A call of [DFSFindFixed] on an unvisited block of a weekday
    whose neighbour lists stay inside the weekday, entered when every
    block already visited has been settled by an earlier call, returns
    the flag it leaves on its start.  Its effect is exactly this: every
    block reached from the start by steps from a block above column 0 to
    a neighbour one column lower with the same path depth, through blocks
    that were unvisited at the call, is marked visited and has [isFixed]
    written, true exactly when the block sits in column 0 or one of its
    neighbours one column lower with the same path depth is fixed; every
    other block is left as it was. *)
Theorem second_traversal_marks_fresh_chain
    (U : list nat) (fuel : nat) (st : store) (start : nat)
    (Hclosed : closedIn U st)
    (Hstart : In start U)
    (Hunvisited : visited (st start) = false)
    (Hsettled : fixInv U [] st)
    (Hfuel : (length (unvisited st U) <= fuel)%nat) :
  exists st' r,
    DFSFindFixed fuel st start = Some (st', r) /\
    r = isFixed (st' start) /\
    forall x,
      (chainFresh st start x ->
         st' x = markFixed (isFixed (st' x)) (st x) /\
         (isFixed (st' x) = true <-> fixedRule st' x)) /\
      (~ chainFresh st start x -> st' x = st x).
Proof.
  destruct (fixed_returns U fuel st start Hclosed Hstart Hunvisited Hfuel)
    as (st' & r & Hrun).
  exists st', r. split; [exact Hrun|].
  pose proof (fixed_post U fuel st start [] st' r Hclosed Hstart Hunvisited
                ltac:(intros t []) Hsettled Hrun) as Hpost.
  pose proof (fixed_fresh _ _ _ _ _ Hunvisited Hrun) as Hsound.
  pose proof (fixed_reaches U _ _ _ _ Hclosed Hstart Hunvisited Hpost)
    as Hcomplete.
  destruct Hpost as (Hstep & _ & Hinv & Hr).
  split; [exact Hr|].
  intros x. split.
  - intros Hx. destruct (Hcomplete x Hx) as (HxU & V & V'). split.
    + destruct (Hstep x) as [E|(_ & f & E)].
      * rewrite E, V in V'. discriminate.
      * rewrite E. reflexivity.
    + apply (Hinv x HxU V'). intros [].
  - intros Hx. destruct (Hstep x) as [E|(V & f & E)]; [exact E|].
    exfalso. apply Hx, Hsound; [exact V|]. now rewrite E.
Qed.

Lemma second_traversal_marks_fresh_chain_witness :
  closedIn [0; 1]%nat (storeAfter (scheduleOf twoOverlapping [0; 1]%nat)) /\
  In 1%nat [0; 1]%nat /\
  visited (storeAfter (scheduleOf twoOverlapping [0; 1]%nat) 1%nat) = false /\
  fixInv [0; 1]%nat [] (storeAfter (scheduleOf twoOverlapping [0; 1]%nat)) /\
  (length (unvisited (storeAfter (scheduleOf twoOverlapping [0; 1]%nat))
                     [0; 1]%nat) <= 2)%nat /\
  exists st' r,
    DFSFindFixed 2 (storeAfter (scheduleOf twoOverlapping [0; 1]%nat)) 1%nat
    = Some (st', r) /\
    r = isFixed (st' 1%nat).
Proof.
  assert (Hcl : closedIn [0; 1]%nat
                  (storeAfter (scheduleOf twoOverlapping [0; 1]%nat))).
  { intros x w [<-|[<-|[]]] Hw; vm_compute in Hw; vm_compute; intuition. }
  assert (Hin : In 1%nat [0; 1]%nat) by (simpl; auto).
  assert (Hv : visited (storeAfter (scheduleOf twoOverlapping [0; 1]%nat) 1%nat)
               = false) by (vm_compute; reflexivity).
  assert (Hset : fixInv [0; 1]%nat []
                   (storeAfter (scheduleOf twoOverlapping [0; 1]%nat))).
  { intros x [<-|[<-|[]]] V; vm_compute in V; discriminate. }
  assert (Hf : (length (unvisited
                          (storeAfter (scheduleOf twoOverlapping [0; 1]%nat))
                          [0; 1]%nat) <= 2)%nat)
    by (vm_compute; repeat constructor).
  split; [exact Hcl | split; [exact Hin | split; [exact Hv |
    split; [exact Hset | split; [exact Hf|]]]]].
  destruct (second_traversal_marks_fresh_chain
              [0; 1]%nat 2 _ 1%nat Hcl Hin Hv Hset Hf)
    as (st' & r & Hrun & Hr & _).
  exists st', r. split; [exact Hrun | exact Hr].
Defined.

(** X18.  The pass reorders the array it is given.  On distinct blocks
    whose neighbour lists stay inside the array, a weekday that needs at
    most one column is left sorted by start time, then duration; a
    weekday that needs more is left sorted by descending depth, blocks of
    equal depth staying in ascending order of start time, then duration
    (the sort of the language is stable). *)
Theorem pass_leaves_array_sorted
    (st : store) (blocks : list nat)
    (Hnd : NoDup blocks)
    (Hclosed : closedIn blocks st) :
  exists r,
    layoutDay st blocks = Some r /\
    (columnsOf (scheduleOf st blocks) <= 1 ->
       d_blocks r = sortBy (byStart st) blocks /\
       StronglySorted (startThenDuration (d_store r)) (d_blocks r)) /\
    (1 < columnsOf (scheduleOf st blocks) ->
       StronglySorted (depthThenStart (d_store r)) (d_blocks r)).
Proof.
  destruct (layoutDay_returns st blocks Hnd Hclosed) as [r Hrun].
  exists r. split; [exact Hrun|].
  pose proof (layoutDay_sameTimes st blocks r Hnd Hrun) as Ht.
  pose proof (graphOf_sameTimes st blocks Hnd) as Htg.
  pose proof (scheduleOf_sameTimes st blocks Hnd) as Hts.
  assert (Harr : arrayAfter (scheduleOf st blocks) = sortBy (byStart st) blocks).
  { unfold scheduleOf. rewrite intervalScheduling2_array.
    apply sortBy_ext. apply (byStart_sameTimes _ _ Htg). }
  split.
  - intros Hle. destruct (layoutDay_narrow _ _ _ Hrun Hle) as (-> & _).
    rewrite Harr. split; [reflexivity|].
    eapply sorted_impl; [|apply sortByStart_lex].
    intros x y. now apply startThenDuration_sameTimes.
  - intros Hgt.
    destruct (layoutDay_wide st blocks r Hnd Hrun Hgt) as (st3 & Hcm & _).
    pose proof (layoutDay_fields st blocks r Hrun) as Hf.
    pose proof (calculateMaxDepth_sameGraph _ _ _ _ Hcm) as Hsg.
    assert (Hord : StronglySorted (depthThenStart st3) (d_blocks r)).
    { apply (calculateMaxDepth_order _ _ _ _ Hcm). rewrite Harr.
      eapply sorted_impl; [|apply sortByStart_lex].
      intros x y. now apply startThenDuration_sameTimes. }
    eapply sorted_impl; [|exact Hord].
    intros x y. unfold depthThenStart, deeperThen.
    destruct (Hf x) as (Sx & Ex & Dx), (Hf y) as (Sy & Ey & Dy).
    destruct (Hsg x) as (Sx' & Ex' & Dx' & _), (Hsg y) as (Sy' & Ey' & Dy' & _).
    rewrite Dx, Dy, Dx', Dy'.
    intros [H|[H1 H2]]; [now left | right]. split; [exact H1|].
    unfold startThenDuration, duration in *.
    rewrite Sx, Sy, Ex, Ey. rewrite Sx', Sy', Ex', Ey' in H2. exact H2.
Qed.

Lemma pass_leaves_array_sorted_witness :
  NoDup [0; 1]%nat /\ closedIn [0; 1]%nat twoOverlapping /\
  exists r,
    layoutDay twoOverlapping [0; 1]%nat = Some r /\
    StronglySorted (depthThenStart (d_store r)) (d_blocks r).
Proof.
  assert (Hnd : NoDup [0; 1]%nat).
  { repeat constructor; simpl; intuition discriminate. }
  assert (Hcl : closedIn [0; 1]%nat twoOverlapping).
  { intros x w [<-|[<-|[]]] Hw; vm_compute in Hw; destruct Hw. }
  split; [exact Hnd | split; [exact Hcl|]].
  destruct (pass_leaves_array_sorted twoOverlapping _ Hnd Hcl)
    as (r & Hrun & _ & Hwide).
  exists r. split; [exact Hrun|]. apply Hwide. vm_compute. reflexivity.
Defined.
